(** * Ear-clipping triangulation (modules/polygon/src/earcut.ts)

    A shallow embedding of math.gl's [earcut] and of every function it
    calls.  The JavaScript heap of [Node] objects is an arena (a list of
    records addressed by position); every function that walks or rewires the
    ring takes the place of its source function, loop by loop.  Loops and
    the recursion of [earcutLinked] consume fuel; a run that exhausts it
    yields [Timeout], a property access on [null]/[undefined] yields
    [Throw]. *)

From Stdlib Require Import ZArith QArith Floats Lia.
From stdpp Require Import base option list sets.

Local Open Scope Z_scope.

(** ** JavaScript numbers

    The coordinates are JavaScript numbers.  The embedding is written over
    an interface of the operations the source applies to them, so that the
    structural theorems hold for every interpretation (IEEE doubles
    included); [JsFloat] below instantiates it with binary64 floats. *)

Class JsNum (R : Type) := {
  undef : R;                       (* the value of an out-of-range read *)
  num : Z -> R;                    (* integer literals *)
  infinity : R;
  neg_infinity : R;
  fadd : R -> R -> R;
  fsub : R -> R -> R;
  fmul : R -> R -> R;
  fdiv : R -> R -> R;
  flt : R -> R -> bool;             (* a < b *)
  fle : R -> R -> bool;             (* a <= b *)
  feq : R -> R -> bool;             (* a === b *)
  fabs : R -> R;                    (* Math.abs *)
  fmax : R -> R -> R;               (* Math.max *)
  fmin : R -> R -> R;               (* Math.min *)
  truthy : R -> bool;              (* ToBoolean *)
  toInt32 : R -> Z                 (* ToInt32, applied by the bit operators *)
}.

(** [getPolygonSignedArea] is imported from './polygon-utils'; the embedding
    takes it as a parameter: the array, then [start], [end] and [size]. *)
Class PolygonUtils (R : Type) := {
  getPolygonSignedArea : list R -> Z -> Z -> Z -> R
}.

(** Results of a run: a value, a TypeError, or fuel exhausted. *)
Inductive res (A : Type) : Type :=
| Ret (a : A)
| Throw
| Timeout.
Arguments Ret {A} a.
Arguments Throw {A}.
Arguments Timeout {A}.

Global Instance res_ret : MRet res := @Ret.
Global Instance res_bind : MBind res := fun A B f m =>
  match m with Ret a => f a | Throw => Throw | Timeout => Timeout end.

Abbreviation ptr := nat (only parsing).

(** [i / dim] on two integers, as the exact rational in lowest terms. *)
Definition jsdiv (i dim : Z) : Q := Qred (inject_Z i / inject_Z dim).

(** 32-bit two's complement wrap-around of the bit operators. *)
Definition wrap32 (v : Z) : Z := (v + 2 ^ 31) mod 2 ^ 32 - 2 ^ 31.
Definition shl32 (v : Z) (k : Z) : Z := wrap32 (Z.shiftl v k).

(** [data[i]] *)
Definition get {R : Type} `{JsNum R} (data : list R) (i : Z) : R :=
  if 0 <=? i then default undef (data !! Z.to_nat i) else undef.

(** ** IEEE binary64 instance

    JavaScript values that the arithmetic of [earcut] meets: a double, or
    [undefined] (an out-of-range array read).  Arithmetic and ordering
    convert [undefined] to NaN; [===] does not. *)

Inductive jsval : Type :=
| JNum (f : float)
| JUndef.

Module JsFloat.

Definition toNumber (v : jsval) : float :=
  match v with JNum f => f | JUndef => nan end.

Definition ofZ (z : Z) : float :=
  if (z <? 0)%Z then PrimFloat.opp (PrimFloat.of_uint63 (Uint63.of_Z (- z)))
  else PrimFloat.of_uint63 (Uint63.of_Z z).

Definition is_negzero (f : float) : bool :=
  match PrimFloat.classify f with NZero => true | _ => false end.

Definition math_max (a b : float) : float :=
  if PrimFloat.is_nan a || PrimFloat.is_nan b then nan
  else if PrimFloat.ltb a b then b
  else if PrimFloat.ltb b a then a
  else if is_negzero a then b else a.

Definition math_min (a b : float) : float :=
  if PrimFloat.is_nan a || PrimFloat.is_nan b then nan
  else if PrimFloat.ltb a b then a
  else if PrimFloat.ltb b a then b
  else if is_negzero a then a else b.

(** ToInt32: truncate, then reduce modulo 2^32 into the signed range. *)
Definition toInt32 (f : float) : Z :=
  match Prim2SF f with
  | S754_finite s m e =>
      let mag := if (0 <=? e)%Z then Z.shiftl (Z.pos m) e
                 else Z.shiftr (Z.pos m) (- e) in
      wrap32 (if s then - mag else mag)
  | _ => 0%Z
  end.

Definition toBoolean (v : jsval) : bool :=
  match v with
  | JNum f => negb (PrimFloat.is_nan f || PrimFloat.eqb f 0%float)
  | JUndef => false
  end.

Definition strictEq (a b : jsval) : bool :=
  match a, b with
  | JNum x, JNum y => PrimFloat.eqb x y
  | JUndef, JUndef => true
  | _, _ => false
  end.

Definition lift2 (op : float -> float -> float) (a b : jsval) : jsval :=
  JNum (op (toNumber a) (toNumber b)).

Definition cmp2 (op : float -> float -> bool) (a b : jsval) : bool :=
  op (toNumber a) (toNumber b).

End JsFloat.

Global Instance jsval_num : JsNum jsval := {|
  undef := JUndef;
  num z := JNum (JsFloat.ofZ z);
  infinity := JNum PrimFloat.infinity;
  neg_infinity := JNum PrimFloat.neg_infinity;
  fadd := JsFloat.lift2 PrimFloat.add;
  fsub := JsFloat.lift2 PrimFloat.sub;
  fmul := JsFloat.lift2 PrimFloat.mul;
  fdiv := JsFloat.lift2 PrimFloat.div;
  flt := JsFloat.cmp2 PrimFloat.ltb;
  fle := JsFloat.cmp2 PrimFloat.leb;
  feq := JsFloat.strictEq;
  fabs v := JNum (PrimFloat.abs (JsFloat.toNumber v));
  fmax := JsFloat.lift2 JsFloat.math_max;
  fmin := JsFloat.lift2 JsFloat.math_min;
  truthy := JsFloat.toBoolean;
  toInt32 v := JsFloat.toInt32 (JsFloat.toNumber v)
|}.

(** Modelled from the spec: [getPolygonSignedArea] of './polygon-utils' is
    not among the sources.  The spec asks for a signed scalar over the span
    [(start, end, stride)] whose sign encodes the winding, negative being
    the winding that [linkedList] keeps for [clockwise = true]; this is the
    shoelace sum with that sign. *)
Fixpoint signedArea_loop (n : nat) (points : list jsval) (i j dim : Z)
    (acc : jsval) : jsval :=
  match n with
  | O => acc
  | S n' =>
      let term := fmul (fsub (get points i) (get points j))
                       (fadd (get points (i + 1)) (get points (j + 1))) in
      signedArea_loop n' points (i + dim) i dim (fadd acc term)
  end.

Definition signedArea (points : list jsval) (start end_ dim : Z) : jsval :=
  let n := Z.to_nat ((end_ - start + dim - 1) / dim) in
  fdiv (signedArea_loop n points start (end_ - dim) dim (num 0)) (num 2).

Global Instance jsval_polygon : PolygonUtils jsval := {|
  getPolygonSignedArea := signedArea
|}.

(** Integer coordinates as doubles. *)
Definition pt (l : list Z) : list jsval := map (fun z => JNum (JsFloat.ofZ z)) l.

(** * The algorithm *)

Section Earcut.
Context {R : Type} `{JsNum R} `{PolygonUtils R}.

Definition fgt (a b : R) : bool := flt b a.
Definition fge (a b : R) : bool := fle b a.
Definition fne (a b : R) : bool := negb (feq a b).

(** ** Nodes and the heap *)

Record Node := mkNode {
  n_i : Z;                   (* vertex index in coordinates array *)
  n_x : R;
  n_y : R;
  n_prev : option ptr;
  n_next : option ptr;
  n_z : option Z;            (* z-order curve value, null until computed *)
  n_prevZ : option ptr;
  n_nextZ : option ptr;
  n_steiner : bool
}.

(** function Node(i, x, y) *)
Definition newNode (i : Z) (x y : R) : Node :=
  mkNode i x y None None None None None false.

Definition set_prev (v : option ptr) (n : Node) : Node :=
  mkNode (n_i n) (n_x n) (n_y n) v (n_next n) (n_z n) (n_prevZ n) (n_nextZ n) (n_steiner n).
Definition set_next (v : option ptr) (n : Node) : Node :=
  mkNode (n_i n) (n_x n) (n_y n) (n_prev n) v (n_z n) (n_prevZ n) (n_nextZ n) (n_steiner n).
Definition set_z (v : option Z) (n : Node) : Node :=
  mkNode (n_i n) (n_x n) (n_y n) (n_prev n) (n_next n) v (n_prevZ n) (n_nextZ n) (n_steiner n).
Definition set_prevZ (v : option ptr) (n : Node) : Node :=
  mkNode (n_i n) (n_x n) (n_y n) (n_prev n) (n_next n) (n_z n) v (n_nextZ n) (n_steiner n).
Definition set_nextZ (v : option ptr) (n : Node) : Node :=
  mkNode (n_i n) (n_x n) (n_y n) (n_prev n) (n_next n) (n_z n) (n_prevZ n) v (n_steiner n).
Definition set_steiner (v : bool) (n : Node) : Node :=
  mkNode (n_i n) (n_x n) (n_y n) (n_prev n) (n_next n) (n_z n) (n_prevZ n) (n_nextZ n) v.

Abbreviation heap := (list Node) (only parsing).

Record state := mkState {
  st_heap : heap;
  st_triangles : list Q
}.

(** Computations that read and write the heap and the output array. *)
Definition ST (A : Type) : Type := state -> res (A * state).

Global Instance ST_ret : MRet ST := fun A a s => Ret (a, s).
Global Instance ST_bind : MBind ST := fun A B f m s =>
  match m s with
  | Ret (a, s') => f a s'
  | Throw => Throw
  | Timeout => Timeout
  end.

Definition timeout {A} : ST A := fun _ => Timeout.

(** Computations that only read the heap. *)
Definition RD (A : Type) : Type := heap -> res A.

Global Instance RD_ret : MRet RD := fun A a _ => Ret a.
Global Instance RD_bind : MBind RD := fun A B f m h =>
  match m h with
  | Ret a => f a h
  | Throw => Throw
  | Timeout => Timeout
  end.

Definition rtimeout {A} : RD A := fun _ => Timeout.

(** A read-only computation run in the current heap. *)
Definition rd {A} (f : RD A) : ST A := fun s =>
  match f (st_heap s) with
  | Ret a => Ret (a, s)
  | Throw => Throw
  | Timeout => Timeout
  end.

(** Lazy [&&] and [||] over reads that may throw. *)
Definition andR (a b : RD bool) : RD bool :=
  x ← a; if (x : bool) then b else mret false.
Definition orR (a b : RD bool) : RD bool :=
  x ← a; if (x : bool) then mret true else b.

(** Dereference: [null] and [undefined] have no properties. *)
Definition node (p : option ptr) : RD Node := fun h =>
  match p with
  | Some q => match h !! q with Some n => Ret n | None => Throw end
  | None => Throw
  end.

Definition fld {A} (f : Node -> A) (p : option ptr) : RD A :=
  n ← node p; mret (f n).

(** [new Node(...)]: a fresh object, addressed by the next free position. *)
Definition alloc (n : Node) : ST ptr := fun s =>
  Ret (length (st_heap s), mkState (st_heap s ++ [n]) (st_triangles s)).

(** [p.field = v] *)
Definition upd (p : option ptr) (f : Node -> Node) : ST unit := fun s =>
  match p with
  | Some q =>
      match st_heap s !! q with
      | Some n => Ret (tt, mkState (<[q := f n]> (st_heap s)) (st_triangles s))
      | None => Throw
      end
  | None => Throw
  end.

(** [triangles.push(v)] *)
Definition push (v : Q) : ST unit := fun s =>
  Ret (tt, mkState (st_heap s) (st_triangles s ++ [v])).

(** Identity of references ([===] on objects, [null] included). *)
Definition same (p q : option ptr) : bool := bool_decide (p = q).

(** An optional numeric argument read as a number. *)
Definition val (o : option R) : R := default undef o.

(** ** Geometric predicates *)

(** signed area of a triangle *)
Definition area (p q r : Node) : R :=
  fsub (fmul (fsub (n_y q) (n_y p)) (fsub (n_x r) (n_x q)))
       (fmul (fsub (n_x q) (n_x p)) (fsub (n_y r) (n_y q))).

Definition areaP (p q r : option ptr) : RD R :=
  a ← node p; b ← node q; c ← node r; mret (area a b c).

(** check if two points are equal *)
Definition equals (p1 p2 : Node) : bool :=
  feq (n_x p1) (n_x p2) && feq (n_y p1) (n_y p2).

Definition equalsP (p q : option ptr) : RD bool :=
  a ← node p; b ← node q; mret (equals a b).

(** check if a point lies within a convex triangle *)
Definition pointInTriangle (ax ay bx by_ cx cy px py : R) : bool :=
  fge (fsub (fmul (fsub cx px) (fsub ay py)) (fmul (fsub ax px) (fsub cy py))) (num 0) &&
  fge (fsub (fmul (fsub ax px) (fsub by_ py)) (fmul (fsub bx px) (fsub ay py))) (num 0) &&
  fge (fsub (fmul (fsub bx px) (fsub cy py)) (fmul (fsub cx px) (fsub by_ py))) (num 0).

Definition sign (v : R) : Z :=
  if fgt v (num 0) then 1 else if flt v (num 0) then -1 else 0.

(** for collinear points p, q, r, check if point q lies on segment pr *)
Definition onSegment (p q r : Node) : bool :=
  fle (n_x q) (fmax (n_x p) (n_x r)) &&
  fge (n_x q) (fmin (n_x p) (n_x r)) &&
  fle (n_y q) (fmax (n_y p) (n_y r)) &&
  fge (n_y q) (fmin (n_y p) (n_y r)).

(** check if two segments intersect *)
Definition intersects (p1 q1 p2 q2 : Node) : bool :=
  let o1 := sign (area p1 q1 p2) in
  let o2 := sign (area p1 q1 q2) in
  let o3 := sign (area p2 q2 p1) in
  let o4 := sign (area p2 q2 q1) in
  if negb (o1 =? o2) && negb (o3 =? o4) then true
  else if (o1 =? 0) && onSegment p1 p2 q1 then true
  else if (o2 =? 0) && onSegment p1 q2 q1 then true
  else if (o3 =? 0) && onSegment p2 p1 q2 then true
  else if (o4 =? 0) && onSegment p2 q1 q2 then true
  else false.

Definition intersectsP (p1 q1 p2 q2 : option ptr) : RD bool :=
  a ← node p1; b ← node q1; c ← node p2; d ← node q2;
  mret (intersects a b c d).

(** check if a polygon diagonal is locally inside the polygon *)
Definition locallyInside (a b : option ptr) : RD bool :=
  na ← node a;
  t ← areaP (n_prev na) a (n_next na);
  if flt t (num 0) then
    andR (u ← areaP a b (n_next na); mret (fge u (num 0)))
         (u ← areaP a (n_prev na) b; mret (fge u (num 0)))
  else
    orR (u ← areaP a b (n_prev na); mret (flt u (num 0)))
        (u ← areaP a (n_next na) b; mret (flt u (num 0))).

(** whether sector in vertex m contains sector in vertex p in the same coordinates *)
Definition sectorContainsSector (m p : option ptr) : RD bool :=
  nm ← node m; np ← node p;
  andR (u ← areaP (n_prev nm) m (n_prev np); mret (flt u (num 0)))
       (u ← areaP (n_next np) m (n_next nm); mret (flt u (num 0))).

(** ** Ring primitives *)

(** create a node and optionally link it with previous one (in a circular
    doubly linked list) *)
Definition insertNode (i : Z) (x y : R) (last : option ptr) : ST ptr :=
  p ← alloc (newNode i x y);
  match last with
  | None =>
      upd (Some p) (set_prev (Some p));;
      upd (Some p) (set_next (Some p));;
      mret p
  | Some _ =>
      ln ← rd (fld n_next last);
      upd (Some p) (set_next ln);;
      upd (Some p) (set_prev last);;
      ln ← rd (fld n_next last);
      upd ln (set_prev (Some p));;
      upd last (set_next (Some p));;
      mret p
  end.

Definition removeNode (p : option ptr) : ST unit :=
  n ← rd (node p);
  upd (n_next n) (set_prev (n_prev n));;
  n ← rd (node p);
  upd (n_prev n) (set_next (n_next n));;
  n ← rd (node p);
  match n_prevZ n with
  | Some _ => upd (n_prevZ n) (set_nextZ (n_nextZ n))
  | None => mret tt
  end;;
  n ← rd (node p);
  match n_nextZ n with
  | Some _ => upd (n_nextZ n) (set_prevZ (n_prevZ n))
  | None => mret tt
  end.

(** link two polygon vertices with a bridge; if the vertices belong to the
    same ring, it splits polygon into two; if one belongs to the outer ring
    and another to a hole, it merges it into a single ring *)
Definition splitPolygon (a b : option ptr) : ST (option ptr) :=
  na ← rd (node a);
  a2 ← alloc (newNode (n_i na) (n_x na) (n_y na));
  nb ← rd (node b);
  b2 ← alloc (newNode (n_i nb) (n_x nb) (n_y nb));
  an ← rd (fld n_next a);
  bp ← rd (fld n_prev b);
  upd a (set_next b);;
  upd b (set_prev a);;
  upd (Some a2) (set_next an);;
  upd an (set_prev (Some a2));;
  upd (Some b2) (set_next (Some a2));;
  upd (Some a2) (set_prev (Some b2));;
  upd bp (set_next (Some b2));;
  upd (Some b2) (set_prev bp);;
  mret (Some b2).

(** ** Ring Builder *)

Fixpoint linkedList_forward (fuel : nat) (data : list R) (i end_ dim : Z)
    (last : option ptr) : ST (option ptr) :=
  match fuel with
  | O => timeout
  | S f =>
      if i <? end_ then
        p ← insertNode i (get data i) (get data (i + 1)) last;
        linkedList_forward f data (i + dim) end_ dim (Some p)
      else mret last
  end.

Fixpoint linkedList_backward (fuel : nat) (data : list R) (i start dim : Z)
    (last : option ptr) : ST (option ptr) :=
  match fuel with
  | O => timeout
  | S f =>
      if start <=? i then
        p ← insertNode i (get data i) (get data (i + 1)) last;
        linkedList_backward f data (i - dim) start dim (Some p)
      else mret last
  end.

(** create a circular doubly linked list from polygon points in the
    specified winding order *)
Definition linkedList (fuel : nat) (data : list R) (start end_ dim : Z)
    (clockwise : bool) (area_ : option R) : ST (option ptr) :=
  let area_ :=
    match area_ with
    | None => getPolygonSignedArea data start end_ dim
    | Some a => a
    end in
  last ← (if Bool.eqb clockwise (flt area_ (num 0))
          then linkedList_forward fuel data start end_ dim None
          else linkedList_backward fuel data (end_ - dim) start dim None);
  match last with
  | Some _ =>
      ln ← rd (fld n_next last);
      e ← rd (equalsP last ln);
      if (e : bool) then
        removeNode last;;
        rd (fld n_next last)
      else mret last
  | None => mret last
  end.

(** eliminate colinear or duplicate points *)
Fixpoint filterPoints_loop (fuel : nat) (p end_ : option ptr) : ST (option ptr) :=
  match fuel with
  | O => timeout
  | S f =>
      n ← rd (node p);
      c ← rd (if n_steiner n then mret false
              else orR (equalsP p (n_next n))
                       (a ← areaP (n_prev n) p (n_next n); mret (feq a (num 0))));
      if (c : bool) then
        removeNode p;;
        pp ← rd (fld n_prev p);
        pn ← rd (fld n_next pp);
        if same pp pn then mret pp
        else filterPoints_loop f pp pp
      else
        pn ← rd (fld n_next p);
        if same pn end_ then mret end_
        else filterPoints_loop f pn end_
  end.

Definition filterPoints (fuel : nat) (start end_ : option ptr) : ST (option ptr) :=
  match start with
  | None => mret start
  | Some _ =>
      let end_ := match end_ with None => start | Some _ => end_ end in
      filterPoints_loop fuel start end_
  end.

(** ** Ear tests *)

Fixpoint isEar_loop (fuel : nat) (a b c : Node) (ear p : option ptr) : RD bool :=
  match fuel with
  | O => rtimeout
  | S f =>
      stop ← fld n_prev ear;
      if same p stop then mret true
      else
        np ← node p;
        blocked ← (if pointInTriangle (n_x a) (n_y a) (n_x b) (n_y b)
                                      (n_x c) (n_y c) (n_x np) (n_y np)
                   then t ← areaP (n_prev np) p (n_next np); mret (fge t (num 0))
                   else mret false);
        if (blocked : bool) then mret false
        else isEar_loop f a b c ear (n_next np)
  end.

(** check whether a polygon node forms a valid ear with adjacent nodes *)
Definition isEar (fuel : nat) (ear : option ptr) : RD bool :=
  ne ← node ear;
  a ← node (n_prev ne);
  let b := ne in
  c ← node (n_next ne);
  if fge (area a b c) (num 0) then mret false       (* reflex, can't be an ear *)
  else
    p ← fld n_next (n_next ne);
    isEar_loop fuel a b c ear p.

(** z-order of a point given coords and inverse of the longer side of data bbox *)
Definition zOrder (x y minX minY invSize : R) : Z :=
  let x := toInt32 (fmul (fmul (num 32767) (fsub x minX)) invSize) in
  let y := toInt32 (fmul (fmul (num 32767) (fsub y minY)) invSize) in
  let x := Z.land (Z.lor x (shl32 x 8)) 0x00ff00ff in
  let x := Z.land (Z.lor x (shl32 x 4)) 0x0f0f0f0f in
  let x := Z.land (Z.lor x (shl32 x 2)) 0x33333333 in
  let x := Z.land (Z.lor x (shl32 x 1)) 0x55555555 in
  let y := Z.land (Z.lor y (shl32 y 8)) 0x00ff00ff in
  let y := Z.land (Z.lor y (shl32 y 4)) 0x0f0f0f0f in
  let y := Z.land (Z.lor y (shl32 y 2)) 0x33333333 in
  let y := Z.land (Z.lor y (shl32 y 1)) 0x55555555 in
  Z.lor x (shl32 y 1).

(** [p.z] read as a number: [null] compares as 0. *)
Definition zval (n : Node) : Z := default 0 (n_z n).

(** The test applied to every candidate of the z-order scans:
    [q !== ear.prev && q !== ear.next && pointInTriangle(..., q.x, q.y) &&
     area(q.prev, q, q.next) >= 0]. *)
Definition insideEar (a b c : Node) (ear q : option ptr) : RD bool :=
  ne ← node ear;
  if same q (n_prev ne) then mret false
  else if same q (n_next ne) then mret false
  else
    nq ← node q;
    if pointInTriangle (n_x a) (n_y a) (n_x b) (n_y b) (n_x c) (n_y c) (n_x nq) (n_y nq)
    then t ← areaP (n_prev nq) q (n_next nq); mret (fge t (num 0))
    else mret false.

(** look for points inside the triangle in both directions *)
Fixpoint isEarHashed_both (fuel : nat) (a b c : Node) (ear : option ptr)
    (minZ maxZ : Z) (p n : option ptr) : RD (option (option ptr * option ptr)) :=
  match fuel with
  | O => rtimeout
  | S f =>
      match p, n with
      | Some _, Some _ =>
          np ← node p;
          if negb (minZ <=? zval np) then mret (Some (p, n))
          else
            nn ← node n;
            if negb (zval nn <=? maxZ) then mret (Some (p, n))
            else
              bp ← insideEar a b c ear p;
              if (bp : bool) then mret None
              else
                let p' := n_prevZ np in
                bn ← insideEar a b c ear n;
                if (bn : bool) then mret None
                else isEarHashed_both f a b c ear minZ maxZ p' (n_nextZ nn)
      | _, _ => mret (Some (p, n))
      end
  end.

(** look for remaining points in decreasing z-order *)
Fixpoint isEarHashed_down (fuel : nat) (a b c : Node) (ear : option ptr)
    (minZ : Z) (p : option ptr) : RD bool :=
  match fuel with
  | O => rtimeout
  | S f =>
      match p with
      | Some _ =>
          np ← node p;
          if negb (minZ <=? zval np) then mret true
          else
            bp ← insideEar a b c ear p;
            if (bp : bool) then mret false
            else isEarHashed_down f a b c ear minZ (n_prevZ np)
      | None => mret true
      end
  end.

(** look for remaining points in increasing z-order *)
Fixpoint isEarHashed_up (fuel : nat) (a b c : Node) (ear : option ptr)
    (maxZ : Z) (n : option ptr) : RD bool :=
  match fuel with
  | O => rtimeout
  | S f =>
      match n with
      | Some _ =>
          nn ← node n;
          if negb (zval nn <=? maxZ) then mret true
          else
            bn ← insideEar a b c ear n;
            if (bn : bool) then mret false
            else isEarHashed_up f a b c ear maxZ (n_nextZ nn)
      | None => mret true
      end
  end.

Definition isEarHashed (fuel : nat) (ear : option ptr) (minX minY invSize : R) : RD bool :=
  ne ← node ear;
  a ← node (n_prev ne);
  let b := ne in
  c ← node (n_next ne);
  if fge (area a b c) (num 0) then mret false       (* reflex, can't be an ear *)
  else
    (* triangle bbox; min & max are calculated like this for speed *)
    let minTX := if flt (n_x a) (n_x b)
                 then (if flt (n_x a) (n_x c) then n_x a else n_x c)
                 else (if flt (n_x b) (n_x c) then n_x b else n_x c) in
    let minTY := if flt (n_y a) (n_y b)
                 then (if flt (n_y a) (n_y c) then n_y a else n_y c)
                 else (if flt (n_y b) (n_y c) then n_y b else n_y c) in
    let maxTX := if fgt (n_x a) (n_x b)
                 then (if fgt (n_x a) (n_x c) then n_x a else n_x c)
                 else (if fgt (n_x b) (n_x c) then n_x b else n_x c) in
    let maxTY := if fgt (n_y a) (n_y b)
                 then (if fgt (n_y a) (n_y c) then n_y a else n_y c)
                 else (if fgt (n_y b) (n_y c) then n_y b else n_y c) in
    (* z-order range for the current triangle bbox *)
    let minZ := zOrder minTX minTY minX minY invSize in
    let maxZ := zOrder maxTX maxTY minX minY invSize in
    r ← isEarHashed_both fuel a b c ear minZ maxZ (n_prevZ ne) (n_nextZ ne);
    match r with
    | None => mret false
    | Some (p, n) =>
        d ← isEarHashed_down fuel a b c ear minZ p;
        if (d : bool) then isEarHashed_up fuel a b c ear maxZ n
        else mret false
    end.

(** ** Spatial index *)

(** [for (i = 0; i < inSize; i++) { pSize++; q = q.nextZ; if (!q) break; }] *)
Fixpoint sortLinked_skip (n : nat) (pSize : nat) (q : option ptr)
    : RD (nat * option ptr) :=
  match n with
  | O => mret (pSize, q)
  | S n' =>
      q' ← fld n_nextZ q;
      match q' with
      | None => mret (S pSize, q')
      | Some _ => sortLinked_skip n' (S pSize) q'
      end
  end.

(** [while (pSize > 0 || (qSize > 0 && q)) { ... }]; yields [q], [list]
    and [tail]. *)
Fixpoint sortLinked_merge (fuel : nat) (p q : option ptr) (pSize qSize : nat)
    (list_ tail : option ptr) : ST (option ptr * option ptr * option ptr) :=
  match fuel with
  | O => timeout
  | S f =>
      if (0 <? pSize)%nat || ((0 <? qSize)%nat && bool_decide (is_Some q)) then
        fromP ← rd (if (pSize =? 0)%nat then mret false
                    else if (qSize =? 0)%nat then mret true
                    else match q with
                         | None => mret true
                         | Some _ => np ← node p; nq ← node q;
                                     mret (zval np <=? zval nq)
                         end);
        '(e, p, q, pSize, qSize) ←
          (if (fromP : bool)
           then p' ← rd (fld n_nextZ p); mret (p, p', q, Nat.pred pSize, qSize)
           else q' ← rd (fld n_nextZ q); mret (q, p, q', pSize, Nat.pred qSize));
        list_ ← match tail with
                | Some _ => upd tail (set_nextZ e);; mret list_
                | None => mret e
                end;
        upd e (set_prevZ tail);;
        sortLinked_merge f p q pSize qSize list_ e
      else mret (q, list_, tail)
  end.

(** [while (p) { ... }]; yields [list], [tail] and [numMerges]. *)
Fixpoint sortLinked_pass (fuel : nat) (p : option ptr) (inSize : nat)
    (list_ tail : option ptr) (numMerges : nat)
    : ST (option ptr * option ptr * nat) :=
  match fuel with
  | O => timeout
  | S f =>
      match p with
      | None => mret (list_, tail, numMerges)
      | Some _ =>
          '(pSize, q) ← rd (sortLinked_skip inSize 0 p);
          '(q, list_, tail) ← sortLinked_merge fuel p q pSize inSize list_ tail;
          sortLinked_pass f q inSize list_ tail (S numMerges)
      end
  end.

Fixpoint sortLinked_loop (fuel : nat) (list_ : option ptr) (inSize : nat)
    : ST (option ptr) :=
  match fuel with
  | O => timeout
  | S f =>
      '(list_, tail, numMerges) ← sortLinked_pass fuel list_ inSize None None 0;
      upd tail (set_nextZ None);;
      if (1 <? numMerges)%nat then sortLinked_loop f list_ (inSize * 2)
      else mret list_
  end.

(** Simon Tatham's linked list merge sort algorithm *)
Definition sortLinked (fuel : nat) (list_ : option ptr) : ST (option ptr) :=
  sortLinked_loop fuel list_ 1.

Fixpoint indexCurve_loop (fuel : nat) (p start : option ptr)
    (minX minY invSize : R) : ST (option ptr) :=
  match fuel with
  | O => timeout
  | S f =>
      n ← rd (node p);
      match n_z n with
      | None => upd p (set_z (Some (zOrder (n_x n) (n_y n) minX minY invSize)))
      | Some _ => mret tt
      end;;
      pv ← rd (fld n_prev p);
      upd p (set_prevZ pv);;
      pn ← rd (fld n_next p);
      upd p (set_nextZ pn);;
      p ← rd (fld n_next p);
      if same p start then mret p
      else indexCurve_loop f p start minX minY invSize
  end.

(** interlink polygon nodes in z-order *)
Definition indexCurve (fuel : nat) (start : option ptr) (minX minY invSize : R)
    : ST unit :=
  p ← indexCurve_loop fuel start start minX minY invSize;
  pz ← rd (fld n_prevZ p);
  upd pz (set_nextZ None);;
  upd p (set_prevZ None);;
  sortLinked fuel p;;
  mret tt.

(** ** Diagonals *)

(** check if a polygon diagonal intersects any polygon segments *)
Fixpoint intersectsPolygon_loop (fuel : nat) (a b p : option ptr) : RD bool :=
  match fuel with
  | O => rtimeout
  | S f =>
      np ← node p; na ← node a;
      hit ← (if negb (n_i np =? n_i na) then
               npn ← node (n_next np);
               if negb (n_i npn =? n_i na) then
                 nb ← node b;
                 if negb (n_i np =? n_i nb) && negb (n_i npn =? n_i nb)
                 then intersectsP p (n_next np) a b
                 else mret false
               else mret false
             else mret false);
      if (hit : bool) then mret true
      else if same (n_next np) a then mret false
      else intersectsPolygon_loop f a b (n_next np)
  end.

Definition intersectsPolygon (fuel : nat) (a b : option ptr) : RD bool :=
  intersectsPolygon_loop fuel a b a.

(** check if the middle point of a polygon diagonal is inside the polygon *)
Fixpoint middleInside_loop (fuel : nat) (a p : option ptr) (px py : R)
    (inside : bool) : RD bool :=
  match fuel with
  | O => rtimeout
  | S f =>
      np ← node p;
      npn ← node (n_next np);
      let flip :=
        negb (Bool.eqb (fgt (n_y np) py) (fgt (n_y npn) py)) &&
        fne (n_y npn) (n_y np) &&
        flt px (fadd (fdiv (fmul (fsub (n_x npn) (n_x np)) (fsub py (n_y np)))
                           (fsub (n_y npn) (n_y np)))
                     (n_x np)) in
      let inside := if flip then negb inside else inside in
      if same (n_next np) a then mret inside
      else middleInside_loop f a (n_next np) px py inside
  end.

Definition middleInside (fuel : nat) (a b : option ptr) : RD bool :=
  na ← node a; nb ← node b;
  let px := fdiv (fadd (n_x na) (n_x nb)) (num 2) in
  let py := fdiv (fadd (n_y na) (n_y nb)) (num 2) in
  middleInside_loop fuel a a px py false.

(** check if a diagonal between two polygon nodes is valid (lies in polygon
    interior) *)
Definition isValidDiagonal (fuel : nat) (a b : option ptr) : RD bool :=
  na ← node a; nb ← node b;
  nan ← node (n_next na);
  if n_i nan =? n_i nb then mret false else
  nap ← node (n_prev na);
  if n_i nap =? n_i nb then mret false else
  x ← intersectsPolygon fuel a b;
  if (x : bool) then mret false else
  orR (andR (locallyInside a b)
      (andR (locallyInside b a)
      (andR (middleInside fuel a b)
            (* does not create opposite-facing sectors *)
            (t ← areaP (n_prev na) a (n_prev nb);
             if truthy t then mret true
             else u ← areaP a (n_prev nb) b; mret (truthy u)))))
      (* special zero-length case *)
      (andR (equalsP a b)
      (andR (t ← areaP (n_prev na) a (n_next na); mret (fgt t (num 0)))
            (t ← areaP (n_prev nb) b (n_next nb); mret (fgt t (num 0))))).

(** ** Ear-clipping engine *)

(** [triangles.push(a.i / dim); triangles.push(b.i / dim);
     triangles.push(c.i / dim);]: the one block through which [earcutLinked]
    and [cureLocalIntersections] emit a triangle. *)
Definition pushTriangle (a b c : option ptr) (dim : Z) : ST unit :=
  na ← rd (node a); push (jsdiv (n_i na) dim);;
  nb ← rd (node b); push (jsdiv (n_i nb) dim);;
  nc ← rd (node c); push (jsdiv (n_i nc) dim).

Fixpoint cureLocalIntersections_loop (fuel : nat) (p start : option ptr)
    (dim : Z) : ST (option ptr) :=
  match fuel with
  | O => timeout
  | S f =>
      a ← rd (fld n_prev p);
      pn ← rd (fld n_next p);
      b ← rd (fld n_next pn);
      c ← rd (e ← equalsP a b;
              if (e : bool) then mret false
              else andR (intersectsP a p pn b)
                        (andR (locallyInside a b) (locallyInside b a)));
      '(p, start) ←
        (if (c : bool) then
           pushTriangle a p b dim;;
           (* remove two nodes involved *)
           removeNode p;;
           pn ← rd (fld n_next p);
           removeNode pn;;
           mret (b, b)
         else mret (p, start));
      p ← rd (fld n_next p);
      if same p start then mret p
      else cureLocalIntersections_loop f p start dim
  end.

(** go through all polygon nodes and cure small local self-intersections *)
Definition cureLocalIntersections (fuel : nat) (start : option ptr) (dim : Z)
    : ST (option ptr) :=
  p ← cureLocalIntersections_loop fuel start start dim;
  filterPoints fuel p None.

Section Engine.
(** The recursive calls [earcutLinked(ear, triangles, dim, minX, minY,
    invSize, pass)] of the loops below. *)
Variable earcutLinked_rec : option ptr -> nat -> ST unit.

(** [while (b !== a.prev) { ... }]; yields [true] when it returned from
    [splitEarcut]. *)
Fixpoint splitEarcut_inner (fuel : nat) (a b : option ptr) : ST bool :=
  match fuel with
  | O => timeout
  | S f =>
      ap ← rd (fld n_prev a);
      if same b ap then mret false
      else
        na ← rd (node a); nb ← rd (node b);
        v ← rd (if negb (n_i na =? n_i nb) then isValidDiagonal f a b
                else mret false);
        if (v : bool) then
          (* split the polygon in two by the diagonal *)
          c ← splitPolygon a b;
          (* filter colinear points around the cuts *)
          an ← rd (fld n_next a);
          a ← filterPoints f a an;
          cn ← rd (fld n_next c);
          c ← filterPoints f c cn;
          (* run earcut on each half *)
          earcutLinked_rec a 0%nat;;
          earcutLinked_rec c 0%nat;;
          mret true
        else
          b ← rd (fld n_next b);
          splitEarcut_inner f a b
  end.

Fixpoint splitEarcut_outer (fuel : nat) (a start : option ptr) : ST unit :=
  match fuel with
  | O => timeout
  | S f =>
      an ← rd (fld n_next a);
      b ← rd (fld n_next an);
      returned ← splitEarcut_inner f a b;
      if (returned : bool) then mret tt
      else
        a ← rd (fld n_next a);
        if same a start then mret tt
        else splitEarcut_outer f a start
  end.

(** try splitting polygon into two and triangulate them independently *)
Definition splitEarcut (fuel : nat) (start : option ptr) : ST unit :=
  splitEarcut_outer fuel start start.

Variables (dim : Z) (minX minY invSize : option R).

(** [invSize], read as the condition that selects the z-order path. *)
Definition hashed : bool :=
  match invSize with Some v => truthy v | None => false end.

(** iterate through ears, slicing them one by one *)
Fixpoint earcutLinked_loop (fuel : nat) (ear stop : option ptr) (pass : nat)
    : ST unit :=
  match fuel with
  | O => timeout
  | S f =>
      ne ← rd (node ear);
      if same (n_prev ne) (n_next ne) then mret tt
      else
        let prev := n_prev ne in
        let next := n_next ne in
        e ← rd (if hashed then isEarHashed f ear (val minX) (val minY) (val invSize)
                else isEar f ear);
        if (e : bool) then
          (* cut off the triangle *)
          pushTriangle prev ear next dim;;
          removeNode ear;;
          (* skipping the next vertex leads to less sliver triangles *)
          nn ← rd (fld n_next next);
          earcutLinked_loop f nn nn pass
        else
          let ear := next in
          (* if we looped through the whole remaining polygon and can't find
             any more ears *)
          if same ear stop then
            match pass with
            | 0%nat =>
                (* try filtering points and slicing again *)
                fp ← filterPoints f ear None;
                earcutLinked_rec fp 1%nat
            | 1%nat =>
                (* if this didn't work, try curing all small
                   self-intersections locally *)
                fp ← filterPoints f ear None;
                ear ← cureLocalIntersections f fp dim;
                earcutLinked_rec ear 2%nat
            | 2%nat =>
                (* as a last resort, try splitting the remaining polygon
                   into two *)
                splitEarcut f ear
            | _ => mret tt
            end
          else earcutLinked_loop f ear stop pass
  end.

End Engine.

(** main ear slicing loop which triangulates a polygon (given as a linked
    list) *)
Fixpoint earcutLinked (fuel : nat) (dim : Z) (minX minY invSize : option R)
    (ear : option ptr) (pass : nat) : ST unit :=
  match fuel with
  | O => timeout
  | S f =>
      match ear with
      | None => mret tt
      | Some _ =>
          (* interlink polygon nodes in z-order *)
          (if (pass =? 0)%nat && hashed invSize
           then indexCurve f ear (val minX) (val minY) (val invSize)
           else mret tt);;
          earcutLinked_loop (earcutLinked f dim minX minY invSize)
                            dim minX minY invSize f ear ear pass
      end
  end.

(** ** Hole Merger *)

Fixpoint getLeftmost_loop (fuel : nat) (start p leftmost : option ptr)
    : RD (option ptr) :=
  match fuel with
  | O => rtimeout
  | S f =>
      np ← node p; nl ← node leftmost;
      let leftmost :=
        if flt (n_x np) (n_x nl) || (feq (n_x np) (n_x nl) && flt (n_y np) (n_y nl))
        then p else leftmost in
      if same (n_next np) start then mret leftmost
      else getLeftmost_loop f start (n_next np) leftmost
  end.

(** find the leftmost node of a polygon ring *)
Definition getLeftmost (fuel : nat) (start : option ptr) : RD (option ptr) :=
  getLeftmost_loop fuel start start start.

(** First loop of [findHoleBridge]: find a segment intersected by a ray from
    the hole's leftmost point to the left; [inl r] when the function returned
    [r] from inside the loop, [inr (qx, m)] at the loop's exit. *)
Fixpoint findHoleBridge_ray (fuel : nat) (outerNode p : option ptr) (hx hy : R)
    (qx : R) (m : option ptr) : RD (option ptr + R * option ptr) :=
  match fuel with
  | O => rtimeout
  | S f =>
      np ← node p;
      r ← (if fle hy (n_y np) then
             npn ← node (n_next np);
             if fge hy (n_y npn) && fne (n_y npn) (n_y np) then
               let x := fadd (n_x np)
                             (fdiv (fmul (fsub hy (n_y np)) (fsub (n_x npn) (n_x np)))
                                   (fsub (n_y npn) (n_y np))) in
               if fle x hx && fgt x qx then
                 if feq x hx && feq hy (n_y np) then mret (inl p)
                 else if feq x hx && feq hy (n_y npn) then mret (inl (n_next np))
                 else mret (inr (x, if flt (n_x np) (n_x npn) then p else n_next np))
               else mret (inr (qx, m))
             else mret (inr (qx, m))
           else mret (inr (qx, m)));
      match r with
      | inl ret => mret (inl ret)
      | inr (qx, m) =>
          if same (n_next np) outerNode then mret (inr (qx, m))
          else findHoleBridge_ray f outerNode (n_next np) hx hy qx m
      end
  end.

(** Second loop of [findHoleBridge]: choose the point of the minimum angle
    with the ray as connection point. *)
Fixpoint findHoleBridge_scan (fuel : nat) (hole stop p : option ptr)
    (hx hy qx mx my : R) (m : option ptr) (tanMin : R) : RD (option ptr) :=
  match fuel with
  | O => rtimeout
  | S f =>
      np ← node p;
      '(m, tanMin) ←
        (if fge hx (n_x np) && fge (n_x np) mx && fne hx (n_x np) &&
            pointInTriangle (if flt hy my then hx else qx) hy mx my
                            (if flt hy my then qx else hx) hy (n_x np) (n_y np)
         then
           let tan := fdiv (fabs (fsub hy (n_y np))) (fsub hx (n_x np)) in
           c ← andR (locallyInside p hole)
                    (if flt tan tanMin then mret true
                     else if feq tan tanMin then
                       nm ← node m;
                       if fgt (n_x np) (n_x nm) then mret true
                       else if feq (n_x np) (n_x nm) then sectorContainsSector m p
                       else mret false
                     else mret false);
           if (c : bool) then mret (p, tan) else mret (m, tanMin)
         else mret (m, tanMin));
      if same (n_next np) stop then mret m
      else findHoleBridge_scan f hole stop (n_next np) hx hy qx mx my m tanMin
  end.

(** David Eberly's algorithm for finding a bridge between hole and outer
    polygon *)
Definition findHoleBridge (fuel : nat) (hole outerNode : option ptr)
    : RD (option ptr) :=
  nh ← node hole;
  let hx := n_x nh in
  let hy := n_y nh in
  r ← findHoleBridge_ray fuel outerNode outerNode hx hy neg_infinity None;
  match r with
  | inl ret => mret ret
  | inr (qx, m) =>
      match m with
      | None => mret None
      | Some _ =>
          if feq hx qx then mret m   (* hole touches outer segment *)
          else
            nm ← node m;
            findHoleBridge_scan fuel hole m m hx hy qx (n_x nm) (n_y nm) m infinity
      end
  end.

(** find a bridge between vertices that connects hole with an outer ring and
    and link it *)
Definition eliminateHole (fuel : nat) (hole outerNode : option ptr) : ST unit :=
  outerNode ← rd (findHoleBridge fuel hole outerNode);
  match outerNode with
  | Some _ =>
      b ← splitPolygon outerNode hole;
      (* filter collinear points around the cuts *)
      on ← rd (fld n_next outerNode);
      filterPoints fuel outerNode on;;
      bn ← rd (fld n_next b);
      filterPoints fuel b bn;;
      mret tt
  | None => mret tt
  end.

(** [queue.sort(compareX)] with [compareX(a, b) = a.x - b.x]: a stable
    sort; [b] goes before [a] when the comparison is positive. *)
Definition compareX (a b : Node) : R := fsub (n_x a) (n_x b).

Fixpoint sort_insert (a : option ptr) (queue : list (option ptr))
    : RD (list (option ptr)) :=
  match queue with
  | [] => mret [a]
  | b :: rest =>
      na ← node a; nb ← node b;
      if fgt (compareX na nb) (num 0)
      then r ← sort_insert a rest; mret (b :: r)
      else mret (a :: queue)
  end.

Fixpoint sort (queue : list (option ptr)) : RD (list (option ptr)) :=
  match queue with
  | [] => mret []
  | a :: rest => r ← sort rest; sort_insert a r
  end.

(** First loop of [eliminateHoles]: one ring per hole, its leftmost node
    queued.  [holes] are [holeIndices[i], holeIndices[i + 1], ...]. *)
Fixpoint eliminateHoles_build (fuel : nat) (data : list R) (holes : list Z)
    (i : nat) (dim : Z) (areas : option (list R)) (queue : list (option ptr))
    : ST (list (option ptr)) :=
  match holes with
  | [] => mret queue
  | hi :: rest =>
      let start := hi * dim in
      let end_ := match rest with
                  | hj :: _ => hj * dim
                  | [] => Z.of_nat (length data)
                  end in
      list_ ← linkedList fuel data start end_ dim false (areas ≫= (.!! S i));
      ln ← rd (fld n_next list_);
      (if same list_ ln then upd list_ (set_steiner true) else mret tt);;
      l ← rd (getLeftmost fuel list_);
      eliminateHoles_build fuel data rest (S i) dim areas (queue ++ [l])
  end.

(** process holes from left to right *)
Fixpoint eliminateHoles_merge (fuel : nat) (queue : list (option ptr))
    (outerNode : option ptr) : ST (option ptr) :=
  match queue with
  | [] => mret outerNode
  | hole :: rest =>
      eliminateHole fuel hole outerNode;;
      on ← rd (fld n_next outerNode);
      outerNode ← filterPoints fuel outerNode on;
      eliminateHoles_merge fuel rest outerNode
  end.

(** link every hole into the outer loop, producing a single-ring polygon
    without holes *)
Definition eliminateHoles (fuel : nat) (data : list R) (holeIndices : list Z)
    (outerNode : option ptr) (dim : Z) (areas : option (list R))
    : ST (option ptr) :=
  queue ← eliminateHoles_build fuel data holeIndices 0 dim areas [];
  queue ← rd (sort queue);
  eliminateHoles_merge fuel queue outerNode.

(** ** Entry point *)

(** [for (let i = dim; i < outerLen; i += dim) { ... }]: the bounding box of
    the outer ring. *)
Fixpoint earcut_bbox (fuel : nat) (positions : list R) (i outerLen dim : Z)
    (minX minY maxX maxY : R) : res (R * R * R * R) :=
  match fuel with
  | O => Timeout
  | S f =>
      if i <? outerLen then
        let x := get positions i in
        let y := get positions (i + 1) in
        let minX := if flt x minX then x else minX in
        let minY := if flt y minY then y else minY in
        let maxX := if fgt x maxX then x else maxX in
        let maxY := if fgt y maxY then y else maxY in
        earcut_bbox f positions (i + dim) outerLen dim minX minY maxX maxY
      else Ret (minX, minY, maxX, maxY)
  end.

(** [minX], [minY] and [invSize] as [earcut] hands them to [earcutLinked]:
    all three stay [undefined] unless [positions.length > 80 * dim]. *)
Definition earcut_invSize (fuel : nat) (positions : list R) (outerLen dim : Z)
    : res (option R * option R * option R) :=
  if 80 * dim <? Z.of_nat (length positions) then
    '(minX, minY, maxX, maxY) ←
      earcut_bbox fuel positions dim outerLen dim
                  (get positions 0) (get positions 1)
                  (get positions 0) (get positions 1);
    (* minX, minY and invSize are later used to transform coords into
       integers for z-order calculation *)
    let invSize := fmax (fsub maxX minX) (fsub maxY minY) in
    let invSize := if fne invSize (num 0) then fdiv (num 1) invSize else num 0 in
    Ret (Some minX, Some minY, Some invSize)
  else Ret (None, None, None).

(** [hasHoles] and [outerLen] *)
Definition hasHoles (holeIndices : option (list Z)) : bool :=
  match holeIndices with Some (_ :: _) => true | _ => false end.

Definition outerLen (positions : list R) (holeIndices : option (list Z))
    (dim : Z) : Z :=
  match holeIndices with
  | Some (h0 :: _) => h0 * dim
  | _ => Z.of_nat (length positions)
  end.

Definition earcut_run (fuel : nat) (positions : list R)
    (holeIndices : option (list Z)) (dim : Z) (areas : option (list R))
    : ST unit :=
  let outerLen := outerLen positions holeIndices dim in
  outerNode ← linkedList fuel positions 0 outerLen dim true (areas ≫= (.!! 0%nat));
  degenerate ← rd (match outerNode with
                   | None => mret true
                   | Some _ => n ← node outerNode;
                               mret (same (n_next n) (n_prev n))
                   end);
  if (degenerate : bool) then mret tt
  else
    outerNode ← (if hasHoles holeIndices
                 then eliminateHoles fuel positions (default [] holeIndices)
                                     outerNode dim areas
                 else mret outerNode);
    (* if the shape is not too simple, we'll use z-order curve hash later;
       calculate polygon bbox *)
    '(minX, minY, invSize) ← rd (fun _ => earcut_invSize fuel positions outerLen dim);
    earcutLinked fuel dim minX minY invSize outerNode 0.

(** Computes a triangulation of a polygon: [earcut(positions, holeIndices,
    dim, areas)], run on a fresh heap with [triangles = []]. *)
Definition earcut (fuel : nat) (positions : list R)
    (holeIndices : option (list Z)) (dim : Z) (areas : option (list R))
    : res (list Q) :=
  match earcut_run fuel positions holeIndices dim areas (mkState [] []) with
  | Ret (_, s) => Ret (st_triangles s)
  | Throw => Throw
  | Timeout => Timeout
  end.

(** * Reasoning about runs *)

Lemma ST_bind_ext {A B} (m : ST A) (k1 k2 : A -> ST B) s :
  (forall a s', k1 a s' = k2 a s') -> (m ≫= k1) s = (m ≫= k2) s.
Proof.
  intros Hk. unfold mbind, ST_bind. destruct (m s) as [[a s']| |]; [apply Hk|done..].
Qed.

Lemma ST_bind_Ret {A B} (m : ST A) (k : A -> ST B) s a s' :
  m s = Ret (a, s') -> (m ≫= k) s = k a s'.
Proof. intros E. unfold mbind, ST_bind. by rewrite E. Qed.

Lemma rd_Ret {A} (f : RD A) h t a :
  f h = Ret a -> rd f (mkState h t) = Ret (a, mkState h t).
Proof. intros E. unfold rd. simpl. by rewrite E. Qed.

Lemma RD_bind_Ret {A B} (m : RD A) (k : A -> RD B) h a :
  m h = Ret a -> (m ≫= k) h = k a h.
Proof. intros E. unfold mbind, RD_bind. by rewrite E. Qed.

(** * Invariants of every run

    Two facts hold of the heap and of [triangles] in every state a run
    reaches, whatever the input: a node's [i] never changes and is copied
    from another node or set by [linkedList]; [triangles] grows by three
    such indices, divided by [dim], at a time. *)

Section Invariant.
Variable PI : Z -> Prop.
Variable PT : list Q -> Prop.
Variable dim : Z.
Hypothesis PT_push : forall l i1 i2 i3,
  PT l -> PI i1 -> PI i2 -> PI i3 ->
  PT (((l ++ [jsdiv i1 dim]) ++ [jsdiv i2 dim]) ++ [jsdiv i3 dim]).

Definition Inv (s : state) : Prop :=
  Forall (fun n => PI (n_i n)) (st_heap s) /\ PT (st_triangles s).

Definition keeps {A} (m : ST A) : Prop :=
  forall s a s', Inv s -> m s = Ret (a, s') -> Inv s'.

Lemma keeps_ret {A} (a : A) : keeps (mret a).
Proof. intros s a' s' HI [= <- <-]. done. Qed.

Lemma keeps_bind {A B} (m : ST A) (k : A -> ST B) :
  keeps m -> (forall a, keeps (k a)) -> keeps (m ≫= k).
Proof.
  intros Hm Hk s b s' HI. unfold mbind, ST_bind.
  destruct (m s) as [[a s1]| |] eqn:E; try done.
  intros Hb. eapply Hk; [|exact Hb]. eapply Hm; eauto.
Qed.

Lemma keeps_rd {A} (f : RD A) : keeps (rd f).
Proof.
  intros s a s' HI. unfold rd. destruct (f (st_heap s)); try done.
  by intros [= <- <-].
Qed.

Lemma keeps_timeout {A} : keeps (@timeout A).
Proof. intros s a s' _. done. Qed.

Lemma keeps_upd p (f : Node -> Node) :
  (forall n, n_i (f n) = n_i n) -> keeps (upd p f).
Proof.
  intros Hf s a s' [Hh Ht]. unfold upd.
  destruct p as [q|]; [|done].
  destruct (st_heap s !! q) as [n|] eqn:E; [|done].
  intros [= <- <-]. split; [|done]. simpl.
  apply Forall_insert; [done|]. rewrite Hf.
  by eapply (Forall_lookup_1 _ _ _ _ Hh E).
Qed.

Lemma keeps_alloc n : PI (n_i n) -> keeps (alloc n).
Proof.
  intros Hn s a s' [Hh Ht]. unfold alloc. intros [= <- <-].
  split; [|done]. simpl. apply Forall_app. split; [done|]. by constructor.
Qed.

Lemma keeps_pushTriangle a b c : keeps (pushTriangle a b c dim).
Proof.
  intros s u s' [Hh Ht] E.
  unfold pushTriangle, mbind, ST_bind, rd, node, push in E. simpl in E.
  destruct a as [a|]; [|done].
  destruct (st_heap s !! a) as [na|] eqn:Ea; [|done]. simpl in E.
  destruct b as [b|]; [|done].
  destruct (st_heap s !! b) as [nb|] eqn:Eb; [|done]. simpl in E.
  destruct c as [c|]; [|done].
  destruct (st_heap s !! c) as [nc|] eqn:Ec; [|done]. simpl in E.
  injection E as _ <-. split; [done|]. simpl.
  apply PT_push; [done|..].
  - exact (Forall_lookup_1 _ _ _ _ Hh Ea).
  - exact (Forall_lookup_1 _ _ _ _ Hh Eb).
  - exact (Forall_lookup_1 _ _ _ _ Hh Ec).
Qed.

(** A node read from the heap satisfies the heap's invariant. *)
Lemma keeps_bind_node {B} p (k : Node -> ST B) :
  (forall n, PI (n_i n) -> keeps (k n)) -> keeps (rd (node p) ≫= k).
Proof.
  intros Hk s b s' HI. unfold mbind, ST_bind, rd, node.
  destruct p as [q|]; [|done].
  destruct (st_heap s !! q) as [n|] eqn:E; [|done].
  intros Hb. eapply Hk; [|exact HI|exact Hb].
  destruct HI as [Hh _]. exact (Forall_lookup_1 _ _ _ _ Hh E).
Qed.

Create HintDb keeps discriminated.

Ltac keeps_step :=
  first
    [ solve [eauto 3 with keeps]
    | apply keeps_ret
    | apply keeps_rd
    | apply keeps_timeout
    | apply keeps_pushTriangle
    | apply keeps_alloc; simpl; assumption
    | apply keeps_upd; intros ?; reflexivity
    | apply keeps_bind_node; intros ? ?
    | apply keeps_bind; [|intros ?]
    | match goal with
      | |- keeps (let '(_, _) := ?x in _) => destruct x
      | |- keeps (match ?x with _ => _ end) => destruct x
      | |- keeps (if ?x then _ else _) => destruct x
      end ].

Ltac keeps_go := repeat keeps_step.

Lemma keeps_insertNode i x y last : PI i -> keeps (insertNode i x y last).
Proof. intros Hi. unfold insertNode. keeps_go. Qed.

Lemma keeps_removeNode p : keeps (removeNode p).
Proof. unfold removeNode. keeps_go. Qed.

Lemma keeps_splitPolygon a b : keeps (splitPolygon a b).
Proof. unfold splitPolygon. keeps_go. Qed.

Hint Resolve keeps_removeNode keeps_splitPolygon : keeps.

(** The indices [linkedList] visits from [i] on, in either direction. *)
Definition forward_ok (i end_ : Z) : Prop :=
  forall k, 0 <= k -> i + k * dim < end_ -> PI (i + k * dim).
Definition backward_ok (i start : Z) : Prop :=
  forall k, 0 <= k -> start <= i - k * dim -> PI (i - k * dim).

Lemma keeps_linkedList_forward fuel data i end_ last :
  forward_ok i end_ -> keeps (linkedList_forward fuel data i end_ dim last).
Proof.
  revert i last. induction fuel as [|f IH]; intros i last Hok; simpl.
  { apply keeps_timeout. }
  destruct (i <? end_) eqn:E; [|apply keeps_ret].
  apply keeps_bind.
  - apply keeps_insertNode. specialize (Hok 0). rewrite Z.mul_0_l, Z.add_0_r in Hok.
    apply Hok; lia.
  - intros p. apply IH. intros k Hk Hlt.
    replace (i + dim + k * dim) with (i + (k + 1) * dim) in * by lia.
    apply Hok; lia.
Qed.

Lemma keeps_linkedList_backward fuel data i start last :
  backward_ok i start -> keeps (linkedList_backward fuel data i start dim last).
Proof.
  revert i last. induction fuel as [|f IH]; intros i last Hok; simpl.
  { apply keeps_timeout. }
  destruct (start <=? i) eqn:E; [|apply keeps_ret].
  apply keeps_bind.
  - apply keeps_insertNode. specialize (Hok 0). rewrite Z.mul_0_l, Z.sub_0_r in Hok.
    apply Hok; lia.
  - intros p. apply IH. intros k Hk Hlt.
    replace (i - dim - k * dim) with (i - (k + 1) * dim) in * by lia.
    apply Hok; lia.
Qed.

Lemma keeps_linkedList fuel data start end_ cw ar :
  forward_ok start end_ -> backward_ok (end_ - dim) start ->
  keeps (linkedList fuel data start end_ dim cw ar).
Proof.
  intros Hf Hb. unfold linkedList.
  apply keeps_bind.
  - destruct (Bool.eqb _ _).
    + by apply keeps_linkedList_forward.
    + by apply keeps_linkedList_backward.
  - intros last. keeps_go.
Qed.

Lemma keeps_filterPoints_loop fuel p end_ : keeps (filterPoints_loop fuel p end_).
Proof.
  revert p end_. induction fuel as [|f IH]; intros p end_; simpl; keeps_go.
Qed.

Lemma keeps_filterPoints fuel start end_ : keeps (filterPoints fuel start end_).
Proof. unfold filterPoints. keeps_go; apply keeps_filterPoints_loop. Qed.

Hint Resolve keeps_filterPoints : keeps.

Lemma keeps_cureLocalIntersections_loop fuel p start :
  keeps (cureLocalIntersections_loop fuel p start dim).
Proof.
  revert p start. induction fuel as [|f IH]; intros p start; simpl; keeps_go.
Qed.

Lemma keeps_cureLocalIntersections fuel start :
  keeps (cureLocalIntersections fuel start dim).
Proof.
  unfold cureLocalIntersections. keeps_go.
  apply keeps_cureLocalIntersections_loop.
Qed.

Lemma keeps_sortLinked_merge fuel p q pSize qSize list_ tail :
  keeps (sortLinked_merge fuel p q pSize qSize list_ tail).
Proof.
  revert p q pSize qSize list_ tail.
  induction fuel as [|f IH]; intros p q pSize qSize list_ tail; simpl; keeps_go.
Qed.

Lemma keeps_sortLinked_pass fuel p inSize list_ tail numMerges :
  keeps (sortLinked_pass fuel p inSize list_ tail numMerges).
Proof.
  revert p list_ tail numMerges.
  induction fuel as [|f IH]; intros p list_ tail numMerges.
  { apply keeps_timeout. }
  cbn [sortLinked_pass]. keeps_go. apply keeps_sortLinked_merge.
Qed.

Lemma keeps_sortLinked_loop fuel list_ inSize :
  keeps (sortLinked_loop fuel list_ inSize).
Proof.
  revert list_ inSize. induction fuel as [|f IH]; intros list_ inSize.
  { apply keeps_timeout. }
  cbn [sortLinked_loop]. keeps_go. apply keeps_sortLinked_pass.
Qed.

Lemma keeps_indexCurve_loop fuel p start minX minY invSize :
  keeps (indexCurve_loop fuel p start minX minY invSize).
Proof.
  revert p. induction fuel as [|f IH]; intros p; simpl; keeps_go.
Qed.

Lemma keeps_indexCurve fuel start minX minY invSize :
  keeps (indexCurve fuel start minX minY invSize).
Proof.
  unfold indexCurve, sortLinked. keeps_go.
  - apply keeps_indexCurve_loop.
  - apply keeps_sortLinked_loop.
Qed.

Hint Resolve keeps_cureLocalIntersections keeps_indexCurve : keeps.

Section KeepsEngine.
Variable rec : option ptr -> nat -> ST unit.
Hypothesis keeps_rec : forall p pass, keeps (rec p pass).

Lemma keeps_splitEarcut_inner fuel a b : keeps (splitEarcut_inner rec fuel a b).
Proof.
  revert a b. induction fuel as [|f IH]; intros a b; simpl; keeps_go.
Qed.

Lemma keeps_splitEarcut_outer fuel a start :
  keeps (splitEarcut_outer rec fuel a start).
Proof.
  revert a. induction fuel as [|f IH]; intros a; simpl; keeps_go.
  apply keeps_splitEarcut_inner.
Qed.

Lemma keeps_earcutLinked_loop minX minY invSize fuel ear stop pass :
  keeps (earcutLinked_loop rec dim minX minY invSize fuel ear stop pass).
Proof.
  revert ear stop. induction fuel as [|f IH]; intros ear stop; simpl; keeps_go.
  unfold splitEarcut. apply keeps_splitEarcut_outer.
Qed.

End KeepsEngine.

Lemma keeps_earcutLinked fuel minX minY invSize ear pass :
  keeps (earcutLinked fuel dim minX minY invSize ear pass).
Proof.
  revert ear pass. induction fuel as [|f IH]; intros ear pass; simpl.
  { apply keeps_timeout. }
  keeps_go. apply keeps_earcutLinked_loop. intros; apply IH.
Qed.

Lemma keeps_eliminateHole fuel hole outerNode :
  keeps (eliminateHole fuel hole outerNode).
Proof. unfold eliminateHole. keeps_go. Qed.

(** The spans of the holes, as [eliminateHoles] cuts them out of [data]. *)
Fixpoint holes_ok (len : Z) (holes : list Z) : Prop :=
  match holes with
  | [] => True
  | hi :: rest =>
      let end_ := match rest with hj :: _ => hj * dim | [] => len end in
      forward_ok (hi * dim) end_ /\ backward_ok (end_ - dim) (hi * dim) /\
      holes_ok len rest
  end.

Lemma keeps_eliminateHoles_build fuel data holes i areas queue :
  holes_ok (Z.of_nat (length data)) holes ->
  keeps (eliminateHoles_build fuel data holes i dim areas queue).
Proof.
  revert i queue. induction holes as [|hi rest IH]; intros i queue Hok; simpl.
  { apply keeps_ret. }
  destruct Hok as (Hf & Hb & Hrest).
  apply keeps_bind; [by apply keeps_linkedList|]. intros l. keeps_go.
Qed.

Lemma keeps_eliminateHoles_merge fuel queue outerNode :
  keeps (eliminateHoles_merge fuel queue outerNode).
Proof.
  revert outerNode. induction queue as [|hole rest IH]; intros outerNode; simpl;
    keeps_go; apply keeps_eliminateHole.
Qed.

Lemma keeps_eliminateHoles fuel data holes outerNode areas :
  holes_ok (Z.of_nat (length data)) holes ->
  keeps (eliminateHoles fuel data holes outerNode dim areas).
Proof.
  intros Hok. unfold eliminateHoles. keeps_go.
  - by apply keeps_eliminateHoles_build.
  - apply keeps_eliminateHoles_merge.
Qed.

Hint Resolve keeps_eliminateHoles keeps_earcutLinked : keeps.

Lemma keeps_earcut_run fuel positions holeIndices areas :
  forward_ok 0 (outerLen positions holeIndices dim) ->
  backward_ok (outerLen positions holeIndices dim - dim) 0 ->
  holes_ok (Z.of_nat (length positions)) (default [] holeIndices) ->
  keeps (earcut_run fuel positions holeIndices dim areas).
Proof.
  intros Hf Hb Hh. unfold earcut_run.
  apply keeps_bind; [by apply keeps_linkedList|]. intros outerNode.
  keeps_go.
Qed.

(** Whatever [earcut] returns satisfies the invariant of [triangles]. *)
Lemma earcut_invariant fuel positions holeIndices areas tris :
  PT [] ->
  forward_ok 0 (outerLen positions holeIndices dim) ->
  backward_ok (outerLen positions holeIndices dim - dim) 0 ->
  holes_ok (Z.of_nat (length positions)) (default [] holeIndices) ->
  earcut fuel positions holeIndices dim areas = Ret tris ->
  PT tris.
Proof.
  intros Hnil Hf Hb Hh. unfold earcut.
  destruct (earcut_run _ _ _ _ _ _) as [[u s]| |] eqn:E; try done.
  intros [= <-].
  eapply (keeps_earcut_run fuel positions holeIndices areas Hf Hb Hh) in E.
  - apply E.
  - split; [constructor|done].
Qed.

End Invariant.

(** ** Shape of the output *)

(** C3. Whatever the input, the sequence [earcut] returns is a sequence of
    node offsets each divided by [dim], and its length is a multiple of 3:
    output is only ever appended three indices at a time (by
    [pushTriangle], for an ear and for a cured local intersection). *)
Theorem earcut_length_multiple_of_3 fuel positions holeIndices dim areas tris :
  earcut fuel positions holeIndices dim areas = Ret tris ->
  Nat.divide 3 (length tris) /\
  exists offsets : list Z, tris = map (fun i => jsdiv i dim) offsets.
Proof.
  intros E.
  pose (PT := fun l : list Q =>
    Nat.divide 3 (length l) /\ exists offsets : list Z, l = map (fun i => jsdiv i dim) offsets).
  apply (earcut_invariant (fun _ => True) PT dim) in E; try done.
  - intros l i1 i2 i3 [[k Hk] [offs ->]] _ _ _. split.
    + exists (S k). rewrite !length_app, Hk. simpl. lia.
    + exists (offs ++ [i1; i2; i3]).
      rewrite map_app. simpl. by rewrite <- !app_assoc.
  - split; [exists 0%nat; done | by exists []].
  - clear. induction (default [] holeIndices) as [|hi rest IH]; simpl; [done|].
    by repeat split.
Qed.

Lemma Qred_inject_Z k : Qred (inject_Z k) = inject_Z k.
Proof.
  unfold Qred, inject_Z. simpl.
  generalize (Z.ggcd_gcd k 1) (Z.ggcd_correct_divisors k 1).
  destruct (Z.ggcd k 1) as [g [q1 q2]]. simpl. intros Hg [H1 H2].
  rewrite Z.gcd_1_r in Hg. subst g. rewrite Z.mul_1_l in H1, H2. by subst.
Qed.

Lemma jsdiv_exact k dim : dim <> 0 -> jsdiv (k * dim) dim = inject_Z k.
Proof.
  intros Hd. unfold jsdiv.
  rewrite <- (Qred_inject_Z k).
  apply Qred_complete.
  rewrite inject_Z_mult. field.
  intros Hq. apply Hd. unfold Qeq in Hq. simpl in Hq. lia.
Qed.

(** C10. For a coordinate array of [n] vertices of [dim] components each and
    hole indices within [0, n), every element [earcut] returns is an
    integer [k] with [0 <= k < n].  (That the hole indices ascend is not
    needed for the bound.) *)
Theorem earcut_indices_in_range fuel positions holeIndices dim areas n tris :
  0 < dim ->
  Z.of_nat (length positions) = n * dim ->
  Forall (fun h => 0 <= h < n) (default [] holeIndices) ->
  earcut fuel positions holeIndices dim areas = Ret tris ->
  Forall (fun q => exists k : Z, q = inject_Z k /\ 0 <= k < n) tris.
Proof.
  intros Hdim Hlen Hholes E.
  pose (PI := fun i : Z => exists k, i = k * dim /\ 0 <= k < n).
  pose (PT := fun l : list Q =>
    Forall (fun q => exists k : Z, q = inject_Z k /\ 0 <= k < n) l).
  assert (Hout : exists m, outerLen positions holeIndices dim = m * dim /\ m <= n).
  { unfold outerLen. destruct holeIndices as [[|h0 rest]|]; simpl in *.
    - exists n. split; [done|lia].
    - apply Forall_cons in Hholes as [Hh0 _]. exists h0. split; [done|lia].
    - exists n. split; [done|lia]. }
  destruct Hout as (m & Hm & Hmn).
  apply (earcut_invariant PI PT dim) in E; try done.
  - intros l i1 i2 i3 Hl (k1 & -> & Hk1) (k2 & -> & Hk2) (k3 & -> & Hk3).
    unfold PT. rewrite !Forall_app. repeat split; try done;
      apply Forall_singleton; eexists; (split; [apply jsdiv_exact; lia|done]).
  - constructor.
  - intros k Hk Hlt. rewrite Hm in Hlt. exists k. split; [lia|nia].
  - intros k Hk Hge. rewrite Hm in *. exists (m - 1 - k). split; [lia|nia].
  - rewrite Hlen. clear E Hm.
    induction (default [] holeIndices) as [|hi rest IH]; simpl; [done|].
    apply Forall_cons in Hholes as [Hhi Hrest].
    assert (He : exists e, match rest with hj :: _ => hj * dim | [] => n * dim end = e * dim
                           /\ e <= n).
    { destruct rest as [|hj rest']; [exists n; split; [done|lia]|].
      apply Forall_cons in Hrest as [Hhj _]. exists hj. split; [done|lia]. }
    destruct He as (e & -> & Hen).
    split; [|split; [|by apply IH]].
    + intros k Hk Hlt. exists (hi + k). split; [lia|nia].
    + intros k Hk Hge. exists (e - 1 - k). split; [lia|nia].
Qed.

(** ** Degenerate input *)

Lemma linkedList_triangles fuel data start end_ dim cw ar s p s' :
  linkedList fuel data start end_ dim cw ar s = Ret (p, s') ->
  st_triangles s' = st_triangles s.
Proof.
  intros E.
  apply (keeps_linkedList (fun _ => True) (fun l => l = st_triangles s) dim) in E;
    [apply E| done | done |].
  split; [|done]. by apply Forall_forall.
Qed.

(** [if (!outerNode || outerNode.next === outerNode.prev) return triangles;] *)
Lemma earcut_run_early_return fuel positions holeIndices dim areas outerNode s0 s :
  linkedList fuel positions 0 (outerLen positions holeIndices dim) dim true
             (areas ≫= (.!! 0%nat)) s0 = Ret (outerNode, s) ->
  (outerNode = None \/
   exists n, node outerNode (st_heap s) = Ret n /\ n_next n = n_prev n) ->
  earcut_run fuel positions holeIndices dim areas s0 = Ret (tt, s).
Proof.
  intros E Hdeg. unfold earcut_run.
  rewrite (ST_bind_Ret _ _ _ _ _ E).
  destruct Hdeg as [-> | (n & Hn & Hnp)]; [done|].
  destruct outerNode as [q|]; [|done].
  unfold mbind, ST_bind, rd, RD_bind. rewrite Hn. simpl.
  unfold same. by rewrite bool_decide_eq_true_2.
Qed.

(** C4. When the outer ring fails to build ([linkedList] yields
    [undefined]) or is left with fewer than three nodes
    ([outerNode.next === outerNode.prev]), [earcut] returns [[]]. *)
Theorem earcut_degenerate fuel positions holeIndices dim areas outerNode s :
  linkedList fuel positions 0 (outerLen positions holeIndices dim) dim true
             (areas ≫= (.!! 0%nat)) (mkState [] []) = Ret (outerNode, s) ->
  (outerNode = None \/
   exists n, node outerNode (st_heap s) = Ret n /\ n_next n = n_prev n) ->
  earcut fuel positions holeIndices dim areas = Ret [].
Proof.
  intros E Hdeg. unfold earcut.
  rewrite (earcut_run_early_return _ _ _ _ _ _ _ _ E Hdeg).
  by rewrite (linkedList_triangles _ _ _ _ _ _ _ _ _ _ E).
Qed.

(** An empty span: [linkedList] inserts nothing, [earcut] returns [[]]. *)
Lemma earcut_empty_span fuel positions holeIndices dim areas :
  0 < dim -> outerLen positions holeIndices dim <= 0 ->
  earcut (S fuel) positions holeIndices dim areas = Ret [].
Proof.
  intros Hd Hl. unfold earcut.
  rewrite (earcut_run_early_return _ _ _ _ _ None _ (mkState [] []));
    [done| |by left].
  unfold linkedList. destruct (Bool.eqb _ _); simpl.
  - destruct (Z.ltb_spec 0 (outerLen positions holeIndices dim)); [lia|]. done.
  - destruct (Z.leb_spec 0 (outerLen positions holeIndices dim - dim)); [lia|]. done.
Qed.

(** ** Precomputed areas *)

(** The end of the span of the hole that starts at [holes !! j]. *)
Definition hole_end (data : list R) (holes : list Z) (j : nat) (dim : Z) : Z :=
  match holes !! S j with
  | Some hk => hk * dim
  | None => Z.of_nat (length data)
  end.

Lemma linkedList_area_supplied fuel data start end_ dim cw :
  linkedList fuel data start end_ dim cw
             (Some (getPolygonSignedArea data start end_ dim)) =
  linkedList fuel data start end_ dim cw None.
Proof. reflexivity. Qed.

Lemma eliminateHoles_build_areas fuel data holes i dim areas queue s :
  (forall j hj, holes !! j = Some hj ->
     areas !! S (i + j) =
     Some (getPolygonSignedArea data (hj * dim) (hole_end data holes j dim) dim)) ->
  eliminateHoles_build fuel data holes i dim (Some areas) queue s =
  eliminateHoles_build fuel data holes i dim None queue s.
Proof.
  revert i queue s. induction holes as [|hi rest IH]; intros i queue s Ha; [done|].
  cbn [eliminateHoles_build].
  assert (E : (Some areas ≫= (.!! S i)) =
              Some (getPolygonSignedArea data (hi * dim)
                      (match rest with hj :: _ => hj * dim
                                     | [] => Z.of_nat (length data) end) dim)).
  { specialize (Ha 0%nat hi eq_refl). rewrite Nat.add_0_r in Ha.
    simpl. rewrite Ha. unfold hole_end. simpl. by destruct rest. }
  rewrite E, linkedList_area_supplied. simpl.
  apply ST_bind_ext; intros list_ s1. apply ST_bind_ext; intros ln s2.
  apply ST_bind_ext; intros u s3. apply ST_bind_ext; intros l s4.
  apply IH. intros j hj Hj. specialize (Ha (S j) hj Hj).
  rewrite <- Nat.add_succ_comm in Ha. rewrite Ha. done.
Qed.

(** C9. Supplying [areas] whose first element is the signed area of the
    outer span and whose element [i + 1] is the signed area of the span of
    hole [i], as [getPolygonSignedArea] computes them, gives the same
    result as omitting [areas]. *)
Theorem earcut_areas_supplied fuel positions holeIndices dim areas :
  areas !! 0%nat =
    Some (getPolygonSignedArea positions 0 (outerLen positions holeIndices dim) dim) ->
  (forall j hj, default [] holeIndices !! j = Some hj ->
     areas !! S j =
     Some (getPolygonSignedArea positions (hj * dim)
             (hole_end positions (default [] holeIndices) j dim) dim)) ->
  earcut fuel positions holeIndices dim (Some areas) =
  earcut fuel positions holeIndices dim None.
Proof.
  intros Hout Hh. unfold earcut.
  enough (E : earcut_run fuel positions holeIndices dim (Some areas) (mkState [] []) =
              earcut_run fuel positions holeIndices dim None (mkState [] []))
    by (by rewrite E).
  generalize (mkState [] []). intros s. unfold earcut_run.
  replace (Some areas ≫= (.!! 0%nat)) with
    (Some (getPolygonSignedArea positions 0 (outerLen positions holeIndices dim) dim))
    by (simpl; by rewrite Hout).
  rewrite linkedList_area_supplied. simpl.
  apply ST_bind_ext; intros outerNode s1. apply ST_bind_ext; intros deg s2.
  destruct deg; [done|].
  destruct (hasHoles holeIndices); [|done].
  unfold eliminateHoles.
  unfold mbind at 1 3, ST_bind at 1 3.
  unfold mbind at 1 4, ST_bind at 1 4.
  rewrite eliminateHoles_build_areas; [done|].
  intros j hj Hj. simpl. by apply Hh.
Qed.

(** ** The threshold of the z-order path *)

(** At or below the threshold the three values stay [undefined]. *)
Lemma index_unused_below_threshold fuel positions outerLen dim :
  Z.of_nat (length positions) <= 80 * dim ->
  earcut_invSize fuel positions outerLen dim = Ret (None, None, None).
Proof.
  intros Hle. unfold earcut_invSize.
  by destruct (Z.ltb_spec (80 * dim) (Z.of_nat (length positions))); [lia|].
Qed.

(** * Rings in the heap *)

(** The four pointer fields of a node. *)
Inductive pfield : Type := Fprev | Fnext | FprevZ | FnextZ.

Global Instance pfield_eq_dec : EqDecision pfield.
Proof. solve_decision. Defined.

Definition getf (F : pfield) (n : Node) : option nat :=
  match F with
  | Fprev => n_prev n | Fnext => n_next n
  | FprevZ => n_prevZ n | FnextZ => n_nextZ n
  end.

Definition setf (F : pfield) (v : option nat) (n : Node) : Node :=
  match F with
  | Fprev => set_prev v n | Fnext => set_next v n
  | FprevZ => set_prevZ v n | FnextZ => set_nextZ v n
  end.

(** The fields of the node at [p], when there is one. *)
Definition fieldf (F : pfield) (h : heap) (p : nat) : option nat :=
  h !! p ≫= getf F.
Notation nextf := (fieldf Fnext).
Notation prevf := (fieldf Fprev).
Notation nextZf := (fieldf FnextZ).
Notation prevZf := (fieldf FprevZ).

(** What is left of a node: its index, coordinates, z-order key and
    steiner flag. *)
Definition payload (n : Node) : Z * R * R * option Z * bool :=
  (n_i n, n_x n, n_y n, n_z n, n_steiner n).
Definition dataf (h : heap) (p : nat) : option (Z * R * R * option Z * bool) :=
  payload <$> h !! p.

(** [links h a l b]: following [next] from [a] visits [l] and then [b],
    and [prev] leads back. *)
Fixpoint links (h : heap) (a : nat) (l : list nat) (b : nat) : Prop :=
  match l with
  | [] => nextf h a = Some b /\ prevf h b = Some a
  | c :: l' => nextf h a = Some c /\ prevf h c = Some a /\ links h c l' b
  end.

(** [ring h l]: the nodes [l], in [next] order, form a circular doubly
    linked list. *)
Definition ring (h : heap) (l : list nat) : Prop :=
  match l with
  | [] => False
  | a :: r => NoDup l /\ links h a r a
  end.

(** No pointer of the heap dangles. *)
Definition wf (h : heap) : Prop :=
  forall p n, h !! p = Some n ->
    forall q, (n_prev n = Some q \/ n_next n = Some q \/
               n_prevZ n = Some q \/ n_nextZ n = Some q) ->
    (q < length h)%nat.

(** [zlinks h prev l]: [l] is a [null]-terminated doubly linked chain in
    the [prevZ]/[nextZ] fields, entered from [prev]. *)
Fixpoint zlinks (h : heap) (prev : option nat) (l : list nat) : Prop :=
  match l with
  | [] => True
  | a :: r => prevZf h a = prev /\ nextZf h a = head r /\ zlinks h (Some a) r
  end.

Definition zchain (h : heap) (l : list nat) : Prop :=
  NoDup l /\ zlinks h None l.

Lemma upd_Some h t q n f :
  h !! q = Some n ->
  upd (Some q) f (mkState h t) = Ret (tt, mkState (<[q := f n]> h) t).
Proof. intros E. unfold upd. simpl. by rewrite E. Qed.

Lemma node_Some h q n : h !! q = Some n -> node (Some q) h = Ret n.
Proof. intros E. unfold node. by rewrite E. Qed.

(** One assignment [q.F = v], seen through the fields. *)
Lemma upd_field F h t q v :
  is_Some (h !! q) ->
  exists h',
    upd (Some q) (setf F v) (mkState h t) = Ret (tt, mkState h' t) /\
    length h' = length h /\
    (forall G x, fieldf G h' x =
                 if decide (G = F /\ x = q) then v else fieldf G h x) /\
    (forall x, dataf h' x = dataf h x).
Proof.
  intros [n E]. exists (<[q := setf F v n]> h). split; [by apply upd_Some|].
  assert (Hq : (q < length h)%nat) by (by eapply lookup_lt_Some).
  split; [by rewrite length_insert|]. split.
  - intros G x. unfold fieldf. destruct (decide (x = q)) as [->|Hne].
    + rewrite list_lookup_insert_eq by done. rewrite E. simpl.
      destruct (decide (G = F /\ q = q)) as [[-> _]|Hn].
      * by destruct F.
      * destruct F, G; try done; exfalso; by apply Hn.
    + rewrite list_lookup_insert_ne by done.
      destruct (decide (G = F /\ x = q)) as [[_ ->]|Hn]; done.
  - intros x. unfold dataf. destruct (decide (x = q)) as [->|Hne].
    + rewrite list_lookup_insert_eq by done. rewrite E. by destruct F.
    + by rewrite list_lookup_insert_ne.
Qed.

(** Reading a node, seen through the fields. *)
Lemma node_fields h q n :
  h !! q = Some n ->
  node (Some q) h = Ret n /\
  (forall F, fieldf F h q = getf F n) /\ dataf h q = Some (payload n).
Proof.
  intros E. split; [by apply node_Some|]. unfold fieldf, dataf. by rewrite E.
Qed.

Lemma fld_Some {A} (g : Node -> A) h q n :
  h !! q = Some n -> fld g (Some q) h = Ret (g n).
Proof.
  intros E. unfold fld. by rewrite (RD_bind_Ret _ _ _ _ (node_Some _ _ _ E)).
Qed.

Lemma fieldf_valid F h p q : fieldf F h p = Some q -> is_Some (h !! p).
Proof. unfold fieldf. destruct (h !! p); [by eexists|done]. Qed.

Lemma links_app h a l1 c l2 b :
  links h a (l1 ++ c :: l2) b <-> links h a l1 c /\ links h c l2 b.
Proof.
  revert a. induction l1 as [|d l1 IH]; intros a; simpl.
  - destruct l2; simpl; tauto.
  - rewrite IH. tauto.
Qed.

Lemma links_frame h h' a l b :
  (forall x, x ∈ a :: l -> nextf h' x = nextf h x) ->
  (forall x, x ∈ l ++ [b] -> prevf h' x = prevf h x) ->
  links h a l b -> links h' a l b.
Proof.
  revert a. induction l as [|c l IH]; intros a Hn Hp; simpl.
  - intros [H1 H2]. rewrite Hn, Hp by set_solver. done.
  - intros (H1 & H2 & H3). rewrite Hn, Hp by set_solver.
    repeat split; try done. apply IH; [| |done]; intros x Hx.
    + apply Hn. set_solver.
    + apply Hp. set_solver.
Qed.

(** Rotating a ring by one node. *)
Lemma ring_rotate h a l : ring h (a :: l) -> ring h (l ++ [a]).
Proof.
  destruct l as [|c l]; [done|]. simpl. intros [Hnd (H1 & H2 & H3)].
  split.
  - apply NoDup_cons. apply NoDup_cons in Hnd as [Ha Hnd].
    apply NoDup_cons in Hnd as [Hc Hnd]. split.
    + set_solver.
    + apply NoDup_app. repeat split; [done| |apply NoDup_singleton].
      intros x Hx Hxa. apply list_elem_of_singleton in Hxa. set_solver.
  - apply links_app. done.
Qed.

(** ** [removeNode] *)

Lemma valid_length (h h' : heap) p :
  length h' = length h -> is_Some (h !! p) -> is_Some (h' !! p).
Proof.
  intros Hl Hp. apply lookup_lt_is_Some. rewrite Hl. by apply lookup_lt_is_Some.
Qed.

Lemma wf_field F h p q : wf h -> fieldf F h p = Some q -> is_Some (h !! q).
Proof.
  intros Hwf E. unfold fieldf in E. destruct (h !! p) as [n|] eqn:En; [|done].
  apply lookup_lt_is_Some. apply (Hwf p n En). simpl in E. destruct F; tauto.
Qed.

Lemma removeNode_spec h t p a b :
  (forall q, prevZf h p = Some q \/ nextZf h p = Some q -> is_Some (h !! q)) ->
  prevf h p = Some a -> nextf h p = Some b ->
  is_Some (h !! a) -> is_Some (h !! b) ->
  exists h',
    removeNode (Some p) (mkState h t) = Ret (tt, mkState h' t) /\
    length h' = length h /\
    (forall x, nextf h' x = if decide (x = a) then Some b else nextf h x) /\
    (forall x, prevf h' x = if decide (x = b) then Some a else prevf h x) /\
    (forall x, nextZf h' x =
               if decide (prevZf h p = Some x) then nextZf h p else nextZf h x) /\
    (forall x, prevZf h' x =
               if decide (nextZf h p = Some x) then prevZf h p else prevZf h x) /\
    (forall x, dataf h' x = dataf h x).
Proof.
  intros Hwf Hpa Hpb Ha Hb.
  assert (Hp : is_Some (h !! p)) by (by eapply fieldf_valid).
  unfold removeNode.
  (* p.next.prev = p.prev *)
  destruct Hp as [n En]. destruct (node_fields _ _ _ En) as (Rn & Fn & _).
  rewrite (ST_bind_Ret _ _ _ _ _ (rd_Ret _ _ _ _ Rn)).
  pose proof (Fn Fnext) as E1. pose proof (Fn Fprev) as E2. simpl in E1, E2.
  rewrite <- E1, <- E2, Hpa, Hpb.
  destruct (upd_field Fprev h t b (Some a) Hb) as (h1 & U1 & L1 & F1 & D1).
  rewrite (ST_bind_Ret _ _ _ _ _ U1).
  (* p.prev.next = p.next *)
  assert (Hp1 : is_Some (h1 !! p)) by (eapply valid_length; [done|by eexists]).
  destruct Hp1 as [n1 En1]. destruct (node_fields _ _ _ En1) as (Rn1 & Fn1 & _).
  rewrite (ST_bind_Ret _ _ _ _ _ (rd_Ret _ _ _ _ Rn1)).
  assert (E3 : n_prev n1 = Some a).
  { change (getf Fprev n1 = Some a). rewrite <- Fn1, F1. by case_decide. }
  assert (E4 : n_next n1 = Some b).
  { change (getf Fnext n1 = Some b). rewrite <- Fn1, F1. case_decide; [|done].
    by destruct H1. }
  rewrite E3, E4.
  destruct (upd_field Fnext h1 t a (Some b) (valid_length _ _ _ L1 Ha))
    as (h2 & U2 & L2 & F2 & D2).
  rewrite (ST_bind_Ret _ _ _ _ _ U2).
  (* if (p.prevZ) p.prevZ.nextZ = p.nextZ *)
  assert (Hp2 : is_Some (h2 !! p)).
  { eapply valid_length; [done|]. eapply valid_length; [done|by eexists]. }
  destruct Hp2 as [n2 En2]. destruct (node_fields _ _ _ En2) as (Rn2 & Fn2 & _).
  rewrite (ST_bind_Ret _ _ _ _ _ (rd_Ret _ _ _ _ Rn2)).
  assert (E5 : n_prevZ n2 = prevZf h p).
  { change (getf FprevZ n2 = prevZf h p). rewrite <- Fn2, F2, F1.
    repeat case_decide; try done; by destruct_and?. }
  assert (E6 : n_nextZ n2 = nextZf h p).
  { change (getf FnextZ n2 = nextZf h p). rewrite <- Fn2, F2, F1.
    repeat case_decide; try done; by destruct_and?. }
  rewrite E5, E6.
  assert (S3 : exists h3,
    (match prevZf h p with
     | Some _ => upd (prevZf h p) (set_nextZ (nextZf h p))
     | None => mret tt
     end) (mkState h2 t) = Ret (tt, mkState h3 t) /\
    length h3 = length h2 /\
    (forall G x, fieldf G h3 x =
       if decide (G = FnextZ /\ prevZf h p = Some x) then nextZf h p
       else fieldf G h2 x) /\
    (forall x, dataf h3 x = dataf h2 x)).
  { destruct (prevZf h p) as [pz|] eqn:Epz.
    - assert (Hpz : is_Some (h2 !! pz)).
      { eapply valid_length; [done|]. eapply valid_length; [done|].
        apply Hwf. by left. }
      destruct (upd_field FnextZ h2 t pz (nextZf h p) Hpz) as (h3 & U3 & L3 & F3 & D3).
      exists h3. repeat split; try done. intros G x. rewrite F3.
      repeat case_decide; try done; naive_solver.
    - exists h2. repeat split; try done. intros G x. case_decide; [|done].
      by destruct_and?. }
  destruct S3 as (h3 & U3 & L3 & F3 & D3).
  rewrite (ST_bind_Ret _ _ _ _ _ U3).
  (* if (p.nextZ) p.nextZ.prevZ = p.prevZ *)
  assert (Hp3 : is_Some (h3 !! p)).
  { eapply valid_length; [done|]. eapply valid_length; [done|].
    eapply valid_length; [done|by eexists]. }
  destruct Hp3 as [n3 En3]. destruct (node_fields _ _ _ En3) as (Rn3 & Fn3 & _).
  rewrite (ST_bind_Ret _ _ _ _ _ (rd_Ret _ _ _ _ Rn3)).
  assert (E7 : n_prevZ n3 = prevZf h p).
  { change (getf FprevZ n3 = prevZf h p). rewrite <- Fn3, F3, F2, F1.
    repeat case_decide; try done; by destruct_and?. }
  assert (E8 : n_nextZ n3 = nextZf h p).
  { change (getf FnextZ n3 = nextZf h p). rewrite <- Fn3, F3, F2, F1.
    repeat case_decide; try done; by destruct_and?. }
  rewrite E7, E8.
  assert (S4 : exists h4,
    (match nextZf h p with
     | Some _ => upd (nextZf h p) (set_prevZ (prevZf h p))
     | None => mret tt
     end) (mkState h3 t) = Ret (tt, mkState h4 t) /\
    length h4 = length h3 /\
    (forall G x, fieldf G h4 x =
       if decide (G = FprevZ /\ nextZf h p = Some x) then prevZf h p
       else fieldf G h3 x) /\
    (forall x, dataf h4 x = dataf h3 x)).
  { destruct (nextZf h p) as [nz|] eqn:Enz.
    - assert (Hnz : is_Some (h3 !! nz)).
      { eapply valid_length; [done|]. eapply valid_length; [done|].
        eapply valid_length; [done|]. apply Hwf. by right. }
      destruct (upd_field FprevZ h3 t nz (prevZf h p) Hnz) as (h4 & U4 & L4 & F4 & D4).
      exists h4. repeat split; try done. intros G x. rewrite F4.
      repeat case_decide; try done; naive_solver.
    - exists h3. repeat split; try done. intros G x. case_decide; [|done].
      by destruct_and?. }
  destruct S4 as (h4 & U4 & L4 & F4 & D4).
  exists h4. split; [exact U4|]. split; [congruence|].
  repeat split; intros x.
  - rewrite F4, F3, F2, F1. repeat case_decide; try done; naive_solver.
  - rewrite F4, F3, F2, F1. repeat case_decide; try done; naive_solver.
  - rewrite F4, F3, F2, F1. repeat case_decide; try done; naive_solver.
  - rewrite F4, F3, F2, F1. repeat case_decide; try done; naive_solver.
  - by rewrite D4, D3, D2, D1.
Qed.

Lemma wf_alt h :
  wf h <-> forall F p q, fieldf F h p = Some q -> (q < length h)%nat.
Proof.
  split.
  - intros Hwf F p q E. apply lookup_lt_is_Some. by eapply wf_field.
  - intros Hf p n En q Hq. unfold fieldf in Hf.
    destruct Hq as [Hq|[Hq|[Hq|Hq]]].
    + apply (Hf Fprev p). by rewrite En.
    + apply (Hf Fnext p). by rewrite En.
    + apply (Hf FprevZ p). by rewrite En.
    + apply (Hf FnextZ p). by rewrite En.
Qed.

Lemma links_valid h a l b x :
  links h a l b -> x ∈ a :: l ++ [b] -> is_Some (h !! x).
Proof.
  revert a. induction l as [|c l IH]; intros a; simpl.
  - intros [H1 H2] Hx. apply elem_of_cons in Hx as [->|Hx].
    + by eapply fieldf_valid.
    + apply list_elem_of_singleton in Hx as ->. by eapply fieldf_valid.
  - intros (H1 & H2 & H3) Hx. apply elem_of_cons in Hx as [->|Hx].
    + by eapply fieldf_valid.
    + by apply (IH c).
Qed.

Lemma ring_valid h l x : ring h l -> x ∈ l -> is_Some (h !! x).
Proof.
  destruct l as [|a r]; [done|]. intros [_ Hl] Hx.
  eapply links_valid; [exact Hl|]. set_solver.
Qed.

(** The neighbours of the head of a ring. *)
Lemma ring_head h p l :
  ring h (p :: l) ->
  nextf h p = Some (default p (head l)) /\
  prevf h p = Some (default p (last l)).
Proof.
  intros [_ Hl]. destruct l as [|a front _] using rev_ind.
  - simpl in *. tauto.
  - apply links_app in Hl as [Hl1 [Hl2 Hl3]]. rewrite last_snoc. simpl.
    split; [|done]. destruct front as [|c l']; simpl in *; tauto.
Qed.

Lemma ring_length_pos h l : ring h l -> l <> [].
Proof. by destruct l. Qed.

(** Unlinking the head [p] of a ring of at least two nodes leaves the ring
    of the others; [p] keeps its own [prev] and [next]. *)
Lemma removeNode_ring h t p l :
  (forall q, prevZf h p = Some q \/ nextZf h p = Some q -> is_Some (h !! q)) ->
  ring h (p :: l) -> l <> [] ->
  exists h',
    removeNode (Some p) (mkState h t) = Ret (tt, mkState h' t) /\
    ring h' l /\ (wf h -> wf h') /\ length h' = length h /\
    (forall x, x ∉ l -> nextf h' x = nextf h x /\ prevf h' x = prevf h x) /\
    (forall x, nextZf h' x =
               if decide (prevZf h p = Some x) then nextZf h p else nextZf h x) /\
    (forall x, prevZf h' x =
               if decide (nextZf h p = Some x) then prevZf h p else prevZf h x) /\
    (forall x, dataf h' x = dataf h x).
Proof.
  intros Hz Hr Hne.
  destruct (ring_head _ _ _ Hr) as [Hpb Hpa].
  destruct l as [|a front _] using rev_ind; [done|]. clear Hne.
  rewrite last_snoc in Hpa. simpl in Hpa.
  set (b := default p (head (front ++ [a]))) in *.
  assert (Hb : b ∈ front ++ [a]).
  { subst b. destruct front; simpl; set_solver. }
  assert (Ha : a ∈ front ++ [a]) by set_solver.
  destruct (removeNode_spec h t p a b Hz Hpa Hpb) as (h' & E & L & Fn & Fp & FnZ & FpZ & D).
  { eapply ring_valid; [done|]. set_solver. }
  { eapply ring_valid; [done|]. set_solver. }
  exists h'. split; [done|].
  destruct Hr as [Hnd Hl]. apply links_app in Hl as [Hl1 [Hl2 Hl3]].
  apply NoDup_cons in Hnd as [Hp Hnd].
  apply NoDup_app in Hnd as (Hndf & Hdisj & _).
  assert (Haf : a ∉ front). { intros Hx. apply (Hdisj a Hx). set_solver. }
  split; [|split; [|split; [done|split; [|done]]]].
  - (* the ring of the others *)
    destruct front as [|b' mid]; simpl in *.
    + subst b. split; [apply NoDup_singleton|].
      rewrite Fn, Fp. by rewrite !decide_True.
    + subst b. simpl in *. destruct Hl1 as (_ & _ & Hl1).
      split.
      * apply NoDup_cons. apply NoDup_cons in Hndf as [Hb' Hmid].
        split; [set_solver|]. apply NoDup_app. repeat split; try done.
        -- intros x Hx Hxa. apply list_elem_of_singleton in Hxa as ->. set_solver.
        -- apply NoDup_singleton.
      * apply links_app. split.
        -- eapply links_frame; [| |exact Hl1].
           ++ intros x Hx. rewrite Fn. rewrite decide_False; [done|]. set_solver.
           ++ intros x Hx. rewrite Fp. rewrite decide_False; [done|].
              apply NoDup_cons in Hndf as [Hb' _]. set_solver.
        -- simpl. rewrite Fn, Fp. by rewrite !decide_True.
  - (* no pointer dangles *)
    intros Hwf. apply wf_alt. intros F x q. rewrite L.
    pose proof (proj1 (wf_alt h) Hwf) as Hw.
    destruct F.
    + rewrite Fp. case_decide; [|apply Hw]. intros [= <-].
      apply lookup_lt_is_Some. eapply fieldf_valid. exact Hl2.
    + rewrite Fn. case_decide; [|apply Hw]. intros [= <-].
      apply (Hw _ _ _ Hpb).
    + rewrite FpZ. case_decide; apply Hw.
    + rewrite FnZ. case_decide; apply Hw.
  - intros x Hx. rewrite Fn, Fp. rewrite !decide_False; [done|set_solver|set_solver].
Qed.

Lemma wf_zvalid h p :
  wf h -> forall q, prevZf h p = Some q \/ nextZf h p = Some q -> is_Some (h !! q).
Proof. intros Hwf q [Hq|Hq]; by eapply wf_field. Qed.

Lemma ring_rotate_back h a l : ring h (l ++ [a]) -> ring h (a :: l).
Proof.
  destruct l as [|c l]; [done|]. simpl. intros [Hnd Hl].
  apply links_app in Hl as (Hl1 & Hl2 & Hl3). split; [|done].
  rewrite app_comm_cons in Hnd. apply NoDup_app in Hnd as (H1 & H2 & _).
  apply NoDup_cons. split; [|done]. intros Hx. apply (H2 a Hx). set_solver.
Qed.

(** Consecutive nodes of a ring are linked. *)
Lemma links_lookup h a l b j p q :
  links h a l b -> (a :: l ++ [b]) !! j = Some p -> (a :: l ++ [b]) !! S j = Some q ->
  nextf h p = Some q /\ prevf h q = Some p.
Proof.
  revert a j. induction l as [|c l IH]; intros a j Hl Hp Hq.
  - destruct j as [|[|j]]; simpl in *; try done. by simplify_eq.
  - simpl in Hl. destruct Hl as (H1 & H2 & H3). destruct j as [|j].
    + simpl in *. by simplify_eq.
    + apply (IH c j); done.
Qed.

Lemma ring_lookup h l j p q :
  ring h l -> l !! j = Some p -> l !! S j = Some q ->
  nextf h p = Some q /\ prevf h q = Some p.
Proof.
  destruct l as [|a r]; [done|]. intros [_ Hl] Hp Hq.
  apply (links_lookup h a r a j); [done| |].
  - rewrite app_comm_cons. by apply lookup_app_l_Some.
  - rewrite app_comm_cons. by apply lookup_app_l_Some.
Qed.

(** ** [isEar] *)

(** The test [isEar] applies to a node [p] other than the ear and its two
    neighbours: [p] lies in the closed triangle and the turn at [p] is
    reflex or collinear. *)
Definition blocksEar (h : list Node) (a b c : Node) (p : nat) : bool :=
  match h !! p with
  | Some np =>
      pointInTriangle (n_x a) (n_y a) (n_x b) (n_y b) (n_x c) (n_y c)
                      (n_x np) (n_y np) &&
      match n_prev np ≫= (h !!.), n_next np ≫= (h !!.) with
      | Some pp, Some pn => fge (area pp np pn) (num 0)
      | _, _ => false
      end
  | None => false
  end.

Lemma links_head h q l b :
  links h q l b -> nextf h q = Some (default b (head l)).
Proof. destruct l; simpl; tauto. Qed.

Lemma isEar_loop_spec h a b c pe pa rest q fuel :
  prevf h pe = Some pa ->
  links h q rest pa -> pa ∉ rest ->
  (length rest < fuel)%nat ->
  isEar_loop fuel a b c (Some pe) (Some (default pa (head rest))) h =
  Ret (forallb (fun p => negb (blocksEar h a b c p)) rest).
Proof.
  intros Hpe. revert q fuel. induction rest as [|p rest IH]; intros q fuel Hl Hpa Hf.
  - destruct fuel as [|f]; [simpl in Hf; lia|]. simpl.
    assert (Ve : is_Some (h !! pe)) by (by eapply fieldf_valid).
    destruct Ve as [ne Ee].
    rewrite (RD_bind_Ret _ _ _ _ (fld_Some n_prev _ _ _ Ee)).
    unfold fieldf in Hpe. rewrite Ee in Hpe. simpl in Hpe. rewrite Hpe.
    unfold same. by rewrite bool_decide_eq_true_2.
  - destruct fuel as [|f]; [simpl in Hf; lia|]. cbn [isEar_loop head default].
    assert (Ve : is_Some (h !! pe)) by (by eapply fieldf_valid).
    destruct Ve as [ne Ee].
    rewrite (RD_bind_Ret _ _ _ _ (fld_Some n_prev _ _ _ Ee)).
    pose proof Hpe as Hpe'. unfold fieldf in Hpe'. rewrite Ee in Hpe'. simpl in Hpe'.
    rewrite Hpe'.
    unfold same. rewrite bool_decide_eq_false_2 by (intros [= ->]; set_solver).
    simpl in Hl. destruct Hl as (Hqp & Hpq & Hl).
    assert (Vp : is_Some (h !! p)) by (by eapply fieldf_valid).
    destruct Vp as [np Ep].
    rewrite (RD_bind_Ret _ _ _ _ (node_Some _ _ _ Ep)).
    assert (Hnp : n_prev np = Some q).
    { unfold fieldf in Hpq. by rewrite Ep in Hpq. }
    assert (Hnn : n_next np = Some (default pa (head rest))).
    { pose proof (links_head _ _ _ _ Hl) as Hx. unfold fieldf in Hx.
      by rewrite Ep in Hx. }
    assert (Vq : is_Some (h !! q)) by (by eapply fieldf_valid).
    destruct Vq as [nq Eq].
    assert (Vn : is_Some (h !! default pa (head rest))).
    { eapply links_valid; [exact Hl|]. destruct rest; simpl; set_solver. }
    destruct Vn as [nn En].
    simpl forallb. unfold blocksEar at 1. rewrite Ep, Hnp, Hnn. simpl.
    rewrite Eq, En.
    assert (Harea : areaP (Some q) (Some p) (Some (default pa (head rest))) h =
                    Ret (area nq np nn)).
    { unfold areaP. rewrite (RD_bind_Ret _ _ _ _ (node_Some _ _ _ Eq)).
      rewrite (RD_bind_Ret _ _ _ _ (node_Some _ _ _ Ep)).
      rewrite (RD_bind_Ret _ _ _ _ (node_Some _ _ _ En)). done. }
    destruct (pointInTriangle _ _ _ _ _ _ _ _); simpl.
    + unfold mbind at 1, RD_bind at 1.
      unfold mbind at 1, RD_bind at 1. rewrite Harea.
      unfold mret at 1, RD_ret at 1.
      destruct (fge (area nq np nn) (num 0)); simpl; [done|].
      apply (IH p); [done|set_solver|simpl in Hf; lia].
    + unfold mbind at 1, RD_bind at 1. unfold mret at 1, RD_ret at 1.
      apply (IH p); [done|set_solver|simpl in Hf; lia].
Qed.

(** C6, as amended.  On a ring [prev, ear, next, rest...], [isEar(ear)]
    returns [true] exactly when [area(prev, ear, next) >= 0] is false and no
    node [p] of the rest lies in the closed triangle (boundary included)
    while the turn at [p] is reflex or collinear
    ([area(p.prev, p, p.next) >= 0]). *)
Theorem isEar_spec h pa pe pc rest na ne nc fuel :
  ring h (pa :: pe :: pc :: rest) ->
  h !! pa = Some na -> h !! pe = Some ne -> h !! pc = Some nc ->
  (length rest < fuel)%nat ->
  isEar fuel (Some pe) h =
  Ret (negb (fge (area na ne nc) (num 0)) &&
       forallb (fun p => negb (blocksEar h na ne nc p)) rest).
Proof.
  intros [Hnd Hl] Ea Ee Ec Hf. simpl in Hl.
  destruct Hl as (Hn1 & Hp1 & Hn2 & Hp2 & Hl).
  unfold isEar.
  rewrite (RD_bind_Ret _ _ _ _ (node_Some _ _ _ Ee)).
  assert (E1 : n_prev ne = Some pa) by (unfold fieldf in Hp1; by rewrite Ee in Hp1).
  assert (E2 : n_next ne = Some pc) by (unfold fieldf in Hn2; by rewrite Ee in Hn2).
  rewrite E1, E2.
  rewrite (RD_bind_Ret _ _ _ _ (node_Some _ _ _ Ea)).
  rewrite (RD_bind_Ret _ _ _ _ (node_Some _ _ _ Ec)).
  destruct (fge (area na ne nc) (num 0)); [done|]. simpl.
  pose proof (links_head _ _ _ _ Hl) as Hx. unfold fieldf in Hx. rewrite Ec in Hx.
  simpl in Hx.
  rewrite (RD_bind_Ret _ _ _ _ (fld_Some n_next _ _ _ Ec)). rewrite Hx.
  apply (isEar_loop_spec h na ne nc pe pa rest pc); try done.
  apply NoDup_cons in Hnd as [Hnd _]. set_solver.
Qed.

(** Modelled on the spec's wording of the ear validity test (4.5): strict
    containment, and a contained vertex counts only when it is itself
    non-reflex.  The code calls a turn reflex when [area >= 0]. *)
Definition strictlyInTriangle (ax ay bx by_ cx cy px py : R) : bool :=
  fgt (fsub (fmul (fsub cx px) (fsub ay py)) (fmul (fsub ax px) (fsub cy py))) (num 0) &&
  fgt (fsub (fmul (fsub ax px) (fsub by_ py)) (fmul (fsub bx px) (fsub ay py))) (num 0) &&
  fgt (fsub (fmul (fsub bx px) (fsub cy py)) (fmul (fsub cx px) (fsub by_ py))) (num 0).

Definition spec_blocksEar (h : list Node) (a b c : Node) (p : nat) : bool :=
  match h !! p with
  | Some np =>
      strictlyInTriangle (n_x a) (n_y a) (n_x b) (n_y b) (n_x c) (n_y c)
                         (n_x np) (n_y np) &&
      match n_prev np ≫= (h !!.), n_next np ≫= (h !!.) with
      | Some pp, Some pn => negb (fge (area pp np pn) (num 0))
      | _, _ => false
      end
  | None => false
  end.

Definition spec_isEar (h : list Node) (a b c : Node) (others : list nat) : bool :=
  flt (area a b c) (num 0) &&
  forallb (fun p => negb (spec_blocksEar h a b c p)) others.

(** ** [insertNode] and [linkedList] *)

Lemma alloc_spec h t n :
  alloc n (mkState h t) = Ret (length h, mkState (h ++ [n]) t) /\
  (forall F x, fieldf F (h ++ [n]) x =
               if decide (x = length h) then getf F n else fieldf F h x) /\
  (forall x, dataf (h ++ [n]) x =
             if decide (x = length h) then Some (payload n) else dataf h x).
Proof.
  split; [done|]. split; intros; unfold fieldf, dataf; case_decide as Hx.
  - subst. by rewrite lookup_app_r, Nat.sub_diag by lia.
  - destruct (decide (x < length h)%nat).
    + by rewrite lookup_app_l by done.
    + rewrite !lookup_ge_None_2; [done|lia|rewrite length_app; simpl; lia].
  - subst. by rewrite lookup_app_r, Nat.sub_diag by lia.
  - destruct (decide (x < length h)%nat).
    + by rewrite lookup_app_l by done.
    + rewrite !lookup_ge_None_2; [done|lia|rewrite length_app; simpl; lia].
Qed.

(** The effect of [insertNode] on the fields: [p] is the new node, [first]
    the node after [last] ([p] itself when there is no [last]). *)
Definition inserted (h h' : list Node) (i : Z) (x y : R) (last : option nat)
    (p first : nat) : Prop :=
  length h' = S (length h) /\
  (forall q, nextf h' q =
     if decide (q = p) then Some first
     else if decide (last = Some q) then Some p else nextf h q) /\
  (forall q, prevf h' q =
     if decide (q = p) then Some (default p last)
     else if decide (q = first) then Some p else prevf h q) /\
  (forall q, nextZf h' q = if decide (q = p) then None else nextZf h q) /\
  (forall q, prevZf h' q = if decide (q = p) then None else prevZf h q) /\
  (forall q, dataf h' q =
     if decide (q = p) then Some (i, x, y, None, false) else dataf h q).

Lemma insertNode_first h t i x y :
  exists h',
    insertNode i x y None (mkState h t) = Ret (length h, mkState h' t) /\
    inserted h h' i x y None (length h) (length h).
Proof.
  unfold insertNode.
  destruct (alloc_spec h t (newNode i x y)) as (A & Fa & Da).
  rewrite (ST_bind_Ret _ _ _ _ _ A).
  set (p := length h) in *. set (h0 := h ++ [newNode i x y]) in *.
  assert (V0 : is_Some (h0 !! p)).
  { apply lookup_lt_is_Some. subst h0 p. rewrite length_app. simpl. lia. }
  destruct (upd_field Fprev h0 t p (Some p) V0) as (h1 & U1 & L1 & F1 & D1).
  rewrite (ST_bind_Ret _ _ _ _ _ U1).
  destruct (upd_field Fnext h1 t p (Some p) (valid_length _ _ _ L1 V0))
    as (h2 & U2 & L2 & F2 & D2).
  rewrite (ST_bind_Ret _ _ _ _ _ U2).
  exists h2. split; [done|]. unfold inserted.
  split. { rewrite L2, L1. subst h0 p. rewrite length_app. simpl. lia. }
  repeat split; intros q.
  - rewrite F2, F1, Fa. repeat case_decide; try done; naive_solver.
  - rewrite F2, F1, Fa. repeat case_decide; try done; naive_solver.
  - rewrite F2, F1, Fa. repeat case_decide; try done; naive_solver.
  - rewrite F2, F1, Fa. repeat case_decide; try done; naive_solver.
  - rewrite D2, D1, Da. by case_decide.
Qed.

Lemma insertNode_after h t i x y last first :
  nextf h last = Some first -> is_Some (h !! first) ->
  exists h',
    insertNode i x y (Some last) (mkState h t) = Ret (length h, mkState h' t) /\
    inserted h h' i x y (Some last) (length h) first.
Proof.
  intros Hlf Vf. unfold insertNode.
  assert (Vl : is_Some (h !! last)) by (by eapply fieldf_valid).
  destruct (alloc_spec h t (newNode i x y)) as (A & Fa & Da).
  rewrite (ST_bind_Ret _ _ _ _ _ A).
  set (p := length h) in *. set (h0 := h ++ [newNode i x y]) in *.
  assert (L0 : length h0 = S (length h)).
  { subst h0. rewrite length_app. simpl. lia. }
  assert (Hlp : last <> p).
  { apply lookup_lt_is_Some in Vl. subst p. lia. }
  assert (Hfp : first <> p).
  { apply lookup_lt_is_Some in Vf. subst p. lia. }
  assert (V0 : forall q, (q <= p)%nat -> is_Some (h0 !! q)).
  { intros q Hq. apply lookup_lt_is_Some. lia. }
  (* p.next = last.next *)
  assert (R1 : fld n_next (Some last) h0 = Ret (Some first)).
  { destruct (V0 last) as [nl El]. { apply lookup_lt_is_Some in Vl. lia. }
    rewrite (fld_Some n_next _ _ _ El). f_equal.
    change (getf Fnext nl = Some first).
    destruct (node_fields _ _ _ El) as (_ & Fl & _). rewrite <- Fl, Fa.
    by rewrite decide_False. }
  rewrite (ST_bind_Ret _ _ _ _ _ (rd_Ret _ _ _ _ R1)).
  destruct (upd_field Fnext h0 t p (Some first) (V0 p (le_n _)))
    as (h1 & U1 & L1 & F1 & D1).
  rewrite (ST_bind_Ret _ _ _ _ _ U1).
  (* p.prev = last *)
  destruct (upd_field Fprev h1 t p (Some last) (valid_length _ _ _ L1 (V0 p (le_n _))))
    as (h2 & U2 & L2 & F2 & D2).
  rewrite (ST_bind_Ret _ _ _ _ _ U2).
  (* last.next.prev = p *)
  assert (V2 : forall q, (q <= p)%nat -> is_Some (h2 !! q)).
  { intros q Hq. apply lookup_lt_is_Some. lia. }
  assert (R2 : fld n_next (Some last) h2 = Ret (Some first)).
  { destruct (V2 last) as [nl El]. { apply lookup_lt_is_Some in Vl. lia. }
    rewrite (fld_Some n_next _ _ _ El). f_equal.
    change (getf Fnext nl = Some first).
    destruct (node_fields _ _ _ El) as (_ & Fl & _). rewrite <- Fl, F2, F1, Fa.
    repeat case_decide; try done; naive_solver. }
  rewrite (ST_bind_Ret _ _ _ _ _ (rd_Ret _ _ _ _ R2)).
  destruct (upd_field Fprev h2 t first (Some p)) as (h3 & U3 & L3 & F3 & D3).
  { apply V2. apply lookup_lt_is_Some in Vf. lia. }
  rewrite (ST_bind_Ret _ _ _ _ _ U3).
  (* last.next = p *)
  destruct (upd_field Fnext h3 t last (Some p)) as (h4 & U4 & L4 & F4 & D4).
  { apply lookup_lt_is_Some. apply lookup_lt_is_Some in Vl. lia. }
  rewrite (ST_bind_Ret _ _ _ _ _ U4).
  exists h4. split; [done|]. unfold inserted.
  split; [lia|].
  repeat split; intros q.
  - rewrite F4, F3, F2, F1, Fa. repeat case_decide; try done; naive_solver.
  - rewrite F4, F3, F2, F1, Fa. simpl. repeat case_decide; try done; naive_solver.
  - rewrite F4, F3, F2, F1, Fa. repeat case_decide; try done; naive_solver.
  - rewrite F4, F3, F2, F1, Fa. repeat case_decide; try done; naive_solver.
  - rewrite D4, D3, D2, D1, Da. by case_decide.
Qed.

Lemma ring_close h l fr lst :
  ring h l -> head l = Some fr -> last l = Some lst ->
  nextf h lst = Some fr /\ prevf h fr = Some lst.
Proof.
  destruct l as [|a r]; [done|]. intros Hr [= <-] Hlast.
  destruct (ring_head _ _ _ Hr) as [_ Hp]. destruct Hr as [_ Hl].
  destruct r as [|b front _] using rev_ind.
  - simpl in *. injection Hlast as <-. tauto.
  - rewrite app_comm_cons, last_snoc in Hlast. injection Hlast as <-.
    apply links_app in Hl as (_ & Hl & Hl'). simpl in *. tauto.
Qed.

Lemma inserted_ring_first h h' i x y p :
  inserted h h' i x y None p p -> ring h' [p].
Proof.
  intros (_ & Fn & Fp & _). split; [apply NoDup_singleton|]. simpl.
  rewrite Fn, Fp. by rewrite !decide_True.
Qed.

Lemma inserted_ring_after h h' i x y l fr lst p :
  ring h l -> head l = Some fr -> last l = Some lst -> p ∉ l ->
  inserted h h' i x y (Some lst) p fr -> ring h' (l ++ [p]).
Proof.
  intros Hr Hfr Hlst Hp (_ & Fn & Fp & _).
  destruct l as [|a r]; [done|]. injection Hfr as ->.
  destruct Hr as [Hnd Hl]. simpl. split.
  - rewrite app_comm_cons. apply NoDup_app. repeat split; [done| |apply NoDup_singleton].
    intros q Hq Hqp. apply list_elem_of_singleton in Hqp as ->. done.
  - destruct r as [|b front _] using rev_ind.
    + simpl in *. injection Hlst as ->. rewrite !Fn, !Fp.
      assert (lst <> p) by set_solver.
      repeat case_decide; try done; naive_solver.
    + rewrite app_comm_cons, last_snoc in Hlst. injection Hlst as ->.
      apply links_app in Hl as (Hl1 & Hl2 & Hl3). simpl in Hl2, Hl3.
      apply NoDup_cons in Hnd as [Hfr Hnd]. apply NoDup_app in Hnd as (Hndf & Hdisj & _).
      assert (Hlf : lst ∉ front).
      { intros Hx. apply (Hdisj lst Hx). set_solver. }
      rewrite <- app_assoc. apply links_app. split.
      * eapply links_frame; [| |exact Hl1].
        -- intros q Hq. rewrite Fn. rewrite decide_False by set_solver.
           rewrite decide_False; [done|]. intros [= ->]. set_solver.
        -- intros q Hq. rewrite Fp. rewrite decide_False by set_solver.
           rewrite decide_False; [done|]. set_solver.
      * simpl. rewrite !Fn, !Fp.
        assert (fr <> p) by set_solver. assert (lst <> p) by set_solver.
        repeat case_decide; try done; naive_solver.
Qed.

(** Arithmetic progressions of offsets. *)
Fixpoint iota (i step : Z) (n : nat) : list Z :=
  match n with
  | O => []
  | S n' => i :: iota (i + step) step n'
  end.

Lemma iota_length i step n : length (iota i step n) = n.
Proof. revert i. induction n; intros; simpl; [done|]. by rewrite IHn. Qed.

Lemma iota_lookup i step n j :
  (j < n)%nat -> iota i step n !! j = Some (i + Z.of_nat j * step).
Proof.
  revert i j. induction n as [|n IH]; intros i j Hj; [lia|].
  destruct j as [|j]; simpl.
  - f_equal. lia.
  - rewrite IH by lia. f_equal. lia.
Qed.

(** [built h0 h idxs]: [h] extends [h0] by one fresh node per offset of
    [idxs], in this order, linked into one ring. *)
Definition built (data : list R) (h0 h : list Node) (idxs : list Z) : Prop :=
  length h = (length h0 + length idxs)%nat /\
  (idxs <> [] -> ring h (seq (length h0) (length idxs))) /\
  (forall j i, idxs !! j = Some i ->
     dataf h (length h0 + j) = Some (i, get data i, get data (i + 1), None, false) /\
     nextZf h (length h0 + j) = None /\ prevZf h (length h0 + j) = None) /\
  (forall q, (q < length h0)%nat ->
     (forall F, fieldf F h q = fieldf F h0 q) /\ dataf h q = dataf h0 q).

Definition last_built (h0 : list Node) (idxs : list Z) : option nat :=
  match idxs with
  | [] => None
  | _ => Some (length h0 + length idxs - 1)%nat
  end.

Lemma built_nil data h0 : built data h0 h0 [].
Proof.
  split; [simpl; lia|]. split; [done|]. split; [intros j i; by rewrite lookup_nil|].
  done.
Qed.

Lemma built_insert data h0 h t idxs i :
  built data h0 h idxs ->
  exists h',
    insertNode i (get data i) (get data (i + 1)) (last_built h0 idxs) (mkState h t) =
      Ret ((length h0 + length idxs)%nat, mkState h' t) /\
    built data h0 h' (idxs ++ [i]).
Proof.
  intros (L & Hr & Hd & Ho).
  destruct idxs as [|i0 r].
  - simpl in *. rewrite Nat.add_0_r in *.
    destruct (insertNode_first h t i (get data i) (get data (i + 1)))
      as (h' & E & Hins).
    rewrite L in *. exists h'. split; [done|].
    pose proof (inserted_ring_first _ _ _ _ _ _ Hins) as Hr'.
    destruct Hins as (L' & Fn & Fp & FnZ & FpZ & D).
    split; [simpl; lia|]. split; [done|]. split.
    + intros [|j] i'; simpl; [|by rewrite lookup_nil]. intros [= <-].
      rewrite Nat.add_0_r, D, FnZ, FpZ. by rewrite !decide_True.
    + intros q Hq. destruct (Ho q Hq) as [Hf Hdq]. split.
      * intros F. rewrite <- Hf. destruct F.
        -- rewrite Fp. simpl. rewrite !decide_False by lia. done.
        -- rewrite Fn. simpl. rewrite !decide_False by (try intros [=]; lia). done.
        -- rewrite FpZ. by rewrite decide_False by lia.
        -- rewrite FnZ. by rewrite decide_False by lia.
      * rewrite D. by rewrite decide_False by lia.
  - set (idxs := i0 :: r) in *. assert (Hne : idxs <> []) by done.
    assert (Hk : (0 < length idxs)%nat) by (simpl; lia).
    specialize (Hr Hne).
    assert (Hlast : last_built h0 idxs = Some (length h0 + length idxs - 1)%nat) by done.
    rewrite Hlast. clearbody idxs.
    assert (Hhd : head (seq (length h0) (length idxs)) = Some (length h0)).
    { destruct (length idxs); [lia|done]. }
    assert (Hla : last (seq (length h0) (length idxs)) =
                  Some (length h0 + length idxs - 1)%nat).
    { destruct (length idxs) as [|k]; [lia|]. rewrite seq_S, last_snoc. f_equal. lia. }
    destruct (ring_close _ _ _ _ Hr Hhd Hla) as [Hn _].
    destruct (insertNode_after h t i (get data i) (get data (i + 1)) _ _ Hn)
      as (h' & E & Hins).
    { eapply ring_valid; [exact Hr|]. apply elem_of_seq. lia. }
    rewrite L in E. exists h'. split; [done|].
    assert (Hp : length h ∉ seq (length h0) (length idxs)).
    { rewrite elem_of_seq. lia. }
    pose proof (inserted_ring_after _ _ _ _ _ _ _ _ _ Hr Hhd Hla Hp Hins) as Hr'.
    destruct Hins as (L' & Fn & Fp & FnZ & FpZ & D).
    split; [rewrite length_app; simpl; lia|]. split.
    { intros _. rewrite length_app. simpl. rewrite Nat.add_1_r, seq_S.
      by rewrite <- L. }
    split.
    + intros j i' Hj. rewrite D, FnZ, FpZ.
      destruct (decide (j < length idxs)%nat) as [Hlt|Hge].
      * rewrite lookup_app_l in Hj by done. rewrite !decide_False by lia.
        by apply Hd.
      * rewrite lookup_app_r in Hj by lia.
        destruct (j - length idxs)%nat as [|?] eqn:Ej; simpl in Hj; [|by rewrite lookup_nil in Hj].
        injection Hj as <-. rewrite !decide_True by lia. done.
    + intros q Hq. destruct (Ho q Hq) as [Hf Hdq]. split.
      * intros F. rewrite <- Hf. destruct F.
        -- rewrite Fp. rewrite !decide_False by lia. done.
        -- rewrite Fn. rewrite decide_False by lia.
           rewrite decide_False; [done|]. intros [= ?]. lia.
        -- rewrite FpZ. by rewrite decide_False by lia.
        -- rewrite FnZ. by rewrite decide_False by lia.
      * rewrite D. by rewrite decide_False by lia.
Qed.

Lemma last_built_snoc h0 idxs i :
  last_built h0 (idxs ++ [i]) = Some (length h0 + length idxs)%nat.
Proof.
  unfold last_built. destruct (idxs ++ [i]) eqn:E.
  - by destruct idxs.
  - rewrite <- E, length_app. simpl. f_equal. lia.
Qed.

Lemma linkedList_forward_spec data h0 t dim end_ :
  0 < dim ->
  forall n done i h fuel,
    built data h0 h done -> end_ = i + Z.of_nat n * dim -> (n < fuel)%nat ->
    exists h',
      linkedList_forward fuel data i end_ dim (last_built h0 done) (mkState h t) =
        Ret (last_built h0 (done ++ iota i dim n), mkState h' t) /\
      built data h0 h' (done ++ iota i dim n).
Proof.
  intros Hdim. induction n as [|n IH]; intros done i h fuel Hb He Hf;
    (destruct fuel as [|f]; [lia|]); simpl.
  - rewrite app_nil_r. destruct (Z.ltb_spec i end_); [lia|]. by exists h.
  - destruct (Z.ltb_spec i end_); [|lia].
    destruct (built_insert data h0 h t done i Hb) as (h1 & E1 & Hb1).
    rewrite (ST_bind_Ret _ _ _ _ _ E1).
    destruct (IH (done ++ [i]) (i + dim) h1 f Hb1) as (h' & E & Hb'); [lia|lia|].
    rewrite last_built_snoc in E. rewrite <- app_assoc in E, Hb'. by exists h'.
Qed.

Lemma linkedList_backward_spec data h0 t dim start :
  0 < dim ->
  forall n done i h fuel,
    built data h0 h done -> i + dim = start + Z.of_nat n * dim -> (n < fuel)%nat ->
    exists h',
      linkedList_backward fuel data i start dim (last_built h0 done) (mkState h t) =
        Ret (last_built h0 (done ++ iota i (- dim) n), mkState h' t) /\
      built data h0 h' (done ++ iota i (- dim) n).
Proof.
  intros Hdim. induction n as [|n IH]; intros done i h fuel Hb He Hf;
    (destruct fuel as [|f]; [lia|]); simpl.
  - rewrite app_nil_r. destruct (Z.leb_spec start i); [lia|]. by exists h.
  - destruct (Z.leb_spec start i); [|lia].
    destruct (built_insert data h0 h t done i Hb) as (h1 & E1 & Hb1).
    rewrite (ST_bind_Ret _ _ _ _ _ E1).
    destruct (IH (done ++ [i]) (i - dim) h1 f Hb1) as (h' & E & Hb'); [lia|lia|].
    rewrite last_built_snoc in E. rewrite <- app_assoc in E, Hb'.
    replace (i + - dim) with (i - dim) by lia. by exists h'.
Qed.

(** The offsets of a span of [n] vertices in the order [linkedList] inserts
    them, and whether the last inserted vertex coincides with the first. *)
Definition span_idxs (start end_ dim : Z) (n : nat) (forward : bool) : list Z :=
  if forward then iota start dim n else iota (end_ - dim) (- dim) n.

Definition span_dup (data : list R) (idxs : list Z) : bool :=
  match head idxs, last idxs with
  | Some i0, Some il =>
      feq (get data il) (get data i0) && feq (get data (il + 1)) (get data (i0 + 1))
  | _, _ => false
  end.

Definition span_area (data : list R) (start end_ dim : Z) (area_ : option R) : R :=
  match area_ with
  | None => getPolygonSignedArea data start end_ dim
  | Some a => a
  end.

Lemma span_idxs_length start end_ dim n fw :
  length (span_idxs start end_ dim n fw) = n.
Proof. unfold span_idxs. destruct fw; apply iota_length. Qed.

Lemma dataf_node (h : list Node) p n i x y z st :
  h !! p = Some n -> dataf h p = Some (i, x, y, z, st) ->
  n_i n = i /\ n_x n = x /\ n_y n = y.
Proof. unfold dataf. intros ->. simpl. unfold payload. by intros [= -> -> -> _ _]. Qed.

Lemma linkedList_core data start end_ dim cw ar h t fuel n :
  0 < dim -> end_ = start + Z.of_nat n * dim -> (n < fuel)%nat ->
  let idxs := span_idxs start end_ dim n
                (Bool.eqb cw (flt (span_area data start end_ dim ar) (num 0))) in
  let dup := span_dup data idxs in
  exists h',
    linkedList fuel data start end_ dim cw ar (mkState h t) =
      Ret (match n with
           | O => None
           | S k => Some (if dup then length h else length h + k)%nat
           end, mkState h' t) /\
    length h' = (length h + n)%nat /\
    (n <> O -> ring h' (seq (length h) (if dup && (1 <? n)%nat then n - 1 else n))) /\
    (forall j i, idxs !! j = Some i ->
       dataf h' (length h + j) = Some (i, get data i, get data (i + 1), None, false)) /\
    (forall q, (q < length h)%nat ->
       (forall F, fieldf F h' q = fieldf F h q) /\ dataf h' q = dataf h q).
Proof.
  intros Hdim He Hf idxs dup. unfold linkedList.
  fold (span_area data start end_ dim ar).
  assert (Hloop : exists h1,
    (if Bool.eqb cw (flt (span_area data start end_ dim ar) (num 0))
     then linkedList_forward fuel data start end_ dim None
     else linkedList_backward fuel data (end_ - dim) start dim None) (mkState h t) =
      Ret (last_built h idxs, mkState h1 t) /\ built data h h1 idxs).
  { subst idxs. unfold span_idxs. destruct (Bool.eqb _ _).
    - apply (linkedList_forward_spec data h t dim end_ Hdim n [] start h fuel);
        [apply built_nil|done|done].
    - apply (linkedList_backward_spec data h t dim start Hdim n [] (end_ - dim) h fuel);
        [apply built_nil|lia|done]. }
  destruct Hloop as (h1 & E1 & Hb). rewrite (ST_bind_Ret _ _ _ _ _ E1).
  assert (Hlen : length idxs = n) by apply span_idxs_length.
  destruct Hb as (L1 & Hr & Hd & Ho). rewrite Hlen in L1, Hr.
  destruct n as [|k].
  { destruct idxs; [|done]. simpl. exists h1. split; [done|]. split; [lia|].
    split; [done|]. split; [|done]. intros j i Hj. by rewrite lookup_nil in Hj. }
  assert (Hne : idxs <> []) by (by destruct idxs).
  specialize (Hr Hne).
  assert (Hlast : last_built h idxs = Some (length h + k)%nat).
  { unfold last_built. destruct idxs; [done|]. rewrite Hlen. f_equal. lia. }
  rewrite Hlast.
  (* equals(last, last.next) *)
  assert (Hhd : head (seq (length h) (S k)) = Some (length h)) by done.
  assert (Hla : last (seq (length h) (S k)) = Some (length h + k)%nat).
  { by rewrite seq_S, last_snoc. }
  destruct (ring_close _ _ _ _ Hr Hhd Hla) as [Hn Hp].
  assert (Vl : is_Some (h1 !! (length h + k)%nat)) by (by eapply fieldf_valid).
  assert (Vf : is_Some (h1 !! length h)) by (by eapply fieldf_valid).
  destruct Vl as [nl El]. destruct Vf as [nf Ef].
  assert (Rn : fld n_next (Some (length h + k)%nat) h1 = Ret (Some (length h))).
  { rewrite (fld_Some n_next _ _ _ El). f_equal.
    unfold fieldf in Hn. by rewrite El in Hn. }
  rewrite (ST_bind_Ret _ _ _ _ _ (rd_Ret _ _ _ _ Rn)).
  assert (Hi0 : exists i0, idxs !! 0%nat = Some i0).
  { destruct idxs; [done|by eexists]. }
  assert (Hil : exists il, idxs !! k = Some il).
  { apply lookup_lt_is_Some. lia. }
  destruct Hi0 as [i0 Hi0]. destruct Hil as [il Hil].
  assert (Hdup : equals nl nf = dup).
  { subst dup. unfold span_dup.
    replace (head idxs) with (Some i0) by (by destruct idxs).
    replace (last idxs) with (Some il).
    2:{ rewrite last_lookup, Hlen. simpl. by rewrite Hil. }
    destruct (Hd _ _ Hi0) as (D0 & _). destruct (Hd _ _ Hil) as (Dl & _).
    rewrite Nat.add_0_r in D0.
    destruct (dataf_node _ _ _ _ _ _ _ _ Ef D0) as (_ & Hx0 & Hy0).
    destruct (dataf_node _ _ _ _ _ _ _ _ El Dl) as (_ & Hx & Hy).
    unfold equals. by rewrite Hx, Hy, Hx0, Hy0. }
  assert (Re : equalsP (Some (length h + k)%nat) (Some (length h)) h1 = Ret dup).
  { unfold equalsP. rewrite (RD_bind_Ret _ _ _ _ (node_Some _ _ _ El)).
    rewrite (RD_bind_Ret _ _ _ _ (node_Some _ _ _ Ef)). by rewrite <- Hdup. }
  rewrite (ST_bind_Ret _ _ _ _ _ (rd_Ret _ _ _ _ Re)).
  assert (HZl : forall q, prevZf h1 (length h + k)%nat = Some q \/
                          nextZf h1 (length h + k)%nat = Some q -> is_Some (h1 !! q)).
  { destruct (Hd _ _ Hil) as (_ & -> & ->). by intros q [?|?]. }
  destruct dup eqn:Edup; simpl.
  2:{ exists h1. split; [done|]. split; [lia|]. split; [done|]. split; [|done].
      intros j i Hj. by destruct (Hd _ _ Hj) as [? _]. }
  (* removeNode(last); last = last.next *)
  destruct k as [|k'].
  - (* a single node: unlinking it from itself changes nothing *)
    rewrite Nat.add_0_r in *.
    destruct (removeNode_spec h1 t (length h) (length h) (length h) HZl Hp Hn)
      as (h2 & E2 & L2 & Fn & Fp & FnZ & FpZ & D2); [by eexists|by eexists|].
    rewrite (ST_bind_Ret _ _ _ _ _ E2).
    assert (Rn2 : fld n_next (Some (length h)) h2 = Ret (Some (length h))).
    { destruct (valid_length h1 h2 (length h) L2) as [n2 E2']; [by eexists|].
      rewrite (fld_Some n_next _ _ _ E2'). f_equal.
      change (getf Fnext n2 = Some (length h)).
      destruct (node_fields _ _ _ E2') as (_ & F2 & _). rewrite <- F2, Fn.
      by rewrite decide_True. }
    rewrite (rd_Ret _ _ _ _ Rn2). exists h2. split; [done|].
    split; [lia|]. split.
    { intros _. simpl. split; [apply NoDup_singleton|]. simpl.
      rewrite Fn, Fp. by rewrite !decide_True. }
    split.
    + intros j i Hj. rewrite D2. by destruct (Hd _ _ Hj) as [? _].
    + intros q Hq. destruct (Ho q Hq) as [Hof Hod]. split; [|by rewrite D2].
      intros F. rewrite <- Hof. destruct (Hd _ _ Hil) as (_ & Hz1 & Hz2).
      rewrite Nat.add_0_r in Hz1, Hz2.
      destruct F.
      * rewrite Fp. by rewrite decide_False by lia.
      * rewrite Fn. by rewrite decide_False by lia.
      * rewrite FpZ, Hz1. by rewrite decide_False.
      * rewrite FnZ, Hz2. by rewrite decide_False.
  - rewrite seq_S in Hr. apply ring_rotate_back in Hr.
    destruct (removeNode_ring h1 t _ _ HZl Hr)
      as (h2 & E2 & Hr2 & _ & L2 & Fr & FnZ & FpZ & D2).
    { done. }
    rewrite (ST_bind_Ret _ _ _ _ _ E2).
    assert (Hnotin : (length h + S k')%nat ∉ seq (length h) (S k')).
    { rewrite elem_of_seq. lia. }
    assert (Rn2 : fld n_next (Some (length h + S k')%nat) h2 = Ret (Some (length h))).
    { destruct (valid_length h1 h2 (length h + S k')%nat L2) as [n2 E2']; [by eexists|].
      rewrite (fld_Some n_next _ _ _ E2'). f_equal.
      change (getf Fnext n2 = Some (length h)).
      destruct (node_fields _ _ _ E2') as (_ & F2 & _). rewrite <- F2.
      destruct (Fr _ Hnotin) as [-> _]. done. }
    rewrite (rd_Ret _ _ _ _ Rn2). exists h2. split; [done|].
    split; [lia|]. split.
    { intros _. exact Hr2. }
    split.
    + intros j i Hj. rewrite D2. by destruct (Hd _ _ Hj) as [? _].
    + intros q Hq. destruct (Ho q Hq) as [Hof Hod]. split; [|by rewrite D2].
      intros F. rewrite <- Hof. destruct (Hd _ _ Hil) as (_ & Hz1 & Hz2).
      assert (Hq' : q ∉ seq (length h) (S k')) by (rewrite elem_of_seq; lia).
      destruct (Fr _ Hq') as [Fr1 Fr2].
      destruct F; [done|done| |].
      * rewrite FpZ, Hz1. by rewrite decide_False.
      * rewrite FnZ, Hz2. by rewrite decide_False.
Qed.

Lemma linkedList_empty data start end_ dim cw ar s fuel :
  0 < dim -> end_ <= start -> (0 < fuel)%nat ->
  linkedList fuel data start end_ dim cw ar s = Ret (None, s).
Proof.
  intros Hdim Hle Hf. destruct fuel as [|f]; [lia|].
  unfold linkedList. destruct (Bool.eqb _ _); simpl.
  - by destruct (Z.ltb_spec start end_); [lia|].
  - by destruct (Z.leb_spec start (end_ - dim)); [lia|].
Qed.

(** Two vertices of [data], at offsets [i] and [i'], coincide. *)
Definition coincide (data : list R) (i i' : Z) : bool :=
  feq (get data i) (get data i') && feq (get data (i + 1)) (get data (i' + 1)).

(** C5. [linkedList] on the span [[start, end)]: [undefined] when the span
    is empty; otherwise one fresh node per vertex, inserted in forward index
    order exactly when [clockwise === (area < 0)] and in reverse index order
    otherwise, linked into a ring in insertion order; when the last inserted
    vertex coincides with the first inserted one (and is another node), it
    is unlinked again and the first inserted node is returned, otherwise the
    last inserted node is.  [n] is the number of vertices of the span. *)
Theorem linkedList_spec data start end_ dim cw ar h t fuel n :
  0 < dim ->
  (n = O /\ end_ <= start) \/ end_ = start + Z.of_nat n * dim ->
  (n < fuel)%nat ->
  let forward := Bool.eqb cw (flt (span_area data start end_ dim ar) (num 0)) in
  let idxs := if forward then iota start dim n else iota (end_ - dim) (- dim) n in
  let dup := span_dup data idxs in
  exists h',
    linkedList fuel data start end_ dim cw ar (mkState h t) =
      Ret (match n with
           | O => None
           | S k => Some (if dup then length h else length h + k)%nat
           end, mkState h' t) /\
    (n <> O -> ring h' (seq (length h) (if dup && (1 <? n)%nat then n - 1 else n))) /\
    (forall j i, idxs !! j = Some i ->
       dataf h' (length h + j) = Some (i, get data i, get data (i + 1), None, false)) /\
    (forall q, (q < length h)%nat -> h' !! q = h !! q).
Proof.
  intros Hdim [[-> Hle]|He] Hf forward idxs dup.
  - exists h. split; [by apply linkedList_empty|]. split; [done|].
    split; [|done]. subst idxs. intros j i. destruct forward; simpl; by rewrite lookup_nil.
  - destruct (linkedList_core data start end_ dim cw ar h t fuel n Hdim He Hf)
      as (h' & E & L & Hr & Hd & Ho).
    exists h'. split; [exact E|]. split; [exact Hr|]. split; [exact Hd|].
    intros q Hq. destruct (Ho q Hq) as [Hf' Hd'].
    assert (Vq : is_Some (h !! q)) by (by apply lookup_lt_is_Some).
    assert (Vq' : is_Some (h' !! q)) by (apply lookup_lt_is_Some; lia).
    destruct Vq as [nq Eq]. destruct Vq' as [nq' Eq']. rewrite Eq, Eq'. f_equal.
    pose proof (Hf' Fprev) as H1. pose proof (Hf' Fnext) as H2.
    pose proof (Hf' FprevZ) as H3. pose proof (Hf' FnextZ) as H4.
    unfold fieldf, dataf in *. rewrite Eq, Eq' in *. simpl in *.
    unfold payload in Hd'. destruct nq, nq'. simpl in *. by simplify_eq.
Qed.

(** C8, as amended.  [linkedList] removes no node but a trailing duplicate of
    the first inserted vertex: the ring holds the first [m] inserted nodes,
    where [m] is [n], or [n - 1] when the last inserted vertex coincides
    with the first; consecutive inserted vertices stay consecutive nodes of
    the ring, and such nodes are coincident exactly when the two input
    vertices are. *)
Theorem linkedList_keeps_inner_duplicates data start end_ dim cw ar h t fuel n :
  0 < dim -> end_ = start + Z.of_nat (S n) * dim -> (S n < fuel)%nat ->
  let forward := Bool.eqb cw (flt (span_area data start end_ dim ar) (num 0)) in
  let idxs := if forward then iota start dim (S n) else iota (end_ - dim) (- dim) (S n) in
  let m := if span_dup data idxs && (1 <? S n)%nat then n else S n in
  exists h' ret,
    linkedList fuel data start end_ dim cw ar (mkState h t) =
      Ret (Some ret, mkState h' t) /\
    ring h' (seq (length h) m) /\
    forall j i i', idxs !! j = Some i -> idxs !! S j = Some i' -> (S j < m)%nat ->
      exists nj nj',
        h' !! (length h + j)%nat = Some nj /\
        h' !! (length h + S j)%nat = Some nj' /\
        n_next nj = Some (length h + S j)%nat /\
        equals nj nj' = coincide data i i'.
Proof.
  intros Hdim He Hf forward idxs m.
  destruct (linkedList_core data start end_ dim cw ar h t fuel (S n) Hdim He Hf)
    as (h' & E & L & Hr & Hd & Ho).
  fold forward in E, Hr, Hd. unfold span_idxs in E, Hr, Hd. fold idxs in E, Hr, Hd.
  specialize (Hr ltac:(done)).
  assert (Hm : seq (length h) (if span_dup data idxs && (1 <? S n)%nat
                               then S n - 1 else S n) = seq (length h) m).
  { subst m. destruct (_ && _); [|done]. f_equal. lia. }
  rewrite Hm in Hr.
  eexists h', _. split; [exact E|]. split; [exact Hr|].
  intros j i i' Hj Hj' Hlt.
  assert (H1 : seq (length h) m !! j = Some (length h + j)%nat).
  { apply lookup_seq. lia. }
  assert (H2 : seq (length h) m !! S j = Some (length h + S j)%nat).
  { apply lookup_seq. lia. }
  destruct (ring_lookup _ _ _ _ _ Hr H1 H2) as [Hn Hp].
  assert (V1 : is_Some (h' !! (length h + j)%nat)) by (by eapply fieldf_valid).
  assert (V2 : is_Some (h' !! (length h + S j)%nat)) by (by eapply fieldf_valid).
  destruct V1 as [nj E1]. destruct V2 as [nj' E2].
  exists nj, nj'. split; [done|]. split; [done|]. split.
  - unfold fieldf in Hn. by rewrite E1 in Hn.
  - destruct (dataf_node _ _ _ _ _ _ _ _ E1 (Hd _ _ Hj)) as (_ & Hx & Hy).
    destruct (dataf_node _ _ _ _ _ _ _ _ E2 (Hd _ _ Hj')) as (_ & Hx' & Hy').
    unfold equals, coincide. by rewrite Hx, Hy, Hx', Hy'.
Qed.

Implicit Types (h : list Node) (t : list Q).

(** * Termination of the ear-clipping engine *)

(** ** The z-order chain under [removeNode] *)

Lemma zlinks_frame h h' prev l :
  (forall x, x ∈ l -> nextZf h' x = nextZf h x /\ prevZf h' x = prevZf h x) ->
  zlinks h prev l -> zlinks h' prev l.
Proof.
  revert prev. induction l as [|a r IH]; intros prev Hf; simpl; [done|].
  intros (H1 & H2 & H3). destruct (Hf a) as [-> ->]; [set_solver|].
  repeat split; try done. apply IH; [|done]. intros x Hx. apply Hf. set_solver.
Qed.

Lemma zlinks_mid h prev z1 p z2 :
  zlinks h prev (z1 ++ p :: z2) ->
  prevZf h p = from_option Some prev (last z1) /\ nextZf h p = head z2.
Proof.
  revert prev. induction z1 as [|a z1 IH]; intros prev; simpl.
  - tauto.
  - intros (_ & _ & H3). destruct (IH _ H3) as [-> ->]. split; [|done].
    destruct z1 as [|b z1] using rev_ind; [done|].
    by rewrite app_comm_cons, !last_snoc.
Qed.

Lemma zlinks_remove h h' z1 p z2 prev :
  NoDup (z1 ++ p :: z2) ->
  (forall q, prev = Some q -> q ∉ z1 ++ p :: z2) ->
  zlinks h prev (z1 ++ p :: z2) ->
  (forall x, nextZf h' x =
             if decide (prevZf h p = Some x) then nextZf h p else nextZf h x) ->
  (forall x, prevZf h' x =
             if decide (nextZf h p = Some x) then prevZf h p else prevZf h x) ->
  zlinks h' prev (z1 ++ z2).
Proof.
  intros Hnd Hprev Hz FnZ FpZ. destruct (zlinks_mid _ _ _ _ _ Hz) as [Hpp Hpn].
  revert prev Hprev Hz Hpp. induction z1 as [|a z1 IH]; intros prev Hprev Hz Hpp.
  - simpl in *. destruct Hz as (_ & _ & Hz).
    apply NoDup_cons in Hnd as [Hp Hnd].
    destruct z2 as [|b z2]; [done|]. simpl in *.
    destruct Hz as (H1 & H2 & H3). apply NoDup_cons in Hnd as [Hb Hnd].
    rewrite FpZ, FnZ, Hpn, Hpp. rewrite decide_True by done.
    rewrite decide_False.
    2:{ intros ->. apply (Hprev b eq_refl). set_solver. }
    repeat split; try done.
    eapply zlinks_frame; [|exact H3]. intros x Hx.
    rewrite FpZ, FnZ, Hpn, Hpp. rewrite !decide_False; [done| |].
    + intros [= ->]. done.
    + intros ->. apply (Hprev x eq_refl). set_solver.
  - simpl in Hz. destruct Hz as (H1 & H2 & H3).
    simpl in Hnd. apply NoDup_cons in Hnd as [Ha Hnd].
    simpl. split; [|split].
    + rewrite FpZ, Hpn. rewrite decide_False; [done|].
      intros E. destruct z2 as [|b z2]; [done|]. simpl in E. injection E as ->.
      set_solver.
    + rewrite FnZ, Hpp. destruct z1 as [|c z1] using rev_ind.
      * simpl. rewrite decide_True by done. by rewrite Hpn.
      * rewrite app_comm_cons, last_snoc. simpl.
        rewrite decide_False.
        2:{ intros [= ->]. set_solver. }
        rewrite H2. by destruct (z1 ++ [c]) eqn:E; [destruct z1|].
    + apply IH; try done.
      * intros q [= <-]. done.
      * rewrite Hpp. destruct z1 as [|c z1] using rev_ind; [done|].
        by rewrite app_comm_cons, !last_snoc.
Qed.

Lemma zchain_remove h h' zl p :
  zchain h zl -> p ∈ zl ->
  (forall x, nextZf h' x =
             if decide (prevZf h p = Some x) then nextZf h p else nextZf h x) ->
  (forall x, prevZf h' x =
             if decide (nextZf h p = Some x) then prevZf h p else prevZf h x) ->
  exists zl', zchain h' zl' /\ zl ≡ₚ p :: zl'.
Proof.
  intros [Hnd Hz] Hp FnZ FpZ.
  apply list_elem_of_split in Hp as (z1 & z2 & ->).
  exists (z1 ++ z2). split.
  - split.
    + apply NoDup_app in Hnd as (H1 & H2 & H3). apply NoDup_cons in H3 as [H3 H4].
      apply NoDup_app. repeat split; try done. intros x Hx Hx2. apply (H2 x Hx). set_solver.
    + eapply zlinks_remove; try done.
  - by rewrite Permutation_middle.
Qed.

(** ** The state of a ring under the engine *)

(** [ring_st z h l]: no pointer dangles, [l] is a ring and, when the z-order
    index is in use ([z]), its nodes form a z-order chain. *)
Definition ring_st (z : bool) h (l : list nat) : Prop :=
  wf h /\ ring h l /\ (z = true -> exists zl, zl ≡ₚ l /\ zchain h zl).

(** [coords_from h h']: every node of [h'] carries the coordinates of a node
    of [h]. *)
Definition coords_from h h' : Prop :=
  forall x n', h' !! x = Some n' ->
    exists y n, h !! y = Some n /\ n_x n' = n_x n /\ n_y n' = n_y n.

Lemma coords_from_dataf h h' :
  (forall x, dataf h' x = dataf h x) -> coords_from h h'.
Proof.
  intros D x n' E. specialize (D x). unfold dataf in D. rewrite E in D. simpl in D.
  destruct (h !! x) as [n|] eqn:En; [|done]. exists x, n. split; [done|].
  simpl in D. unfold payload in D. by simplify_eq.
Qed.

(** [frame l h h']: [h'] keeps the nodes of [h] and, outside [l], their
    [prev] and [next]; it holds no new coordinates. *)
Definition frame (l : list nat) h h' : Prop :=
  (length h <= length h')%nat /\
  (forall x, (x < length h)%nat -> x ∉ l ->
     nextf h' x = nextf h x /\ prevf h' x = prevf h x) /\
  coords_from h h'.

Lemma frame_refl l h : frame l h h.
Proof. split; [lia|]. split; [done|]. intros x n E. by exists x, n. Qed.

Lemma frame_trans l l' h h1 h2 :
  frame l h h1 -> frame l' h1 h2 ->
  (forall x, x ∈ l' -> x ∈ l \/ (length h <= x)%nat) ->
  frame l h h2.
Proof.
  intros (L1 & F1 & C1) (L2 & F2 & C2) Hsub. split; [lia|]. split.
  - intros x Hx Hxl.
    destruct (F1 x Hx Hxl) as [<- <-]. apply F2; [lia|].
    intros Hx'. destruct (Hsub x Hx'); [done|lia].
  - intros x n2 E2. destruct (C2 x n2 E2) as (y & n1 & E1 & -> & ->).
    apply (C1 y n1 E1).
Qed.

Lemma ring_frame l h h' l0 :
  frame l h h' -> ring h l0 -> (forall x, x ∈ l0 -> x ∉ l) -> ring h' l0.
Proof.
  intros (L & F & _) Hr Hd. destruct l0 as [|a r]; [done|]. destruct Hr as [Hnd Hl].
  split; [done|]. eapply links_frame; [| |exact Hl].
  - intros x Hx. apply F; [|apply Hd; set_solver].
    apply lookup_lt_is_Some. eapply links_valid; [exact Hl|]. set_solver.
  - intros x Hx. apply F; [|apply Hd; set_solver].
    apply lookup_lt_is_Some. eapply links_valid; [exact Hl|]. set_solver.
Qed.

Lemma ring_st_valid z h l x : ring_st z h l -> x ∈ l -> is_Some (h !! x).
Proof. intros (_ & Hr & _). by apply ring_valid. Qed.

(** [removeNode] on the head of a ring of at least two nodes. *)
Lemma removeNode_st z h t p l :
  ring_st z h (p :: l) -> l <> [] ->
  exists h',
    removeNode (Some p) (mkState h t) = Ret (tt, mkState h' t) /\
    ring_st z h' l /\ frame (p :: l) h h' /\
    nextf h' p = nextf h p /\ prevf h' p = prevf h p.
Proof.
  intros (Hwf & Hr & Hz) Hne.
  destruct (removeNode_ring h t p l (wf_zvalid h p Hwf) Hr Hne)
    as (h' & E & Hr' & Hwf' & L & Fr & FnZ & FpZ & D).
  exists h'. split; [done|]. split; [|split].
  - split; [by apply Hwf'|]. split; [done|]. intros Hzt.
    destruct (Hz Hzt) as (zl & Hperm & Hzc).
    destruct (zchain_remove h h' zl p Hzc) as (zl' & Hzc' & Hp'); try done.
    { rewrite Hperm. set_solver. }
    exists zl'. split; [|done]. rewrite Hperm in Hp'.
    by apply Permutation_cons_inv in Hp'.
  - split; [lia|]. split; [|by apply coords_from_dataf].
    intros x _ Hx. apply Fr. set_solver.
  - apply Fr. destruct Hr as [Hnd _]. by apply NoDup_cons in Hnd as [? _].
Qed.

(** [removeNode] on the only node of a ring changes no [prev] or [next]. *)
Lemma removeNode_single z h t p :
  ring_st z h [p] ->
  exists h',
    removeNode (Some p) (mkState h t) = Ret (tt, mkState h' t) /\
    ring_st z h' [p] /\ frame [p] h h'.
Proof.
  intros (Hwf & Hr & Hz). destruct (ring_head _ _ _ Hr) as [Hn Hp]. simpl in Hn, Hp.
  assert (Vp : is_Some (h !! p)) by (eapply ring_valid; [done|set_solver]).
  destruct (removeNode_spec h t p p p (wf_zvalid h p Hwf) Hp Hn Vp Vp)
    as (h' & E & L & Fn & Fp & FnZ & FpZ & D).
  assert (Hfn : forall x, nextf h' x = nextf h x).
  { intros x. rewrite Fn. case_decide; [by subst|done]. }
  assert (Hfp : forall x, prevf h' x = prevf h x).
  { intros x. rewrite Fp. case_decide; [by subst|done]. }
  exists h'. split; [done|].
  split; [|split; [lia|split; [done|by apply coords_from_dataf]]].
  split; [|split].
  - apply wf_alt. intros F x q. rewrite L.
    pose proof (proj1 (wf_alt h) Hwf) as Hw. destruct F.
    + rewrite Hfp. apply Hw.
    + rewrite Hfn. apply Hw.
    + rewrite FpZ. case_decide; apply Hw.
    + rewrite FnZ. case_decide; apply Hw.
  - split; [apply NoDup_singleton|]. simpl. by rewrite Hfn, Hfp.
  - intros Hzt. destruct (Hz Hzt) as (zl & Hperm & Hzc).
    destruct (zchain_remove h h' zl p Hzc) as (zl' & Hzc' & Hp'); try done.
    { rewrite Hperm. set_solver. }
    rewrite Hperm in Hp'. apply Permutation_cons_inv in Hp'.
    apply Permutation_nil_l in Hp'. subst zl'.
    apply Permutation_singleton_r in Hperm. subst zl.
    exists [p]. split; [done|]. destruct Hzc as [_ (Hz1 & Hz2 & _)].
    split; [apply NoDup_singleton|]. simpl.
    rewrite FpZ, FnZ, Hz1, Hz2. done.
Qed.

(** ** Reads that cannot fail *)

Lemma rd_bind {A B} (f : RD A) (k : A -> ST B) h t a :
  f h = Ret a -> (rd f ≫= k) (mkState h t) = k a (mkState h t).
Proof. intros E. by rewrite (ST_bind_Ret _ _ _ _ _ (rd_Ret _ _ _ _ E)). Qed.

Lemma fld_next h p q : nextf h p = Some q -> fld n_next (Some p) h = Ret (Some q).
Proof.
  intros E. destruct (fieldf_valid _ _ _ _ E) as [n En].
  rewrite (fld_Some _ _ _ _ En). unfold fieldf in E. rewrite En in E. by rewrite <- E.
Qed.

Lemma fld_prev h p q : prevf h p = Some q -> fld n_prev (Some p) h = Ret (Some q).
Proof.
  intros E. destruct (fieldf_valid _ _ _ _ E) as [n En].
  rewrite (fld_Some _ _ _ _ En). unfold fieldf in E. rewrite En in E. by rewrite <- E.
Qed.

Lemma areaP_valid h a b c :
  is_Some (h !! a) -> is_Some (h !! b) -> is_Some (h !! c) ->
  exists v, areaP (Some a) (Some b) (Some c) h = Ret v.
Proof.
  intros [na Ea] [nb Eb] [nc Ec]. exists (area na nb nc). unfold areaP.
  rewrite (RD_bind_Ret _ _ _ _ (node_Some _ _ _ Ea)).
  rewrite (RD_bind_Ret _ _ _ _ (node_Some _ _ _ Eb)).
  by rewrite (RD_bind_Ret _ _ _ _ (node_Some _ _ _ Ec)).
Qed.

Lemma equalsP_valid h a b :
  is_Some (h !! a) -> is_Some (h !! b) ->
  exists v, equalsP (Some a) (Some b) h = Ret v.
Proof.
  intros [na Ea] [nb Eb]. exists (equals na nb). unfold equalsP.
  rewrite (RD_bind_Ret _ _ _ _ (node_Some _ _ _ Ea)).
  by rewrite (RD_bind_Ret _ _ _ _ (node_Some _ _ _ Eb)).
Qed.

Lemma intersectsP_valid h a b c d :
  is_Some (h !! a) -> is_Some (h !! b) -> is_Some (h !! c) -> is_Some (h !! d) ->
  exists v, intersectsP (Some a) (Some b) (Some c) (Some d) h = Ret v.
Proof.
  intros [na Ea] [nb Eb] [nc Ec] [nd Ed]. exists (intersects na nb nc nd).
  unfold intersectsP.
  rewrite (RD_bind_Ret _ _ _ _ (node_Some _ _ _ Ea)).
  rewrite (RD_bind_Ret _ _ _ _ (node_Some _ _ _ Eb)).
  rewrite (RD_bind_Ret _ _ _ _ (node_Some _ _ _ Ec)).
  by rewrite (RD_bind_Ret _ _ _ _ (node_Some _ _ _ Ed)).
Qed.

Lemma ring_rotate_app h l1 l2 : ring h (l1 ++ l2) -> ring h (l2 ++ l1).
Proof.
  revert l2. induction l1 as [|x l1 IH]; intros l2 Hr.
  - by rewrite app_nil_r.
  - simpl in Hr. apply ring_rotate in Hr. rewrite <- app_assoc in Hr.
    apply IH in Hr. by rewrite <- app_assoc in Hr.
Qed.

(** In a ring every node has both neighbours, and they are nodes of the
    ring. *)
Lemma ring_neighbours h l p :
  ring h l -> p ∈ l ->
  exists n a b, h !! p = Some n /\ n_prev n = Some a /\ n_next n = Some b /\
                a ∈ l /\ b ∈ l.
Proof.
  intros Hr Hp. apply list_elem_of_split in Hp as (l1 & l2 & ->).
  assert (Hr' : ring h (p :: l2 ++ l1)).
  { apply (ring_rotate_app h l1 (p :: l2)). exact Hr. }
  destruct (ring_head _ _ _ Hr') as [Hn Hp].
  assert (Vp : is_Some (h !! p)) by (by eapply fieldf_valid).
  destruct Vp as [n En]. unfold fieldf in Hn, Hp. rewrite En in Hn, Hp. simpl in Hn, Hp.
  exists n, (default p (last (l2 ++ l1))), (default p (head (l2 ++ l1))).
  repeat split; try done.
  - destruct (l2 ++ l1) as [|y r _] eqn:E using rev_ind; [set_solver|].
    rewrite last_snoc. simpl.
    assert (y ∈ l2 ++ l1) by (rewrite E; set_solver). set_solver.
  - destruct (l2 ++ l1) as [|y r] eqn:E; [set_solver|]. simpl.
    assert (y ∈ l2 ++ l1) by (rewrite E; set_solver). set_solver.
Qed.

Lemma ring_st_perm z h l l' :
  ring_st z h l -> ring h l' -> l ≡ₚ l' -> ring_st z h l'.
Proof.
  intros (Hwf & _ & Hz) Hr Hp. split; [done|]. split; [done|].
  intros Hzt. destruct (Hz Hzt) as (zl & Hperm & Hzc). exists zl. split; [|done].
  by rewrite Hperm.
Qed.

Lemma ring_st_rotate_app z h l1 l2 : ring_st z h (l1 ++ l2) -> ring_st z h (l2 ++ l1).
Proof.
  intros Hst. eapply ring_st_perm; [exact Hst| |apply Permutation_app_comm].
  destruct Hst as (_ & Hr & _). by apply ring_rotate_app.
Qed.

Lemma frame_subset l l' h h' :
  frame l h h' -> (forall x, x ∈ l -> x ∈ l') -> frame l' h h'.
Proof.
  intros (L & F & C) Hs. split; [done|]. split; [|done].
  intros x Hx Hxl. apply F; [done|]. intros Hx'. by apply Hxl, Hs.
Qed.

(** ** [filterPoints] *)

(** The test [!p.steiner && (equals(p, p.next) || area(p.prev, p, p.next) === 0)]
    returns on every node of a ring. *)
Lemma filterPoints_test h l p n :
  ring h l -> p ∈ l -> h !! p = Some n ->
  exists c,
    (if n_steiner n then mret false
     else orR (equalsP (Some p) (n_next n))
              (a ← areaP (n_prev n) (Some p) (n_next n); mret (feq a (num 0)))) h
    = Ret c.
Proof.
  intros Hr Hp En. destruct (ring_neighbours _ _ _ Hr Hp) as (n' & a & b & En' & Ha & Hb & Hal & Hbl).
  rewrite En in En'. injection En' as <-. rewrite Ha, Hb.
  destruct (n_steiner n); [by eexists|].
  assert (Vp : is_Some (h !! p)) by (by eexists).
  assert (Va : is_Some (h !! a)) by (by eapply ring_valid).
  assert (Vb : is_Some (h !! b)) by (by eapply ring_valid).
  destruct (equalsP_valid h p b Vp Vb) as [e Ee].
  destruct (areaP_valid h a p b Va Vp Vb) as [v Ev].
  unfold orR. rewrite (RD_bind_Ret _ _ _ _ Ee). destruct e; [by eexists|].
  rewrite (RD_bind_Ret _ _ _ _ Ev). by eexists.
Qed.

(** The step of [filterPoints] that unlinks [p] and restarts from [p.prev]. *)
Lemma filterPoints_remove_step z t n h p r e np :
  (forall h p r a e b,
    (length (p :: r) <= n)%nat -> ring_st z h (p :: r) -> r ++ [p] = a ++ e :: b ->
    exists N h' l' res,
      (forall fuel, (N <= fuel)%nat ->
         filterPoints_loop fuel (Some p) (Some e) (mkState h t) =
         Ret (Some res, mkState h' t)) /\
      ring_st z h' l' /\ res ∈ l' /\ l' ⊆+ p :: r /\ frame (p :: r) h h') ->
  (length (p :: r) <= S n)%nat -> ring_st z h (p :: r) ->
  h !! p = Some np ->
  (if n_steiner np then mret false
   else orR (equalsP (Some p) (n_next np))
            (a ← areaP (n_prev np) (Some p) (n_next np); mret (feq a (num 0)))) h
  = Ret true ->
  exists N h' l' res,
    (forall fuel, (N <= fuel)%nat ->
       filterPoints_loop fuel (Some p) (Some e) (mkState h t) =
       Ret (Some res, mkState h' t)) /\
    ring_st z h' l' /\ res ∈ l' /\ l' ⊆+ p :: r /\ frame (p :: r) h h'.
Proof.
  intros IHn Hlen Hst Enp Ec. pose proof Hst as (Hwf & Hr & _).
  destruct (ring_head _ _ _ Hr) as [Hnx Hpv].
  destruct r as [|q r0 _] using rev_ind.
  - (* the only node of the ring *)
    destruct (removeNode_single z h t p Hst) as (h1 & E1 & Hst1 & Hf1).
    pose proof Hst1 as (_ & Hr1 & _).
    destruct (ring_head _ _ _ Hr1) as [Hnx1 Hpv1]. simpl in Hnx1, Hpv1.
    exists 1%nat, h1, [p], p. split.
    { intros fuel Hf. destruct fuel as [|f]; [lia|]. simpl.
      rewrite (rd_bind _ _ _ _ _ (node_Some _ _ _ Enp)).
      rewrite (rd_bind _ _ _ _ _ Ec).
      rewrite (ST_bind_Ret _ _ _ _ _ E1).
      rewrite (rd_bind _ _ _ _ _ (fld_prev _ _ _ Hpv1)).
      rewrite (rd_bind _ _ _ _ _ (fld_next _ _ _ Hnx1)).
      unfold same. by rewrite bool_decide_eq_true_2. }
    split; [done|]. split; [set_solver|]. split; [done|done].
  - destruct (removeNode_st z h t p (r0 ++ [q]) Hst) as (h1 & E1 & Hst1 & Hf1 & Hn1 & Hp1).
    { by destruct r0. }
    rewrite last_snoc in Hpv. simpl in Hpv. rewrite Hpv in Hp1.
    apply (ring_st_rotate_app z h1 r0 [q]) in Hst1. simpl in Hst1.
    pose proof Hst1 as (_ & Hr1 & _).
    destruct (ring_head _ _ _ Hr1) as [Hnx1 _].
    destruct r0 as [|y r0'].
    + (* one node is left *)
      simpl in Hnx1. exists 1%nat, h1, [q], q. split.
      { intros fuel Hf. destruct fuel as [|f]; [lia|]. simpl.
        rewrite (rd_bind _ _ _ _ _ (node_Some _ _ _ Enp)).
        rewrite (rd_bind _ _ _ _ _ Ec).
        rewrite (ST_bind_Ret _ _ _ _ _ E1).
        rewrite (rd_bind _ _ _ _ _ (fld_prev _ _ _ Hp1)).
        rewrite (rd_bind _ _ _ _ _ (fld_next _ _ _ Hnx1)).
        unfold same. by rewrite bool_decide_eq_true_2. }
      split; [done|]. split; [set_solver|]. split; [|done].
      apply submseteq_cons. done.
    + simpl in Hnx1.
      destruct (IHn h1 q (y :: r0') (y :: r0') q []) as (N & h' & l' & res & Hrun & Hst' & Hres & Hsub & Hf');
        [|done|done|].
      { simpl in Hlen |- *. rewrite length_app in Hlen. simpl in Hlen. lia. }
      exists (S N), h', l', res. split.
      { intros fuel Hf. destruct fuel as [|f]; [lia|]. simpl.
        rewrite (rd_bind _ _ _ _ _ (node_Some _ _ _ Enp)).
        rewrite (rd_bind _ _ _ _ _ Ec).
        rewrite (ST_bind_Ret _ _ _ _ _ E1).
        rewrite (rd_bind _ _ _ _ _ (fld_prev _ _ _ Hp1)).
        rewrite (rd_bind _ _ _ _ _ (fld_next _ _ _ Hnx1)).
        unfold same. rewrite bool_decide_eq_false_2.
        2:{ intros [= ->]. destruct Hr1 as [Hnd _]. apply NoDup_cons in Hnd as [Hq _].
            set_solver. }
        apply Hrun. lia. }
      split; [done|]. split; [done|]. split.
      * etrans; [exact Hsub|]. apply submseteq_cons.
        replace (q :: y :: r0') with ([q] ++ (y :: r0')) by done.
        by rewrite Permutation_app_comm.
      * eapply frame_trans; [exact Hf1|exact Hf'|]. intros x Hx. left. set_solver.
Qed.

Lemma filterPoints_loop_total z t n :
  forall h p r a e b,
    (length (p :: r) <= n)%nat -> ring_st z h (p :: r) -> r ++ [p] = a ++ e :: b ->
    exists N h' l' res,
      (forall fuel, (N <= fuel)%nat ->
         filterPoints_loop fuel (Some p) (Some e) (mkState h t) =
         Ret (Some res, mkState h' t)) /\
      ring_st z h' l' /\ res ∈ l' /\ l' ⊆+ p :: r /\ frame (p :: r) h h'.
Proof.
  induction n as [|n IHn]; intros h p r a e b Hlen Hst Hsplit.
  { simpl in Hlen. lia. }
  revert h p r b Hlen Hst Hsplit.
  induction a as [|x a IHa]; intros h p r b Hlen Hst Hsplit.
  all: pose proof Hst as (Hwf & Hr & _).
  all: assert (Hpl : p ∈ p :: r) by set_solver.
  all: destruct (ring_neighbours _ _ _ Hr Hpl) as (np & pa & pb & Enp & Hpa & Hpb & _ & _).
  all: destruct (filterPoints_test h _ p np Hr Hpl Enp) as [c Ec].
  all: destruct (ring_head _ _ _ Hr) as [Hnx Hpv].
  all: destruct c.
  - by apply (filterPoints_remove_step z t n h p r e np IHn).
  - (* keep p; the next node is the end *)
    exists 1%nat, h, (p :: r), e. split.
    { intros fuel Hf. destruct fuel as [|f]; [lia|]. simpl.
      rewrite (rd_bind _ _ _ _ _ (node_Some _ _ _ Enp)).
      rewrite (rd_bind _ _ _ _ _ Ec).
      rewrite (rd_bind _ _ _ _ _ (fld_next _ _ _ Hnx)).
      simpl in Hsplit. replace (default p (head r)) with e.
      2:{ destruct r as [|y r']; simpl in *; by simplify_eq. }
      unfold same. by rewrite bool_decide_eq_true_2. }
    split; [done|]. split.
    { assert (e ∈ r ++ [p]) by (rewrite Hsplit; set_solver). set_solver. }
    split; [done|apply frame_refl].
  - by apply (filterPoints_remove_step z t n h p r e np IHn).
  - (* keep p; move on to the next node *)
    destruct r as [|y r'].
    { simpl in Hsplit. destruct a; simplify_eq. }
    simpl in Hsplit. injection Hsplit as -> Hsplit. simpl in Hnx.
    assert (Hxe : x <> e).
    { destruct Hr as [Hnd _]. apply NoDup_cons in Hnd as [Hp' Hnd].
      apply NoDup_cons in Hnd as [Hx' _]. intros ->.
      assert (e ∈ r' ++ [p]) by (rewrite Hsplit; set_solver). set_solver. }
    destruct (IHa h x (r' ++ [p]) (b ++ [x])) as (N & h' & l' & res & Hrun & Hst' & Hres & Hsub & Hf').
    { simpl in Hlen |- *. rewrite length_app. simpl. lia. }
    { apply (ring_st_rotate_app z h [p] (x :: r')). exact Hst. }
    { rewrite Hsplit. symmetry. apply (app_assoc a (e :: b) [x]). }
    exists (S N), h', l', res. split.
    { intros fuel Hf. destruct fuel as [|f]; [lia|]. simpl.
      rewrite (rd_bind _ _ _ _ _ (node_Some _ _ _ Enp)).
      rewrite (rd_bind _ _ _ _ _ Ec).
      rewrite (rd_bind _ _ _ _ _ (fld_next _ _ _ Hnx)).
      unfold same. rewrite bool_decide_eq_false_2 by (intros [= ->]; done).
      apply Hrun. lia. }
    split; [done|]. split; [done|]. split.
    + etrans; [exact Hsub|].
      replace (p :: x :: r') with ([p] ++ (x :: r')) by done.
      apply Permutation_submseteq.
      exact (Permutation_app_comm (x :: r') [p]).
    + eapply frame_subset; [exact Hf'|]. set_solver.
Qed.

(** ** Runs that return *)

(** [total m s Q]: with enough fuel, [m] run from [s] returns one result,
    which satisfies [Q]. *)
Definition total {A} (m : nat -> ST A) (s : state) (Q : A -> state -> Prop) : Prop :=
  exists N a s', Q a s' /\ forall fuel, (N <= fuel)%nat -> m fuel s = Ret (a, s').

Definition rtotal {A} (m : nat -> RD A) h (Q : A -> Prop) : Prop :=
  exists N a, Q a /\ forall fuel, (N <= fuel)%nat -> m fuel h = Ret a.

Lemma total_ret {A} (a : A) s (Q : A -> state -> Prop) :
  Q a s -> total (fun _ => mret a) s Q.
Proof. intros HQ. by exists 0%nat, a, s. Qed.

Lemma total_bind {A B} (m : nat -> ST A) (k : nat -> A -> ST B) s Q :
  total m s (fun a s' => total (fun f => k f a) s' Q) ->
  total (fun f => m f ≫= k f) s Q.
Proof.
  intros (N1 & a & s1 & (N2 & b & s2 & HQ & H2) & H1).
  exists (N1 `max` N2)%nat, b, s2. split; [done|]. intros fuel Hf.
  unfold mbind, ST_bind. rewrite H1 by lia. apply H2. lia.
Qed.

Lemma total_step {A B} (m : ST A) (k : nat -> A -> ST B) s a s' Q :
  m s = Ret (a, s') -> total (fun f => k f a) s' Q ->
  total (fun f => m ≫= k f) s Q.
Proof.
  intros E (N & b & s2 & HQ & H2). exists N, b, s2. split; [done|].
  intros fuel Hf. unfold mbind, ST_bind. rewrite E. by apply H2.
Qed.

Lemma total_read {A B} (m : RD A) (k : nat -> A -> ST B) h t a Q :
  m h = Ret a -> total (fun f => k f a) (mkState h t) Q ->
  total (fun f => rd m ≫= k f) (mkState h t) Q.
Proof. intros E. apply total_step. by apply rd_Ret. Qed.

Lemma total_rd {A} (m : nat -> RD A) h t (Q : A -> state -> Prop) :
  rtotal m h (fun a => Q a (mkState h t)) -> total (fun f => rd (m f)) (mkState h t) Q.
Proof.
  intros (N & a & HQ & E). exists N, a, (mkState h t). split; [done|].
  intros fuel Hf. apply rd_Ret. by apply E.
Qed.

Lemma total_val {A} (m : ST A) s a s' (Q : A -> state -> Prop) :
  m s = Ret (a, s') -> Q a s' -> total (fun _ => m) s Q.
Proof. intros E HQ. by exists 0%nat, a, s'. Qed.

Lemma total_mono {A} (m : nat -> ST A) s (Q Q' : A -> state -> Prop) :
  total m s Q -> (forall a s', Q a s' -> Q' a s') -> total m s Q'.
Proof. intros (N & a & s' & HQ & E) Hi. exists N, a, s'. split; [by apply Hi|done]. Qed.

Lemma total_S {A} (m : nat -> ST A) s Q :
  total (fun f => m (S f)) s Q -> total m s Q.
Proof.
  intros (N & a & s' & HQ & E). exists (S N), a, s'. split; [done|].
  intros [|f] Hf; [lia|]. apply E. lia.
Qed.

Lemma total_shift {A} (m : nat -> ST A) d s Q :
  total m s Q -> total (fun f => m (f + d)%nat) s Q.
Proof.
  intros (N & a & s' & HQ & E). exists N, a, s'. split; [done|].
  intros f Hf. apply E. lia.
Qed.

Lemma total_reindex {A} (m : nat -> ST A) (g : nat -> nat) s Q :
  (forall f, (f <= g f)%nat) -> total m s Q -> total (fun f => m (g f)) s Q.
Proof.
  intros Hg (N & a & s' & HQ & E). exists N, a, s'. split; [done|].
  intros f Hf. apply E. specialize (Hg f). lia.
Qed.

Lemma total_ext {A} (m m' : nat -> ST A) s Q :
  (forall f, m f s = m' f s) -> total m' s Q -> total m s Q.
Proof.
  intros Hm (N & a & s' & HQ & E). exists N, a, s'. split; [done|].
  intros f Hf. rewrite Hm. by apply E.
Qed.

Lemma rtotal_ret {A} (a : A) h (Q : A -> Prop) : Q a -> rtotal (fun _ => mret a) h Q.
Proof. intros HQ. by exists 0%nat, a. Qed.

Lemma rtotal_bind {A B} (m : nat -> RD A) (k : nat -> A -> RD B) h Q :
  rtotal m h (fun a => rtotal (fun f => k f a) h Q) ->
  rtotal (fun f => m f ≫= k f) h Q.
Proof.
  intros (N1 & a & (N2 & b & HQ & H2) & H1).
  exists (N1 `max` N2)%nat, b. split; [done|]. intros fuel Hf.
  unfold mbind, RD_bind. rewrite H1 by lia. apply H2. lia.
Qed.

Lemma rtotal_step {A B} (m : RD A) (k : nat -> A -> RD B) h a Q :
  m h = Ret a -> rtotal (fun f => k f a) h Q -> rtotal (fun f => m ≫= k f) h Q.
Proof.
  intros E (N & b & HQ & H2). exists N, b. split; [done|].
  intros fuel Hf. unfold mbind, RD_bind. rewrite E. by apply H2.
Qed.

Lemma rtotal_val {A} (m : RD A) h a (Q : A -> Prop) :
  m h = Ret a -> Q a -> rtotal (fun _ => m) h Q.
Proof. intros E HQ. by exists 0%nat, a. Qed.

Lemma rtotal_mono {A} (m : nat -> RD A) h (Q Q' : A -> Prop) :
  rtotal m h Q -> (forall a, Q a -> Q' a) -> rtotal m h Q'.
Proof. intros (N & a & HQ & E) Hi. exists N, a. split; [by apply Hi|done]. Qed.

Lemma rtotal_S {A} (m : nat -> RD A) h Q :
  rtotal (fun f => m (S f)) h Q -> rtotal m h Q.
Proof.
  intros (N & a & HQ & E). exists (S N), a. split; [done|].
  intros [|f] Hf; [lia|]. apply E. lia.
Qed.

(** Lazy conjunction and disjunction of reads that return. *)
Lemma rtotal_andR (a b : nat -> RD bool) h :
  rtotal a h (fun _ => True) -> rtotal b h (fun _ => True) ->
  rtotal (fun f => andR (a f) (b f)) h (fun _ => True).
Proof.
  intros Ha Hb. unfold andR. apply rtotal_bind. eapply rtotal_mono; [exact Ha|].
  intros [] _; [done|]. by apply rtotal_ret.
Qed.

Lemma rtotal_orR (a b : nat -> RD bool) h :
  rtotal a h (fun _ => True) -> rtotal b h (fun _ => True) ->
  rtotal (fun f => orR (a f) (b f)) h (fun _ => True).
Proof.
  intros Ha Hb. unfold orR. apply rtotal_bind. eapply rtotal_mono; [exact Ha|].
  intros [] _; [|done]. by apply rtotal_ret.
Qed.

Lemma rtotal_any {A} (m : RD A) h :
  (exists v, m h = Ret v) -> rtotal (fun _ => m) h (fun _ => True).
Proof. intros [v E]. by eapply rtotal_val. Qed.

Lemma filterPoints_total z h t l p e :
  ring_st z h l -> p ∈ l -> (forall q, e = Some q -> q ∈ l) ->
  total (fun f => filterPoints f (Some p) e) (mkState h t)
    (fun res s' => exists h' l' r, s' = mkState h' t /\ res = Some r /\
       ring_st z h' l' /\ r ∈ l' /\ l' ⊆+ l /\ frame l h h').
Proof.
  intros Hst Hp He. apply list_elem_of_split in Hp as (l1 & l2 & ->).
  apply (ring_st_rotate_app z h l1 (p :: l2)) in Hst. simpl in Hst.
  set (e' := default p e).
  assert (He' : e' ∈ (l2 ++ l1) ++ [p]).
  { unfold e'. destruct e as [q|]; simpl; [|set_solver].
    specialize (He q eq_refl). set_solver. }
  apply list_elem_of_split in He' as (a & b & Hsplit).
  destruct (filterPoints_loop_total z t _ h p (l2 ++ l1) a e' b (le_n _) Hst Hsplit)
    as (N & h' & l' & res & Hrun & Hst' & Hres & Hsub & Hf).
  exists N, (Some res), (mkState h' t). split.
  - exists h', l', res. split; [done|]. split; [done|]. split; [done|]. split; [done|].
    split.
    + etrans; [exact Hsub|]. apply Permutation_submseteq.
      by rewrite (Permutation_app_comm l1 (p :: l2)).
    + eapply frame_subset; [exact Hf|]. set_solver.
  - intros fuel Hfu. unfold filterPoints.
    replace (match e with Some _ => e | None => Some p end) with (Some e').
    { by apply Hrun. }
    unfold e'. by destruct e.
Qed.

(** ** [pushTriangle] *)

Lemma pushTriangle_total h t a b c dim :
  is_Some (h !! a) -> is_Some (h !! b) -> is_Some (h !! c) ->
  exists t', pushTriangle (Some a) (Some b) (Some c) dim (mkState h t) =
             Ret (tt, mkState h t') /\ length t' = (length t + 3)%nat.
Proof.
  intros [na Ea] [nb Eb] [nc Ec]. unfold pushTriangle.
  rewrite (rd_bind _ _ _ _ _ (node_Some _ _ _ Ea)).
  unfold push at 1. unfold mbind at 1, ST_bind at 1. simpl.
  rewrite (rd_bind _ _ _ _ _ (node_Some _ _ _ Eb)).
  unfold push at 1. unfold mbind at 1, ST_bind at 1. simpl.
  rewrite (rd_bind _ _ _ _ _ (node_Some _ _ _ Ec)).
  unfold push. simpl. eexists. split; [done|]. rewrite !length_app. simpl. lia.
Qed.

(** ** Reads of the diagonal tests *)

Lemma locallyInside_valid h l a b :
  ring h l -> a ∈ l -> is_Some (h !! b) ->
  exists v, locallyInside (Some a) (Some b) h = Ret v.
Proof.
  intros Hr Ha Vb.
  destruct (ring_neighbours _ _ _ Hr Ha) as (na & pa & xa & Ea & Hpa & Hxa & Hpl & Hxl).
  assert (Va : is_Some (h !! a)) by (by eexists).
  assert (Vp : is_Some (h !! pa)) by (by eapply ring_valid).
  assert (Vx : is_Some (h !! xa)) by (by eapply ring_valid).
  unfold locallyInside. rewrite (RD_bind_Ret _ _ _ _ (node_Some _ _ _ Ea)).
  rewrite Hpa, Hxa.
  destruct (areaP_valid h pa a xa Vp Va Vx) as [v Ev].
  rewrite (RD_bind_Ret _ _ _ _ Ev).
  destruct (areaP_valid h a b xa Va Vb Vx) as [v1 Ev1].
  destruct (areaP_valid h a pa b Va Vp Vb) as [v2 Ev2].
  destruct (areaP_valid h a b pa Va Vb Vp) as [v3 Ev3].
  destruct (areaP_valid h a xa b Va Vx Vb) as [v4 Ev4].
  destruct (flt v (num 0)).
  - unfold andR. rewrite (RD_bind_Ret _ _ _ _ (RD_bind_Ret _ _ _ _ Ev1)).
    unfold mret at 1, RD_ret at 1.
    destruct (fge v1 (num 0)); [|by eexists].
    rewrite (RD_bind_Ret _ _ _ _ Ev2). by eexists.
  - unfold orR. rewrite (RD_bind_Ret _ _ _ _ (RD_bind_Ret _ _ _ _ Ev3)).
    unfold mret at 1, RD_ret at 1.
    destruct (flt v3 (num 0)); [by eexists|].
    rewrite (RD_bind_Ret _ _ _ _ Ev4). by eexists.
Qed.

(** ** The ear tests return *)

(** A node of a ring whose neighbours differ sits in a ring of at least
    three nodes. *)
Lemma ring_around h l e pa pc :
  ring h l -> e ∈ l -> prevf h e = Some pa -> nextf h e = Some pc -> pa <> pc ->
  exists rest, ring h (pa :: e :: pc :: rest) /\ pa :: e :: pc :: rest ≡ₚ l.
Proof.
  intros Hr He Hp Hn Hne. apply list_elem_of_split in He as (l1 & l2 & ->).
  apply (ring_rotate_app h l1 (e :: l2)) in Hr. simpl in Hr.
  assert (Hperm : e :: l2 ++ l1 ≡ₚ l1 ++ e :: l2).
  { by rewrite (Permutation_app_comm l1 (e :: l2)). }
  destruct (ring_head _ _ _ Hr) as [Hn' Hp']. rewrite Hn in Hn'. rewrite Hp in Hp'.
  destruct (l2 ++ l1) as [|x r]; [simpl in *; congruence|].
  destruct r as [|y r _] using rev_ind; [simpl in *; congruence|].
  change (x :: r ++ [y]) with ((x :: r) ++ [y]) in Hp'.
  rewrite last_snoc in Hp'. simpl in Hp', Hn'. simplify_eq.
  exists r. split.
  - apply ring_rotate_back. exact Hr.
  - rewrite <- Hperm. symmetry.
    exact (Permutation_app_comm (e :: _ :: r) [_]).
Qed.

Lemma isEar_total h l e ne :
  ring h l -> e ∈ l -> h !! e = Some ne -> n_prev ne <> n_next ne ->
  rtotal (fun f => isEar f (Some e)) h (fun _ => True).
Proof.
  intros Hr He Ee Hne.
  destruct (ring_neighbours _ _ _ Hr He) as (ne' & pa & pc & Ee' & Hpa & Hpc & _ & _).
  rewrite Ee in Ee'. injection Ee' as <-.
  assert (Hp : prevf h e = Some pa) by (unfold fieldf; by rewrite Ee).
  assert (Hn : nextf h e = Some pc) by (unfold fieldf; by rewrite Ee).
  destruct (ring_around h l e pa pc Hr He Hp Hn) as (rest & Hr3 & _); [congruence|].
  assert (Va : is_Some (h !! pa)) by (eapply ring_valid; [exact Hr3|set_solver]).
  assert (Vc : is_Some (h !! pc)) by (eapply ring_valid; [exact Hr3|set_solver]).
  destruct Va as [na Ea], Vc as [nc Ec].
  destruct Hr3 as [Hnd Hl]. simpl in Hl. destruct Hl as (_ & _ & _ & _ & Hl).
  exists (S (length rest)), (negb (fge (area na ne nc) (num 0)) &&
       forallb (fun p => negb (blocksEar h na ne nc p)) rest).
  split; [done|]. intros fuel Hf. unfold isEar.
  rewrite (RD_bind_Ret _ _ _ _ (node_Some _ _ _ Ee)). rewrite Hpa, Hpc.
  rewrite (RD_bind_Ret _ _ _ _ (node_Some _ _ _ Ea)).
  rewrite (RD_bind_Ret _ _ _ _ (node_Some _ _ _ Ec)).
  destruct (fge (area na ne nc) (num 0)); [done|]. simpl.
  pose proof (links_head _ _ _ _ Hl) as Hx. unfold fieldf in Hx. rewrite Ec in Hx.
  simpl in Hx.
  rewrite (RD_bind_Ret _ _ _ _ (fld_Some n_next _ _ _ Ec)). rewrite Hx.
  apply (isEar_loop_spec h na ne nc e pa rest pc); [done|done| |lia].
  apply NoDup_cons in Hnd as [Hnd _]. set_solver.
Qed.

(** ** [cureLocalIntersections] *)

(** The signed area of a triangle with a repeated corner is never negative:
    in IEEE arithmetic it is a zero or NaN. *)
Definition flat h : Prop :=
  forall p q np nq, h !! p = Some np -> h !! q = Some nq ->
    flt (area np nq np) (num 0) = false /\ flt (area nq np np) (num 0) = false.

Lemma flat_coords h h' : coords_from h h' -> flat h -> flat h'.
Proof.
  intros C Hf p q np nq Ep Eq.
  destruct (C p np Ep) as (p0 & mp & Ep0 & Hx1 & Hy1).
  destruct (C q nq Eq) as (q0 & mq & Eq0 & Hx2 & Hy2).
  destruct (Hf p0 q0 mp mq Ep0 Eq0) as [F1 F2].
  unfold area in *. by rewrite Hx1, Hy1, Hx2, Hy2.
Qed.

Lemma flat_frame l h h' : frame l h h' -> flat h -> flat h'.
Proof. intros (_ & _ & C). by apply flat_coords. Qed.

(** The indices that triangulating a ring of [l] nodes can emit: three for
    each node but two. *)
Definition budget (l : list nat) : nat := (3 * (length l - 2))%nat.

Lemma budget_submseteq l l' : l' ⊆+ l -> (budget l' <= budget l)%nat.
Proof. intros Hs. apply submseteq_length in Hs. unfold budget. lia. Qed.

(** What a run on a ring leaves: a node of a ring made of nodes of the
    ring it started from, and no more output than the nodes it unlinked pay
    for. *)
Definition ring_post (z : bool) (l : list nat) h t (res : option nat) (s' : state) : Prop :=
  exists l' r, res = Some r /\ ring_st z (st_heap s') l' /\ r ∈ l' /\ l' ⊆+ l /\
               frame l h (st_heap s') /\
               (length (st_triangles s') + budget l' <= length t + budget l)%nat.

Lemma areaP_Some h a b c na nb nc :
  h !! a = Some na -> h !! b = Some nb -> h !! c = Some nc ->
  areaP (Some a) (Some b) (Some c) h = Ret (area na nb nc).
Proof.
  intros Ea Eb Ec. unfold areaP.
  rewrite (RD_bind_Ret _ _ _ _ (node_Some _ _ _ Ea)).
  rewrite (RD_bind_Ret _ _ _ _ (node_Some _ _ _ Eb)).
  by rewrite (RD_bind_Ret _ _ _ _ (node_Some _ _ _ Ec)).
Qed.

(** The test of [cureLocalIntersections] returns on the nodes of a ring. *)
Lemma cure_test_valid h l a p pn b :
  ring h l -> a ∈ l -> p ∈ l -> pn ∈ l -> b ∈ l ->
  exists c,
    (e ← equalsP (Some a) (Some b);
     if (e : bool) then mret false
     else andR (intersectsP (Some a) (Some p) (Some pn) (Some b))
               (andR (locallyInside (Some a) (Some b))
                     (locallyInside (Some b) (Some a)))) h = Ret c.
Proof.
  intros Hr Ha Hp Hpn Hb.
  assert (Va : is_Some (h !! a)) by (by eapply ring_valid).
  assert (Vp : is_Some (h !! p)) by (by eapply ring_valid).
  assert (Vn : is_Some (h !! pn)) by (by eapply ring_valid).
  assert (Vb : is_Some (h !! b)) by (by eapply ring_valid).
  destruct (equalsP_valid h a b Va Vb) as [e Ee].
  destruct (intersectsP_valid h a p pn b Va Vp Vn Vb) as [i Ei].
  destruct (locallyInside_valid h l a b Hr Ha Vb) as [v1 E1].
  destruct (locallyInside_valid h l b a Hr Hb Va) as [v2 E2].
  rewrite (RD_bind_Ret _ _ _ _ Ee). destruct e; [by eexists|].
  unfold andR. rewrite (RD_bind_Ret _ _ _ _ Ei). destruct i; [|by eexists].
  rewrite (RD_bind_Ret _ _ _ _ E1). destruct v1; [|by eexists].
  rewrite E2. by eexists.
Qed.

(** On a ring of two nodes the test fails: [locallyInside] sees only
    triangles with a repeated corner. *)
Lemma cure_test_pair h p q :
  ring h [p; q] -> flat h ->
  (e ← equalsP (Some q) (Some p);
   if (e : bool) then mret false
   else andR (intersectsP (Some q) (Some p) (Some q) (Some p))
             (andR (locallyInside (Some q) (Some p))
                   (locallyInside (Some p) (Some q)))) h = Ret false.
Proof.
  intros Hr Hf.
  assert (Vp : is_Some (h !! p)) by (eapply ring_valid; [done|set_solver]).
  assert (Vq : is_Some (h !! q)) by (eapply ring_valid; [done|set_solver]).
  destruct (equalsP_valid h q p Vq Vp) as [e Ee].
  destruct (intersectsP_valid h q p q p Vq Vp Vq Vp) as [i Ei].
  rewrite (RD_bind_Ret _ _ _ _ Ee). destruct e; [done|].
  unfold andR. rewrite (RD_bind_Ret _ _ _ _ Ei). destruct i; [|done].
  destruct Vp as [np Ep], Vq as [nq Eq].
  destruct Hr as [_ Hl]. simpl in Hl. destruct Hl as (_ & Hpq & Hnq & _).
  unfold fieldf in Hpq, Hnq. rewrite Eq in Hpq, Hnq. simpl in Hpq, Hnq.
  destruct (Hf p q np nq Ep Eq) as [F1 F2].
  assert (E : locallyInside (Some q) (Some p) h = Ret false).
  { unfold locallyInside. rewrite (RD_bind_Ret _ _ _ _ (node_Some _ _ _ Eq)).
    rewrite Hpq, Hnq.
    rewrite (RD_bind_Ret _ _ _ _ (areaP_Some _ _ _ _ _ _ _ Ep Eq Ep)). rewrite F1.
    pose proof (areaP_Some _ _ _ _ _ _ _ Eq Ep Ep) as Ea.
    unfold orR. rewrite (RD_bind_Ret _ _ _ _ (RD_bind_Ret _ _ _ _ Ea)).
    unfold mret at 1, RD_ret at 1. rewrite F2.
    rewrite (RD_bind_Ret _ _ _ _ Ea). unfold mret, RD_ret. by rewrite F2. }
  by rewrite (RD_bind_Ret _ _ _ _ E).
Qed.

(** On a ring of one node the test fails as well. *)
Lemma cure_test_single h p :
  ring h [p] -> flat h ->
  (e ← equalsP (Some p) (Some p);
   if (e : bool) then mret false
   else andR (intersectsP (Some p) (Some p) (Some p) (Some p))
             (andR (locallyInside (Some p) (Some p))
                   (locallyInside (Some p) (Some p)))) h = Ret false.
Proof.
  intros Hr Hf.
  assert (Vp : is_Some (h !! p)) by (eapply ring_valid; [done|set_solver]).
  destruct (equalsP_valid h p p Vp Vp) as [e Ee].
  destruct (intersectsP_valid h p p p p Vp Vp Vp Vp) as [i Ei].
  rewrite (RD_bind_Ret _ _ _ _ Ee). destruct e; [done|].
  unfold andR. rewrite (RD_bind_Ret _ _ _ _ Ei). destruct i; [|done].
  destruct Vp as [np Ep].
  destruct Hr as [_ Hl]. simpl in Hl. destruct Hl as (Hnp & Hpp).
  unfold fieldf in Hnp, Hpp. rewrite Ep in Hnp, Hpp. simpl in Hnp, Hpp.
  destruct (Hf p p np np Ep Ep) as [F1 _].
  assert (E : locallyInside (Some p) (Some p) h = Ret false).
  { unfold locallyInside. rewrite (RD_bind_Ret _ _ _ _ (node_Some _ _ _ Ep)).
    rewrite Hpp, Hnp.
    pose proof (areaP_Some _ _ _ _ _ _ _ Ep Ep Ep) as Ea.
    rewrite (RD_bind_Ret _ _ _ _ Ea). rewrite F1.
    unfold orR. rewrite (RD_bind_Ret _ _ _ _ (RD_bind_Ret _ _ _ _ Ea)).
    unfold mret at 1, RD_ret at 1. rewrite F1.
    rewrite (RD_bind_Ret _ _ _ _ Ea). unfold mret, RD_ret. by rewrite F1. }
  by rewrite (RD_bind_Ret _ _ _ _ E).
Qed.

Lemma ring_post_trans z l l2 h h2 t t2 res s' :
  frame l h h2 -> l2 ⊆+ l ->
  (length t2 + budget l2 <= length t + budget l)%nat ->
  ring_post z l2 h2 t2 res s' -> ring_post z l h t res s'.
Proof.
  intros Hf Hs Hb (l' & r & -> & Hst & Hr & Hsub & Hf' & Hb'). exists l', r.
  split; [done|]. split; [done|]. split; [done|]. split; [by etrans|].
  split; [|lia].
  eapply frame_trans; [exact Hf|exact Hf'|]. intros x Hx. left.
  eapply elem_of_submseteq; [exact Hx|exact Hs].
Qed.

(** The step of [cureLocalIntersections] that emits a triangle and unlinks
    two nodes. *)
Lemma cure_fire z dim n :
  (forall h t p r a e b,
    (length (p :: r) <= n)%nat -> ring_st z h (p :: r) -> flat h ->
    r ++ [p] = a ++ e :: b ->
    total (fun f => cureLocalIntersections_loop f (Some p) (Some e) dim)
          (mkState h t) (ring_post z (p :: r) h t)) ->
  forall h t p r e a' pn b',
  (length (p :: r) <= S n)%nat -> ring_st z h (p :: r) -> flat h ->
  prevf h p = Some a' -> nextf h p = Some pn -> nextf h pn = Some b' ->
  (e ← equalsP (Some a') (Some b');
   if (e : bool) then mret false
   else andR (intersectsP (Some a') (Some p) (Some pn) (Some b'))
             (andR (locallyInside (Some a') (Some b'))
                   (locallyInside (Some b') (Some a')))) h = Ret true ->
  total (fun f => cureLocalIntersections_loop (S f) (Some p) (Some e) dim)
        (mkState h t) (ring_post z (p :: r) h t).
Proof.
  intros IHn h t p r e a' pn b' Hlen Hst Hflat Hpv Hnx Hnn Ec.
  pose proof Hst as (Hwf & Hr & _).
  destruct (ring_head _ _ _ Hr) as [Hnx0 Hpv0].
  rewrite Hnx in Hnx0. rewrite Hpv in Hpv0.
  cbn [cureLocalIntersections_loop].
  eapply total_read; [exact (fld_prev _ _ _ Hpv)|].
  eapply total_read; [exact (fld_next _ _ _ Hnx)|].
  eapply total_read; [exact (fld_next _ _ _ Hnn)|].
  eapply total_read; [exact Ec|]. cbn iota.
  assert (Vp : is_Some (h !! p)) by (eapply ring_valid; [exact Hr|set_solver]).
  destruct r as [|q [|b0 r0]].
  - (* one node: the test fails *)
    simpl in Hnx0, Hpv0. injection Hnx0 as ->. injection Hpv0 as ->.
    rewrite Hnx in Hnn. injection Hnn as <-.
    rewrite (cure_test_single h p Hr Hflat) in Ec. done.
  - (* two nodes: the test fails *)
    simpl in Hnx0, Hpv0. injection Hnx0 as ->. injection Hpv0 as ->.
    assert (b' = p).
    { destruct Hr as [_ Hl]. simpl in Hl. destruct Hl as (_ & _ & Hq & _). congruence. }
    subst b'. rewrite (cure_test_pair h p q Hr Hflat) in Ec. done.
  - (* three nodes or more *)
    simpl in Hnx0. injection Hnx0 as ->.
    assert (b' = b0).
    { destruct Hr as [_ Hl]. simpl in Hl. destruct Hl as (_ & _ & Hq & _). congruence. }
    subst b'.
    assert (Va : is_Some (h !! a')).
    { eapply wf_field; [exact Hwf|exact Hpv]. }
    assert (Vb : is_Some (h !! b0)) by (eapply ring_valid; [exact Hr|set_solver]).
    destruct (pushTriangle_total h t a' p b0 dim Va Vp Vb) as (t1 & E0 & Ht1).
    destruct (removeNode_st z h t1 p (q :: b0 :: r0) Hst) as (h1 & E1 & Hst1 & Hf1 & Hn1 & _);
      [done|].
    rewrite Hnx in Hn1.
    destruct (removeNode_st z h1 t1 q (b0 :: r0) Hst1) as (h2 & E2 & Hst2 & Hf2 & _);
      [done|].
    pose proof Hst2 as (_ & Hr2 & _). destruct (ring_head _ _ _ Hr2) as [Hnx2 _].
    assert (Hf12 : frame (p :: q :: b0 :: r0) h h2).
    { eapply frame_trans; [exact Hf1|exact Hf2|]. intros x Hx. left. set_solver. }
    eapply total_step.
    { rewrite (ST_bind_Ret _ _ _ _ _ E0). rewrite (ST_bind_Ret _ _ _ _ _ E1).
      rewrite (rd_bind _ _ _ _ _ (fld_next _ _ _ Hn1)).
      rewrite (ST_bind_Ret _ _ _ _ _ E2). reflexivity. }
    cbn beta iota.
    eapply total_read; [exact (fld_next _ _ _ Hnx2)|].
    destruct r0 as [|x r1]; simpl.
    + unfold same. rewrite bool_decide_eq_true_2 by done.
      apply total_ret. exists [b0], b0. simpl.
      split; [done|]. split; [done|]. split; [set_solver|]. split.
      { apply submseteq_cons, submseteq_cons. done. }
      split; [done|]. unfold budget. simpl. lia.
    + unfold same. rewrite bool_decide_eq_false_2.
      2:{ intros [= ->]. destruct Hr2 as [Hnd _]. apply NoDup_cons in Hnd as [Hq _].
          set_solver. }
      eapply total_mono.
      { apply (IHn h2 t1 x (r1 ++ [b0]) r1 b0 [x]).
        - simpl in Hlen |- *. rewrite length_app. simpl. lia.
        - apply (ring_st_rotate_app z h2 [b0] (x :: r1)). exact Hst2.
        - eapply flat_frame; [exact Hf12|done].
        - symmetry. apply (app_assoc r1 [b0] [x]). }
      intros res s' Hpost. eapply ring_post_trans; [exact Hf12| | |exact Hpost].
      { apply submseteq_cons, submseteq_cons. apply Permutation_submseteq.
        exact (Permutation_app_comm (x :: r1) [b0]). }
      unfold budget. simpl. rewrite length_app. simpl. lia.
Qed.

Lemma cure_loop_total z dim n :
  forall h t p r a e b,
    (length (p :: r) <= n)%nat -> ring_st z h (p :: r) -> flat h ->
    r ++ [p] = a ++ e :: b ->
    total (fun f => cureLocalIntersections_loop f (Some p) (Some e) dim)
          (mkState h t) (ring_post z (p :: r) h t).
Proof.
  induction n as [|n IHn]; intros h t p r a e b Hlen Hst Hflat Hsplit.
  { simpl in Hlen. lia. }
  revert h t p r b Hlen Hst Hflat Hsplit.
  induction a as [|x a IHa]; intros h t p r b Hlen Hst Hflat Hsplit.
  all: pose proof Hst as (Hwf & Hr & _).
  all: assert (Hpl : p ∈ p :: r) by set_solver.
  all: destruct (ring_neighbours _ _ _ Hr Hpl) as (np & a' & pn & Enp & Ha' & Hpn & Hal & Hnl).
  all: destruct (ring_neighbours _ _ _ Hr Hnl) as (nn & _ & b' & Enn & _ & Hb' & _ & Hbl).
  all: assert (Hpv : prevf h p = Some a') by (unfold fieldf; by rewrite Enp).
  all: assert (Hnx : nextf h p = Some pn) by (unfold fieldf; by rewrite Enp).
  all: assert (Hnn : nextf h pn = Some b') by (unfold fieldf; by rewrite Enn).
  all: destruct (cure_test_valid h _ a' p pn b' Hr Hal Hpl Hnl Hbl) as [c Ec].
  all: apply total_S.
  all: destruct c; [by apply (cure_fire z dim n IHn h t p r _ a' pn b')|].
  all: destruct (ring_head _ _ _ Hr) as [Hnx0 _]; rewrite Hnx in Hnx0.
  all: cbn [cureLocalIntersections_loop].
  all: eapply total_read; [exact (fld_prev _ _ _ Hpv)|].
  all: eapply total_read; [exact (fld_next _ _ _ Hnx)|].
  all: eapply total_read; [exact (fld_next _ _ _ Hnn)|].
  all: eapply total_read; [exact Ec|]; cbn iota.
  all: eapply total_step; [reflexivity|]; cbn beta iota.
  all: eapply total_read; [exact (fld_next _ _ _ Hnx)|].
  - (* the next node is the start *)
    assert (pn = e).
    { simpl in Hsplit. destruct r as [|y r']; simpl in *; by simplify_eq. }
    subst pn. unfold same. rewrite bool_decide_eq_true_2 by done.
    apply total_ret. exists (p :: r), e. simpl.
    split; [done|]. split; [done|]. split; [done|]. split; [done|].
    split; [apply frame_refl|lia].
  - (* move on to the next node *)
    destruct r as [|y r'].
    { simpl in Hsplit. destruct a; simplify_eq. }
    simpl in Hsplit. injection Hsplit as -> Hsplit. simpl in Hnx0.
    injection Hnx0 as ->.
    assert (Hxe : x <> e).
    { destruct Hr as [Hnd _]. apply NoDup_cons in Hnd as [Hp' Hnd].
      apply NoDup_cons in Hnd as [Hx' _]. intros ->.
      assert (e ∈ r' ++ [p]) by (rewrite Hsplit; set_solver). set_solver. }
    unfold same. rewrite bool_decide_eq_false_2 by (intros [= ->]; done).
    eapply total_mono.
    { apply (IHa h t x (r' ++ [p]) (b ++ [x])).
      - simpl in Hlen |- *. rewrite length_app. simpl. lia.
      - apply (ring_st_rotate_app z h [p] (x :: r')). exact Hst.
      - done.
      - rewrite Hsplit. symmetry. apply (app_assoc a (e :: b) [x]). }
    intros res s' Hpost. eapply ring_post_trans; [apply frame_refl| | |exact Hpost].
    { apply Permutation_submseteq. exact (Permutation_app_comm (x :: r') [p]). }
    unfold budget. simpl. rewrite length_app. simpl. lia.
Qed.

(** [cureLocalIntersections] returns a node of a ring made of nodes of the
    ring it was given. *)
Lemma cureLocalIntersections_total z dim h t l p :
  ring_st z h l -> flat h -> p ∈ l ->
  total (fun f => cureLocalIntersections f (Some p) dim) (mkState h t)
        (ring_post z l h t).
Proof.
  intros Hst Hflat Hp. apply list_elem_of_split in Hp as (l1 & l2 & ->).
  apply (ring_st_rotate_app z h l1 (p :: l2)) in Hst. simpl in Hst.
  assert (Hperm : p :: l2 ++ l1 ≡ₚ l1 ++ p :: l2).
  { by rewrite (Permutation_app_comm l1 (p :: l2)). }
  unfold cureLocalIntersections. apply total_bind.
  eapply total_mono.
  { apply (cure_loop_total z dim _ h t p (l2 ++ l1) (l2 ++ l1) p [] (le_n _) Hst Hflat).
    done. }
  intros res [h1 t1] (l' & r & -> & Hst1 & Hr & Hsub & Hf & Hb). simpl in *.
  eapply total_mono.
  { apply (filterPoints_total z h1 t1 l' r None Hst1 Hr). done. }
  intros res s' (h2 & l2' & r2 & -> & -> & Hst2 & Hr2 & Hsub2 & Hf2).
  exists l2', r2. simpl. split; [done|]. split; [done|]. split; [done|]. split.
  { etrans; [exact Hsub2|]. etrans; [exact Hsub|]. by apply Permutation_submseteq. }
  split.
  - eapply frame_subset.
    + eapply frame_trans; [exact Hf|exact Hf2|]. intros x Hx. left.
      eapply elem_of_submseteq; [exact Hx|exact Hsub].
    + intros x Hx. by rewrite <- Hperm.
  - pose proof (budget_submseteq _ _ Hsub2). unfold budget in *.
    rewrite <- Hperm. lia.
Qed.

(** ** [isValidDiagonal] *)

Lemma intersectsPolygon_loop_total h a b rest :
  forall p, links h p rest a -> a ∉ rest -> is_Some (h !! a) -> is_Some (h !! b) ->
  rtotal (fun f => intersectsPolygon_loop f (Some a) (Some b) (Some p)) h
         (fun _ => True).
Proof.
  induction rest as [|x rest IH]; intros p Hl Ha Va Vb.
  all: pose proof (links_head _ _ _ _ Hl) as Hx.
  all: assert (Vp : is_Some (h !! p)) by (by eapply fieldf_valid).
  all: destruct Vp as [np Ep]; destruct Va as [na Ea]; destruct Vb as [nb Eb].
  all: simpl in Hx.
  all: match type of Hx with _ = Some ?y =>
         assert (Hnp : n_next np = Some y)
           by (unfold fieldf in Hx; by rewrite Ep in Hx);
         assert (Vn : is_Some (h !! y))
           by (eapply links_valid; [exact Hl|]; simpl; set_solver)
       end.
  all: destruct Vn as [nn En].
  all: apply rtotal_S; cbn [intersectsPolygon_loop].
  all: eapply rtotal_step; [exact (node_Some _ _ _ Ep)|].
  all: eapply rtotal_step; [exact (node_Some _ _ _ Ea)|].
  all: rewrite Hnp.
  all: match type of Hx with _ = Some ?y =>
         destruct (intersectsP_valid h p y a b) as [v Ev]; [by eexists..|]
       end.
  all: eapply rtotal_step with
         (a := if negb (n_i np =? n_i na) && negb (n_i nn =? n_i na) &&
                  negb (n_i np =? n_i nb) && negb (n_i nn =? n_i nb)
               then v else false).
  1,3: destruct (negb (n_i np =? n_i na)); [|done];
       rewrite (RD_bind_Ret _ _ _ _ (node_Some _ _ _ En));
       destruct (negb (n_i nn =? n_i na)); [|done];
       rewrite (RD_bind_Ret _ _ _ _ (node_Some _ _ _ Eb));
       simpl; destruct (negb (n_i np =? n_i nb) && negb (n_i nn =? n_i nb)); done.
  all: cbn beta.
  all: match goal with |- rtotal (fun f => if ?c then _ else _) _ _ => destruct c end;
         [by apply rtotal_ret|].
  - simpl. unfold same. rewrite bool_decide_eq_true_2 by done. by apply rtotal_ret.
  - simpl in *. unfold same. rewrite bool_decide_eq_false_2.
    2:{ intros [= ->]. set_solver. }
    destruct Hl as (_ & _ & Hl). apply IH; [done|set_solver|by eexists..].
Qed.

Lemma middleInside_loop_total h a px py rest :
  forall p inside, links h p rest a -> a ∉ rest ->
  rtotal (fun f => middleInside_loop f (Some a) (Some p) px py inside) h
         (fun _ => True).
Proof.
  induction rest as [|x rest IH]; intros p inside Hl Ha.
  all: pose proof (links_head _ _ _ _ Hl) as Hx.
  all: assert (Vp : is_Some (h !! p)) by (by eapply fieldf_valid).
  all: destruct Vp as [np Ep].
  all: simpl in Hx.
  all: match type of Hx with _ = Some ?y =>
         assert (Hnp : n_next np = Some y)
           by (unfold fieldf in Hx; by rewrite Ep in Hx);
         assert (Vn : is_Some (h !! y))
           by (eapply links_valid; [exact Hl|]; simpl; set_solver)
       end.
  all: destruct Vn as [nn En].
  all: apply rtotal_S; cbn [middleInside_loop].
  all: eapply rtotal_step; [exact (node_Some _ _ _ Ep)|].
  all: rewrite Hnp.
  all: eapply rtotal_step; [exact (node_Some _ _ _ En)|].
  all: cbn beta zeta.
  - simpl. unfold same. rewrite bool_decide_eq_true_2 by done. by apply rtotal_ret.
  - simpl in *. unfold same. rewrite bool_decide_eq_false_2.
    2:{ intros [= ->]. set_solver. }
    destruct Hl as (_ & _ & Hl). apply IH; [done|set_solver].
Qed.

(** A ring can be read from any of its nodes. *)
Lemma ring_at h l a :
  ring h l -> a ∈ l -> exists rest, ring h (a :: rest) /\ a :: rest ≡ₚ l.
Proof.
  intros Hr Ha. apply list_elem_of_split in Ha as (l1 & l2 & ->).
  exists (l2 ++ l1). split.
  - by apply (ring_rotate_app h l1 (a :: l2)).
  - by rewrite (Permutation_app_comm l1 (a :: l2)).
Qed.

Lemma ring_st_at z h l a :
  ring_st z h l -> a ∈ l -> exists rest, ring_st z h (a :: rest) /\ a :: rest ≡ₚ l.
Proof.
  intros Hst Ha. pose proof Hst as (_ & Hr & _).
  destruct (ring_at h l a Hr Ha) as (rest & Hr' & Hp). exists rest. split; [|done].
  eapply ring_st_perm; [exact Hst|done|done].
Qed.

Lemma isValidDiagonal_total h l a b :
  ring h l -> a ∈ l -> b ∈ l ->
  rtotal (fun f => isValidDiagonal f (Some a) (Some b)) h (fun _ => True).
Proof.
  intros Hr Ha Hb.
  destruct (ring_neighbours _ _ _ Hr Ha) as (na & pa & xa & Ea & Hpa & Hxa & Hpal & Hxal).
  destruct (ring_neighbours _ _ _ Hr Hb) as (nb & pb & xb & Eb & Hpb & Hxb & Hpbl & Hxbl).
  assert (Vpa : is_Some (h !! pa)) by (by eapply ring_valid).
  assert (Vxa : is_Some (h !! xa)) by (by eapply ring_valid).
  assert (Vpb : is_Some (h !! pb)) by (by eapply ring_valid).
  assert (Vxb : is_Some (h !! xb)) by (by eapply ring_valid).
  destruct Vpa as [npa Epa], Vxa as [nxa Exa], Vpb as [npb Epb], Vxb as [nxb Exb].
  destruct (ring_at h l a Hr Ha) as (rest & [Hnd Hl] & _).
  apply NoDup_cons in Hnd as [Hnotin _].
  unfold isValidDiagonal.
  eapply rtotal_step; [exact (node_Some _ _ _ Ea)|].
  eapply rtotal_step; [exact (node_Some _ _ _ Eb)|].
  rewrite Hxa, Hpa, Hpb, Hxb.
  eapply rtotal_step; [exact (node_Some _ _ _ Exa)|].
  destruct (n_i nxa =? n_i nb); [by apply rtotal_ret|].
  eapply rtotal_step; [exact (node_Some _ _ _ Epa)|].
  destruct (n_i npa =? n_i nb); [by apply rtotal_ret|].
  apply rtotal_bind. eapply rtotal_mono.
  { unfold intersectsPolygon.
    apply (intersectsPolygon_loop_total h a b rest a Hl Hnotin); by eexists. }
  intros x _. destruct x; [by apply rtotal_ret|].
  apply (rtotal_orR (fun _ => _) (fun _ => _)).
  - apply (rtotal_andR (fun _ => _) (fun f => _)).
    { apply rtotal_any. eapply locallyInside_valid; [exact Hr|done|by eexists]. }
    apply (rtotal_andR (fun _ => _) (fun f => _)).
    { apply rtotal_any. eapply locallyInside_valid; [exact Hr|done|by eexists]. }
    apply (rtotal_andR (fun f => _) (fun _ => _)).
    { unfold middleInside.
      eapply rtotal_step; [exact (node_Some _ _ _ Ea)|].
      eapply rtotal_step; [exact (node_Some _ _ _ Eb)|]. cbn zeta.
      by apply (middleInside_loop_total h a _ _ rest a false Hl). }
    eapply rtotal_step; [exact (areaP_Some _ _ _ _ _ _ _ Epa Ea Epb)|].
    destruct (truthy _); [by apply rtotal_ret|].
    eapply rtotal_step; [exact (areaP_Some _ _ _ _ _ _ _ Ea Epb Eb)|].
    by apply rtotal_ret.
  - apply (rtotal_andR (fun _ => _) (fun _ => _)).
    { apply rtotal_any. apply equalsP_valid; by eexists. }
    apply (rtotal_andR (fun _ => _) (fun _ => _)).
    + eapply rtotal_step; [exact (areaP_Some _ _ _ _ _ _ _ Epa Ea Exa)|].
      by apply rtotal_ret.
    + eapply rtotal_step; [exact (areaP_Some _ _ _ _ _ _ _ Epb Eb Exb)|].
      by apply rtotal_ret.
Qed.

(** ** [splitPolygon] *)

(** One assignment [q.F = v]: the field it writes and the fields it leaves. *)
Lemma upd_one F h t q v :
  is_Some (h !! q) ->
  exists h',
    upd (Some q) (setf F v) (mkState h t) = Ret (tt, mkState h' t) /\
    length h' = length h /\
    (forall x, fieldf F h' x = if decide (x = q) then v else fieldf F h x) /\
    (forall G x, G <> F -> fieldf G h' x = fieldf G h x) /\
    (forall x, dataf h' x = dataf h x).
Proof.
  intros V. destruct (upd_field F h t q v V) as (h' & U & L & Fd & D).
  exists h'. split; [done|]. split; [done|]. split; [|split; [|done]].
  - intros x. rewrite Fd. destruct (decide (x = q)) as [->|Hx].
    + by rewrite decide_True.
    + rewrite decide_False; [done|]. by intros [_ ?].
  - intros G x HG. rewrite Fd. rewrite decide_False; [done|]. by intros [? _].
Qed.

(** The effect of [splitPolygon(a, b)] on the fields; [an] is [a.next], [bp]
    is [b.prev], [a2] and [b2] are the two new nodes. *)
Definition split_heap h h' (a b an bp a2 b2 : nat) : Prop :=
  length h' = S (S (length h)) /\
  (forall x, nextf h' x =
     if decide (x = bp) then Some b2 else if decide (x = b2) then Some a2
     else if decide (x = a2) then Some an else if decide (x = a) then Some b
     else nextf h x) /\
  (forall x, prevf h' x =
     if decide (x = b2) then Some bp else if decide (x = a2) then Some b2
     else if decide (x = an) then Some a2 else if decide (x = b) then Some a
     else prevf h x) /\
  (forall x, nextZf h' x = if decide (x = a2 \/ x = b2) then None else nextZf h x) /\
  (forall x, prevZf h' x = if decide (x = a2 \/ x = b2) then None else prevZf h x) /\
  coords_from h h'.

Lemma splitPolygon_spec h t a b an bp :
  nextf h a = Some an -> prevf h b = Some bp ->
  is_Some (h !! b) -> is_Some (h !! an) -> is_Some (h !! bp) ->
  exists h',
    splitPolygon (Some a) (Some b) (mkState h t) =
      Ret (Some (S (length h)), mkState h' t) /\
    split_heap h h' a b an bp (length h) (S (length h)).
Proof.
  intros Han Hbp Vb Van Vbp.
  assert (Va : is_Some (h !! a)) by (by eapply fieldf_valid).
  destruct Va as [na Ea]. destruct Vb as [nb Eb].
  pose proof (lookup_lt_Some _ _ _ Ea) as La.
  pose proof (lookup_lt_Some _ _ _ Eb) as Lb.
  apply lookup_lt_is_Some in Van, Vbp.
  unfold splitPolygon.
  rewrite (rd_bind _ _ _ _ _ (node_Some _ _ _ Ea)).
  set (A2 := newNode (n_i na) (n_x na) (n_y na)).
  destruct (alloc_spec h t A2) as (Al1 & Fa1 & Da1).
  rewrite (ST_bind_Ret _ _ _ _ _ Al1).
  set (h0 := h ++ [A2]) in *.
  assert (L0 : length h0 = S (length h)).
  { subst h0. rewrite length_app. simpl. lia. }
  assert (Eb0 : h0 !! b = Some nb).
  { subst h0. by rewrite lookup_app_l. }
  rewrite (rd_bind _ _ _ _ _ (node_Some _ _ _ Eb0)).
  set (B2 := newNode (n_i nb) (n_x nb) (n_y nb)).
  destruct (alloc_spec h0 t B2) as (Al2 & Fa2 & Da2).
  rewrite (ST_bind_Ret _ _ _ _ _ Al2). rewrite L0.
  set (h1 := h0 ++ [B2]) in *.
  assert (L1 : length h1 = S (S (length h))).
  { subst h1. rewrite length_app. simpl. lia. }
  set (a2 := length h) in *. set (b2 := S a2) in *.
  assert (Hn1 : nextf h1 a = Some an).
  { rewrite Fa2, Fa1. rewrite !decide_False by lia. done. }
  assert (Hp1 : prevf h1 b = Some bp).
  { rewrite Fa2, Fa1. rewrite !decide_False by lia. done. }
  rewrite (rd_bind _ _ _ _ _ (fld_next _ _ _ Hn1)).
  rewrite (rd_bind _ _ _ _ _ (fld_prev _ _ _ Hp1)).
  assert (V : forall (hh : list Node) x, length hh = length h1 -> (x <= b2)%nat -> is_Some (hh !! x)).
  { intros hh x Lh Hx. apply lookup_lt_is_Some. lia. }
  destruct (upd_one Fnext h1 t a (Some b)) as (h2 & U2 & L2 & N2 & O2 & D2).
  { apply V; [done|lia]. }
  rewrite (ST_bind_Ret _ _ _ _ _ U2).
  destruct (upd_one Fprev h2 t b (Some a)) as (h3 & U3 & L3 & N3 & O3 & D3).
  { apply V; [lia|lia]. }
  rewrite (ST_bind_Ret _ _ _ _ _ U3).
  destruct (upd_one Fnext h3 t a2 (Some an)) as (h4 & U4 & L4 & N4 & O4 & D4).
  { apply V; [lia|lia]. }
  rewrite (ST_bind_Ret _ _ _ _ _ U4).
  destruct (upd_one Fprev h4 t an (Some a2)) as (h5 & U5 & L5 & N5 & O5 & D5).
  { apply V; [lia|lia]. }
  rewrite (ST_bind_Ret _ _ _ _ _ U5).
  destruct (upd_one Fnext h5 t b2 (Some a2)) as (h6 & U6 & L6 & N6 & O6 & D6).
  { apply V; [lia|lia]. }
  rewrite (ST_bind_Ret _ _ _ _ _ U6).
  destruct (upd_one Fprev h6 t a2 (Some b2)) as (h7 & U7 & L7 & N7 & O7 & D7).
  { apply V; [lia|lia]. }
  rewrite (ST_bind_Ret _ _ _ _ _ U7).
  destruct (upd_one Fnext h7 t bp (Some b2)) as (h8 & U8 & L8 & N8 & O8 & D8).
  { apply V; [lia|lia]. }
  rewrite (ST_bind_Ret _ _ _ _ _ U8).
  destruct (upd_one Fprev h8 t b2 (Some bp)) as (h9 & U9 & L9 & N9 & O9 & D9).
  { apply V; [lia|lia]. }
  rewrite (ST_bind_Ret _ _ _ _ _ U9).
  exists h9. split; [done|]. split; [lia|].
  split; [|split; [|split; [|split]]].
  - intros x. rewrite (O9 Fnext) by done. rewrite N8. rewrite (O7 Fnext) by done.
    rewrite N6. rewrite (O5 Fnext) by done. rewrite N4. rewrite (O3 Fnext) by done.
    rewrite N2, Fa2, Fa1. rewrite L0. fold b2.
    repeat case_decide; try done; lia.
  - intros x. rewrite N9. rewrite (O8 Fprev) by done. rewrite N7.
    rewrite (O6 Fprev) by done. rewrite N5. rewrite (O4 Fprev) by done. rewrite N3.
    rewrite (O2 Fprev) by done. rewrite Fa2, Fa1. rewrite L0. fold b2.
    repeat case_decide; try done; lia.
  - intros x. rewrite (O9 FnextZ), (O8 FnextZ), (O7 FnextZ), (O6 FnextZ), (O5 FnextZ),
      (O4 FnextZ), (O3 FnextZ), (O2 FnextZ) by done.
    rewrite Fa2, Fa1. rewrite L0. fold b2.
    repeat case_decide; try done; naive_solver.
  - intros x. rewrite (O9 FprevZ), (O8 FprevZ), (O7 FprevZ), (O6 FprevZ), (O5 FprevZ),
      (O4 FprevZ), (O3 FprevZ), (O2 FprevZ) by done.
    rewrite Fa2, Fa1. rewrite L0. fold b2.
    repeat case_decide; try done; naive_solver.
  - intros x n' E.
    assert (Dx : dataf h9 x = Some (payload n')) by (unfold dataf; by rewrite E).
    rewrite D9, D8, D7, D6, D5, D4, D3, D2, Da2, Da1 in Dx.
    rewrite L0 in Dx. fold b2 in Dx.
    assert (Hpay : forall (m m' : Node), Some (payload m) = Some (payload m') ->
              n_x m' = n_x m /\ n_y m' = n_y m).
    { intros m m' Hm. unfold payload in Hm. by simplify_eq. }
    case_decide; [|case_decide].
    + exists b, nb. split; [done|]. apply (Hpay B2 n') in Dx. simpl in Dx. done.
    + exists a, na. split; [done|]. apply (Hpay A2 n') in Dx. simpl in Dx. done.
    + unfold dataf in Dx. destruct (h !! x) as [m|] eqn:Em; [|done].
      exists x, m. split; [done|]. simpl in Dx. by apply Hpay.
Qed.

(** ** [isEarHashed] *)

(** [zwalk F h p D]: following the field [F] from [p] visits [D] and ends
    in [null]. *)
Fixpoint zwalk (F : pfield) h (p : option nat) (D : list nat) : Prop :=
  match D with
  | [] => p = None
  | x :: D' => p = Some x /\ zwalk F h (fieldf F h x) D'
  end.

Lemma zlinks_walk_up h prev l : zlinks h prev l -> zwalk FnextZ h (head l) l.
Proof.
  revert prev. induction l as [|x l IH]; intros prev Hz; simpl; [done|].
  destruct Hz as (_ & Hn & Hz). split; [done|]. rewrite Hn. by eapply IH.
Qed.

Lemma zlinks_suffix h prev l1 l2 :
  zlinks h prev (l1 ++ l2) -> zlinks h (from_option Some prev (last l1)) l2.
Proof.
  revert prev. induction l1 as [|x l1 IH]; intros prev Hz; simpl in *; [done|].
  destruct Hz as (_ & _ & Hz). apply IH in Hz. rewrite last_cons.
  by destruct (last l1).
Qed.

Lemma zlinks_walk_down h l1 :
  forall l2, zlinks h None (l1 ++ l2) -> zwalk FprevZ h (last l1) (rev l1).
Proof.
  induction l1 as [|x l1 IH] using rev_ind; intros l2 Hz; [done|].
  rewrite rev_unit, last_snoc. simpl. split; [done|].
  rewrite <- app_assoc in Hz. simpl in Hz.
  destruct (zlinks_mid _ _ _ _ _ Hz) as [Hp _]. rewrite Hp.
  replace (from_option Some None (last l1)) with (last l1) by (by destruct (last l1)).
  by apply (IH (x :: l2)).
Qed.

(** Around a node of a z-order chain, the chain can be walked to both ends. *)
Lemma zchain_walks h zl e :
  zchain h zl -> e ∈ zl ->
  exists D U, zwalk FprevZ h (prevZf h e) D /\ zwalk FnextZ h (nextZf h e) U /\
              (forall x, x ∈ D -> x ∈ zl) /\ (forall x, x ∈ U -> x ∈ zl).
Proof.
  intros [_ Hz] He. apply list_elem_of_split in He as (z1 & z2 & ->).
  exists (rev z1), z2. destruct (zlinks_mid _ _ _ _ _ Hz) as [Hp Hn].
  split; [|split; [|split]].
  - rewrite Hp.
    replace (from_option Some None (last z1)) with (last z1) by (by destruct (last z1)).
    by apply (zlinks_walk_down h z1 (e :: z2)).
  - rewrite Hn. apply zlinks_suffix in Hz. simpl in Hz. destruct Hz as (_ & _ & Hz).
    by eapply zlinks_walk_up.
  - intros x Hx. apply list_elem_of_In, in_rev, list_elem_of_In in Hx. set_solver.
  - intros x Hx. set_solver.
Qed.

Lemma insideEar_valid h l a b c ear q :
  ring h l -> ear ∈ l -> q ∈ l ->
  exists v, insideEar a b c (Some ear) (Some q) h = Ret v.
Proof.
  intros Hr He Hq.
  assert (Ve : is_Some (h !! ear)) by (by eapply ring_valid).
  destruct Ve as [ne Ee].
  destruct (ring_neighbours _ _ _ Hr Hq) as (nq & pq & xq & Eq & Hpq & Hxq & Hpl & Hxl).
  assert (Vp : is_Some (h !! pq)) by (by eapply ring_valid).
  assert (Vx : is_Some (h !! xq)) by (by eapply ring_valid).
  destruct Vp as [np Ep], Vx as [nx Ex].
  unfold insideEar. rewrite (RD_bind_Ret _ _ _ _ (node_Some _ _ _ Ee)).
  destruct (same _ _); [by eexists|]. destruct (same _ _); [by eexists|].
  rewrite (RD_bind_Ret _ _ _ _ (node_Some _ _ _ Eq)).
  destruct (pointInTriangle _ _ _ _ _ _ _ _); [|by eexists].
  rewrite Hpq, Hxq. rewrite (RD_bind_Ret _ _ _ _ (areaP_Some _ _ _ _ _ _ _ Ep Eq Ex)).
  by eexists.
Qed.

Lemma isEarHashed_down_total h l a b c ear minZ D :
  ring h l -> ear ∈ l -> (forall x, x ∈ D -> x ∈ l) ->
  forall p, zwalk FprevZ h p D ->
  rtotal (fun f => isEarHashed_down f a b c (Some ear) minZ p) h (fun _ => True).
Proof.
  intros Hr He. induction D as [|x D IH]; intros HD p Hw; simpl in Hw.
  - subst p. apply rtotal_S. simpl. by apply rtotal_ret.
  - destruct Hw as [-> Hw]. apply rtotal_S. cbn [isEarHashed_down].
    assert (Hx : x ∈ l) by (apply HD; set_solver).
    assert (Vx : is_Some (h !! x)) by (by eapply ring_valid).
    destruct Vx as [nx Ex].
    eapply rtotal_step; [exact (node_Some _ _ _ Ex)|].
    destruct (negb _); [by apply rtotal_ret|].
    destruct (insideEar_valid h l a b c ear x Hr He Hx) as [v Ev].
    eapply rtotal_step; [exact Ev|]. destruct v; [by apply rtotal_ret|].
    apply IH; [set_solver|]. unfold fieldf in Hw. by rewrite Ex in Hw.
Qed.

Lemma isEarHashed_up_total h l a b c ear maxZ U :
  ring h l -> ear ∈ l -> (forall x, x ∈ U -> x ∈ l) ->
  forall n, zwalk FnextZ h n U ->
  rtotal (fun f => isEarHashed_up f a b c (Some ear) maxZ n) h (fun _ => True).
Proof.
  intros Hr He. induction U as [|x U IH]; intros HU n Hw; simpl in Hw.
  - subst n. apply rtotal_S. simpl. by apply rtotal_ret.
  - destruct Hw as [-> Hw]. apply rtotal_S. cbn [isEarHashed_up].
    assert (Hx : x ∈ l) by (apply HU; set_solver).
    assert (Vx : is_Some (h !! x)) by (by eapply ring_valid).
    destruct Vx as [nx Ex].
    eapply rtotal_step; [exact (node_Some _ _ _ Ex)|].
    destruct (negb _); [by apply rtotal_ret|].
    destruct (insideEar_valid h l a b c ear x Hr He Hx) as [v Ev].
    eapply rtotal_step; [exact Ev|]. destruct v; [by apply rtotal_ret|].
    apply IH; [set_solver|]. unfold fieldf in Hw. by rewrite Ex in Hw.
Qed.

Lemma isEarHashed_both_total h l a b c ear minZ maxZ D :
  ring h l -> ear ∈ l ->
  forall U p n, (forall x, x ∈ D -> x ∈ l) -> (forall x, x ∈ U -> x ∈ l) ->
  zwalk FprevZ h p D -> zwalk FnextZ h n U ->
  rtotal (fun f => isEarHashed_both f a b c (Some ear) minZ maxZ p n) h
    (fun r => match r with
              | None => True
              | Some (p', n') =>
                  (exists D', zwalk FprevZ h p' D' /\ forall x, x ∈ D' -> x ∈ l) /\
                  (exists U', zwalk FnextZ h n' U' /\ forall x, x ∈ U' -> x ∈ l)
              end).
Proof.
  intros Hr He. induction D as [|x D IH]; intros U p n HD HU Hp Hn.
  - simpl in Hp. subst p. apply rtotal_S. simpl. apply rtotal_ret.
    split; [by exists []|by exists U].
  - destruct U as [|y U].
    { simpl in Hn. subst n. destruct Hp as [-> Hp]. apply rtotal_S. simpl.
      apply rtotal_ret. split; [|by exists []].
      exists (x :: D). split; [by split|done]. }
    pose proof Hp as Hp0. pose proof Hn as Hn0.
    destruct Hp as [-> Hp]. destruct Hn as [-> Hn].
    apply rtotal_S. cbn [isEarHashed_both].
    assert (Hx : x ∈ l) by (apply HD; set_solver).
    assert (Hy : y ∈ l) by (apply HU; set_solver).
    assert (Vx : is_Some (h !! x)) by (by eapply ring_valid).
    assert (Vy : is_Some (h !! y)) by (by eapply ring_valid).
    destruct Vx as [nx Ex], Vy as [ny Ey].
    eapply rtotal_step; [exact (node_Some _ _ _ Ex)|].
    destruct (negb _).
    { apply rtotal_ret. split; [by exists (x :: D)|by exists (y :: U)]. }
    eapply rtotal_step; [exact (node_Some _ _ _ Ey)|].
    destruct (negb _).
    { apply rtotal_ret. split; [by exists (x :: D)|by exists (y :: U)]. }
    destruct (insideEar_valid h l a b c ear x Hr He Hx) as [v Ev].
    eapply rtotal_step; [exact Ev|]. destruct v; [by apply rtotal_ret|].
    cbn zeta.
    destruct (insideEar_valid h l a b c ear y Hr He Hy) as [w Ew].
    eapply rtotal_step; [exact Ew|]. destruct w; [by apply rtotal_ret|].
    apply (IH U); [set_solver|set_solver| |].
    + unfold fieldf in Hp. by rewrite Ex in Hp.
    + unfold fieldf in Hn. by rewrite Ey in Hn.
Qed.

Lemma isEarHashed_total h l zl e ne minX minY invSize :
  ring h l -> zchain h zl -> zl ≡ₚ l -> e ∈ l -> h !! e = Some ne ->
  rtotal (fun f => isEarHashed f (Some e) minX minY invSize) h (fun _ => True).
Proof.
  intros Hr Hz Hperm He Ee.
  destruct (ring_neighbours _ _ _ Hr He) as (ne' & pa & pc & Ee' & Hpa & Hpc & Hal & Hcl).
  rewrite Ee in Ee'. injection Ee' as <-.
  assert (Va : is_Some (h !! pa)) by (by eapply ring_valid).
  assert (Vc : is_Some (h !! pc)) by (by eapply ring_valid).
  destruct Va as [na Ea], Vc as [nc Ec].
  destruct (zchain_walks h zl e Hz) as (D & U & HD & HU & HDl & HUl).
  { by rewrite Hperm. }
  assert (HDl' : forall x, x ∈ D -> x ∈ l) by (intros x Hx; rewrite <- Hperm; auto).
  assert (HUl' : forall x, x ∈ U -> x ∈ l) by (intros x Hx; rewrite <- Hperm; auto).
  unfold isEarHashed.
  eapply rtotal_step; [exact (node_Some _ _ _ Ee)|]. rewrite Hpa, Hpc.
  eapply rtotal_step; [exact (node_Some _ _ _ Ea)|].
  eapply rtotal_step; [exact (node_Some _ _ _ Ec)|]. cbn zeta.
  destruct (fge _ _); [by apply rtotal_ret|].
  apply rtotal_bind. eapply rtotal_mono.
  { apply (isEarHashed_both_total h l na ne nc e _ _ D Hr He U _ _ HDl' HUl').
    - unfold fieldf in HD. by rewrite Ee in HD.
    - unfold fieldf in HU. by rewrite Ee in HU. }
  intros [[p n]|]; [|intros _; by apply rtotal_ret].
  intros [(D' & HD' & HDl'') (U' & HU' & HUl'')].
  apply rtotal_bind. eapply rtotal_mono.
  { by apply (isEarHashed_down_total h l na ne nc e _ D' Hr He HDl''). }
  intros d _. destruct d; [|by apply rtotal_ret].
  by apply (isEarHashed_up_total h l na ne nc e _ U' Hr He HUl'').
Qed.

(** ** The z-order index: [indexCurve] and [sortLinked] *)

(** [zonly h h']: [h'] differs from [h] in z-order fields only. *)
Definition zonly h h' : Prop :=
  length h' = length h /\
  (forall x, nextf h' x = nextf h x /\ prevf h' x = prevf h x) /\
  coords_from h h'.

Lemma zonly_refl h : zonly h h.
Proof. split; [done|]. split; [done|]. intros x n E. by exists x, n. Qed.

Lemma zonly_trans h1 h2 h3 : zonly h1 h2 -> zonly h2 h3 -> zonly h1 h3.
Proof.
  intros (L1 & F1 & C1) (L2 & F2 & C2). split; [lia|]. split.
  - intros x. destruct (F1 x) as [<- <-]. apply F2.
  - intros x n3 E3. destruct (C2 x n3 E3) as (y & n2 & E2 & -> & ->).
    apply (C1 y n2 E2).
Qed.

Lemma zonly_frame l h h' : zonly h h' -> frame l h h'.
Proof. intros (L & F & C). split; [lia|]. split; [|done]. intros x _ _. apply F. Qed.

Lemma zonly_ring h h' l : zonly h h' -> ring h l -> ring h' l.
Proof.
  intros (L & F & C) Hr. destruct l as [|a r]; [done|]. destruct Hr as [Hnd Hl].
  split; [done|]. eapply links_frame; [| |exact Hl]; intros x _; apply F.
Qed.

(** An assignment to [prevZ] or [nextZ] of a node. *)
Lemma upd_z F h t q v :
  (F = FprevZ \/ F = FnextZ) -> wf h -> is_Some (h !! q) ->
  (forall y, v = Some y -> is_Some (h !! y)) ->
  exists h',
    upd (Some q) (setf F v) (mkState h t) = Ret (tt, mkState h' t) /\
    wf h' /\ zonly h h' /\
    (forall x, fieldf F h' x = if decide (x = q) then v else fieldf F h x) /\
    (forall G x, G <> F -> fieldf G h' x = fieldf G h x).
Proof.
  intros HF Hwf Vq Hv. destruct (upd_one F h t q v Vq) as (h' & U & L & Fq & Fo & D).
  exists h'. split; [done|]. split; [|split; [|done]].
  - apply wf_alt. intros G x y. rewrite L.
    pose proof (proj1 (wf_alt h) Hwf) as Hw.
    destruct (decide (G = F)) as [->|HG].
    + rewrite Fq. case_decide; [|apply Hw]. intros ->.
      apply lookup_lt_is_Some. by apply Hv.
    + rewrite (Fo G x HG). apply Hw.
  - split; [done|]. split; [|by apply coords_from_dataf].
    intros x. split; apply Fo; destruct HF as [-> | ->]; done.
Qed.

(** [zpath h p l q]: following [nextZ] from [p] visits the nodes [l] and
    arrives at [q]. *)
Fixpoint zpath h (p : option nat) (l : list nat) (q : option nat) : Prop :=
  match l with
  | [] => p = q
  | x :: l' => p = Some x /\ is_Some (h !! x) /\ zpath h (nextZf h x) l' q
  end.

(** [zopen h prev l]: [l] is a doubly linked z-order chain entered from
    [prev]; the [nextZ] of its last node is not constrained. *)
Fixpoint zopen h (prev : option nat) (l : list nat) : Prop :=
  match l with
  | [] => True
  | a :: r =>
      is_Some (h !! a) /\ prevZf h a = prev /\
      match r with [] => True | b :: _ => nextZf h a = Some b end /\
      zopen h (Some a) r
  end.

Lemma zpath_frame h h' p l q :
  length h' = length h -> (forall x, x ∈ l -> nextZf h' x = nextZf h x) ->
  zpath h p l q -> zpath h' p l q.
Proof.
  intros L. revert p. induction l as [|x l IH]; intros p Hf Hp; simpl in *; [done|].
  destruct Hp as (-> & V & Hp). split; [done|]. split.
  { by eapply valid_length. }
  rewrite Hf by set_solver. apply IH; [|done]. intros y Hy. apply Hf. set_solver.
Qed.

Lemma zpath_app h p l1 l2 q :
  zpath h p (l1 ++ l2) q <-> exists m, zpath h p l1 m /\ zpath h m l2 q.
Proof.
  revert p. induction l1 as [|x l1 IH]; intros p; simpl.
  - split; [intros Hp; by exists p|]. by intros (m & -> & Hp).
  - rewrite IH. naive_solver.
Qed.

Lemma zopen_snoc h h' prev l e :
  zopen h prev l -> length h' = length h -> is_Some (h !! e) ->
  (forall x, x ∈ l -> prevZf h' x = prevZf h x) ->
  (forall x, x ∈ l -> Some x <> last l -> nextZf h' x = nextZf h x) ->
  (forall y, last l = Some y -> nextZf h' y = Some e) ->
  prevZf h' e = from_option Some prev (last l) ->
  NoDup l ->
  zopen h' prev (l ++ [e]).
Proof.
  intros Hz L Ve. revert prev Hz.
  induction l as [|a l IH]; intros prev Hz Hp Hn Hlast He Hnd; simpl in *.
  - split; [by eapply valid_length|]. done.
  - destruct Hz as (Va & Hpa & Hna & Hz). apply NoDup_cons in Hnd as [Hal Hnd].
    split; [by eapply valid_length|]. split; [rewrite Hp; [done|set_solver]|].
    assert (Hla : last (a :: l) = Some (default a (last l))).
    { rewrite last_cons. by destruct (last l). }
    split.
    + destruct l as [|b l]; simpl.
      * apply Hlast. done.
      * rewrite Hn; [done|set_solver|]. rewrite Hla. intros [= E].
        assert (exists y, last (b :: l) = Some y) as [y El].
        { rewrite last_cons. destruct (last l); by eexists. }
        rewrite El in E. simpl in E. subst y.
        apply last_Some in El as [l' El]. apply Hal. rewrite El. set_solver.
    + apply IH; try done.
      * intros x Hx. apply Hp. set_solver.
      * intros x Hx Hxl. apply Hn; [set_solver|]. rewrite last_cons.
        destruct (last l); [done|]. intros [= ->]. done.
      * intros y Hy. apply Hlast. rewrite last_cons. by rewrite Hy.
      * rewrite He. rewrite last_cons. by destruct (last l).
Qed.

Lemma zopen_valid h prev l x : zopen h prev l -> x ∈ l -> is_Some (h !! x).
Proof.
  revert prev. induction l as [|a l IH]; intros prev Hz Hx; [set_solver|].
  destruct Hz as (Va & _ & _ & Hz). apply elem_of_cons in Hx as [->|Hx]; [done|].
  by eapply IH.
Qed.

Lemma zpath_valid h p l q x : zpath h p l q -> x ∈ l -> is_Some (h !! x).
Proof.
  revert p. induction l as [|a l IH]; intros p Hp Hx; [set_solver|].
  destruct Hp as (_ & Va & Hp). apply elem_of_cons in Hx as [->|Hx]; [done|].
  by eapply IH.
Qed.

(** A closed chain is an open chain whose last node has no [nextZ]. *)
Lemma zopen_close h prev l :
  zopen h prev l -> (forall y, last l = Some y -> nextZf h y = None) -> zlinks h prev l.
Proof.
  revert prev. induction l as [|a l IH]; intros prev Hz Hl; simpl in *; [done|].
  destruct Hz as (_ & Hp & Hn & Hz). split; [done|]. split.
  - destruct l as [|b l]; simpl; [by apply Hl|done].
  - apply IH; [done|]. intros y Hy. apply Hl. rewrite last_cons. by rewrite Hy.
Qed.

Lemma zlinks_zpath h prev l :
  zlinks h prev l -> (forall x, x ∈ l -> is_Some (h !! x)) -> zpath h (head l) l None.
Proof.
  revert prev. induction l as [|a l IH]; intros prev Hz Hv; simpl in *; [done|].
  destruct Hz as (_ & Hn & Hz). split; [done|]. split; [apply Hv; set_solver|].
  rewrite Hn. eapply IH; [exact Hz|]. intros x Hx. apply Hv. set_solver.
Qed.

Lemma fld_nextZ h x : is_Some (h !! x) -> fld n_nextZ (Some x) h = Ret (nextZf h x).
Proof.
  intros [n E]. rewrite (fld_Some _ _ _ _ E). unfold fieldf. by rewrite E.
Qed.

Lemma fld_prevZ h x : is_Some (h !! x) -> fld n_prevZ (Some x) h = Ret (prevZf h x).
Proof.
  intros [n E]. rewrite (fld_Some _ _ _ _ E). unfold fieldf. by rewrite E.
Qed.

(** The [for] loop of [sortLinked] that steps over the first run. *)
Lemma sortLinked_skip_spec h n :
  forall k p In, zpath h p In None -> In <> [] ->
  exists P Qall q,
    In = P ++ Qall /\ length P = (n `min` length In)%nat /\
    sortLinked_skip n k p h = Ret ((k + length P)%nat, q) /\
    zpath h p P q /\ zpath h q Qall None.
Proof.
  induction n as [|n IH]; intros k p In Hp Hne.
  - exists [], In, p. simpl. rewrite Nat.add_0_r. done.
  - destruct In as [|x In]; [done|]. destruct Hp as (-> & Vx & Hp). simpl.
    rewrite (RD_bind_Ret _ _ _ _ (fld_nextZ h x Vx)).
    destruct In as [|y In].
    + simpl in Hp. rewrite Hp. exists [x], [], None. simpl.
      replace (k + 1)%nat with (S k) by lia. rewrite Nat.min_0_r. done.
    + pose proof Hp as (Hy & _). rewrite Hy.
      destruct (IH (S k) (Some y) (y :: In)) as (P & Qall & q & HIn & HP & Hs & Hp1 & Hp2).
      { by rewrite <- Hy. }
      { done. }
      exists (x :: P), Qall, q. split; [by rewrite HIn|]. split; [simpl in *; lia|].
      split.
      { rewrite Hs. simpl. do 2 f_equal. lia. }
      split; [|done]. simpl. split; [done|]. split; [done|]. by rewrite Hy.
Qed.

(** Appending a node to the output chain of a merge. *)
Lemma sort_emit h t Out e :
  wf h -> zopen h None Out -> is_Some (h !! e) -> e ∉ Out -> NoDup Out ->
  exists h1 h2,
    (match last Out with
     | Some _ => upd (last Out) (set_nextZ (Some e));; mret (head Out)
     | None => mret (Some e)
     end) (mkState h t) = Ret (head (Out ++ [e]), mkState h1 t) /\
    upd (Some e) (set_prevZ (last Out)) (mkState h1 t) = Ret (tt, mkState h2 t) /\
    wf h2 /\ zonly h h2 /\ zopen h2 None (Out ++ [e]) /\
    (forall x, Some x <> last Out -> nextZf h2 x = nextZf h x).
Proof.
  intros Hwf Hz Ve He Hnd.
  assert (exists h1,
    (match last Out with
     | Some _ => upd (last Out) (set_nextZ (Some e));; mret (head Out)
     | None => mret (Some e)
     end) (mkState h t) = Ret (head (Out ++ [e]), mkState h1 t) /\
    wf h1 /\ zonly h h1 /\
    (forall x, nextZf h1 x = if decide (Some x = last Out) then Some e else nextZf h x) /\
    (forall x, prevZf h1 x = prevZf h x)) as (h1 & E1 & Hwf1 & Hzo1 & Fn1 & Fp1).
  { destruct (last Out) as [tl|] eqn:El.
    - assert (Vt : is_Some (h !! tl)).
      { eapply zopen_valid; [exact Hz|]. apply last_Some in El as [l' ->]. set_solver. }
      destruct (upd_z FnextZ h t tl (Some e) (or_intror eq_refl) Hwf Vt)
        as (h1 & U & Hwf1 & Hzo1 & Fq & Fo).
      { by intros y [= <-]. }
      exists h1. split.
      { rewrite (ST_bind_Ret _ _ _ _ _ U). destruct Out; [done|]. done. }
      split; [done|]. split; [done|]. split.
      + intros x. rewrite Fq. destruct (decide (x = tl)) as [->|Hx].
        * by rewrite decide_True.
        * rewrite decide_False; [done|]. by intros [= ->].
      + intros x. by apply Fo.
    - exists h. apply last_None in El. subst Out. split; [done|].
      split; [done|]. split; [apply zonly_refl|]. split; [|done].
      intros x. by rewrite decide_False. }
  assert (Ve1 : is_Some (h1 !! e)).
  { destruct Hzo1 as (L & _). by eapply valid_length. }
  destruct (upd_z FprevZ h1 t e (last Out) (or_introl eq_refl) Hwf1 Ve1)
    as (h2 & U2 & Hwf2 & Hzo2 & Fq2 & Fo2).
  { intros y Hy. destruct Hzo1 as (L & _). eapply valid_length; [done|].
    eapply zopen_valid; [exact Hz|]. apply last_Some in Hy as [l' ->]. set_solver. }
  exists h1, h2. split; [done|]. split; [done|]. split; [done|].
  split; [by eapply zonly_trans|]. split.
  - apply (zopen_snoc h h2 None Out e Hz); try done.
    + destruct Hzo1 as (L1 & _), Hzo2 as (L2 & _). lia.
    + intros x Hx. rewrite Fq2. rewrite decide_False by (intros ->; done). apply Fp1.
    + intros x Hx Hxl. rewrite (Fo2 FnextZ) by done. rewrite Fn1.
      by rewrite decide_False.
    + intros y Hy. rewrite (Fo2 FnextZ) by done. rewrite Fn1. by rewrite decide_True.
    + rewrite Fq2. rewrite decide_True by done. by destruct (last Out).
  - intros x Hx. rewrite (Fo2 FnextZ) by done. rewrite Fn1. by rewrite decide_False.
Qed.

(** What a merge leaves: the output chain [Out ++ T], the rest [Q'] of the
    input, and everything else as it was. *)
Definition merge_post h t (Out P Qall : list nat) (qSize : nat)
    (r : option nat * option nat * option nat) (s' : state) : Prop :=
  exists h' T Q' q',
    r = (q', head (Out ++ T), last (Out ++ T)) /\ s' = mkState h' t /\
    wf h' /\ zonly h h' /\ zopen h' None (Out ++ T) /\ zpath h' q' Q' None /\
    T ++ Q' ≡ₚ P ++ Qall /\ length Q' = (length Qall - qSize)%nat.

Definition merge_total t (n : nat) : Prop :=
  forall h p q P Qall x pSize qSize Out,
  (pSize + (qSize `min` length Qall) <= n)%nat ->
  wf h -> zpath h p P x -> length P = pSize -> zpath h q Qall None ->
  zopen h None Out -> NoDup (Out ++ P ++ Qall) ->
  total (fun f => sortLinked_merge f p q pSize qSize (head Out) (last Out))
        (mkState h t) (merge_post h t Out P Qall qSize).

Lemma merge_continue t n h p' q' P' Q1 x ps qs Out e P Qall qSize :
  merge_total t n ->
  (ps + (qs `min` length Q1) <= n)%nat ->
  wf h -> zpath h p' P' x -> length P' = ps -> zpath h q' Q1 None ->
  zopen h None Out -> NoDup (Out ++ e :: P' ++ Q1) -> is_Some (h !! e) ->
  e :: P' ++ Q1 ≡ₚ P ++ Qall ->
  (length Q1 - qs = length Qall - qSize)%nat ->
  total (fun f =>
           list_ ← match last Out with
                   | Some _ => upd (last Out) (set_nextZ (Some e));; mret (head Out)
                   | None => mret (Some e)
                   end;
           upd (Some e) (set_prevZ (last Out));;
           sortLinked_merge f p' q' ps qs list_ (Some e))
        (mkState h t) (merge_post h t Out P Qall qSize).
Proof.
  intros IH Hn Hwf Hp HP Hq Hz Hnd Ve Hperm Hlen.
  assert (HndO : NoDup Out) by (by apply NoDup_app in Hnd as (? & _)).
  assert (HeO : e ∉ Out).
  { apply NoDup_app in Hnd as (_ & Hd & _). intros Hx. apply (Hd e Hx). set_solver. }
  destruct (sort_emit h t Out e Hwf Hz Ve HeO HndO)
    as (h1 & h2 & E1 & E2 & Hwf2 & Hzo2 & Hz2 & Fn2).
  eapply total_step; [exact E1|]. eapply total_step; [exact E2|].
  assert (Hfr : forall y, y ∈ P' ++ Q1 -> nextZf h2 y = nextZf h y).
  { intros y Hy. apply Fn2. intros Hl. symmetry in Hl.
    apply last_Some in Hl as [l' ->].
    apply NoDup_app in Hnd as (_ & Hd & _). apply (Hd y); set_solver. }
  pose proof (IH h2 p' q' P' Q1 x ps qs (Out ++ [e]) Hn Hwf2) as IH'.
  rewrite last_snoc in IH'. eapply total_mono.
  { apply IH'; try done.
    - eapply zpath_frame; [by destruct Hzo2| |exact Hp]. intros y Hy. apply Hfr. set_solver.
    - eapply zpath_frame; [by destruct Hzo2| |exact Hq]. intros y Hy. apply Hfr. set_solver.
    - by rewrite <- app_assoc. }
  intros r s' (h' & T & Q' & q'' & -> & -> & Hwf' & Hzo' & Hz' & Hq' & Hperm' & Hlen').
  exists h', (e :: T), Q', q''. rewrite <- app_assoc in Hz'. simpl in Hz'.
  rewrite <- !app_assoc. simpl.
  split; [done|]. split; [done|]. split; [done|]. split; [by eapply zonly_trans|].
  split; [done|]. split; [done|]. split; [|lia].
  rewrite <- Hperm. by constructor.
Qed.

Lemma sortLinked_merge_total t n : merge_total t n.
Proof.
  induction n as [|n IH]; intros h p q P Qall x pSize qSize Out Hn Hwf Hp HP Hq Hz Hnd.
  all: apply total_S; cbn [sortLinked_merge].
  - (* nothing is left to merge *)
    destruct P; [|simpl in HP; lia]. simpl in HP. subst pSize. simpl.
    assert (Hcond : ((0 <? qSize)%nat && bool_decide (is_Some q)) = false).
    { destruct qSize; [done|]. destruct Qall; [|simpl in Hn; lia].
      simpl in Hq. subst q. done. }
    rewrite Hcond. cbn iota. apply total_ret.
    exists h, [], Qall, q. rewrite app_nil_r.
    split; [done|]. split; [done|]. split; [done|]. split; [apply zonly_refl|].
    split; [done|]. split; [done|]. split; [done|].
    destruct qSize; [lia|]. destruct Qall; [done|]. simpl in Hn. lia.
  - destruct pSize as [|ps].
    + (* the first run is used up *)
      destruct P; [|done]. clear HP. simpl.
      destruct qSize as [|qs].
      { simpl. apply total_ret. exists h, [], Qall, q. rewrite app_nil_r.
        split; [done|]. split; [done|]. split; [done|]. split; [apply zonly_refl|].
        split; [done|]. split; [done|]. split; [done|]. lia. }
      destruct Qall as [|y Q1].
      { simpl in Hq. subst q. simpl.
        apply total_ret. exists h, [], [], None. rewrite app_nil_r.
        split; [done|]. split; [done|]. split; [done|]. split; [apply zonly_refl|].
        split; [done|]. split; [done|]. split; [done|]. done. }
      destruct Hq as (-> & Vy & Hq). simpl.
      eapply total_read; [reflexivity|]. cbn iota.
      eapply total_step.
      { rewrite (rd_bind _ _ _ _ _ (fld_nextZ h y Vy)). reflexivity. }
      cbn beta iota.
      apply (merge_continue t n h p (nextZf h y) [] Q1 x 0 qs Out y [] (y :: Q1) (S qs));
        try done; try (simpl in *; lia).
    + (* the first run has a node left *)
      destruct P as [|e0 P']; [done|]. destruct Hp as (-> & Ve & Hp).
      simpl in HP. injection HP as HP. simpl.
      assert (exists fromP,
        (if (qSize =? 0)%nat then mret true
         else match q with
              | Some _ => np ← node (Some e0); nq ← node q;
                          mret (zval np <=? zval nq)
              | None => mret true
              end) h = Ret fromP /\
        (fromP = false -> exists y Q1 qs,
           q = Some y /\ Qall = y :: Q1 /\ qSize = S qs /\ is_Some (h !! y) /\
           zpath h (nextZf h y) Q1 None)) as (fromP & EfromP & HfromP).
      { destruct qSize as [|qs]; [by exists true|]. simpl.
        destruct Qall as [|y Q1].
        - simpl in Hq. subst q. by exists true.
        - destruct Hq as (-> & Vy & Hq). destruct Ve as [ne Ee]. pose proof Vy as [ny Ey].
          rewrite (RD_bind_Ret _ _ _ _ (node_Some _ _ _ Ee)).
          rewrite (RD_bind_Ret _ _ _ _ (node_Some _ _ _ Ey)).
          eexists. split; [reflexivity|]. intros _. by exists y, Q1, qs. }
      eapply total_read; [exact EfromP|]. destruct fromP.
      * eapply total_step.
        { rewrite (rd_bind _ _ _ _ _ (fld_nextZ h e0 Ve)). reflexivity. }
        cbn beta iota.
        apply (merge_continue t n h (nextZf h e0) q P' Qall x ps qSize Out e0
                 (e0 :: P') Qall qSize); try done; try (simpl in *; lia).
      * destruct (HfromP eq_refl) as (y & Q1 & qs & -> & -> & -> & Vy & Hq1).
        eapply total_step.
        { rewrite (rd_bind _ _ _ _ _ (fld_nextZ h y Vy)). reflexivity. }
        cbn beta iota.
        apply (merge_continue t n h (Some e0) (nextZf h y) (e0 :: P') Q1 x (S ps) qs Out y
                 (e0 :: P') (y :: Q1) (S qs)); try done; try (simpl in *; lia).
        -- eapply NoDup_Permutation_proper; [|exact Hnd].
           apply Permutation_app_head.
           exact (Permutation_middle (e0 :: P') Q1 y).
        -- exact (Permutation_middle (e0 :: P') Q1 y).
Qed.

Lemma zopen_frame h h' prev l :
  length h' = length h ->
  (forall x, x ∈ l -> prevZf h' x = prevZf h x) ->
  (forall x, x ∈ l -> Some x <> last l -> nextZf h' x = nextZf h x) ->
  NoDup l -> zopen h prev l -> zopen h' prev l.
Proof.
  intros L. revert prev. induction l as [|a l IH]; intros prev Hp Hn Hnd Hz; [done|].
  destruct Hz as (Va & Hpa & Hna & Hz). apply NoDup_cons in Hnd as [Hal Hnd].
  split; [by eapply valid_length|]. split; [rewrite Hp; [done|set_solver]|]. split.
  - destruct l as [|b l]; [done|]. rewrite Hn; [done|set_solver|].
    rewrite last_cons. intros E.
    assert (exists y, last (b :: l) = Some y) as [y El].
    { rewrite last_cons. destruct (last l); by eexists. }
    rewrite El in E. injection E as <-.
    apply last_Some in El as [l' El]. apply Hal. rewrite El. set_solver.
  - apply IH; [| |done|done].
    + intros x Hx. apply Hp. set_solver.
    + intros x Hx Hxl. apply Hn; [set_solver|]. rewrite last_cons.
      destruct (last l); [done|]. intros [= ->]. done.
Qed.

(** One pass of [sortLinked] over the rest [In] of the list. *)
Lemma sortLinked_pass_total t inSize n :
  (1 <= inSize)%nat ->
  forall h p In Out nm,
  (length In <= n)%nat -> wf h -> zpath h p In None -> zopen h None Out ->
  NoDup (Out ++ In) ->
  total (fun f => sortLinked_pass f p inSize (head Out) (last Out) nm) (mkState h t)
    (fun r s' => exists h' T nm',
       r = (head (Out ++ T), last (Out ++ T), nm') /\ s' = mkState h' t /\
       wf h' /\ zonly h h' /\ zopen h' None (Out ++ T) /\ T ≡ₚ In /\
       (In = [] -> nm' = nm) /\
       (length In <= 2 * inSize -> nm' <= S nm)%nat).
Proof.
  intros Hin. induction n as [|n IH]; intros h p In Out nm Hn Hwf Hp Hz Hnd.
  all: apply total_S; cbn [sortLinked_pass].
  all: destruct In as [|x In'].
  1,3: simpl in Hp; subst p; apply total_ret; exists h, [], nm; rewrite app_nil_r;
       split; [done|]; split; [done|]; split; [done|]; split; [apply zonly_refl|];
       split; [done|]; split; [done|]; split; [done|lia].
  { simpl in Hn. lia. }
  pose proof Hp as (-> & Vx & _).
  destruct (sortLinked_skip_spec h inSize 0 (Some x) (x :: In') Hp)
    as (P & Qall & q & HIn & HP & Hs & Hp1 & Hp2); [done|].
  simpl in Hs.
  eapply total_read; [exact Hs|]. cbn beta iota.
  assert (HPpos : (1 <= length P)%nat) by (simpl in HP; lia).
  apply total_bind. eapply total_mono.
  { apply (total_reindex (fun f => sortLinked_merge f (Some x) q (length P) inSize
                                     (head Out) (last Out)) S); [lia|].
    apply (sortLinked_merge_total t _ h (Some x) q P Qall q (length P) inSize Out
             (le_n _)); try done.
    by rewrite <- HIn. }
  intros r s1 (h1 & T1 & Q' & q' & -> & -> & Hwf1 & Hzo1 & Hz1 & Hq' & Hperm1 & Hlen1).
  rewrite <- HIn in Hperm1.
  assert (HlenIn : length (x :: In') = (length P + length Qall)%nat).
  { rewrite HIn. by rewrite length_app. }
  eapply total_mono.
  { apply (IH h1 q' Q' (Out ++ T1) (S nm)); try done.
    - simpl in Hn, HlenIn. lia.
    - rewrite <- app_assoc. eapply NoDup_Permutation_proper; [|exact Hnd].
      by apply Permutation_app_head. }
  intros r s2 (h2 & T2 & nm' & -> & -> & Hwf2 & Hzo2 & Hz2 & Hperm2 & Hnm0 & Hnm).
  exists h2, (T1 ++ T2), nm'. rewrite <- !app_assoc in *.
  split; [done|]. split; [done|]. split; [done|]. split; [by eapply zonly_trans|].
  split; [done|]. split; [by rewrite Hperm2|]. split; [done|].
  intros Hsmall. assert (Q' = []) as ->.
  { apply length_zero_iff_nil. rewrite Hlen1. simpl in Hsmall, HlenIn, HP. lia. }
  rewrite Hnm0; done.
Qed.

(** [sortLinked] turns a chain into a chain of the same nodes. *)
Lemma sortLinked_loop_total t m :
  forall h lst L inSize,
  (1 <= inSize)%nat -> (length L <= 2 * inSize + m)%nat -> wf h ->
  zpath h lst L None -> L <> [] -> NoDup L ->
  total (fun f => sortLinked_loop f lst inSize) (mkState h t)
    (fun r s' => exists h' L', s' = mkState h' t /\ wf h' /\ zonly h h' /\
                               zchain h' L' /\ L' ≡ₚ L /\ r = head L').
Proof.
  induction m as [|m IH]; intros h lst L inSize Hin Hlen Hwf Hp Hne Hnd.
  all: apply total_S; cbn [sortLinked_loop].
  all: apply total_bind; eapply total_mono;
         [apply (total_reindex (fun f => sortLinked_pass f lst inSize None None 0%nat) S);
            [lia|];
          apply (sortLinked_pass_total t inSize _ Hin h lst L [] 0%nat (le_n _) Hwf Hp);
            [done|done]|].
  all: intros r s1 (h1 & T & nm & -> & -> & Hwf1 & Hzo1 & Hz1 & Hperm & _ & Hnm).
  all: simpl in Hz1 |- *.
  all: assert (HndT : NoDup T) by (by rewrite Hperm).
  all: assert (exists tl, last T = Some tl) as [tl Htl]
         by (destruct T as [|y T' _] using rev_ind;
               [apply Permutation_nil_l in Hperm; by subst|];
             rewrite last_snoc; by eexists).
  all: rewrite Htl.
  all: assert (Vtl : is_Some (h1 !! tl))
         by (eapply zopen_valid; [exact Hz1|]; apply last_Some in Htl as [l' ->];
             set_solver).
  all: destruct (upd_z FnextZ h1 t tl None (or_intror eq_refl) Hwf1 Vtl)
         as (h2 & U & Hwf2 & Hzo2 & Fq & Fo); [done|].
  all: eapply total_step; [exact U|].
  all: assert (Hzl : zlinks h2 None T)
         by (apply zopen_close;
               [eapply zopen_frame; [by destruct Hzo2| | |done|exact Hz1];
                  [intros y Hy; by apply Fo
                  |intros y Hy Hyl; rewrite Fq; rewrite decide_False; [done|];
                   intros ->; by rewrite Htl in Hyl]
               |intros y Hy; rewrite Htl in Hy; injection Hy as <-; rewrite Fq;
                by rewrite decide_True]).
  all: assert (Hzo : zonly h h2) by (by eapply zonly_trans).
  all: destruct (1 <? nm)%nat eqn:Enm;
         [|apply total_ret; exists h2, T;
           split; [done|]; split; [done|]; split; [done|];
           split; [split; [exact HndT|exact Hzl]|]; split; [exact Hperm|done]].
  all: apply Nat.ltb_lt in Enm.
  - lia.
  - eapply total_mono.
    { apply (IH h2 (head T) T (inSize * 2)%nat); try done.
      - lia.
      - rewrite Hperm. lia.
      - eapply zlinks_zpath; [exact Hzl|]. intros y Hy.
        destruct Hzo2 as (L2 & _). eapply valid_length; [done|].
        by eapply zopen_valid.
      - intros ->. done. }
    intros r s2 (h3 & L' & -> & Hwf3 & Hzo3 & Hzc & Hperm' & ->).
    exists h3, L'. split; [done|]. split; [done|]. split; [by eapply zonly_trans|].
    split; [done|]. split; [by rewrite Hperm'|done].
Qed.

(** An assignment to [z]. *)
Lemma upd_set_z h t q v :
  wf h -> is_Some (h !! q) ->
  exists h',
    upd (Some q) (set_z v) (mkState h t) = Ret (tt, mkState h' t) /\
    wf h' /\ zonly h h' /\ (forall F x, fieldf F h' x = fieldf F h x).
Proof.
  intros Hwf [n E]. exists (<[q := set_z v n]> h).
  assert (Hf : forall F x, fieldf F (<[q := set_z v n]> h) x = fieldf F h x).
  { intros F x. unfold fieldf. destruct (decide (x = q)) as [->|Hx].
    - rewrite list_lookup_insert_eq by (by eapply lookup_lt_Some). rewrite E.
      by destruct F.
    - by rewrite list_lookup_insert_ne. }
  split; [by apply upd_Some|]. split; [|split; [|done]].
  - apply wf_alt. intros F x y. rewrite Hf, length_insert. by apply wf_alt.
  - split; [by rewrite length_insert|]. split; [intros x; by rewrite !Hf|].
    intros x n' E'. destruct (decide (x = q)) as [->|Hx].
    + rewrite list_lookup_insert_eq in E' by (by eapply lookup_lt_Some).
      injection E' as <-. by exists q, n.
    + rewrite list_lookup_insert_ne in E' by done. by exists x, n'.
Qed.

Lemma zlinks_of_links h h' l b :
  forall a prev, links h a l b -> NoDup (a :: l) ->
  prevZf h' a = prev ->
  (forall x, x ∈ l -> prevZf h' x = prevf h x) ->
  (forall x, x ∈ a :: l -> x <> default a (last l) -> nextZf h' x = nextf h x) ->
  nextZf h' (default a (last l)) = None ->
  zlinks h' prev (a :: l).
Proof.
  induction l as [|c l IH]; intros a prev Hl Hnd Hpa Hp Hn Hlast; simpl in *.
  - done.
  - destruct Hl as (Hac & Hca & Hl). apply NoDup_cons in Hnd as [Hal Hnd].
    assert (Hlc : default a (last (c :: l)) = default c (last l)).
    { rewrite last_cons. by destruct (last l). }
    rewrite Hlc in *.
    assert (Hin : default c (last l) ∈ c :: l).
    { destruct (last l) as [y|] eqn:E; simpl; [|set_solver].
      apply last_Some in E as [l' ->]. set_solver. }
    split; [done|]. split.
    + rewrite Hn; [done|set_solver|]. intros ->. done.
    + apply (IH c (Some a)); try done.
      * rewrite Hp; [done|set_solver].
      * intros x Hx. apply Hp. set_solver.
      * intros x Hx Hne. apply Hn; [set_solver|done].
Qed.

(** The loop of [indexCurve] copies [prev] and [next] into [prevZ] and
    [nextZ] along the ring. *)
Lemma indexCurve_loop_total t minX minY invSize l s todo :
  forall h p pre,
  wf h -> ring h l -> l = pre ++ p :: todo -> head l = Some s ->
  total (fun f => indexCurve_loop f (Some p) (Some s) minX minY invSize) (mkState h t)
    (fun res s' => res = Some s /\ exists h', s' = mkState h' t /\ wf h' /\ zonly h h' /\
       (forall x, prevZf h' x = if decide (x ∈ p :: todo) then prevf h x else prevZf h x) /\
       (forall x, nextZf h' x = if decide (x ∈ p :: todo) then nextf h x else nextZf h x)).
Proof.
  induction todo as [|y todo IH]; intros h p pre Hwf Hr Hl Hs.
  all: assert (Hpl : p ∈ l) by (rewrite Hl; set_solver).
  all: destruct (ring_neighbours _ _ _ Hr Hpl) as (np & a & b & Enp & Ha & Hb & Hal & Hbl).
  all: assert (Hpv : prevf h p = Some a) by (unfold fieldf; by rewrite Enp).
  all: assert (Hnx : nextf h p = Some b) by (unfold fieldf; by rewrite Enp).
  all: assert (Vp : is_Some (h !! p)) by (by eexists).
  all: assert (exists h0, (match n_z np with
                          | None => upd (Some p) (set_z (Some (zOrder (n_x np) (n_y np)
                                                                  minX minY invSize)))
                          | Some _ => mret tt
                          end) (mkState h t) = Ret (tt, mkState h0 t) /\
                 wf h0 /\ zonly h h0 /\ (forall F x, fieldf F h0 x = fieldf F h x))
         as (h0 & E0 & Hwf0 & Hzo0 & F0)
         by (destruct (n_z np);
               [exists h; split; [done|]; split; [done|]; split; [apply zonly_refl|done]
               |by apply upd_set_z]).
  all: assert (Vp0 : is_Some (h0 !! p)) by (destruct Hzo0 as (L & _); by eapply valid_length).
  all: destruct (upd_z FprevZ h0 t p (Some a) (or_introl eq_refl) Hwf0 Vp0)
         as (h1 & U1 & Hwf1 & Hzo1 & Fq1 & Fo1);
         [intros ? [= <-]; destruct Hzo0 as (L & _); eapply valid_length; [done|];
          by eapply ring_valid|].
  all: assert (Vp1 : is_Some (h1 !! p)) by (destruct Hzo1 as (L & _); by eapply valid_length).
  all: destruct (upd_z FnextZ h1 t p (Some b) (or_intror eq_refl) Hwf1 Vp1)
         as (h2 & U2 & Hwf2 & Hzo2 & Fq2 & Fo2);
         [intros ? [= <-]; destruct Hzo1 as (L1 & _), Hzo0 as (L0 & _);
          eapply valid_length; [done|]; eapply valid_length; [done|];
          by eapply ring_valid|].
  all: assert (Hzo : zonly h h2)
         by (eapply zonly_trans; [exact Hzo0|]; eapply zonly_trans; [exact Hzo1|done]).
  all: assert (Hpv0 : prevf h0 p = Some a) by (by rewrite F0).
  all: assert (Hnx1 : nextf h1 p = Some b)
         by (rewrite (Fo1 Fnext) by done; by rewrite F0).
  all: assert (Hnx2 : nextf h2 p = Some b)
         by (rewrite (Fo2 Fnext) by done; done).
  all: apply total_S; cbn [indexCurve_loop].
  all: eapply total_read; [exact (node_Some _ _ _ Enp)|].
  all: eapply total_step; [exact E0|].
  all: eapply total_read; [exact (fld_prev _ _ _ Hpv0)|].
  all: eapply total_step; [exact U1|].
  all: eapply total_read; [exact (fld_next _ _ _ Hnx1)|].
  all: eapply total_step; [exact U2|].
  all: eapply total_read; [exact (fld_next _ _ _ Hnx2)|].
  all: pose proof (ring_rotate_app h pre _ ltac:(rewrite <- Hl; exact Hr)) as Hrot.
  all: destruct (ring_head _ _ _ Hrot) as [Hnx' _]; rewrite Hnx in Hnx'.
  - (* the ring is closed *)
    assert (b = s).
    { simpl in Hnx'. injection Hnx' as ->. rewrite Hl in Hs.
      destruct pre; simpl in *; by simplify_eq. }
    subst b. unfold same. rewrite bool_decide_eq_true_2 by done.
    apply total_ret. split; [done|]. exists h2. split; [done|]. split; [done|].
    split; [done|]. split; intros x.
    + rewrite (Fo2 FprevZ) by done. rewrite Fq1, F0.
      destruct (decide (x = p)) as [->|Hx].
      * rewrite decide_True by set_solver. done.
      * rewrite decide_False by set_solver. done.
    + rewrite Fq2. rewrite (Fo1 FnextZ) by done. rewrite F0.
      destruct (decide (x = p)) as [->|Hx].
      * rewrite decide_True by set_solver. done.
      * rewrite decide_False by set_solver. done.
  - simpl in Hnx'. injection Hnx' as ->.
    assert (Hnd : NoDup l) by (destruct l; [done|]; by destruct Hr).
    assert (Hys : y <> s).
    { intros ->. rewrite Hl in Hs, Hnd. destruct pre as [|s' pre]; simpl in *.
      - injection Hs as ->. apply NoDup_cons in Hnd as [Hp _]. set_solver.
      - injection Hs as ->. apply NoDup_cons in Hnd as [Hp _]. set_solver. }
    unfold same. rewrite bool_decide_eq_false_2 by (intros [= ->]; done).
    eapply total_mono.
    { apply (IH h2 y (pre ++ [p]) Hwf2); [by eapply zonly_ring| |done].
      rewrite Hl. by rewrite <- app_assoc. }
    intros res s' (-> & h' & -> & Hwf' & Hzo' & Fp' & Fn').
    split; [done|]. exists h'. split; [done|]. split; [done|].
    split; [by eapply zonly_trans|].
    assert (Hpy : p ∉ y :: todo).
    { rewrite Hl in Hnd. apply NoDup_app in Hnd as (_ & _ & Hnd).
      by apply NoDup_cons in Hnd as [? _]. }
    destruct Hzo as (_ & Fz & _).
    split; intros x.
    + rewrite Fp'. rewrite (Fo2 FprevZ) by done. rewrite Fq1, F0.
      destruct (Fz x) as [_ ->].
      destruct (decide (x = p)) as [->|Hx].
      * rewrite decide_False by done. rewrite decide_True by set_solver. done.
      * destruct (decide (x ∈ y :: todo)).
        -- rewrite decide_True by set_solver. done.
        -- rewrite decide_False by set_solver. done.
    + rewrite Fn'. rewrite Fq2. rewrite (Fo1 FnextZ) by done. rewrite F0.
      destruct (Fz x) as [-> _].
      destruct (decide (x = p)) as [->|Hx].
      * rewrite decide_False by done. rewrite decide_True by set_solver. done.
      * destruct (decide (x ∈ y :: todo)).
        -- rewrite decide_True by set_solver. done.
        -- rewrite decide_False by set_solver. done.
Qed.

(** [indexCurve] leaves the nodes of the ring in one z-order chain. *)
Lemma indexCurve_total t h l s minX minY invSize :
  wf h -> ring h l -> s ∈ l ->
  total (fun f => indexCurve f (Some s) minX minY invSize) (mkState h t)
    (fun _ s' => exists h' zl, s' = mkState h' t /\ wf h' /\ zonly h h' /\
                               zchain h' zl /\ zl ≡ₚ l).
Proof.
  intros Hwf Hr Hs. destruct (ring_at h l s Hr Hs) as (r & Hr' & Hperm).
  unfold indexCurve. apply total_bind. eapply total_mono.
  { apply (indexCurve_loop_total t minX minY invSize (s :: r) s r h s [] Hwf Hr'); done. }
  intros res s1 (-> & h1 & -> & Hwf1 & Hzo1 & Fp1 & Fn1).
  destruct (ring_head _ _ _ Hr') as [_ Hpv]. set (lst := default s (last r)) in *.
  pose proof Hr' as [Hnd Hl].
  assert (Hlst : lst ∈ s :: r).
  { subst lst. destruct (last r) as [y|] eqn:E; simpl; [|set_solver].
    apply last_Some in E as [l' ->]. set_solver. }
  assert (V : forall (hh : list Node) x, length hh = length h -> x ∈ s :: r ->
                is_Some (hh !! x)).
  { intros hh x Lh Hx. eapply valid_length; [exact Lh|]. by eapply ring_valid. }
  pose proof Hzo1 as (L1 & _).
  assert (Epz : fld n_prevZ (Some s) h1 = Ret (Some lst)).
  { rewrite fld_prevZ by (apply V; [done|set_solver]). rewrite Fp1.
    rewrite decide_True by set_solver. by rewrite Hpv. }
  eapply total_read; [exact Epz|].
  destruct (upd_z FnextZ h1 t lst None (or_intror eq_refl) Hwf1)
    as (h2 & U2 & Hwf2 & Hzo2 & Fq2 & Fo2); [by apply V|done|].
  eapply total_step; [exact U2|]. pose proof Hzo2 as (L2 & _).
  destruct (upd_z FprevZ h2 t s None (or_introl eq_refl) Hwf2)
    as (h3 & U3 & Hwf3 & Hzo3 & Fq3 & Fo3); [apply V; [lia|set_solver]|done|].
  eapply total_step; [exact U3|]. pose proof Hzo3 as (L3 & _).
  assert (Hzl : zlinks h3 None (s :: r)).
  { apply (zlinks_of_links h h3 r s s None Hl Hnd).
    - rewrite Fq3. by rewrite decide_True.
    - intros x Hx. rewrite Fq3. apply NoDup_cons in Hnd as [Hsr _].
      rewrite decide_False by (intros ->; done).
      rewrite (Fo2 FprevZ) by done. rewrite Fp1. rewrite decide_True by set_solver. done.
    - intros x Hx Hne. rewrite (Fo3 FnextZ) by done. rewrite Fq2.
      rewrite decide_False by done. rewrite Fn1. by rewrite decide_True.
    - rewrite (Fo3 FnextZ) by done. rewrite Fq2. by rewrite decide_True. }
  assert (Hzo : zonly h h3).
  { eapply zonly_trans; [exact Hzo1|]. eapply zonly_trans; [exact Hzo2|done]. }
  unfold sortLinked. apply total_bind. eapply total_mono.
  { apply (sortLinked_loop_total t (length (s :: r)) h3 (Some s) (s :: r) 1); try done.
    - lia.
    - apply (zlinks_zpath h3 None (s :: r) Hzl). intros x Hx. apply V; [lia|done]. }
  intros res s4 (h4 & L' & -> & Hwf4 & Hzo4 & Hzc & Hperm' & _).
  apply total_ret. exists h4, L'. split; [done|]. split; [done|].
  split; [by eapply zonly_trans|]. split; [done|]. by rewrite Hperm'.
Qed.

(** ** The two rings after [splitPolygon] *)

(** A path whose last link is redirected to a new end. *)
Lemma links_retarget h h' l b b' :
  forall a, links h a l b ->
  (forall x, x ∈ a :: l -> x <> default a (last l) -> nextf h' x = nextf h x) ->
  (forall x, x ∈ l -> prevf h' x = prevf h x) ->
  nextf h' (default a (last l)) = Some b' ->
  prevf h' b' = Some (default a (last l)) ->
  NoDup (a :: l) ->
  links h' a l b'.
Proof.
  induction l as [|c l IH]; intros a Hl Hn Hp Hlast Hlast' Hnd; simpl in *; [done|].
  destruct Hl as (Hac & Hca & Hl).
  assert (Hlc : default a (last (c :: l)) = default c (last l)).
  { rewrite last_cons. by destruct (last l). }
  rewrite Hlc in *.
  assert (Hin : default c (last l) ∈ c :: l).
  { destruct (last l) as [y|] eqn:E; simpl; [|set_solver].
    apply last_Some in E as [l' ->]. set_solver. }
  apply NoDup_cons in Hnd as [Ha Hnd].
  split; [|split].
  - rewrite Hn; [done|set_solver|]. intros ->. done.
  - rewrite Hp; [done|set_solver].
  - apply IH; try done.
    + intros x Hx Hne. apply Hn; [set_solver|done].
    + intros x Hx. apply Hp. set_solver.
Qed.

(** [splitPolygon(a, b)] on two nodes of a ring that are not neighbours
    leaves two rings, each smaller than the one it split. *)
Lemma split_rings h h' a b l1 l2 an bp :
  wf h -> ring h (a :: l1 ++ b :: l2) -> head l1 = Some an -> last l1 = Some bp ->
  split_heap h h' a b an bp (length h) (S (length h)) ->
  wf h' /\ ring h' (a :: b :: l2) /\ ring h' (length h :: l1 ++ [S (length h)]) /\
  frame (a :: l1 ++ b :: l2) h h'.
Proof.
  intros Hwf Hr Hhd Hlst (L & Fn & Fp & FnZ & FpZ & C).
  set (a2 := length h) in *. set (b2 := S a2) in *.
  assert (Hval : forall x, x ∈ a :: l1 ++ b :: l2 -> (x < a2)%nat).
  { intros x Hx. apply lookup_lt_is_Some. by eapply ring_valid. }
  destruct Hr as [Hnd Hl]. apply links_app in Hl as [Hl1 Hl2].
  pose proof Hnd as Hnd0.
  apply NoDup_cons in Hnd as [Hal Hnd]. apply NoDup_app in Hnd as (Hnd1 & Hdisj & Hnd2).
  apply NoDup_cons in Hnd2 as [Hbl2 Hnd2].
  assert (Hanl : an ∈ l1) by (destruct l1; simpl in *; [done|simplify_eq; set_solver]).
  assert (Hbpl : bp ∈ l1) by (apply last_Some in Hlst as [l' ->]; set_solver).
  assert (Hl1v : forall x, x ∈ l1 -> (x < a2)%nat /\ x <> a /\ x <> b /\ x ∉ l2).
  { intros x Hx. split; [apply Hval; set_solver|]. split; [set_solver|].
    split; [|]; intros ?; apply (Hdisj x Hx); set_solver. }
  assert (Hl2v : forall x, x ∈ l2 -> (x < a2)%nat /\ x <> a /\ x <> b /\ x ∉ l1).
  { intros x Hx. split; [apply Hval; set_solver|]. split; [set_solver|].
    split; [set_solver|]. intros Hx1. apply (Hdisj x Hx1). set_solver. }
  assert (Hav : (a < a2)%nat) by (apply Hval; set_solver).
  assert (Hbv : (b < a2)%nat) by (apply Hval; set_solver).
  assert (Hab : a <> b) by set_solver.
  assert (Hal1 : a ∉ l1) by set_solver.
  assert (Hbl1 : b ∉ l1) by (intros Hx; apply (Hdisj b Hx); set_solver).
  destruct (Hl1v an Hanl) as (Hanv & Hana & Hanb & _).
  destruct (Hl1v bp Hbpl) as (Hbpv & Hbpa & Hbpb & _).
  split; [|split; [|split]].
  - (* no pointer dangles *)
    apply wf_alt. intros F x q. rewrite L.
    pose proof (proj1 (wf_alt h) Hwf) as Hw. fold a2 in Hw. destruct F.
    + rewrite Fp. repeat case_decide; intros E; simplify_eq; try lia.
      apply Hw in E. lia.
    + rewrite Fn. repeat case_decide; intros E; simplify_eq; try lia.
      apply Hw in E. lia.
    + rewrite FpZ. case_decide; intros E; [done|]. apply Hw in E. lia.
    + rewrite FnZ. case_decide; intros E; [done|]. apply Hw in E. lia.
  - (* the ring that keeps a and b *)
    split.
    { apply NoDup_cons. split; [set_solver|]. apply NoDup_cons. done. }
    simpl. rewrite Fn, Fp.
    rewrite (decide_False (P := a = bp)) by done.
    rewrite (decide_False (P := a = b2)) by lia.
    rewrite (decide_False (P := a = a2)) by lia.
    rewrite (decide_True (P := a = a)) by done.
    rewrite (decide_False (P := b = b2)) by lia.
    rewrite (decide_False (P := b = a2)) by lia.
    rewrite (decide_False (P := b = an)) by done.
    rewrite (decide_True (P := b = b)) by done.
    split; [done|]. split; [done|].
    eapply links_frame; [| |exact Hl2].
    + intros x Hx. rewrite Fn.
      assert ((x < a2)%nat /\ x <> a /\ x ∉ l1) as (? & ? & ?).
      { apply elem_of_cons in Hx as [->|Hx]; [done|]. destruct (Hl2v x Hx); tauto. }
      rewrite (decide_False (P := x = bp)) by (intros ->; done).
      rewrite (decide_False (P := x = b2)) by lia.
      rewrite (decide_False (P := x = a2)) by lia.
      by rewrite decide_False.
    + intros x Hx. rewrite Fp.
      assert ((x < a2)%nat /\ x <> b /\ x ∉ l1) as (? & ? & ?).
      { apply elem_of_app in Hx as [Hx|Hx].
        - destruct (Hl2v x Hx); tauto.
        - apply list_elem_of_singleton in Hx as ->. done. }
      rewrite (decide_False (P := x = b2)) by lia.
      rewrite (decide_False (P := x = a2)) by lia.
      rewrite (decide_False (P := x = an)) by (intros ->; done).
      by rewrite decide_False.
  - (* the ring of the two new nodes *)
    split.
    { apply NoDup_cons. split.
      - intros Hx. apply elem_of_app in Hx as [Hx|Hx].
        + destruct (Hl1v _ Hx). lia.
        + apply list_elem_of_singleton in Hx. lia.
      - apply NoDup_app. split; [done|]. split; [|apply NoDup_singleton].
        intros x Hx Hx'. apply list_elem_of_singleton in Hx'. destruct (Hl1v _ Hx). lia. }
    destruct l1 as [|an' l1']; [done|]. simpl in Hhd. injection Hhd as ->.
    simpl. simpl in Hl1. destruct Hl1 as (_ & _ & Hl1).
    rewrite Fn, Fp.
    rewrite (decide_False (P := a2 = bp)) by lia.
    rewrite (decide_False (P := a2 = b2)) by lia.
    rewrite (decide_True (P := a2 = a2)) by done.
    rewrite (decide_False (P := an = b2)) by lia.
    rewrite (decide_False (P := an = a2)) by lia.
    rewrite (decide_True (P := an = an)) by done.
    split; [done|]. split; [done|].
    apply links_app. 
    assert (Hbp' : default an (last l1') = bp).
    { rewrite last_cons in Hlst. destruct (last l1'); by simplify_eq. }
    split.
    + apply (links_retarget h h' l1' b b2 an Hl1); rewrite ?Hbp'.
      * intros x Hx Hne. rewrite Fn. destruct (Hl1v x Hx) as (? & ? & ? & ?).
        rewrite (decide_False (P := x = bp)) by done.
        rewrite (decide_False (P := x = b2)) by lia.
        rewrite (decide_False (P := x = a2)) by lia.
        by rewrite decide_False.
      * intros x Hx. rewrite Fp. destruct (Hl1v x) as (? & ? & ? & ?); [set_solver|].
        rewrite (decide_False (P := x = b2)) by lia.
        rewrite (decide_False (P := x = a2)) by lia.
        rewrite (decide_False (P := x = an)).
        2:{ intros ->. apply NoDup_cons in Hnd1 as [? _]. done. }
        by rewrite decide_False.
      * rewrite Fn. by rewrite decide_True.
      * rewrite Fp. by rewrite decide_True.
      * done.
    + simpl. rewrite Fn, Fp.
      rewrite (decide_False (P := b2 = bp)) by lia.
      rewrite (decide_True (P := b2 = b2)) by done.
      rewrite (decide_False (P := a2 = b2)) by lia.
      by rewrite (decide_True (P := a2 = a2)).
  - split; [lia|]. split; [|done]. intros x Hx Hxl. rewrite Fn, Fp.
    assert (x <> bp /\ x <> an /\ x <> a /\ x <> b) as (? & ? & ? & ?).
    { repeat split; intros ->; apply Hxl; set_solver. }
    fold a2 in Hx. repeat case_decide; try done; lia.
Qed.

(** ** [splitEarcut] *)

Lemma ring_st_weaken z h l : ring_st z h l -> ring_st false h l.
Proof. intros (Hwf & Hr & _). split; [done|]. split; [done|]. done. Qed.

Lemma ring_st_frame l h h' l0 :
  wf h' -> frame l h h' -> ring h l0 -> (forall x, x ∈ l0 -> x ∉ l) ->
  ring_st false h' l0.
Proof.
  intros Hwf Hf Hr Hd. split; [done|]. split; [|done]. by eapply ring_frame.
Qed.

Section EngineTotal.
Variables (dim : Z) (minX minY invSize : option R).

(** Whether the z-order chain is in place at the start of a pass. *)
Definition hz (pass : nat) : bool := negb (pass =? 0)%nat && hashed invSize.

(** The measure that decreases along the recursive calls of [earcutLinked]. *)
Definition weight (l : list nat) (pass : nat) : nat := (3 * length l + (2 - pass))%nat.

(** What [earcutLinked] leaves: a heap without dangling pointers that
    differs from the one it started from only on the ring and on new nodes,
    and at most one more triangle for each node of the ring but two. *)
Definition done_post (l : list nat) h t (_ : unit) (s' : state) : Prop :=
  wf (st_heap s') /\ frame l h (st_heap s') /\
  (length (st_triangles s') <= length t + budget l)%nat.

Variable rec : nat -> option nat -> nat -> ST unit.
Variable M : nat.
Hypothesis Hrec : forall h t l e pass,
  (weight l pass < M)%nat -> ring_st (hz pass) h l -> flat h -> e ∈ l ->
  total (fun f => rec f (Some e) pass) (mkState h t) (done_post l h t).

Lemma splitEarcut_cut (g : nat -> nat) h t a r1 b r2 :
  (forall f, (f <= g f)%nat) ->
  ring_st false h (a :: r1 ++ b :: r2) -> flat h -> r1 <> [] -> r2 <> [] ->
  (3 * length (a :: r1 ++ b :: r2) <= M)%nat ->
  total (fun f =>
           c ← splitPolygon (Some a) (Some b);
           an ← rd (fld n_next (Some a));
           a ← filterPoints f (Some a) an;
           cn ← rd (fld n_next c);
           c ← filterPoints f c cn;
           rec (g f) a 0%nat;;
           rec (g f) c 0%nat;;
           mret true)
        (mkState h t)
        (fun ret s' => ret = true /\ done_post (a :: r1 ++ b :: r2) h t tt s').
Proof.
  intros Hg Hst Hflat Hr1 Hr2 HM. pose proof Hst as (Hwf & Hr & _).
  set (l := a :: r1 ++ b :: r2) in *.
  assert (exists an, head r1 = Some an) as [an Hhd].
  { destruct r1; [done|]. by eexists. }
  assert (exists bp, last r1 = Some bp) as [bp Hlst].
  { destruct r1 as [|y r1' _] using rev_ind; [done|]. rewrite last_snoc. by eexists. }
  assert (Han : nextf h a = Some an).
  { destruct (ring_head _ _ _ Hr) as [Hn _]. destruct r1; [done|].
    simpl in Hn, Hhd. by simplify_eq. }
  assert (Hbp : prevf h b = Some bp).
  { destruct Hr as [_ Hl]. apply links_app in Hl as [Hl1 _].
    apply last_Some in Hlst as [r1' ->].
    destruct r1' as [|y r1']; simpl in Hl1.
    - tauto.
    - destruct Hl1 as (_ & _ & Hl1). apply links_app in Hl1 as [_ Hl1]. simpl in Hl1.
      tauto. }
  assert (Vb : is_Some (h !! b)) by (eapply ring_valid; [exact Hr|set_solver]).
  assert (Van : is_Some (h !! an)) by (eapply wf_field; [exact Hwf|exact Han]).
  assert (Vbp : is_Some (h !! bp)) by (eapply wf_field; [exact Hwf|exact Hbp]).
  destruct (splitPolygon_spec h t a b an bp Han Hbp Vb Van Vbp) as (h' & Es & Hsp).
  destruct (split_rings h h' a b r1 r2 an bp Hwf Hr Hhd Hlst Hsp)
    as (Hwf' & Hra & Hrc & Hf').
  set (a2 := length h) in *. set (b2 := S a2) in *.
  set (la := a :: b :: r2) in *. set (lc := a2 :: r1 ++ [b2]) in *.
  assert (Hval : forall x, x ∈ l -> (x < a2)%nat).
  { intros x Hx. apply lookup_lt_is_Some. by eapply ring_valid. }
  assert (Hdisj : forall x, x ∈ la -> x ∉ lc).
  { intros x Hx Hx'. assert (Hxl : x ∈ l) by (subst la l; set_solver).
    pose proof (Hval x Hxl). subst lc.
    apply elem_of_cons in Hx' as [->|Hx']; [lia|].
    apply elem_of_app in Hx' as [Hx'|Hx']; [|apply list_elem_of_singleton in Hx'; lia].
    destruct Hr as [Hnd _]. subst l la. apply NoDup_cons in Hnd as [Hnd1 Hnd].
    apply NoDup_app in Hnd as (_ & Hd & _). specialize (Hd x Hx'). set_solver. }
  assert (Hlena : (length la < length l)%nat).
  { subst la l. simpl. rewrite length_app. simpl. destruct r1; [done|]. simpl. lia. }
  assert (Hlenc : (length lc < length l)%nat).
  { subst lc l. simpl. rewrite !length_app. simpl. destruct r2; [done|]. simpl. lia. }
  assert (Hsub : forall x, x ∈ la ++ lc -> x ∈ l \/ (length h <= x)%nat).
  { intros x Hx. fold a2. subst la lc l. apply elem_of_app in Hx as [Hx|Hx].
    - left. set_solver.
    - apply elem_of_cons in Hx as [->|Hx]; [right; lia|].
      apply elem_of_app in Hx as [Hx|Hx]; [left; set_solver|].
      apply list_elem_of_singleton in Hx. right. lia. }
  eapply total_step; [exact Es|]. cbn beta.
  (* filter the ring of a and b *)
  assert (Hnab : nextf h' a = Some b).
  { destruct (ring_head _ _ _ Hra) as [Hn _]. exact Hn. }
  eapply total_read; [exact (fld_next _ _ _ Hnab)|].
  apply total_bind. eapply total_mono.
  { apply (filterPoints_total false h' t la a (Some b)).
    - split; [done|]. split; [done|]. done.
    - subst la. set_solver.
    - intros q [= <-]. subst la. set_solver. }
  intros ra s1 (h1 & la' & a' & -> & -> & Hsta & Ha' & Hsuba & Hf1).
  (* filter the ring of the new nodes *)
  assert (Hrc1 : ring h1 lc).
  { eapply ring_frame; [exact Hf1|exact Hrc|]. intros x Hx Hx'. by apply (Hdisj x). }
  assert (Hncb : nextf h1 b2 = Some a2).
  { apply (ring_close h1 lc a2 b2 Hrc1); [done|]. subst lc.
    rewrite app_comm_cons. apply last_snoc. }
  eapply total_read; [exact (fld_next _ _ _ Hncb)|].
  apply total_bind. eapply total_mono.
  { apply (filterPoints_total false h1 t lc b2 (Some a2)).
    - split; [by destruct Hsta|]. split; [done|]. done.
    - subst lc. set_solver.
    - intros q [= <-]. subst lc. set_solver. }
  intros rc s2 (h2 & lc' & c' & -> & -> & Hstc & Hc' & Hsubc & Hf2).
  assert (Hina : forall x, x ∈ la' -> x ∈ la).
  { intros x Hx. eapply elem_of_submseteq; [exact Hx|exact Hsuba]. }
  assert (Hinc : forall x, x ∈ lc' -> x ∈ lc).
  { intros x Hx. eapply elem_of_submseteq; [exact Hx|exact Hsubc]. }
  (* run earcut on each half *)
  assert (Hsta2 : ring_st false h2 la').
  { eapply ring_st_frame; [by destruct Hstc|exact Hf2|by destruct Hsta as (_ & ? & _)|].
    intros x Hx Hx'. apply (Hdisj x); [by apply Hina|done]. }
  assert (Hfl2 : flat h2).
  { eapply flat_frame; [exact Hf2|]. eapply flat_frame; [exact Hf1|].
    eapply flat_frame; [exact Hf'|done]. }
  pose proof (submseteq_length _ _ Hsuba) as Hla'.
  pose proof (submseteq_length _ _ Hsubc) as Hlc'.
  apply total_bind. eapply total_mono.
  { apply (total_reindex (fun f => rec f (Some a') 0%nat) g _ _ Hg).
    apply (Hrec h2 t la' a' 0%nat); [|exact Hsta2|exact Hfl2|exact Ha'].
    unfold weight. simpl in *. lia. }
  intros [] [h3 t3] (Hwf3 & Hf3 & Hb3). simpl in Hwf3, Hf3, Hb3.
  assert (Hstc3 : ring_st false h3 lc').
  { eapply ring_st_frame; [exact Hwf3|exact Hf3|by destruct Hstc as (_ & ? & _)|].
    intros x Hx Hx'. apply (Hdisj x); [by apply Hina|by apply Hinc]. }
  apply total_bind. eapply total_mono.
  { apply (total_reindex (fun f => rec f (Some c') 0%nat) g _ _ Hg).
    apply (Hrec h3 t3 lc' c' 0%nat); [|exact Hstc3| |exact Hc'].
    - unfold weight. simpl in *. lia.
    - eapply flat_frame; [exact Hf3|exact Hfl2]. }
  intros [] [h4 t4] (Hwf4 & Hf4 & Hb4). simpl in Hwf4, Hf4, Hb4.
  apply total_ret. split; [done|]. split; [done|]. simpl. split.
  2:{ assert (length la + length lc = length l + 2)%nat.
      { subst la lc l. simpl. rewrite !length_app. simpl. lia. }
      assert (2 <= length la)%nat by (subst la; simpl; lia).
      assert (2 <= length lc)%nat by (subst lc; simpl; rewrite length_app; simpl; lia).
      unfold budget in *. lia. }
  eapply frame_trans; [|exact Hf4|].
  2:{ intros x Hx. apply Hsub. apply Hinc in Hx. set_solver. }
  eapply frame_trans; [|exact Hf3|].
  2:{ intros x Hx. apply Hsub. apply Hina in Hx. set_solver. }
  eapply frame_trans; [|exact Hf2|].
  2:{ intros x Hx. apply Hsub. set_solver. }
  eapply frame_trans; [exact Hf'|exact Hf1|].
  intros x Hx. apply Hsub. set_solver.
Qed.

Lemma splitEarcut_inner_total h t a r2 :
  forall (g : nat -> nat) r1 b,
  (forall f, (f <= g f)%nat) ->
  ring_st false h (a :: r1 ++ b :: r2) -> flat h -> r1 <> [] ->
  (3 * length (a :: r1 ++ b :: r2) <= M)%nat ->
  total (fun f => splitEarcut_inner (rec (g f)) f (Some a) (Some b)) (mkState h t)
    (fun ret s' => if (ret : bool) then done_post (a :: r1 ++ b :: r2) h t tt s'
                   else s' = mkState h t).
Proof.
  induction r2 as [|x r2 IH]; intros g r1 b Hg Hst Hflat Hr1 HM.
  all: pose proof Hst as (Hwf & Hr & _).
  all: destruct (ring_head _ _ _ Hr) as [_ Hpv].
  all: apply total_S; cbn [splitEarcut_inner].
  all: eapply total_read; [exact (fld_prev _ _ _ Hpv)|].
  - rewrite last_snoc. simpl. unfold same. rewrite bool_decide_eq_true_2 by done.
    by apply total_ret.
  - assert (Hlast : default a (last (r1 ++ b :: x :: r2)) <> b).
    { rewrite last_app. rewrite last_cons. rewrite last_cons.
      destruct Hr as [Hnd _]. apply NoDup_cons in Hnd as [_ Hnd].
      apply NoDup_app in Hnd as (_ & _ & Hnd). apply NoDup_cons in Hnd as [Hb _].
      destruct (last r2) as [y|] eqn:E; simpl.
      - apply last_Some in E as [r2' ->]. intros ->. set_solver.
      - intros ->. set_solver. }
    unfold same. rewrite bool_decide_eq_false_2 by (intros [= E]; by symmetry in E).
    assert (Va : is_Some (h !! a)) by (eapply ring_valid; [exact Hr|set_solver]).
    assert (Vb : is_Some (h !! b)) by (eapply ring_valid; [exact Hr|set_solver]).
    destruct Va as [na Ea], Vb as [nb Eb].
    eapply total_read; [exact (node_Some _ _ _ Ea)|].
    eapply total_read; [exact (node_Some _ _ _ Eb)|].
    apply total_bind. apply total_rd. eapply rtotal_mono.
    { instantiate (1 := fun _ => True).
      destruct (negb (n_i na =? n_i nb)); [|by apply rtotal_ret].
      apply (isValidDiagonal_total h _ a b Hr); set_solver. }
    intros v _. destruct v.
    + eapply total_mono.
      { apply (splitEarcut_cut (fun f => g (S f)) h t a r1 b (x :: r2)); try done.
        intros f. specialize (Hg (S f)). lia. }
      intros ret s' [-> Hd]. exact Hd.
    + assert (Hnb : nextf h b = Some x).
      { destruct Hr as [_ Hl]. apply links_app in Hl as [_ Hl]. simpl in Hl. tauto. }
      eapply total_read; [exact (fld_next _ _ _ Hnb)|].
      assert (Heq : a :: (r1 ++ [b]) ++ x :: r2 = a :: r1 ++ b :: x :: r2).
      { by rewrite <- app_assoc. }
      rewrite <- Heq in *.
      apply (IH (fun f => g (S f)) (r1 ++ [b]) x); try done.
      * intros f. specialize (Hg (S f)). lia.
      * by destruct r1.
Qed.

Lemma done_post_perm l l' h t u s' :
  l ≡ₚ l' -> done_post l h t u s' -> done_post l' h t u s'.
Proof.
  intros Hs (Hwf & Hf & Hb). split; [done|]. split.
  - eapply frame_subset; [exact Hf|]. intros x Hx. by rewrite <- Hs.
  - unfold budget in *. by rewrite <- Hs.
Qed.

Lemma splitEarcut_outer_total h t pre :
  forall (g : nat -> nat) a r e post,
  (forall f, (f <= g f)%nat) ->
  ring_st false h (a :: r) -> flat h -> (3 <= length (a :: r))%nat ->
  (3 * length (a :: r) <= M)%nat -> r ++ [a] = pre ++ e :: post ->
  total (fun f => splitEarcut_outer (rec (g f)) f (Some a) (Some e)) (mkState h t)
        (done_post (a :: r) h t).
Proof.
  induction pre as [|x pre IH]; intros g a r e post Hg Hst Hflat H3 HM Hsplit.
  all: pose proof Hst as (Hwf & Hr & _).
  all: destruct r as [|an [|b r2]]; [simpl in H3; lia..|].
  all: destruct (ring_head _ _ _ Hr) as [Hnx _]; simpl in Hnx.
  all: assert (Hnn : nextf h an = Some b)
         by (destruct Hr as [_ Hl]; simpl in Hl; tauto).
  all: apply total_S; cbn [splitEarcut_outer].
  all: eapply total_read; [exact (fld_next _ _ _ Hnx)|].
  all: eapply total_read; [exact (fld_next _ _ _ Hnn)|].
  all: apply total_bind; eapply total_mono;
         [apply (splitEarcut_inner_total h t a r2 (fun f => g (S f)) [an] b);
            [intros f; specialize (Hg (S f)); lia|done|done|done|done]|].
  all: intros ret s' Hret; destruct ret; [by apply total_ret|]; subst s'.
  all: eapply total_read; [exact (fld_next _ _ _ Hnx)|].
  - simpl in Hsplit. injection Hsplit as <- _.
    unfold same. rewrite bool_decide_eq_true_2 by done.
    apply total_ret. split; [done|]. split; [apply frame_refl|simpl; lia].
  - simpl in Hsplit. injection Hsplit as -> Hsplit.
    assert (Hxe : x <> e).
    { destruct Hr as [Hnd _]. apply NoDup_cons in Hnd as [Hp' Hnd].
      apply NoDup_cons in Hnd as [Hx' _]. intros ->.
      assert (e ∈ b :: r2 ++ [a]) by (rewrite Hsplit; set_solver). set_solver. }
    unfold same. rewrite bool_decide_eq_false_2 by (intros [= ->]; done).
    eapply total_mono.
    { apply (IH (fun f => g (S f)) x ((b :: r2) ++ [a]) e (post ++ [x])).
      - intros f. specialize (Hg (S f)). lia.
      - apply (ring_st_rotate_app false h [a] (x :: b :: r2)). exact Hst.
      - done.
      - simpl in H3 |- *. rewrite length_app. simpl. lia.
      - simpl in HM |- *. rewrite length_app. simpl. simpl in HM. lia.
      - change ((b :: r2 ++ [a]) ++ [x] = pre ++ e :: post ++ [x]).
        rewrite Hsplit. symmetry. apply (app_assoc pre (e :: post) [x]). }
    intros [] s'. apply done_post_perm.
    symmetry. exact (Permutation_app_comm [a] (x :: b :: r2)).
Qed.

Lemma splitEarcut_total (g : nat -> nat) z h t l start :
  (forall f, (f <= g f)%nat) ->
  ring_st z h l -> flat h -> (3 <= length l)%nat -> (3 * length l <= M)%nat ->
  start ∈ l ->
  total (fun f => splitEarcut (rec (g f)) f (Some start)) (mkState h t)
        (done_post l h t).
Proof.
  intros Hg Hst Hflat H3 HM Hs. apply ring_st_weaken in Hst.
  destruct (ring_st_at false h l start Hst Hs) as (rest & Hst' & Hperm).
  unfold splitEarcut. eapply total_mono.
  { apply (splitEarcut_outer_total h t rest g start rest start [] Hg Hst' Hflat).
    - by rewrite Hperm.
    - by rewrite Hperm.
    - done. }
  intros [] s'. by apply done_post_perm.
Qed.

Lemma done_post_trans l l1 h h1 t t1 u s' :
  frame l h h1 -> (forall x, x ∈ l1 -> x ∈ l \/ (length h <= x)%nat) ->
  (length t1 + budget l1 <= length t + budget l)%nat ->
  done_post l1 h1 t1 u s' -> done_post l h t u s'.
Proof.
  intros Hf Hs Hb (Hwf & Hf1 & Hb1). split; [done|]. split; [|lia].
  by eapply frame_trans.
Qed.

Lemma hz_S pass : hz (S pass) = hashed invSize.
Proof. done. Qed.

(** The loop of [earcutLinked] returns on rings of at most [n] nodes. *)
Definition loop_total (pass n : nat) : Prop :=
  forall pre (g : nat -> nat) h t ear r stop post,
  (forall f, (f <= g f)%nat) ->
  (length (ear :: r) <= n)%nat -> (weight (ear :: r) pass <= M)%nat ->
  ring_st (hashed invSize) h (ear :: r) -> flat h ->
  r ++ [ear] = pre ++ stop :: post ->
  total (fun f => earcutLinked_loop (rec (g f)) dim minX minY invSize f
                    (Some ear) (Some stop) pass)
        (mkState h t) (done_post (ear :: r) h t).

(** The step that cuts off an ear. *)
Lemma earcut_clip pass n (g : nat -> nat) h t ear r pa pc :
  loop_total pass n -> (forall f, (f <= g f)%nat) ->
  (length (ear :: r) <= S n)%nat -> (weight (ear :: r) pass <= M)%nat ->
  ring_st (hashed invSize) h (ear :: r) -> flat h ->
  prevf h ear = Some pa -> nextf h ear = Some pc -> pa <> pc ->
  total (fun f =>
           pushTriangle (Some pa) (Some ear) (Some pc) dim;;
           removeNode (Some ear);;
           nn ← rd (fld n_next (Some pc));
           earcutLinked_loop (rec (g f)) dim minX minY invSize f nn nn pass)
        (mkState h t) (done_post (ear :: r) h t).
Proof.
  intros IHn Hg Hlen HM Hst Hflat Hpv' Hnx' Hne.
  pose proof Hst as (Hwf & Hr & Hz).
  destruct (ring_head _ _ _ Hr) as [Hnx Hpv].
  rewrite Hnx' in Hnx; rewrite Hpv' in Hpv.
  destruct r as [|x [|y r2]]; simpl in Hnx, Hpv; [congruence|congruence|].
  injection Hnx as ->. clear Hpv.
  assert (Va : is_Some (h !! pa)) by (eapply wf_field; [exact Hwf|exact Hpv']).
  assert (Ve : is_Some (h !! ear)) by (eapply ring_valid; [exact Hr|set_solver]).
  assert (Vc : is_Some (h !! x)) by (eapply ring_valid; [exact Hr|set_solver]).
  destruct (pushTriangle_total h t pa ear x dim Va Ve Vc) as (t1 & E0 & Ht1).
  destruct (removeNode_st _ h t1 ear (x :: y :: r2) Hst) as (h1 & E1 & Hst1 & Hf1 & _);
    [done|].
  pose proof Hst1 as (_ & Hr1 & _). destruct (ring_head _ _ _ Hr1) as [Hnx1 _].
  simpl in Hnx1.
  eapply total_step; [exact E0|]. eapply total_step; [exact E1|].
  eapply total_read; [exact (fld_next _ _ _ Hnx1)|].
  eapply total_mono.
  { apply (IHn (r2 ++ [x]) g h1 t1 y (r2 ++ [x]) y [] Hg).
    - simpl in Hlen |- *. rewrite length_app. simpl. lia.
    - unfold weight in *. simpl in HM |- *. rewrite length_app. simpl. lia.
    - apply (ring_st_rotate_app _ h1 [x] (y :: r2)). exact Hst1.
    - eapply flat_frame; [exact Hf1|done].
    - done. }
  intros u s'. apply done_post_trans; [exact Hf1| |].
  - intros z Hz'. left. set_solver.
  - unfold budget. simpl. rewrite length_app. simpl. lia.
Qed.

(** The passes tried once no ear is left. *)
Lemma earcut_passes pass (g : nat -> nat) h t l p :
  (forall f, (f <= g f)%nat) -> (weight l pass <= M)%nat -> (3 <= length l)%nat ->
  ring_st (hashed invSize) h l -> flat h -> p ∈ l ->
  total (fun f =>
           match pass with
           | 0%nat => fp ← filterPoints f (Some p) None; rec (g f) fp 1%nat
           | 1%nat =>
               fp ← filterPoints f (Some p) None;
               ear ← cureLocalIntersections f fp dim;
               rec (g f) ear 2%nat
           | 2%nat => splitEarcut (rec (g f)) f (Some p)
           | _ => mret tt
           end)
        (mkState h t) (done_post l h t).
Proof.
  intros Hg HM H3 Hst Hflat Hp. pose proof Hst as (Hwf & Hr & _).
  destruct pass as [|[|[|pass]]].
  - apply total_bind. eapply total_mono.
    { by apply (filterPoints_total _ h t l p None Hst Hp). }
    intros fp s1 (h1 & l' & rr & -> & -> & Hst1 & Hrr & Hsub & Hf1).
    pose proof (submseteq_length _ _ Hsub) as Hl'.
    eapply total_mono.
    { apply (total_reindex (fun f => rec f (Some rr) 1%nat) g _ _ Hg).
      apply (Hrec h1 t l' rr 1%nat); [|by rewrite hz_S| |done].
      - unfold weight in *. lia.
      - eapply flat_frame; [exact Hf1|done]. }
    intros u s'. apply done_post_trans; [exact Hf1| |].
    + intros z Hz'. left. eapply elem_of_submseteq; [exact Hz'|exact Hsub].
    + unfold budget. lia.
  - apply total_bind. eapply total_mono.
    { by apply (filterPoints_total _ h t l p None Hst Hp). }
    intros fp s1 (h1 & l' & rr & -> & -> & Hst1 & Hrr & Hsub & Hf1).
    pose proof (submseteq_length _ _ Hsub) as Hl'.
    assert (Hfl1 : flat h1) by (eapply flat_frame; [exact Hf1|done]).
    apply total_bind. eapply total_mono.
    { by apply (cureLocalIntersections_total _ dim h1 t l' rr Hst1 Hfl1 Hrr). }
    intros res [h2 t2] (l'' & r2 & -> & Hst2 & Hr2 & Hsub2 & Hf2 & Hb2). simpl in *.
    pose proof (submseteq_length _ _ Hsub2) as Hl''.
    eapply total_mono.
    { apply (total_reindex (fun f => rec f (Some r2) 2%nat) g _ _ Hg).
      apply (Hrec h2 t2 l'' r2 2%nat); [|by rewrite hz_S| |done].
      - unfold weight in *. lia.
      - eapply flat_frame; [exact Hf2|done]. }
    intros u s'. intros Hd.
    eapply done_post_trans; [exact Hf1| | |].
    3:{ eapply done_post_trans; [exact Hf2| | |exact Hd].
        - intros z Hz'. left. eapply elem_of_submseteq; [exact Hz'|exact Hsub2].
        - exact Hb2. }
    + intros z Hz'. left. eapply elem_of_submseteq; [exact Hz'|exact Hsub].
    + unfold budget. lia.
  - apply (splitEarcut_total g _ h t l p Hg Hst Hflat H3); [|done].
    unfold weight in HM. lia.
  - apply total_ret. split; [done|]. split; [apply frame_refl|simpl; lia].
Qed.

Lemma earcutLinked_loop_total pass n : loop_total pass n.
Proof.
  induction n as [|n IHn]; intros pre g h t ear r stop post Hg Hlen HM Hst Hflat Hsplit.
  { simpl in Hlen. lia. }
  revert g h t ear r post Hg Hlen HM Hst Hflat Hsplit.
  induction pre as [|x0 pre IHpre]; intros g h t ear r post Hg Hlen HM Hst Hflat Hsplit.
  all: pose proof Hst as (Hwf & Hr & Hz).
  all: assert (Hel : ear ∈ ear :: r) by set_solver.
  all: destruct (ring_neighbours _ _ _ Hr Hel) as (ne & pa & pc & Ee & Hpa & Hpc & Hal & Hcl).
  all: destruct (ring_head _ _ _ Hr) as [Hnx Hpv].
  all: assert (Hnx' : nextf h ear = Some pc) by (unfold fieldf; by rewrite Ee).
  all: assert (Hpv' : prevf h ear = Some pa) by (unfold fieldf; by rewrite Ee).
  all: rewrite Hnx' in Hnx; rewrite Hpv' in Hpv.
  all: assert (Hg' : forall f, (f <= g (S f))%nat)
         by (intros f; specialize (Hg (S f)); lia).
  all: apply total_S; cbn [earcutLinked_loop].
  all: eapply total_read; [exact (node_Some _ _ _ Ee)|].
  all: rewrite Hpa, Hpc.
  all: destruct (decide (pa = pc)) as [Heq|Hne];
         [unfold same; rewrite bool_decide_eq_true_2 by (by rewrite Heq);
          apply total_ret; split; [done|]; split; [apply frame_refl|simpl; lia]|].
  all: unfold same at 1; rewrite bool_decide_eq_false_2 by (intros [= ?]; done).
  all: cbn zeta.
  all: apply total_bind, total_rd; eapply rtotal_mono;
         [instantiate (1 := fun _ => True);
          destruct (hashed invSize) eqn:Ehz;
            [destruct (Hz eq_refl) as (zl & Hperm & Hzc);
             by eapply (isEarHashed_total h (ear :: r) zl ear ne)
            |eapply (isEar_total h (ear :: r) ear ne);
               [done|done|done|rewrite Hpa, Hpc; by intros [= ?]]]|].
  all: intros e _; destruct e;
         [by apply (earcut_clip pass n (fun f => g (S f)) h t ear r pa pc IHn)|].
  all: assert (H3 : (3 <= length (ear :: r))%nat)
         by (destruct r as [|x [|y r2]]; simpl in Hnx, Hpv; [congruence|congruence|];
             simpl; lia).
  - (* back at the node where the search started *)
    assert (pc = stop).
    { destruct r as [|x r1]; simpl in *; by simplify_eq. }
    subst pc. unfold same. rewrite bool_decide_eq_true_2 by done.
    by apply (earcut_passes pass (fun f => g (S f)) h t (ear :: r) stop).
  - (* try the next node *)
    destruct r as [|x r1]; [simpl in H3; lia|].
    simpl in Hnx. injection Hnx as ->. simpl in Hsplit. injection Hsplit as -> Hsplit.
    assert (Hxe : x0 <> stop).
    { destruct Hr as [Hnd _]. apply NoDup_cons in Hnd as [Hp' Hnd].
      apply NoDup_cons in Hnd as [Hx' _]. intros ->.
      assert (stop ∈ r1 ++ [ear]) by (rewrite Hsplit; set_solver). set_solver. }
    unfold same. rewrite bool_decide_eq_false_2 by (intros [= ->]; done).
    eapply total_mono.
    { apply (IHpre (fun f => g (S f)) h t x0 (r1 ++ [ear]) (post ++ [x0]) Hg').
      - simpl in Hlen |- *. rewrite length_app. simpl. lia.
      - unfold weight in *. simpl in HM |- *. rewrite length_app. simpl. lia.
      - apply (ring_st_rotate_app _ h [ear] (x0 :: r1)). exact Hst.
      - done.
      - rewrite Hsplit. symmetry. apply (app_assoc pre (stop :: post) [x0]). }
    intros u s'. apply done_post_perm.
    symmetry. exact (Permutation_app_comm [ear] (x0 :: r1)).
Qed.

End EngineTotal.

(** ** [earcutLinked] returns *)

(** [earcutLinked] returns, by induction on the weight of the ring and the
    pass. *)
Lemma earcutLinked_total dim minX minY invSize M :
  forall h t l ear pass,
  (weight l pass < M)%nat -> ring_st (hz invSize pass) h l -> flat h -> ear ∈ l ->
  total (fun f => earcutLinked f dim minX minY invSize (Some ear) pass) (mkState h t)
        (done_post l h t).
Proof.
  induction M as [|M IH]; intros h t l ear pass HM Hst Hflat He; [lia|].
  pose proof Hst as (Hwf & Hr & _).
  apply total_S. cbn [earcutLinked]. apply total_bind.
  assert (Hidx : total
            (fun f => if (pass =? 0)%nat && hashed invSize
                      then indexCurve f (Some ear) (val minX) (val minY) (val invSize)
                      else mret tt)
            (mkState h t)
            (fun _ s' => exists h1, s' = mkState h1 t /\
                                    ring_st (hashed invSize) h1 l /\ zonly h h1)).
  { destruct (hashed invSize) eqn:Ehz; [destruct pass as [|pass]|].
    - simpl. eapply total_mono; [by apply (indexCurve_total t h l ear)|].
      intros u s' (h1 & zl & -> & Hwf1 & Hzo & Hzc & Hperm). exists h1.
      split; [done|]. split; [|done]. split; [done|].
      split; [by eapply zonly_ring|]. intros _. by exists zl.
    - simpl. apply total_ret. exists h. split; [done|]. split; [|apply zonly_refl].
      unfold hz in Hst. rewrite Ehz in Hst. exact Hst.
    - rewrite andb_false_r. apply total_ret. exists h. split; [done|].
      split; [|apply zonly_refl]. split; [done|]. split; [done|]. done. }
  eapply total_mono; [exact Hidx|]. intros [] s1 (h1 & -> & Hst1 & Hzo).
  destruct (ring_st_at _ h1 l ear Hst1 He) as (r & Hst1' & Hperm).
  eapply total_mono.
  { apply (earcutLinked_loop_total dim minX minY invSize
             (fun f p pass => earcutLinked f dim minX minY invSize p pass) M IH
             pass (length (ear :: r)) r (fun f => f) h1 t ear r ear []); try done.
    - unfold weight in *. rewrite Hperm. lia.
    - eapply flat_frame; [by apply (zonly_frame l)|done]. }
  intros u s'. apply done_post_trans; [by apply zonly_frame| |].
  - intros x Hx. left. by rewrite <- Hperm.
  - unfold budget. by rewrite Hperm.
Qed.

(** C2.  The ear-clipping engine terminates: on every ring [l] of a heap
    without dangling pointers, started at any node [ear] of the ring and in
    any pass, [earcutLinked] -- with the z-order scans, the three passes,
    [cureLocalIntersections] and the recursion of [splitEarcut] -- returns
    once it is given enough fuel.  It leaves a heap without dangling
    pointers that differs from the initial one only on the ring and on the
    nodes it allocated, and has emitted at most one triangle for each node
    of the ring but two.  After pass 0 the z-order chain is taken as built
    when it is in use.  The arithmetic is assumed to give no negative area
    to a triangle with a repeated corner, as IEEE arithmetic does. *)
Theorem earcutLinked_terminates dim minX minY invSize h t l ear pass :
  wf h -> ring h l -> ear ∈ l -> flat h ->
  (pass <> 0%nat -> hashed invSize = true -> exists zl, zl ≡ₚ l /\ zchain h zl) ->
  exists N s',
    (forall fuel, (N <= fuel)%nat ->
       earcutLinked fuel dim minX minY invSize (Some ear) pass (mkState h t) =
       Ret (tt, s')) /\
    wf (st_heap s') /\ frame l h (st_heap s') /\
    (length (st_triangles s') <= length t + 3 * (length l - 2))%nat.
Proof.
  intros Hwf Hr He Hflat Hz.
  destruct (earcutLinked_total dim minX minY invSize (S (weight l pass)) h t l ear pass)
    as (N & [] & s' & (Hwf' & Hf' & Hb') & Hrun); [lia| |done|done|].
  { split; [done|]. split; [done|]. unfold hz. intros Hhz.
    apply andb_true_iff in Hhz as [Hp Hh]. apply Hz; [|done].
    intros ->. done. }
  by exists N, s'.
Qed.

(** ** Executable checks of the hypotheses *)

(** Executable checks of [wf] and [flat]. *)
Definition wfb (h : list Node) : bool :=
  forallb (fun n =>
    forallb (fun o => match o with Some q => (q <? length h)%nat | None => true end)
            [n_prev n; n_next n; n_prevZ n; n_nextZ n]) h.

Lemma wfb_wf h : wfb h = true -> wf h.
Proof.
  intros Hb p n E q Hq. unfold wfb in Hb. rewrite forallb_forall in Hb.
  specialize (Hb n). rewrite <- list_elem_of_In in Hb.
  specialize (Hb (list_elem_of_lookup_2 _ _ _ E)). simpl in Hb.
  repeat (apply andb_true_iff in Hb as [? Hb]).
  destruct Hq as [Hq|[Hq|[Hq|Hq]]]; rewrite Hq in *; by apply Nat.ltb_lt.
Qed.

Definition flatb (h : list Node) : bool :=
  forallb (fun np =>
    forallb (fun nq => negb (flt (area np nq np) (num 0)) &&
                       negb (flt (area nq np np) (num 0))) h) h.

Lemma flatb_flat h : flatb h = true -> flat h.
Proof.
  intros Hb p q np nq Ep Eq. unfold flatb in Hb. rewrite forallb_forall in Hb.
  specialize (Hb np). rewrite <- list_elem_of_In in Hb.
  specialize (Hb (list_elem_of_lookup_2 _ _ _ Ep)). rewrite forallb_forall in Hb.
  specialize (Hb nq). rewrite <- list_elem_of_In in Hb.
  specialize (Hb (list_elem_of_lookup_2 _ _ _ Eq)).
  apply andb_true_iff in Hb as [H1 H2]. by rewrite !negb_true_iff in H1, H2.
Qed.

(** * The entry point *)

(** The heap [linkedList] builds has no dangling pointer. *)
Lemma built_wf data h0 h idxs : wf h0 -> built data h0 h idxs -> wf h.
Proof.
  intros Hwf (L & Hr & Hd & Ho). apply wf_alt. intros F p q E.
  destruct (decide (p < length h0)%nat) as [Hp|Hp].
  - destruct (Ho p Hp) as [Hf _]. rewrite Hf in E.
    apply (proj1 (wf_alt h0) Hwf) in E. lia.
  - assert (Vp : is_Some (h !! p)) by (by eapply fieldf_valid).
    apply lookup_lt_is_Some in Vp.
    assert (Hj : exists i, idxs !! (p - length h0)%nat = Some i).
    { apply lookup_lt_is_Some. lia. }
    destruct Hj as [i Hj]. destruct (Hd _ _ Hj) as (_ & HnZ & HpZ).
    replace (length h0 + (p - length h0))%nat with p in HnZ, HpZ by lia.
    assert (Hne : idxs <> []) by (intros ->; by rewrite lookup_nil in Hj).
    specialize (Hr Hne).
    assert (Hin : p ∈ seq (length h0) (length idxs)) by (apply elem_of_seq; lia).
    destruct (ring_neighbours _ _ _ Hr Hin) as (np & a & b & Enp & Ha & Hb & Hal & Hbl).
    apply elem_of_seq in Hal, Hbl.
    destruct F; unfold fieldf in E; rewrite Enp in E; simpl in E.
    + rewrite Ha in E. injection E as <-. lia.
    + rewrite Hb in E. injection E as <-. lia.
    + unfold fieldf in HpZ. rewrite Enp in HpZ. simpl in HpZ. congruence.
    + unfold fieldf in HnZ. rewrite Enp in HnZ. simpl in HnZ. congruence.
Qed.

Lemma linkedList_wf data start end_ dim cw ar h t fuel n res s' :
  0 < dim -> end_ = start + Z.of_nat n * dim -> (n < fuel)%nat -> wf h ->
  linkedList fuel data start end_ dim cw ar (mkState h t) = Ret (res, s') ->
  wf (st_heap s').
Proof.
  intros Hdim He Hf Hwf E. unfold linkedList in E.
  fold (span_area data start end_ dim ar) in E.
  set (idxs := span_idxs start end_ dim n
                 (Bool.eqb cw (flt (span_area data start end_ dim ar) (num 0)))) in *.
  assert (Hloop : exists h1,
    (if Bool.eqb cw (flt (span_area data start end_ dim ar) (num 0))
     then linkedList_forward fuel data start end_ dim None
     else linkedList_backward fuel data (end_ - dim) start dim None) (mkState h t) =
      Ret (last_built h idxs, mkState h1 t) /\ built data h h1 idxs).
  { subst idxs. unfold span_idxs. destruct (Bool.eqb _ _).
    - apply (linkedList_forward_spec data h t dim end_ Hdim n [] start h fuel);
        [apply built_nil|done|done].
    - apply (linkedList_backward_spec data h t dim start Hdim n [] (end_ - dim) h fuel);
        [apply built_nil|lia|done]. }
  destruct Hloop as (h1 & E1 & Hb). rewrite (ST_bind_Ret _ _ _ _ _ E1) in E.
  pose proof (built_wf _ _ _ _ Hwf Hb) as Hwf1.
  assert (Hlen : length idxs = n) by apply span_idxs_length.
  destruct Hb as (L1 & Hr & Hd & Ho). rewrite Hlen in L1, Hr.
  destruct n as [|k].
  { destruct idxs; [|done]. simpl in E. by injection E as <- <-. }
  assert (Hne : idxs <> []) by (by destruct idxs).
  specialize (Hr Hne).
  assert (Hlast : last_built h idxs = Some (length h + k)%nat).
  { unfold last_built. destruct idxs; [done|]. rewrite Hlen. f_equal. lia. }
  rewrite Hlast in E.
  rewrite seq_S in Hr. apply ring_rotate_back in Hr.
  destruct (ring_head _ _ _ Hr) as [Hn _].
  rewrite (rd_bind _ _ _ _ _ (fld_next _ _ _ Hn)) in E.
  destruct (equalsP_valid h1 (length h + k)%nat
              (default (length h + k)%nat (head (seq (length h) k)))) as [d Ed].
  { eapply ring_valid; [exact Hr|set_solver]. }
  { eapply wf_field; [exact Hwf1|exact Hn]. }
  rewrite (rd_bind _ _ _ _ _ Ed) in E. destruct d.
  2:{ by injection E as <- <-. }
  assert (Hst : ring_st false h1 ((length h + k)%nat :: seq (length h) k)).
  { split; [done|]. split; [done|]. done. }
  assert (exists h2, removeNode (Some (length h + k)%nat) (mkState h1 t) =
                       Ret (tt, mkState h2 t) /\ wf h2 /\ length h2 = length h1)
    as (h2 & E2 & Hwf2 & L2).
  { destruct k as [|k'].
    - destruct (removeNode_single false h1 t _ Hst) as (h2 & E2 & (Hwf2 & _) & Hfr).
      exists h2. split; [done|]. split; [done|].
      destruct (removeNode_spec h1 t (length h + 0)%nat (length h + 0)%nat
                  (length h + 0)%nat) as (h2' & E2' & L2' & _).
      + by apply wf_zvalid.
      + destruct (ring_head _ _ _ Hr) as [_ Hp]. exact Hp.
      + exact Hn.
      + eapply ring_valid; [exact Hr|set_solver].
      + eapply ring_valid; [exact Hr|set_solver].
      + rewrite E2 in E2'. by injection E2' as ->.
    - destruct (removeNode_ring h1 t _ _ (wf_zvalid h1 _ Hwf1) Hr)
        as (h2 & E2 & _ & Hwf2 & L2 & _); [done|].
      exists h2. split; [done|]. split; [by apply Hwf2|done]. }
  rewrite (ST_bind_Ret _ _ _ _ _ E2) in E.
  assert (V2 : is_Some (h2 !! (length h + k)%nat)).
  { eapply valid_length; [exact L2|]. eapply ring_valid; [exact Hr|set_solver]. }
  destruct V2 as [n2 En2]. rewrite (rd_Ret _ _ _ _ (fld_Some n_next _ _ _ En2)) in E.
  by injection E as <- <-.
Qed.

(** The bounding-box loop returns. *)
Lemma earcut_bbox_total positions outerLen dim k :
  0 < dim ->
  forall i a b c d, outerLen <= i + Z.of_nat k * dim ->
  exists box, forall fuel, (k < fuel)%nat ->
    earcut_bbox fuel positions i outerLen dim a b c d = Ret box.
Proof.
  intros Hdim. induction k as [|k IH]; intros i a b c d Hk.
  - exists (a, b, c, d). intros [|f] Hf; [lia|]. simpl.
    by destruct (Z.ltb_spec i outerLen); [lia|].
  - destruct (Z.ltb_spec i outerLen) as [Hlt|Hge].
    + edestruct (IH (i + dim)) as [box Hbox]; [lia|].
      exists box. intros [|f] Hf; [lia|]. simpl.
      destruct (Z.ltb_spec i outerLen); [|lia]. apply Hbox. lia.
    + exists (a, b, c, d). intros [|f] Hf; [lia|]. simpl.
      by destruct (Z.ltb_spec i outerLen); [lia|].
Qed.

Lemma earcut_invSize_total positions outerLen dim h :
  0 < dim ->
  rtotal (fun f _ => earcut_invSize f positions outerLen dim) h (fun _ => True).
Proof.
  intros Hdim. unfold earcut_invSize.
  destruct (80 * dim <? Z.of_nat (length positions)); [|by apply rtotal_ret].
  destruct (earcut_bbox_total positions outerLen dim (Z.to_nat outerLen) Hdim dim
              (get positions 0) (get positions 1) (get positions 0) (get positions 1))
    as [[[[x0 y0] x1] y1] Hbox]; [nia|].
  exists (S (Z.to_nat outerLen)). eexists. split; [done|]. intros fuel Hf.
  unfold mbind, res_bind. rewrite Hbox by lia. reflexivity.
Qed.

(** The vertex of [data] at offset [i], as a node. *)
Definition vertex (data : list R) (i : Z) : Node :=
  newNode i (get data i) (get data (i + 1)).

(** No triangle with a repeated corner among the first [n] vertices has a
    negative area. *)
Definition flat_data (data : list R) (dim : Z) (n : nat) : bool :=
  forallb (fun j =>
    forallb (fun k =>
      negb (flt (area (vertex data j) (vertex data k) (vertex data j)) (num 0)) &&
      negb (flt (area (vertex data k) (vertex data j) (vertex data j)) (num 0)))
      (iota 0 dim n)) (iota 0 dim n).

Lemma flat_data_flat data dim n h :
  flat_data data dim n = true ->
  (forall p np, h !! p = Some np ->
     exists i, i ∈ iota 0 dim n /\ n_x np = get data i /\ n_y np = get data (i + 1)) ->
  flat h.
Proof.
  intros Hb Hh p q np nq Ep Eq.
  destruct (Hh p np Ep) as (i & Hi & Hxi & Hyi).
  destruct (Hh q nq Eq) as (j & Hj & Hxj & Hyj).
  unfold flat_data in Hb. rewrite forallb_forall in Hb.
  specialize (Hb i). rewrite <- list_elem_of_In in Hb. specialize (Hb Hi).
  rewrite forallb_forall in Hb.
  specialize (Hb j). rewrite <- list_elem_of_In in Hb. specialize (Hb Hj).
  apply andb_true_iff in Hb as [H1 H2]. rewrite !negb_true_iff in H1, H2.
  unfold area, vertex in *. simpl in H1, H2. by rewrite Hxi, Hyi, Hxj, Hyj.
Qed.

Lemma span_idxs_in dim n fw j i :
  span_idxs 0 (0 + Z.of_nat n * dim) dim n fw !! j = Some i -> i ∈ iota 0 dim n.
Proof.
  intros Hj. assert (Hlt : (j < n)%nat).
  { apply lookup_lt_Some in Hj. by rewrite span_idxs_length in Hj. }
  unfold span_idxs in Hj. destruct fw.
  - by eapply list_elem_of_lookup_2.
  - rewrite iota_lookup in Hj by done. injection Hj as <-.
    apply (list_elem_of_lookup_2 _ (n - 1 - j)%nat). rewrite iota_lookup by lia.
    f_equal. replace (Z.of_nat (n - 1 - j)) with (Z.of_nat n - 1 - Z.of_nat j) by lia.
    ring.
Qed.

(** More fuel does not change what the ring builder returns. *)
Lemma linkedList_forward_mono data end_ dim f :
  forall f' i last s r, (f <= f')%nat ->
  linkedList_forward f data i end_ dim last s = Ret r ->
  linkedList_forward f' data i end_ dim last s = Ret r.
Proof.
  induction f as [|f IH]; intros f' i last s r Hf E; [done|].
  destruct f' as [|f']; [lia|]. simpl in *.
  destruct (i <? end_); [|done].
  unfold mbind, ST_bind in *.
  destruct (insertNode _ _ _ _ s) as [[p s1]| |]; [|done..].
  apply IH; [lia|done].
Qed.

Lemma linkedList_backward_mono data start dim f :
  forall f' i last s r, (f <= f')%nat ->
  linkedList_backward f data i start dim last s = Ret r ->
  linkedList_backward f' data i start dim last s = Ret r.
Proof.
  induction f as [|f IH]; intros f' i last s r Hf E; [done|].
  destruct f' as [|f']; [lia|]. simpl in *.
  destruct (start <=? i); [|done].
  unfold mbind, ST_bind in *.
  destruct (insertNode _ _ _ _ s) as [[p s1]| |]; [|done..].
  apply IH; [lia|done].
Qed.

Lemma linkedList_mono data start end_ dim cw ar f f' s r :
  (f <= f')%nat ->
  linkedList f data start end_ dim cw ar s = Ret r ->
  linkedList f' data start end_ dim cw ar s = Ret r.
Proof.
  intros Hf E. unfold linkedList in *. unfold mbind, ST_bind in *.
  destruct (Bool.eqb _ _).
  - destruct (linkedList_forward f _ _ _ _ _ s) as [[p s1]| |] eqn:E1; [|done..].
    by rewrite (linkedList_forward_mono _ _ _ _ _ _ _ _ _ Hf E1).
  - destruct (linkedList_backward f _ _ _ _ _ s) as [[p s1]| |] eqn:E1; [|done..].
    by rewrite (linkedList_backward_mono _ _ _ _ _ _ _ _ _ Hf E1).
Qed.

(** [earcut] on an input without holes returns, with at most [n - 2]
    triangles for [n] vertices. *)
Lemma earcut_bound positions holeIndices dim areas n :
  0 < dim -> Z.of_nat (length positions) = Z.of_nat n * dim ->
  hasHoles holeIndices = false -> flat_data positions dim n = true ->
  exists N tris,
    (forall fuel, (N <= fuel)%nat ->
       earcut fuel positions holeIndices dim areas = Ret tris) /\
    (length tris <= 3 * (n - 2))%nat.
Proof.
  intros Hdim Hlen Hholes Hflat.
  assert (Hout : outerLen positions holeIndices dim = 0 + Z.of_nat n * dim).
  { unfold outerLen. destruct holeIndices as [[|]|]; simpl in *; try done; lia. }
  assert (Hrun : total (fun f => earcut_run f positions holeIndices dim areas)
                       (mkState [] [])
                       (fun _ s' => (length (st_triangles s') <= 3 * (n - 2))%nat)).
  { unfold earcut_run. rewrite Hout, Hholes. cbn zeta.
    set (ar := areas ≫= (.!! 0%nat)).
    apply total_bind.
    destruct (linkedList_core positions 0 (0 + Z.of_nat n * dim) dim true ar [] [] (S n) n
                Hdim eq_refl (le_n _)) as (h' & E & L & Hr & Hd & _).
    assert (Hwf : wf h').
    { assert (Hwf0 : wf (@nil Node)) by (intros p np Hp; by rewrite lookup_nil in Hp).
      exact (linkedList_wf positions 0 _ dim true ar [] [] (S n) n _ (mkState h' [])
               Hdim eq_refl (le_n _) Hwf0 E). }
    assert (Hfl : flat h').
    { eapply flat_data_flat; [exact Hflat|]. intros p np Ep.
      pose proof (lookup_lt_Some _ _ _ Ep) as Hp. rewrite L in Hp. simpl in Hp.
      set (idxs := span_idxs 0 (0 + Z.of_nat n * dim) dim n
                     (Bool.eqb true (flt (span_area positions 0 (0 + Z.of_nat n * dim)
                                             dim ar) (num 0)))) in *.
      assert (Hi : exists i, idxs !! p = Some i).
      { apply lookup_lt_is_Some. subst idxs. by rewrite span_idxs_length. }
      destruct Hi as [i Hi]. exists i. split; [by eapply span_idxs_in|].
      specialize (Hd _ _ Hi). simpl in Hd.
      destruct (dataf_node _ _ _ _ _ _ _ _ Ep Hd) as (_ & ? & ?). done. }
    exists (S n). eexists. exists (mkState h' []). split.
    2:{ intros fuel Hf. eapply linkedList_mono; [exact Hf|exact E]. }
    destruct n as [|k].
    { (* no vertex *)
      eapply total_read; [reflexivity|]. apply total_ret. simpl. lia. }
    specialize (Hr ltac:(done)).
    set (dup := span_dup positions
                  (span_idxs 0 (0 + Z.of_nat (S k) * dim) dim (S k)
                     (Bool.eqb true (flt (span_area positions 0
                                            (0 + Z.of_nat (S k) * dim) dim ar) (num 0)))))
      in *.
    set (l := seq (length (@nil Node)) (if dup && (1 <? S k)%nat then S k - 1 else S k))
      in *.
    set (p := (if dup then length (@nil Node) else length (@nil Node) + k)%nat) in *.
    assert (Hl : (length l <= S k)%nat).
    { subst l. rewrite length_seq. destruct (dup && _); lia. }
    assert (Hp : p ∈ l).
    { subst p l. apply elem_of_seq. simpl. destruct dup; simpl.
      - destruct k; simpl; lia.
      - lia. }
    assert (Vp : is_Some (h' !! p)) by (by eapply ring_valid).
    destruct Vp as [np Ep].
    eapply total_read.
    { rewrite (RD_bind_Ret _ _ _ _ (node_Some _ _ _ Ep)). reflexivity. }
    destruct (same (n_next np) (n_prev np)).
    { apply total_ret. simpl. lia. }
    eapply total_step; [reflexivity|]. cbn beta.
    apply total_bind. apply total_rd. eapply rtotal_mono.
    { apply (earcut_invSize_total positions (0 + Z.of_nat (S k) * dim) dim h' Hdim). }
    intros [[minX minY] invSize] _.
    eapply total_mono.
    { apply (earcutLinked_total dim minX minY invSize (S (weight l 0)) h' [] l p 0%nat);
        [lia| |exact Hfl|exact Hp].
      split; [done|]. split; [done|]. done. }
    intros u s' (_ & _ & Hb). simpl in Hb. unfold budget in Hb. lia. }
  destruct Hrun as (N & u & s' & Hb & Hrun). exists N, (st_triangles s').
  split; [|done]. intros fuel Hf. unfold earcut. by rewrite (Hrun fuel Hf).
Qed.

(** Without holes, what [earcut] returns is a whole number of triangles on
    vertex indices of the input. *)
Lemma earcut_noholes_shape fuel positions holeIndices dim areas n tris :
  0 < dim -> Z.of_nat (length positions) = Z.of_nat n * dim ->
  hasHoles holeIndices = false ->
  earcut fuel positions holeIndices dim areas = Ret tris ->
  Nat.divide 3 (length tris) /\
  Forall (fun q => exists k : Z, q = inject_Z k /\ 0 <= k < Z.of_nat n) tris.
Proof.
  intros Hdim Hlen Hholes E.
  pose (PI := fun i : Z => exists k, i = k * dim /\ 0 <= k < Z.of_nat n).
  pose (PT := fun l : list Q =>
    Nat.divide 3 (length l) /\
    Forall (fun q => exists k : Z, q = inject_Z k /\ 0 <= k < Z.of_nat n) l).
  assert (Hout : outerLen positions holeIndices dim = Z.of_nat n * dim).
  { unfold outerLen. destruct holeIndices as [[|]|]; simpl in *; try done; lia. }
  assert (Hh : default [] holeIndices = []).
  { destruct holeIndices as [[|]|]; simpl in *; done. }
  apply (earcut_invariant PI PT dim) in E; try done.
  - intros l i1 i2 i3 [[m Hm] Hl] (k1 & -> & Hk1) (k2 & -> & Hk2) (k3 & -> & Hk3).
    split.
    + exists (S m). rewrite !length_app, Hm. simpl. lia.
    + rewrite !Forall_app. repeat split; try done;
        apply Forall_singleton; eexists; (split; [apply jsdiv_exact; lia|done]).
  - split; [by exists 0%nat|constructor].
  - intros k Hk Hlt. rewrite Hout in Hlt. exists k. split; [lia|nia].
  - intros k Hk Hge. rewrite Hout in *. exists (Z.of_nat n - 1 - k). split; [lia|nia].
  - by rewrite Hh.
Qed.

(** * Further properties of the ring operations *)

(** ** [removeNode], [insertNode] and [splitPolygon] on rings *)

(** [removeNode] on a ring with a z-order chain through its node. *)
Lemma removeNode_chain h t p l z1 z2 :
  wf h -> ring h (p :: l) -> l <> [] -> zchain h (z1 ++ p :: z2) ->
  exists h',
    removeNode (Some p) (mkState h t) = Ret (tt, mkState h' t) /\
    wf h' /\ ring h' l /\ zchain h' (z1 ++ z2) /\
    (forall F, fieldf F h' p = fieldf F h p) /\
    (forall x, dataf h' x = dataf h x).
Proof.
  intros Hwf Hr Hne [Hnd Hz].
  destruct (removeNode_ring h t p l) as (h' & E & Hr' & Hwf' & L & Fo & Fnz & Fpz & D);
    [|done|done|].
  { intros q [Hq|Hq]; by eapply wf_field. }
  exists h'. split; [done|]. split; [by apply Hwf'|]. split; [done|].
  assert (Hpl : p ∉ l) by (destruct Hr as [Hn _]; by apply NoDup_cons in Hn as [? _]).
  destruct (zlinks_mid _ _ _ _ _ Hz) as [Hpz Hnz].
  split; [split|split; [|done]].
  - apply NoDup_app in Hnd as (N1 & N2 & N3). apply NoDup_cons in N3 as [N3 N4].
    apply NoDup_app. split; [done|]. split; [|done]. set_solver.
  - by apply (zlinks_remove h h' z1 p z2 None).
  - intros [].
    + by apply Fo.
    + by apply Fo.
    + rewrite Fpz. case_decide as Hx; [|done]. exfalso.
      rewrite Hnz in Hx. destruct z2 as [|y z2']; [done|]. injection Hx as ->.
      apply NoDup_app in Hnd as (_ & _ & N3). apply NoDup_cons in N3 as [N3 _]. set_solver.
    + rewrite Fnz. case_decide as Hx; [|done]. exfalso.
      rewrite Hpz in Hx. destruct z1 as [|y z1' _] using rev_ind; [done|].
      rewrite last_snoc in Hx. injection Hx as ->.
      apply NoDup_app in Hnd as (_ & N2 & _). apply (N2 p); set_solver.
Qed.

(** X1. [removeNode(p)] on a ring of two or more nodes unlinks [p]: the
    other nodes form a ring in the same order, the z-order chain through [p]
    (a chain of [p] alone when the index is not built) closes over the gap,
    [p] keeps its own four pointers, and no node changes its index,
    coordinates, z value or steiner flag. *)
Theorem removeNode_unlinks h t p l z1 z2 :
  wf h -> ring h (p :: l) -> l <> [] -> zchain h (z1 ++ p :: z2) ->
  exists h',
    removeNode (Some p) (mkState h t) = Ret (tt, mkState h' t) /\
    wf h' /\ ring h' l /\ zchain h' (z1 ++ z2) /\
    (forall F, fieldf F h' p = fieldf F h p) /\
    (forall x, dataf h' x = dataf h x).
Proof. apply removeNode_chain. Qed.

(** X2. [insertNode(i, x, y, last)] allocates one node, with index [i],
    coordinates [x], [y], no z value and no steiner flag, and links it after
    [last]: called with the last node of a ring [l] it yields the ring
    [l ++ [p]]; called without [last] it yields the ring of [p] alone.  The
    nodes already there keep their data and their z-order pointers. *)
Theorem insertNode_appends h t i x y l :
  (l <> [] -> ring h l) ->
  exists h',
    insertNode i x y (last l) (mkState h t) = Ret (length h, mkState h' t) /\
    length h' = S (length h) /\
    ring h' (l ++ [length h]) /\
    dataf h' (length h) = Some (i, x, y, None, false) /\
    nextZf h' (length h) = None /\ prevZf h' (length h) = None /\
    (forall q, q <> length h ->
       dataf h' q = dataf h q /\ nextZf h' q = nextZf h q /\ prevZf h' q = prevZf h q).
Proof.
  intros Hr. destruct l as [|a l0 _] using rev_ind.
  - destruct (insertNode_first h t i x y) as (h' & E & Hins).
    exists h'. split; [done|].
    pose proof (inserted_ring_first _ _ _ _ _ _ Hins) as Hr'.
    destruct Hins as (L & Fn & Fp & Fnz & Fpz & D).
    split; [done|]. split; [done|].
    split; [by rewrite D, decide_True|].
    split; [by rewrite Fnz, decide_True|].
    split; [by rewrite Fpz, decide_True|].
    intros q Hq. by rewrite D, Fnz, Fpz, !decide_False.
  - specialize (Hr ltac:(by destruct l0)).
    assert (exists fr, head (l0 ++ [a]) = Some fr) as [fr Hfr].
    { destruct l0; by eexists. }
    assert (Hlast : last (l0 ++ [a]) = Some a) by apply last_snoc.
    destruct (ring_close _ _ _ _ Hr Hfr Hlast) as [Hnx _].
    assert (Vfr : is_Some (h !! fr)).
    { eapply ring_valid; [exact Hr|]. destruct l0; simpl in Hfr; simplify_eq; set_solver. }
    destruct (insertNode_after h t i x y a fr Hnx Vfr) as (h' & E & Hins).
    exists h'. rewrite Hlast. split; [done|].
    assert (Hfresh : length h ∉ l0 ++ [a]).
    { intros Hx. apply (ring_valid _ _ _ Hr) in Hx. apply lookup_lt_is_Some in Hx. lia. }
    pose proof (inserted_ring_after _ _ _ _ _ _ _ _ _ Hr Hfr Hlast Hfresh Hins) as Hr'.
    destruct Hins as (L & Fn & Fp & Fnz & Fpz & D).
    split; [done|]. split; [done|].
    split; [by rewrite D, decide_True|].
    split; [by rewrite Fnz, decide_True|].
    split; [by rewrite Fpz, decide_True|].
    intros q Hq. by rewrite D, Fnz, Fpz, !decide_False.
Qed.

(** Assignments to pointer fields leave the data of every node alone. *)
Lemma upd_data F v p (s s' : state) u :
  upd p (setf F v) s = Ret (u, s') ->
  length (st_heap s') = length (st_heap s) /\
  st_triangles s' = st_triangles s /\
  (forall x, dataf (st_heap s') x = dataf (st_heap s) x).
Proof.
  destruct s as [h t]. unfold upd. simpl. destruct p as [q|]; [|done].
  destruct (h !! q) as [n|] eqn:E; [|done]. intros [= _ <-]. simpl.
  split; [by rewrite length_insert|]. split; [done|].
  intros x. unfold dataf. destruct (decide (x = q)) as [->|Hne].
  - rewrite list_lookup_insert_eq by (by eapply lookup_lt_Some). rewrite E. by destruct F.
  - by rewrite list_lookup_insert_ne.
Qed.

Lemma ST_bind_inv {A B} (m : ST A) (k : A -> ST B) (s : state) r :
  (m ≫= k) s = Ret r -> exists a s1, m s = Ret (a, s1) /\ k a s1 = Ret r.
Proof.
  unfold mbind, ST_bind. destruct (m s) as [[a s1]| |]; [|done|done].
  intros E. by exists a, s1.
Qed.

Lemma rd_inv {A} (f : RD A) (s : state) r :
  rd f s = Ret r -> exists a, f (st_heap s) = Ret a /\ r = (a, s).
Proof.
  unfold rd. destruct (f (st_heap s)) as [a| |]; [|done|done].
  intros [= <-]. by exists a.
Qed.

(** The two nodes [splitPolygon] allocates are copies of [a] and [b]. *)
Lemma splitPolygon_data h t a b na nb r s' :
  h !! a = Some na -> h !! b = Some nb ->
  splitPolygon (Some a) (Some b) (mkState h t) = Ret (r, s') ->
  forall x, dataf (st_heap s') x =
    if decide (x = S (length h)) then Some (n_i nb, n_x nb, n_y nb, None, false)
    else if decide (x = length h) then Some (n_i na, n_x na, n_y na, None, false)
    else dataf h x.
Proof.
  intros Ea Eb E. unfold splitPolygon in E.
  rewrite (rd_bind _ _ _ _ _ (node_Some _ _ _ Ea)) in E.
  set (A2 := newNode (n_i na) (n_x na) (n_y na)) in *.
  destruct (alloc_spec h t A2) as (Al1 & _ & Da1).
  rewrite (ST_bind_Ret _ _ _ _ _ Al1) in E.
  assert (Eb0 : (h ++ [A2]) !! b = Some nb).
  { rewrite lookup_app_l; [done|]. by eapply lookup_lt_Some. }
  rewrite (rd_bind _ _ _ _ _ (node_Some _ _ _ Eb0)) in E.
  set (B2 := newNode (n_i nb) (n_x nb) (n_y nb)) in *.
  destruct (alloc_spec (h ++ [A2]) t B2) as (Al2 & _ & Da2).
  rewrite (ST_bind_Ret _ _ _ _ _ Al2) in E.
  apply ST_bind_inv in E as (an & s0 & E0 & E). apply rd_inv in E0 as (? & _ & [= -> ->]).
  apply ST_bind_inv in E as (bp & s0 & E0 & E). apply rd_inv in E0 as (? & _ & [= -> ->]).
  apply ST_bind_inv in E as (? & s1 & E1 & E).
  apply (upd_data Fnext) in E1 as (_ & _ & D1).
  apply ST_bind_inv in E as (? & s2 & E2 & E).
  apply (upd_data Fprev) in E2 as (_ & _ & D2).
  apply ST_bind_inv in E as (? & s3 & E3 & E).
  apply (upd_data Fnext) in E3 as (_ & _ & D3).
  apply ST_bind_inv in E as (? & s4 & E4 & E).
  apply (upd_data Fprev) in E4 as (_ & _ & D4).
  apply ST_bind_inv in E as (? & s5 & E5 & E).
  apply (upd_data Fnext) in E5 as (_ & _ & D5).
  apply ST_bind_inv in E as (? & s6 & E6 & E).
  apply (upd_data Fprev) in E6 as (_ & _ & D6).
  apply ST_bind_inv in E as (? & s7 & E7 & E).
  apply (upd_data Fnext) in E7 as (_ & _ & D7).
  apply ST_bind_inv in E as (? & s8 & E8 & E).
  apply (upd_data Fprev) in E8 as (_ & _ & D8).
  injection E as _ <-.
  intros z. rewrite D8, D7, D6, D5, D4, D3, D2, D1. simpl.
  rewrite Da2, Da1. rewrite length_app. simpl.
  replace (length h + 1)%nat with (S (length h)) by lia.
  repeat case_decide; done.
Qed.

(** X3. [splitPolygon(a, b)] on two nodes of one ring that are not
    neighbours ([a], then the nodes [l1], then [b], then the nodes [l2])
    splits the ring in two: [a, b, l2] and [a2, l1, b2], where [a2] and [b2]
    are two new nodes that copy the index and the coordinates of [a] and
    [b]; it returns [b2].  No other node changes its data. *)
Theorem splitPolygon_splits h t a b l1 l2 na nb :
  wf h -> ring h (a :: l1 ++ b :: l2) -> l1 <> [] ->
  h !! a = Some na -> h !! b = Some nb ->
  let a2 := length h in
  let b2 := S (length h) in
  exists h',
    splitPolygon (Some a) (Some b) (mkState h t) = Ret (Some b2, mkState h' t) /\
    wf h' /\ ring h' (a :: b :: l2) /\ ring h' (a2 :: l1 ++ [b2]) /\
    dataf h' a2 = Some (n_i na, n_x na, n_y na, None, false) /\
    dataf h' b2 = Some (n_i nb, n_x nb, n_y nb, None, false) /\
    (forall x, (x < length h)%nat -> dataf h' x = dataf h x).
Proof.
  intros Hwf Hr Hne Ea Eb a2 b2.
  assert (exists an, head l1 = Some an) as [an Han].
  { destruct l1 as [|y l1']; [done|]. by exists y. }
  assert (exists bp, last l1 = Some bp) as [bp Hbp].
  { destruct l1 as [|y l1' _] using rev_ind; [done|]. rewrite last_snoc. by eexists. }
  pose proof Hr as [Hnd Hl].
  apply links_app in Hl as [Hl1 Hl2].
  pose proof (links_head _ _ _ _ Hl1) as Hna. rewrite Han in Hna. simpl in Hna.
  assert (Hpb : prevf h b = Some bp).
  { apply last_Some in Hbp as [l1' ->]. apply links_app in Hl1 as [_ Hx].
    simpl in Hx. tauto. }
  destruct (splitPolygon_spec h t a b an bp Hna Hpb) as (h' & E & Hsp).
  { by eexists. }
  { eapply ring_valid; [exact Hr|]. destruct l1; simpl in Han; simplify_eq. set_solver. }
  { eapply ring_valid; [exact Hr|]. apply last_Some in Hbp as [l1' ->]. set_solver. }
  destruct (split_rings h h' a b l1 l2 an bp Hwf Hr Han Hbp Hsp) as (Hwf' & R1 & R2 & _).
  pose proof (splitPolygon_data h t a b na nb _ _ Ea Eb E) as D. simpl in D.
  exists h'. split; [done|]. split; [done|]. split; [done|]. split; [done|].
  split; [|split].
  - rewrite D. subst a2. rewrite decide_False by lia. by rewrite decide_True.
  - rewrite D. by rewrite decide_True.
  - intros x Hx. rewrite D. by rewrite !decide_False by lia.
Qed.

(** X4. [splitPolygon(a, b)] on nodes of two different rings, [a] followed
    by [la] and [b] followed by [lb], joins them into one ring: [a], [b],
    [lb], then the copy [b2] of [b], the copy [a2] of [a], and [la]. *)
Theorem splitPolygon_joins h t a b la lb na nb :
  wf h -> ring h (a :: la) -> ring h (b :: lb) ->
  (forall x, x ∈ a :: la -> x ∉ b :: lb) ->
  h !! a = Some na -> h !! b = Some nb ->
  let a2 := length h in
  let b2 := S (length h) in
  exists h',
    splitPolygon (Some a) (Some b) (mkState h t) = Ret (Some b2, mkState h' t) /\
    wf h' /\ ring h' (a :: b :: lb ++ b2 :: a2 :: la) /\
    dataf h' a2 = Some (n_i na, n_x na, n_y na, None, false) /\
    dataf h' b2 = Some (n_i nb, n_x nb, n_y nb, None, false) /\
    (forall x, (x < length h)%nat -> dataf h' x = dataf h x).
Proof.
  intros Hwf Ra Rb Hdisj Ea Eb a2 b2.
  destruct (ring_head _ _ _ Ra) as [Hna _]. destruct (ring_head _ _ _ Rb) as [_ Hpb].
  set (an := default a (head la)) in *. set (bp := default b (last lb)) in *.
  assert (Han : an ∈ a :: la).
  { subst an. destruct la; simpl; set_solver. }
  assert (Hbp : bp ∈ b :: lb).
  { subst bp. destruct (last lb) as [y|] eqn:E; simpl; [|set_solver].
    apply last_Some in E as [l' ->]. set_solver. }
  assert (Hva : forall x, x ∈ a :: la -> (x < a2)%nat).
  { intros x Hx. apply lookup_lt_is_Some. exact (ring_valid _ _ _ Ra Hx). }
  assert (Hvb : forall x, x ∈ b :: lb -> (x < a2)%nat).
  { intros x Hx. apply lookup_lt_is_Some. exact (ring_valid _ _ _ Rb Hx). }
  destruct (splitPolygon_spec h t a b an bp Hna Hpb) as (h' & E & Hsp).
  { by eexists. }
  { exact (ring_valid _ _ _ Ra Han). }
  { exact (ring_valid _ _ _ Rb Hbp). }
  pose proof (splitPolygon_data h t a b na nb _ _ Ea Eb E) as D. simpl in D.
  exists h'. split; [done|].
  destruct Hsp as (L & Fn & Fp & FnZ & FpZ & C).
  fold a2 in Fn, Fp, FnZ, FpZ, D, L. fold b2 in Fn, Fp, FnZ, FpZ, D.
  pose proof Ra as [NDa La]. pose proof Rb as [NDb Lb].
  apply NoDup_cons in NDa as [Hala NDa']. apply NoDup_cons in NDb as [Hblb NDb'].
  assert (Hab : forall x, x ∈ b :: lb -> x ∉ a :: la).
  { intros x Hx Hx'. by apply (Hdisj x Hx'). }
  split; [|split; [|split; [|split]]].
  - apply wf_alt. intros F x q. rewrite L.
    pose proof (proj1 (wf_alt h) Hwf) as Hw. fold a2 in Hw.
    pose proof (Hva an Han). pose proof (Hvb bp Hbp).
    pose proof (Hva a ltac:(set_solver)). pose proof (Hvb b ltac:(set_solver)).
    destruct F.
    + rewrite Fp. repeat case_decide; intros Ex; simplify_eq; try lia.
      apply Hw in Ex. lia.
    + rewrite Fn. repeat case_decide; intros Ex; simplify_eq; try lia.
      apply Hw in Ex. lia.
    + rewrite FpZ. case_decide; intros Ex; [done|]. apply Hw in Ex. lia.
    + rewrite FnZ. case_decide; intros Ex; [done|]. apply Hw in Ex. lia.
  - split.
    { apply NoDup_cons. split.
      { intros Hx. apply elem_of_cons in Hx as [->|Hx]; [apply (Hdisj b); set_solver|].
        apply elem_of_app in Hx as [Hx|Hx]; [apply (Hdisj a); set_solver|].
        apply elem_of_cons in Hx as [Hx|Hx]; [pose proof (Hva a); set_solver by lia|].
        apply elem_of_cons in Hx as [Hx|Hx]; [pose proof (Hva a); set_solver by lia|].
        done. }
      apply NoDup_cons. split.
      { intros Hx. apply elem_of_app in Hx as [Hx|Hx]; [done|].
        apply elem_of_cons in Hx as [Hx|Hx]; [pose proof (Hvb b); set_solver by lia|].
        apply elem_of_cons in Hx as [Hx|Hx]; [pose proof (Hvb b); set_solver by lia|].
        apply (Hdisj b); set_solver. }
      apply NoDup_app. split; [done|]. split.
      { intros x Hx Hx'.
        apply elem_of_cons in Hx' as [->|Hx']; [pose proof (Hvb b2); set_solver by lia|].
        apply elem_of_cons in Hx' as [->|Hx']; [pose proof (Hvb a2); set_solver by lia|].
        apply (Hdisj x); set_solver. }
      apply NoDup_cons. split.
      { intros Hx. apply elem_of_cons in Hx as [Hx|Hx]; [lia|].
        pose proof (Hva b2). set_solver by lia. }
      apply NoDup_cons. split; [|done].
      intros Hx. pose proof (Hva a2). set_solver by lia. }
    assert (Haa : a <> bp) by (intros ->; apply (Hdisj bp); set_solver).
    assert (Hba : b <> an) by (intros ->; apply (Hdisj an); set_solver).
    pose proof (Hva a ltac:(set_solver)) as Hav.
    pose proof (Hvb b ltac:(set_solver)) as Hbv.
    pose proof (Hva an Han) as Hanv. pose proof (Hvb bp Hbp) as Hbpv.
    cbn [links]. split; [|split].
    { rewrite Fn. repeat case_decide; try done; lia. }
    { rewrite Fp. repeat case_decide; try done; lia. }
    apply links_app. split.
    { apply (links_retarget h h' lb b b2 b Lb); fold bp.
      - intros x Hx Hne. rewrite Fn. pose proof (Hvb x Hx).
        assert (x <> a) by (intros ->; apply (Hdisj a); set_solver).
        repeat case_decide; try done; lia.
      - intros x Hx. rewrite Fp. pose proof (Hvb x ltac:(set_solver)).
        assert (x <> an) by (intros ->; apply (Hdisj an); set_solver).
        assert (x <> b) by (intros ->; done).
        repeat case_decide; try done; lia.
      - rewrite Fn. by rewrite decide_True.
      - rewrite Fp. by rewrite decide_True.
      - by apply NoDup_cons. }
    cbn [links]. split; [|split].
    { rewrite Fn. repeat case_decide; try done; lia. }
    { rewrite Fp. repeat case_decide; try done; lia. }
    destruct la as [|y la'].
    + simpl in an. subst an. simpl. split.
      * rewrite Fn. repeat case_decide; try done; lia.
      * rewrite Fp. repeat case_decide; try done; lia.
    + simpl in an. subst an. simpl in La. destruct La as (_ & _ & La).
      cbn [links]. split; [|split].
      * rewrite Fn. repeat case_decide; try done; lia.
      * rewrite Fp. repeat case_decide; try done; lia.
      * eapply links_frame; [| |exact La].
        -- intros x Hx. rewrite Fn. pose proof (Hva x ltac:(set_solver)).
           assert (x <> bp) by (intros ->; apply (Hdisj bp); set_solver).
           assert (x <> a) by (intros ->; set_solver).
           repeat case_decide; try done; lia.
        -- intros x Hx. rewrite Fp.
           assert (x ∈ a :: y :: la') by set_solver.
           pose proof (Hva x ltac:(done)).
           assert (x <> b) by (intros ->; apply (Hdisj b); set_solver).
           assert (x <> y).
           { intros ->. apply NoDup_cons in NDa' as [? _]. set_solver. }
           repeat case_decide; try done; lia.
  - rewrite D. rewrite decide_False by lia. by rewrite decide_True.
  - rewrite D. by rewrite decide_True.
  - intros x Hx. rewrite D. by rewrite !decide_False by lia.
Qed.

(** ** What [filterPoints] leaves *)

(** The test of [filterPoints] on the node [p]:
    [!p.steiner && (equals(p, p.next) || area(p.prev, p, p.next) === 0)]. *)
Definition redundant (p : nat) : RD bool :=
  n ← node (Some p);
  if n_steiner n then mret false
  else orR (equalsP (Some p) (n_next n))
           (a ← areaP (n_prev n) (Some p) (n_next n); mret (feq a (num 0))).

(** The steiner flag of the node at [p]. *)
Definition steinerf h (p : nat) : option bool := n_steiner <$> h !! p.

Lemma steinerf_dataf h h' p : dataf h' p = dataf h p -> steinerf h' p = steinerf h p.
Proof.
  unfold dataf, steinerf. destruct (h' !! p), (h !! p); simpl; try done.
  unfold payload. by intros [= _ _ _ _ ->].
Qed.

Lemma removeNode_data p (s s' : state) u :
  removeNode p s = Ret (u, s') ->
  forall x, dataf (st_heap s') x = dataf (st_heap s) x.
Proof.
  intros E. unfold removeNode in E.
  apply ST_bind_inv in E as (n1 & s0 & E0 & E). apply rd_inv in E0 as (? & _ & [= <- ->]).
  apply ST_bind_inv in E as (? & s1 & E1 & E).
  apply (upd_data Fprev) in E1 as (_ & _ & D1).
  apply ST_bind_inv in E as (n2 & s0 & E0 & E). apply rd_inv in E0 as (? & _ & [= <- ->]).
  apply ST_bind_inv in E as (? & s2 & E2 & E).
  apply (upd_data Fnext) in E2 as (_ & _ & D2).
  apply ST_bind_inv in E as (n3 & s0 & E0 & E). apply rd_inv in E0 as (? & _ & [= <- ->]).
  apply ST_bind_inv in E as (? & s3 & E3 & E).
  assert (D3 : forall x, dataf (st_heap s3) x = dataf (st_heap s2) x).
  { destruct (n_prevZ n3).
    - by apply (upd_data FnextZ) in E3 as (_ & _ & D3).
    - by injection E3 as _ <-. }
  apply ST_bind_inv in E as (n4 & s0 & E0 & E). apply rd_inv in E0 as (? & _ & [= <- ->]).
  assert (D4 : forall x, dataf (st_heap s') x = dataf (st_heap s3) x).
  { destruct (n_nextZ n4).
    - by apply (upd_data FprevZ) in E as (_ & _ & D4).
    - by injection E as _ <-. }
  intros z. by rewrite D4, D3, D2, D1.
Qed.

(** The test as the loop of [filterPoints] reads it. *)
Lemma redundant_node h p np :
  h !! p = Some np ->
  redundant p h =
  (if n_steiner np then mret false
   else orR (equalsP (Some p) (n_next np))
            (a ← areaP (n_prev np) (Some p) (n_next np); mret (feq a (num 0)))) h.
Proof.
  intros E. unfold redundant. by rewrite (RD_bind_Ret _ _ _ _ (node_Some _ _ _ E)).
Qed.

(** What a run of the loop of [filterPoints] from the ring [l] leaves:
    a ring [l'] of nodes of [l] that holds the result; no data changed;
    only nodes without the steiner flag were dropped; and, when the nodes
    the loop will not visit again passed the test ([checked]), either one
    node is left or every node of [l'] passes the test. *)
Definition filter_post (z : bool) h (l : list nat) (checked : Prop)
    h' (l' : list nat) (res : nat) : Prop :=
  ring_st z h' l' /\ res ∈ l' /\ l' ⊆+ l /\
  (forall x, dataf h' x = dataf h x) /\
  (forall q, q ∈ l -> q ∉ l' -> steinerf h q = Some false) /\
  (checked -> l' = [res] \/ forall q, q ∈ l' -> redundant q h' = Ret false).

Definition filter_run (z : bool) t (n : nat) : Prop :=
  forall h p r a e b,
    (length (p :: r) <= n)%nat -> ring_st z h (p :: r) -> r ++ [p] = a ++ e :: b ->
    exists N h' l' res,
      (forall fuel, (N <= fuel)%nat ->
         filterPoints_loop fuel (Some p) (Some e) (mkState h t) =
         Ret (Some res, mkState h' t)) /\
      filter_post z h (p :: r)
        (forall q, q ∈ e :: b -> q <> p -> redundant q h = Ret false) h' l' res.

Lemma filter_remove_step z t n h p r e b np :
  filter_run z t n ->
  (length (p :: r) <= S n)%nat -> ring_st z h (p :: r) ->
  h !! p = Some np -> redundant p h = Ret true ->
  exists N h' l' res,
    (forall fuel, (N <= fuel)%nat ->
       filterPoints_loop fuel (Some p) (Some e) (mkState h t) =
       Ret (Some res, mkState h' t)) /\
    filter_post z h (p :: r)
      (forall q, q ∈ e :: b -> q <> p -> redundant q h = Ret false) h' l' res.
Proof.
  intros IHn Hlen Hst Enp Ec0. pose proof Hst as (Hwf & Hr & _).
  pose proof Ec0 as Ec. rewrite (redundant_node _ _ _ Enp) in Ec.
  assert (Hsp : steinerf h p = Some false).
  { unfold steinerf. rewrite Enp. simpl. destruct (n_steiner np); [done|done]. }
  destruct (ring_head _ _ _ Hr) as [Hnx Hpv].
  destruct r as [|q r0 _] using rev_ind.
  - (* the only node of the ring *)
    destruct (removeNode_single z h t p Hst) as (h1 & E1 & Hst1 & Hf1).
    pose proof (removeNode_data _ _ _ _ E1) as D1. simpl in D1.
    pose proof Hst1 as (_ & Hr1 & _).
    destruct (ring_head _ _ _ Hr1) as [Hnx1 Hpv1]. simpl in Hnx1, Hpv1.
    exists 1%nat, h1, [p], p. split.
    { intros fuel Hf. destruct fuel as [|f]; [lia|]. simpl.
      rewrite (rd_bind _ _ _ _ _ (node_Some _ _ _ Enp)).
      rewrite (rd_bind _ _ _ _ _ Ec).
      rewrite (ST_bind_Ret _ _ _ _ _ E1).
      rewrite (rd_bind _ _ _ _ _ (fld_prev _ _ _ Hpv1)).
      rewrite (rd_bind _ _ _ _ _ (fld_next _ _ _ Hnx1)).
      unfold same. by rewrite bool_decide_eq_true_2. }
    split; [done|]. split; [set_solver|]. split; [done|]. split; [done|].
    split; [done|]. intros _. by left.
  - destruct (removeNode_st z h t p (r0 ++ [q]) Hst) as (h1 & E1 & Hst1 & Hf1 & Hn1 & Hp1).
    { by destruct r0. }
    pose proof (removeNode_data _ _ _ _ E1) as D1. simpl in D1.
    rewrite last_snoc in Hpv. simpl in Hpv. rewrite Hpv in Hp1.
    apply (ring_st_rotate_app z h1 r0 [q]) in Hst1. simpl in Hst1.
    pose proof Hst1 as (_ & Hr1 & _).
    destruct (ring_head _ _ _ Hr1) as [Hnx1 _].
    assert (Hpq : p ∉ r0 ++ [q]).
    { destruct Hr as [Hnd _]. by apply NoDup_cons in Hnd as [? _]. }
    destruct r0 as [|y r0'].
    + (* one node is left *)
      simpl in Hnx1. exists 1%nat, h1, [q], q. split.
      { intros fuel Hf. destruct fuel as [|f]; [lia|]. simpl.
        rewrite (rd_bind _ _ _ _ _ (node_Some _ _ _ Enp)).
        rewrite (rd_bind _ _ _ _ _ Ec).
        rewrite (ST_bind_Ret _ _ _ _ _ E1).
        rewrite (rd_bind _ _ _ _ _ (fld_prev _ _ _ Hp1)).
        rewrite (rd_bind _ _ _ _ _ (fld_next _ _ _ Hnx1)).
        unfold same. by rewrite bool_decide_eq_true_2. }
      split; [done|]. split; [set_solver|]. split; [by apply submseteq_cons|].
      split; [done|]. split.
      * intros x Hx Hx'. assert (x = p) as -> by set_solver. done.
      * intros _. by left.
    + simpl in Hnx1.
      destruct (IHn h1 q (y :: r0') (y :: r0') q [])
        as (N & h' & l' & res & Hrun & Hst' & Hres & Hsub & D' & Hrem & Hclean);
        [|done|done|].
      { simpl in Hlen |- *. rewrite length_app in Hlen. simpl in Hlen. lia. }
      exists (S N), h', l', res. split.
      { intros fuel Hf. destruct fuel as [|f]; [lia|]. simpl.
        rewrite (rd_bind _ _ _ _ _ (node_Some _ _ _ Enp)).
        rewrite (rd_bind _ _ _ _ _ Ec).
        rewrite (ST_bind_Ret _ _ _ _ _ E1).
        rewrite (rd_bind _ _ _ _ _ (fld_prev _ _ _ Hp1)).
        rewrite (rd_bind _ _ _ _ _ (fld_next _ _ _ Hnx1)).
        unfold same. rewrite bool_decide_eq_false_2.
        2:{ intros [= ->]. destruct Hr1 as [Hnd _]. apply NoDup_cons in Hnd as [Hq _].
            set_solver. }
        apply Hrun. lia. }
      split; [done|]. split; [done|]. split.
      { etrans; [exact Hsub|]. apply submseteq_cons.
        replace (q :: y :: r0') with ([q] ++ (y :: r0')) by done.
        by rewrite Permutation_app_comm. }
      split; [intros x; by rewrite D', D1|]. split.
      * intros x Hx Hx'. destruct (decide (x = p)) as [->|Hne]; [done|].
        rewrite <- (steinerf_dataf h h1 x (D1 x)). apply Hrem; [|done]. set_solver.
      * intros _. apply Hclean. intros x Hx Hne. set_solver.
Qed.

Lemma filterPoints_loop_clean z t n : filter_run z t n.
Proof.
  induction n as [|n IHn]; intros h p r a e b Hlen Hst Hsplit.
  { simpl in Hlen. lia. }
  revert h p r b Hlen Hst Hsplit.
  induction a as [|x a IHa]; intros h p r b Hlen Hst Hsplit.
  all: pose proof Hst as (Hwf & Hr & _).
  all: assert (Hpl : p ∈ p :: r) by set_solver.
  all: destruct (ring_neighbours _ _ _ Hr Hpl) as (np & pa & pb & Enp & Hpa & Hpb & _ & _).
  all: destruct (filterPoints_test h _ p np Hr Hpl Enp) as [c Ec].
  all: pose proof Ec as Ec0; rewrite <- (redundant_node _ _ _ Enp) in Ec0.
  all: destruct (ring_head _ _ _ Hr) as [Hnx Hpv].
  all: destruct c.
  - by apply (filter_remove_step z t n h p r e b np IHn).
  - (* keep p; the next node is the end *)
    exists 1%nat, h, (p :: r), e. split.
    { intros fuel Hf. destruct fuel as [|f]; [lia|]. simpl.
      rewrite (rd_bind _ _ _ _ _ (node_Some _ _ _ Enp)).
      rewrite (rd_bind _ _ _ _ _ Ec).
      rewrite (rd_bind _ _ _ _ _ (fld_next _ _ _ Hnx)).
      simpl in Hsplit. replace (default p (head r)) with e.
      2:{ destruct r as [|y r']; simpl in *; by simplify_eq. }
      unfold same. by rewrite bool_decide_eq_true_2. }
    assert (Hall : forall q, q ∈ p :: r -> q ∈ e :: b).
    { intros q Hq. simpl in Hsplit. rewrite <- Hsplit. set_solver. }
    split; [done|]. split.
    { assert (e ∈ r ++ [p]) by (rewrite Hsplit; set_solver). set_solver. }
    split; [done|]. split; [done|].
    split; [done|]. intros Hch. right. intros q Hq.
    destruct (decide (q = p)) as [->|Hne]; [done|]. apply Hch; [by apply Hall|done].
  - by apply (filter_remove_step z t n h p r e b np IHn).
  - (* keep p; move on to the next node *)
    destruct r as [|y r'].
    { simpl in Hsplit. destruct a; simplify_eq. }
    simpl in Hsplit. injection Hsplit as -> Hsplit. simpl in Hnx.
    assert (Hxe : x <> e).
    { destruct Hr as [Hnd _]. apply NoDup_cons in Hnd as [Hp' Hnd].
      apply NoDup_cons in Hnd as [Hx' _]. intros ->.
      assert (e ∈ r' ++ [p]) by (rewrite Hsplit; set_solver). set_solver. }
    destruct (IHa h x (r' ++ [p]) (b ++ [x]))
      as (N & h' & l' & res & Hrun & Hst' & Hres & Hsub & D' & Hrem & Hclean).
    { simpl in Hlen |- *. rewrite length_app. simpl. lia. }
    { apply (ring_st_rotate_app z h [p] (x :: r')). exact Hst. }
    { rewrite Hsplit. symmetry. apply (app_assoc a (e :: b) [x]). }
    exists (S N), h', l', res. split.
    { intros fuel Hf. destruct fuel as [|f]; [lia|]. simpl.
      rewrite (rd_bind _ _ _ _ _ (node_Some _ _ _ Enp)).
      rewrite (rd_bind _ _ _ _ _ Ec).
      rewrite (rd_bind _ _ _ _ _ (fld_next _ _ _ Hnx)).
      unfold same. rewrite bool_decide_eq_false_2 by (intros [= ->]; done).
      apply Hrun. lia. }
    split; [done|]. split; [done|]. split.
    { etrans; [exact Hsub|].
      replace (p :: x :: r') with ([p] ++ (x :: r')) by done.
      apply Permutation_submseteq.
      exact (Permutation_app_comm (x :: r') [p]). }
    split; [done|]. split.
    + intros q Hq Hq'. apply Hrem; [|done]. set_solver.
    + intros Hch. apply Hclean. intros q Hq Hne.
      destruct (decide (q = p)) as [->|Hqp]; [done|].
      apply Hch; [|done]. set_solver.
Qed.

Lemma filterPoints_post z h t l p e :
  ring_st z h l -> p ∈ l -> (forall q, e = Some q -> q ∈ l) ->
  exists N h' l' r,
    (forall fuel, (N <= fuel)%nat ->
       filterPoints fuel (Some p) e (mkState h t) = Ret (Some r, mkState h' t)) /\
    filter_post z h l (e = None \/ e = Some p) h' l' r.
Proof.
  intros Hst Hp He. apply list_elem_of_split in Hp as (l1 & l2 & ->).
  pose proof Hst as Hst0.
  apply (ring_st_rotate_app z h l1 (p :: l2)) in Hst. simpl in Hst.
  set (e' := default p e).
  assert (He' : e' ∈ (l2 ++ l1) ++ [p]).
  { unfold e'. destruct e as [q|]; simpl; [|set_solver].
    specialize (He q eq_refl). set_solver. }
  apply list_elem_of_split in He' as (a & b & Hsplit).
  destruct (filterPoints_loop_clean z t _ h p (l2 ++ l1) a e' b (le_n _) Hst Hsplit)
    as (N & h' & l' & res & Hrun & Hst' & Hres & Hsub & D & Hrem & Hclean).
  exists N, h', l', res. split.
  { intros fuel Hfu. unfold filterPoints.
    replace (match e with Some _ => e | None => Some p end) with (Some e').
    { by apply Hrun. }
    unfold e'. by destruct e. }
  split; [done|]. split; [done|]. split.
  { etrans; [exact Hsub|]. apply Permutation_submseteq.
    by rewrite (Permutation_app_comm l1 (p :: l2)). }
  split; [done|]. split.
  { intros q Hq. apply Hrem. set_solver. }
  intros Hend. apply Hclean. intros q Hq Hne. exfalso.
  assert (e' = p) as Hep by (unfold e'; by destruct Hend as [-> | ->]).
  rewrite Hep in Hsplit, Hq.
  destruct Hst as (_ & [Hnd _] & _).
  assert (Hnd' : NoDup ((l2 ++ l1) ++ [p])).
  { eapply NoDup_Permutation_proper; [|exact Hnd].
    exact (Permutation_app_comm (l2 ++ l1) [p]). }
  rewrite Hsplit in Hnd'. apply NoDup_app in Hnd' as (_ & _ & Hnd').
  apply NoDup_cons in Hnd' as [Hpb _].
  destruct b as [|y b' _] using rev_ind; [set_solver|].
  rewrite app_comm_cons, app_assoc in Hsplit. apply app_inj_tail in Hsplit as [_ ->].
  set_solver.
Qed.

(** X5. [filterPoints(start, end)] on nodes of a ring returns, with a node
    of the ring it leaves.  That ring is made of nodes of the original one;
    the nodes it dropped had no steiner flag; no node changed its index,
    coordinates, z value or steiner flag, and no triangle was emitted.  The
    z-order chain, when there is one, still links exactly the ring. *)
Theorem filterPoints_returns z h t l p e :
  ring_st z h l -> p ∈ l -> (forall q, e = Some q -> q ∈ l) ->
  exists N h' l' r,
    (forall fuel, (N <= fuel)%nat ->
       filterPoints fuel (Some p) e (mkState h t) = Ret (Some r, mkState h' t)) /\
    ring_st z h' l' /\ r ∈ l' /\ l' ⊆+ l /\
    (forall x, dataf h' x = dataf h x) /\
    (forall q, q ∈ l -> q ∉ l' -> steinerf h q = Some false).
Proof.
  intros Hst Hp He.
  destruct (filterPoints_post z h t l p e Hst Hp He)
    as (N & h' & l' & r & Hrun & Hst' & Hr & Hsub & D & Hrem & _).
  by exists N, h', l', r.
Qed.

(** X6. [filterPoints(start)], called without [end] (or with [end] equal to
    [start]), leaves either a single node or a ring in which every node
    fails the test [!p.steiner && (equals(p, p.next) ||
    area(p.prev, p, p.next) === 0)]: no node without the steiner flag
    coincides with its successor or has zero area with its neighbours. *)
Theorem filterPoints_cleans z h t l p e :
  ring_st z h l -> p ∈ l -> e = None \/ e = Some p ->
  exists N h' l' r,
    (forall fuel, (N <= fuel)%nat ->
       filterPoints fuel (Some p) e (mkState h t) = Ret (Some r, mkState h' t)) /\
    ring h' l' /\ r ∈ l' /\
    (l' = [r] \/ forall q, q ∈ l' -> redundant q h' = Ret false).
Proof.
  intros Hst Hp He.
  destruct (filterPoints_post z h t l p e Hst Hp)
    as (N & h' & l' & r & Hrun & (_ & Hr' & _) & Hr & Hsub & D & Hrem & Hclean).
  { intros q ->. destruct He as [?| [= ->]]; done. }
  exists N, h', l', r. split; [done|]. split; [done|]. split; [done|]. by apply Hclean.
Qed.

(** ** [sortLinked] sorts *)

(** The key [sortLinked] compares: [p.z], [null] counting as 0. *)
Definition zkey h (x : nat) : Z := from_option zval 0 (h !! x).

(** The merge of two runs as the inner loop of [sortLinked] performs it:
    the head of the first run goes first unless the head of the second is
    strictly smaller. *)
Fixpoint merge_runs (key : nat -> Z) (P : list nat) : list nat -> list nat :=
  fix inner (Q : list nat) : list nat :=
    match P, Q with
    | [], _ => Q
    | _, [] => P
    | p :: P', q :: Q' =>
        if key p <=? key q then p :: merge_runs key P' Q else q :: inner Q'
    end.

(** [zsorted key l]: the keys of [l] ascend. *)
Fixpoint zsorted (key : nat -> Z) (l : list nat) : Prop :=
  match l with
  | [] => True
  | a :: l' => (forall b, b ∈ l' -> key a <= key b) /\ zsorted key l'
  end.

(** [runs key n l]: cut into pieces of [n] nodes, [l] is made of sorted
    pieces. *)
Definition runs (key : nat -> Z) (n : nat) (l : list nat) : Prop :=
  forall k : nat, zsorted key (take n (drop (k * n) l)).

Lemma merge_runs_nil_l key Q : merge_runs key [] Q = Q.
Proof. by destruct Q. Qed.

Lemma merge_runs_nil_r key P : merge_runs key P [] = P.
Proof. by destruct P. Qed.

Lemma merge_runs_cons key p P q Q :
  merge_runs key (p :: P) (q :: Q) =
  if key p <=? key q then p :: merge_runs key P (q :: Q)
  else q :: merge_runs key (p :: P) Q.
Proof. done. Qed.

Arguments merge_runs : simpl never.

Lemma merge_runs_perm key P Q : merge_runs key P Q ≡ₚ P ++ Q.
Proof.
  revert Q. induction P as [|p P IHP]; intros Q.
  { by rewrite merge_runs_nil_l. }
  induction Q as [|q Q IHQ].
  { by rewrite merge_runs_nil_r, app_nil_r. }
  rewrite merge_runs_cons. destruct (key p <=? key q).
  - simpl. by rewrite IHP.
  - rewrite IHQ. exact (Permutation_middle (p :: P) Q q).
Qed.

Lemma merge_runs_ext key key' P Q :
  (forall x, x ∈ P ++ Q -> key x = key' x) ->
  merge_runs key P Q = merge_runs key' P Q.
Proof.
  revert Q. induction P as [|p P IHP]; intros Q Hk.
  { by rewrite !merge_runs_nil_l. }
  induction Q as [|q Q IHQ].
  { by rewrite !merge_runs_nil_r. }
  rewrite !merge_runs_cons.
  rewrite <- (Hk p) by set_solver. rewrite <- (Hk q) by set_solver.
  destruct (key p <=? key q).
  - f_equal. apply IHP. intros x Hx. apply Hk. set_solver.
  - f_equal. apply IHQ. intros x Hx. apply Hk. set_solver.
Qed.

Lemma zsorted_cons key a l :
  zsorted key (a :: l) <-> (forall b, b ∈ l -> key a <= key b) /\ zsorted key l.
Proof. done. Qed.

Lemma merge_runs_sorted key P Q :
  zsorted key P -> zsorted key Q -> zsorted key (merge_runs key P Q).
Proof.
  revert Q. induction P as [|p P IHP]; intros Q HP HQ.
  { by rewrite merge_runs_nil_l. }
  induction Q as [|q Q IHQ].
  { by rewrite merge_runs_nil_r. }
  rewrite merge_runs_cons.
  pose proof HP as [HpP HP']. pose proof HQ as [HqQ HQ'].
  destruct (key p <=? key q) eqn:E.
  - apply Z.leb_le in E. apply zsorted_cons. split.
    + intros b Hb. rewrite merge_runs_perm in Hb.
      apply elem_of_app in Hb as [Hb|Hb]; [by apply HpP|].
      apply elem_of_cons in Hb as [->|Hb]; [done|]. specialize (HqQ b Hb). lia.
    + by apply IHP.
  - apply Z.leb_gt in E. apply zsorted_cons. split.
    + intros b Hb. rewrite merge_runs_perm in Hb.
      apply elem_of_app in Hb as [Hb|Hb]; [|by apply HqQ].
      apply elem_of_cons in Hb as [->|Hb]; [lia|]. specialize (HpP b Hb). lia.
    + by apply IHQ.
Qed.

Lemma zsorted_ext key key' l :
  (forall x, x ∈ l -> key x = key' x) -> zsorted key l -> zsorted key' l.
Proof.
  induction l as [|a l IH]; intros Hk Hs; [done|].
  apply zsorted_cons in Hs as [Hf Hs]. apply zsorted_cons. split.
  - intros b Hb. rewrite <- !Hk by set_solver. by apply Hf.
  - apply IH; [|done]. intros x Hx. apply Hk. set_solver.
Qed.

Lemma zkey_dataf h h' x : dataf h' x = dataf h x -> zkey h' x = zkey h x.
Proof.
  unfold dataf, zkey. destruct (h' !! x), (h !! x); simpl; try done.
  unfold payload, zval. by intros [= _ _ _ -> _].
Qed.

(** Every list is made of sorted pieces of one node. *)
Lemma runs_1 key l : runs key 1 l.
Proof.
  intros k. destruct (drop (k * 1) l) as [|a [|b r]]; simpl.
  all: split; [set_solver|done] || done.
Qed.

Lemma runs_drop key n l : runs key n l -> runs key n (drop (2 * n) l).
Proof.
  intros Hr k. rewrite drop_drop.
  replace (2 * n + k * n)%nat with ((S (S k)) * n)%nat by lia. apply Hr.
Qed.

(** Merging the first two pieces and then the rest, pair by pair, leaves
    sorted pieces of twice the size. *)
Lemma runs_merged key n T1 T2 :
  zsorted key T1 -> (length T1 = 2 * n \/ (length T1 <= 2 * n /\ T2 = []))%nat ->
  runs key (2 * n) T2 -> runs key (2 * n) (T1 ++ T2).
Proof.
  intros Hs Hlen Hr k. destruct k as [|k].
  - simpl. rewrite drop_0. destruct Hlen as [Hlen|[Hlen ->]].
    + rewrite take_app_length' by done. done.
    + rewrite app_nil_r. by rewrite take_ge.
  - destruct Hlen as [Hlen|[Hlen ->]].
    + replace (S k * (2 * n))%nat with (length T1 + k * (2 * n))%nat by lia.
      rewrite drop_app_add'; [|done]. apply Hr.
    + rewrite app_nil_r. destruct n as [|n].
      * by rewrite take_0.
      * rewrite drop_ge by lia. by rewrite take_nil.
Qed.

(** Appending a node to the output chain leaves the data alone. *)
Lemma sort_emit_data h t Out e :
  wf h -> zopen h None Out -> is_Some (h !! e) -> e ∉ Out -> NoDup Out ->
  exists h1 h2,
    (match last Out with
     | Some _ => upd (last Out) (set_nextZ (Some e));; mret (head Out)
     | None => mret (Some e)
     end) (mkState h t) = Ret (head (Out ++ [e]), mkState h1 t) /\
    upd (Some e) (set_prevZ (last Out)) (mkState h1 t) = Ret (tt, mkState h2 t) /\
    wf h2 /\ zonly h h2 /\ zopen h2 None (Out ++ [e]) /\
    (forall x, Some x <> last Out -> nextZf h2 x = nextZf h x) /\
    (forall x, dataf h2 x = dataf h x).
Proof.
  intros Hwf Hz Ve He Hnd.
  destruct (sort_emit h t Out e Hwf Hz Ve He Hnd)
    as (h1 & h2 & E1 & E2 & Hwf2 & Hzo2 & Hz2 & Fn2).
  exists h1, h2. split; [done|]. split; [done|]. split; [done|]. split; [done|].
  split; [done|]. split; [done|].
  apply (upd_data FprevZ) in E2 as (_ & _ & D2). simpl in D2.
  assert (D1 : forall x, dataf h1 x = dataf h x).
  { destruct (last Out).
    - apply ST_bind_inv in E1 as (? & s1 & E1 & E).
      apply (upd_data FnextZ) in E1 as (_ & _ & D1). injection E as _ ->. done.
    - by injection E1 as _ ->. }
  intros x. by rewrite D2, D1.
Qed.

(** What a merge leaves: the output chain grown by the merge of the run [P]
    with the first [qSize] nodes of [Qall], and the rest of [Qall]. *)
Definition merge_spec h t (Out P Qall : list nat) (qSize : nat)
    (r : option nat * option nat * option nat) (s' : state) : Prop :=
  exists h' q',
    r = (q', head (Out ++ merge_runs (zkey h) P (take qSize Qall)),
             last (Out ++ merge_runs (zkey h) P (take qSize Qall))) /\
    s' = mkState h' t /\
    wf h' /\ zonly h h' /\ (forall x, dataf h' x = dataf h x) /\
    zopen h' None (Out ++ merge_runs (zkey h) P (take qSize Qall)) /\
    zpath h' q' (drop qSize Qall) None.

Definition merge_sorts t (n : nat) : Prop :=
  forall h p q P Qall x pSize qSize Out,
  (pSize + (qSize `min` length Qall) <= n)%nat ->
  wf h -> zpath h p P x -> length P = pSize -> zpath h q Qall None ->
  zopen h None Out -> NoDup (Out ++ P ++ Qall) ->
  total (fun f => sortLinked_merge f p q pSize qSize (head Out) (last Out))
        (mkState h t) (merge_spec h t Out P Qall qSize).

Lemma merge_sorts_continue t n h p' q' P' Q1 x ps qs Out e P Qall qSize :
  merge_sorts t n ->
  (ps + (qs `min` length Q1) <= n)%nat ->
  wf h -> zpath h p' P' x -> length P' = ps -> zpath h q' Q1 None ->
  zopen h None Out -> NoDup (Out ++ e :: P' ++ Q1) -> is_Some (h !! e) ->
  merge_runs (zkey h) P (take qSize Qall) =
    e :: merge_runs (zkey h) P' (take qs Q1) ->
  drop qSize Qall = drop qs Q1 ->
  total (fun f =>
           list_ ← match last Out with
                   | Some _ => upd (last Out) (set_nextZ (Some e));; mret (head Out)
                   | None => mret (Some e)
                   end;
           upd (Some e) (set_prevZ (last Out));;
           sortLinked_merge f p' q' ps qs list_ (Some e))
        (mkState h t) (merge_spec h t Out P Qall qSize).
Proof.
  intros IH Hn Hwf Hp HP Hq Hz Hnd Ve Hm Hd.
  assert (HndO : NoDup Out) by (by apply NoDup_app in Hnd as (? & _)).
  assert (HeO : e ∉ Out).
  { apply NoDup_app in Hnd as (_ & Hd' & _). intros Hx. apply (Hd' e Hx). set_solver. }
  destruct (sort_emit_data h t Out e Hwf Hz Ve HeO HndO)
    as (h1 & h2 & E1 & E2 & Hwf2 & Hzo2 & Hz2 & Fn2 & D2).
  eapply total_step; [exact E1|]. eapply total_step; [exact E2|].
  assert (Hfr : forall y, y ∈ P' ++ Q1 -> nextZf h2 y = nextZf h y).
  { intros y Hy. apply Fn2. intros Hl. symmetry in Hl.
    apply last_Some in Hl as [l' ->].
    apply NoDup_app in Hnd as (_ & Hd' & _). apply (Hd' y); set_solver. }
  pose proof (IH h2 p' q' P' Q1 x ps qs (Out ++ [e]) Hn Hwf2) as IH'.
  rewrite last_snoc in IH'. eapply total_mono.
  { apply IH'; try done.
    - eapply zpath_frame; [by destruct Hzo2| |exact Hp]. intros y Hy. apply Hfr. set_solver.
    - eapply zpath_frame; [by destruct Hzo2| |exact Hq]. intros y Hy. apply Hfr. set_solver.
    - by rewrite <- app_assoc. }
  intros r s' (h' & q'' & -> & -> & Hwf' & Hzo' & D' & Hz' & Hq').
  assert (Hk : merge_runs (zkey h2) P' (take qs Q1) = merge_runs (zkey h) P' (take qs Q1)).
  { apply merge_runs_ext. intros y _. by apply zkey_dataf. }
  rewrite Hk in *. rewrite <- app_assoc in Hz'. simpl in Hz'.
  exists h', q''. rewrite Hm, Hd. rewrite <- !app_assoc. simpl.
  split; [done|]. split; [done|]. split; [done|]. split; [by eapply zonly_trans|].
  split; [intros y; by rewrite D', D2|]. split; [done|done].
Qed.

Lemma sortLinked_merge_sorts t n : merge_sorts t n.
Proof.
  induction n as [|n IH]; intros h p q P Qall x pSize qSize Out Hn Hwf Hp HP Hq Hz Hnd.
  all: apply total_S; cbn [sortLinked_merge].
  - (* nothing is left to merge *)
    destruct P; [|simpl in HP; lia]. simpl in HP. subst pSize. simpl.
    assert (Hcond : ((0 <? qSize)%nat && bool_decide (is_Some q)) = false).
    { destruct qSize; [done|]. destruct Qall; [|simpl in Hn; lia].
      simpl in Hq. subst q. done. }
    rewrite Hcond. cbn iota. apply total_ret.
    assert (take qSize Qall = [] /\ drop qSize Qall = Qall) as [Ht Hd].
    { destruct qSize; [done|]. destruct Qall; [done|]. simpl in Hn. lia. }
    exists h, q. rewrite merge_runs_nil_l, Ht, Hd, app_nil_r.
    split; [done|]. split; [done|]. split; [done|]. split; [apply zonly_refl|].
    split; [done|]. split; [done|]. done.
  - destruct pSize as [|ps].
    + (* the first run is used up *)
      destruct P; [|done]. clear HP. simpl.
      destruct qSize as [|qs].
      { simpl. apply total_ret. exists h, q.
        rewrite merge_runs_nil_l, take_0, drop_0, app_nil_r.
        split; [done|]. split; [done|]. split; [done|]. split; [apply zonly_refl|].
        split; [done|]. split; [done|]. done. }
      destruct Qall as [|y Q1].
      { simpl in Hq. subst q. simpl.
        apply total_ret. exists h, None. rewrite merge_runs_nil_l, take_nil, drop_nil, app_nil_r.
        split; [done|]. split; [done|]. split; [done|]. split; [apply zonly_refl|].
        split; [done|]. split; [done|]. done. }
      destruct Hq as (-> & Vy & Hq). simpl.
      eapply total_read; [reflexivity|]. cbn iota.
      eapply total_step.
      { rewrite (rd_bind _ _ _ _ _ (fld_nextZ h y Vy)). reflexivity. }
      cbn beta iota.
      apply (merge_sorts_continue t n h p (nextZf h y) [] Q1 x 0 qs Out y [] (y :: Q1) (S qs));
        try done; try (simpl in *; lia).
      by rewrite !merge_runs_nil_l.
    + (* the first run has a node left *)
      destruct P as [|e0 P']; [done|]. destruct Hp as (-> & Ve & Hp).
      simpl in HP. injection HP as HP. simpl.
      assert (exists fromP,
        (if (qSize =? 0)%nat then mret true
         else match q with
              | Some _ => np ← node (Some e0); nq ← node q;
                          mret (zval np <=? zval nq)
              | None => mret true
              end) h = Ret fromP /\
        (fromP = true ->
           merge_runs (zkey h) (e0 :: P') (take qSize Qall) =
           e0 :: merge_runs (zkey h) P' (take qSize Qall)) /\
        (fromP = false -> exists y Q1 qs,
           q = Some y /\ Qall = y :: Q1 /\ qSize = S qs /\ is_Some (h !! y) /\
           zpath h (nextZf h y) Q1 None /\
           merge_runs (zkey h) (e0 :: P') (take qSize Qall) =
           y :: merge_runs (zkey h) (e0 :: P') (take qs Q1)))
        as (fromP & EfromP & HfromT & HfromP).
      { destruct qSize as [|qs].
        { exists true. split; [done|]. split; [|done]. intros _.
          by rewrite take_0, !merge_runs_nil_r. }
        simpl. destruct Qall as [|y Q1].
        - simpl in Hq. subst q. exists true. split; [done|]. split; [|done]. intros _.
          by rewrite take_nil, !merge_runs_nil_r.
        - destruct Hq as (-> & Vy & Hq). pose proof Ve as [ne Ee]. pose proof Vy as [ny Ey].
          rewrite (RD_bind_Ret _ _ _ _ (node_Some _ _ _ Ee)).
          rewrite (RD_bind_Ret _ _ _ _ (node_Some _ _ _ Ey)).
          eexists. split; [reflexivity|].
          assert (Hk : (zkey h e0 <=? zkey h y) = (zval ne <=? zval ny)).
          { unfold zkey. by rewrite Ee, Ey. }
          rewrite firstn_cons, merge_runs_cons, Hk. split.
          + by intros ->.
          + intros Hf. rewrite Hf. by exists y, Q1, qs. }
      eapply total_read; [exact EfromP|]. destruct fromP.
      * eapply total_step.
        { rewrite (rd_bind _ _ _ _ _ (fld_nextZ h e0 Ve)). reflexivity. }
        cbn beta iota.
        apply (merge_sorts_continue t n h (nextZf h e0) q P' Qall x ps qSize Out e0
                 (e0 :: P') Qall qSize); try done; try (simpl in *; lia).
        by apply HfromT.
      * destruct (HfromP eq_refl) as (y & Q1 & qs & -> & -> & -> & Vy & Hq1 & Hm).
        eapply total_step.
        { rewrite (rd_bind _ _ _ _ _ (fld_nextZ h y Vy)). reflexivity. }
        cbn beta iota.
        apply (merge_sorts_continue t n h (Some e0) (nextZf h y) (e0 :: P') Q1 x (S ps) qs Out y
                 (e0 :: P') (y :: Q1) (S qs)); try done; try (simpl in *; lia).
        eapply NoDup_Permutation_proper; [|exact Hnd].
        apply Permutation_app_head.
        exact (Permutation_middle (e0 :: P') Q1 y).
Qed.

(** One pass of [sortLinked] over the rest [In] of the list: sorted pieces
    of [inSize] nodes become sorted pieces of twice the size, and
    [numMerges] counts the pairs merged. *)
Lemma sortLinked_pass_sorts t inSize n :
  (1 <= inSize)%nat ->
  forall h p In Out nm,
  (length In <= n)%nat -> wf h -> zpath h p In None -> zopen h None Out ->
  NoDup (Out ++ In) ->
  total (fun f => sortLinked_pass f p inSize (head Out) (last Out) nm) (mkState h t)
    (fun r s' => exists h' T nm',
       r = (head (Out ++ T), last (Out ++ T), nm') /\ s' = mkState h' t /\
       wf h' /\ zonly h h' /\ (forall x, dataf h' x = dataf h x) /\
       zopen h' None (Out ++ T) /\ T ≡ₚ In /\
       (In = [] -> nm' = nm) /\
       (length In <= 2 * inSize -> nm' <= S nm)%nat /\
       (In <> [] -> S nm <= nm')%nat /\
       (2 * inSize < length In -> S (S nm) <= nm')%nat /\
       (runs (zkey h) inSize In -> runs (zkey h) (2 * inSize) T)).
Proof.
  intros Hin. induction n as [|n IH]; intros h p In Out nm Hn Hwf Hp Hz Hnd.
  all: apply total_S; cbn [sortLinked_pass].
  all: destruct In as [|x In'].
  1,3: simpl in Hp; subst p; apply total_ret; exists h, [], nm; rewrite app_nil_r;
       split; [done|]; split; [done|]; split; [done|]; split; [apply zonly_refl|];
       split; [done|]; split; [done|]; split; [done|]; split; [done|]; split; [lia|];
       split; [done|]; split; [simpl; lia|]; intros _ k; by rewrite drop_nil, take_nil.
  { simpl in Hn. lia. }
  pose proof Hp as (-> & Vx & _).
  destruct (sortLinked_skip_spec h inSize 0 (Some x) (x :: In') Hp)
    as (P & Qall & q & HIn & HP & Hs & Hp1 & Hp2); [done|].
  simpl in Hs.
  eapply total_read; [exact Hs|]. cbn beta iota.
  assert (HPpos : (1 <= length P)%nat) by (simpl in HP; lia).
  apply total_bind. eapply total_mono.
  { apply (total_reindex (fun f => sortLinked_merge f (Some x) q (length P) inSize
                                     (head Out) (last Out)) S); [lia|].
    apply (sortLinked_merge_sorts t _ h (Some x) q P Qall q (length P) inSize Out
             (le_n _)); try done.
    by rewrite <- HIn. }
  intros r s1 (h1 & q' & -> & -> & Hwf1 & Hzo1 & D1 & Hz1 & Hq').
  set (T1 := merge_runs (zkey h) P (take inSize Qall)) in *.
  assert (Hperm1 : T1 ≡ₚ P ++ take inSize Qall) by apply merge_runs_perm.
  assert (HlenIn : length (x :: In') = (length P + length Qall)%nat).
  { rewrite HIn. by rewrite length_app. }
  assert (HlenT : length T1 = (length P + (inSize `min` length Qall))%nat).
  { rewrite Hperm1, length_app, length_take. done. }
  assert (HPl : length P = inSize \/ Qall = []).
  { destruct (decide (Qall = [])) as [->|Hne]; [by right|left].
    rewrite HlenIn in HP. destruct Qall; [done|]. simpl in HP. lia. }
  assert (Hrest : drop inSize Qall = [] <-> (length (x :: In') <= 2 * inSize)%nat).
  { rewrite <- length_zero_iff_nil, length_drop, HlenIn.
    destruct HPl as [HPl| ->]; simpl in *; lia. }
  eapply total_mono.
  { apply (IH h1 q' (drop inSize Qall) (Out ++ T1) (S nm)); try done.
    - rewrite length_drop. simpl in Hn, HlenIn. lia.
    - rewrite <- app_assoc. eapply NoDup_Permutation_proper; [|exact Hnd].
      apply Permutation_app_head. rewrite HIn, Hperm1, <- app_assoc.
      apply Permutation_app_head. by rewrite take_drop. }
  intros r s2 (h2 & T2 & nm' & -> & -> & Hwf2 & Hzo2 & D2 & Hz2 & Hperm2 &
               Hnm0 & _ & Hnm1 & _ & Hruns).
  exists h2, (T1 ++ T2), nm'. rewrite <- !app_assoc in *.
  split; [done|]. split; [done|]. split; [done|]. split; [by eapply zonly_trans|].
  split; [intros y; by rewrite D2, D1|].
  split; [done|]. split.
  { rewrite Hperm2, Hperm1, HIn, <- app_assoc. apply Permutation_app_head.
    by rewrite take_drop. }
  split; [done|].
  assert (Hcount : (drop inSize Qall = [] /\ nm' = S nm) \/
                   (drop inSize Qall <> [] /\ S (S nm) <= nm')%nat).
  { destruct (decide (drop inSize Qall = [])) as [Hd|Hd].
    - left. split; [done|]. by apply Hnm0.
    - right. split; [done|]. by apply Hnm1. }
  split; [intros Hsmall; apply Hrest in Hsmall; destruct Hcount as [[_ ->]|[? _]]; done|].
  split; [intros _; destruct Hcount as [[_ ->]|[_ ?]]; lia|].
  split.
  { intros Hbig. destruct Hcount as [[Hd _]|[_ ?]]; [|done].
    apply Hrest in Hd. lia. }
  intros Hr.
  assert (HP0 : P = take inSize (x :: In')).
  { rewrite HIn. destruct HPl as [HPl| ->].
    - by rewrite take_app_length' by done.
    - rewrite app_nil_r. rewrite take_ge; [done|]. rewrite HP. lia. }
  assert (HQ0 : Qall = drop inSize (x :: In')).
  { rewrite HIn. destruct HPl as [HPl| ->].
    - by rewrite drop_app_length' by done.
    - rewrite app_nil_r. rewrite drop_ge; [done|]. rewrite HP. lia. }
  apply runs_merged.
  - apply merge_runs_sorted.
    + rewrite HP0. specialize (Hr 0%nat). by rewrite drop_0 in Hr.
    + rewrite HQ0. specialize (Hr 1%nat). by rewrite Nat.mul_1_l in Hr.
  - destruct (decide (inSize <= length Qall)%nat) as [Hle|Hgt].
    + left. destruct HPl as [HPl| ->]; [lia|]. simpl in Hle. lia.
    + right. split; [lia|].
      assert (drop inSize Qall = []) as Hd.
      { apply length_zero_iff_nil. rewrite length_drop. lia. }
      rewrite Hd in Hperm2. by apply Permutation_nil_r in Hperm2.
  - assert (Hr2 : runs (zkey h1) inSize (drop inSize Qall)).
    { intros k. apply (zsorted_ext (zkey h)); [intros y _; symmetry; apply zkey_dataf, D1|].
      rewrite HQ0, drop_drop, drop_drop.
      replace (inSize + (inSize + k * inSize))%nat with (S (S k) * inSize)%nat by lia.
      apply Hr. }
    intros k. apply (zsorted_ext (zkey h1)); [intros y _; apply zkey_dataf, D1|].
    by apply Hruns.
Qed.

(** The passes of [sortLinked], from sorted pieces of [inSize] nodes. *)
Lemma sortLinked_loop_sorts t m :
  forall h lst L inSize,
  (1 <= inSize)%nat -> (length L <= 2 * inSize + m)%nat -> wf h ->
  zpath h lst L None -> L <> [] -> NoDup L -> runs (zkey h) inSize L ->
  total (fun f => sortLinked_loop f lst inSize) (mkState h t)
    (fun r s' => exists h' L', s' = mkState h' t /\ wf h' /\ zonly h h' /\
                               (forall x, dataf h' x = dataf h x) /\
                               zchain h' L' /\ L' ≡ₚ L /\ r = head L' /\
                               zsorted (zkey h') L').
Proof.
  induction m as [|m IH]; intros h lst L inSize Hin Hlen Hwf Hp Hne Hnd Hruns.
  all: apply total_S; cbn [sortLinked_loop].
  all: apply total_bind; eapply total_mono;
         [apply (total_reindex (fun f => sortLinked_pass f lst inSize None None 0%nat) S);
            [lia|];
          apply (sortLinked_pass_sorts t inSize _ Hin h lst L [] 0%nat (le_n _) Hwf Hp);
            [done|done]|].
  all: intros r s1 (h1 & T & nm & -> & -> & Hwf1 & Hzo1 & D1 & Hz1 & Hperm & _ & Hnm &
                    _ & Hbig & Hr1).
  all: specialize (Hr1 Hruns).
  all: simpl in Hz1 |- *.
  all: assert (HndT : NoDup T) by (by rewrite Hperm).
  all: assert (exists tl, last T = Some tl) as [tl Htl]
         by (destruct T as [|y T' _] using rev_ind;
               [apply Permutation_nil_l in Hperm; by subst|];
             rewrite last_snoc; by eexists).
  all: rewrite Htl.
  all: assert (Vtl : is_Some (h1 !! tl))
         by (eapply zopen_valid; [exact Hz1|]; apply last_Some in Htl as [l' ->];
             set_solver).
  all: destruct (upd_z FnextZ h1 t tl None (or_intror eq_refl) Hwf1 Vtl)
         as (h2 & U & Hwf2 & Hzo2 & Fq & Fo); [done|].
  all: pose proof (upd_data FnextZ _ _ _ _ _ U) as (_ & _ & D2); simpl in D2.
  all: eapply total_step; [exact U|].
  all: assert (Hzl : zlinks h2 None T)
         by (apply zopen_close;
               [eapply zopen_frame; [by destruct Hzo2| | |done|exact Hz1];
                  [intros y Hy; by apply Fo
                  |intros y Hy Hyl; rewrite Fq; rewrite decide_False; [done|];
                   intros ->; by rewrite Htl in Hyl]
               |intros y Hy; rewrite Htl in Hy; injection Hy as <-; rewrite Fq;
                by rewrite decide_True]).
  all: assert (Hzo : zonly h h2) by (by eapply zonly_trans).
  all: assert (D : forall x, dataf h2 x = dataf h x) by (intros y; by rewrite D2, D1).
  all: assert (Hr2 : runs (zkey h2) (2 * inSize) T)
         by (intros k; apply (zsorted_ext (zkey h)); [intros y _; symmetry; apply zkey_dataf, D|];
             apply Hr1).
  all: destruct (1 <? nm)%nat eqn:Enm;
         [|apply Nat.ltb_ge in Enm; apply total_ret; exists h2, T;
           split; [done|]; split; [done|]; split; [done|]; split; [done|];
           split; [split; [exact HndT|exact Hzl]|]; split; [exact Hperm|];
           split; [done|];
           assert (Hsmall : (length T <= 2 * inSize)%nat)
             by (rewrite Hperm; destruct (decide (length L <= 2 * inSize)%nat); [done|];
                 specialize (Hbig ltac:(lia)); lia);
           specialize (Hr2 0%nat); simpl in Hr2; rewrite drop_0 in Hr2;
           rewrite take_ge in Hr2 by lia; exact Hr2].
  all: apply Nat.ltb_lt in Enm.
  - specialize (Hnm ltac:(lia)). lia.
  - eapply total_mono.
    { apply (IH h2 (head T) T (inSize * 2)%nat); try done.
      - lia.
      - rewrite Hperm. lia.
      - eapply zlinks_zpath; [exact Hzl|]. intros y Hy.
        destruct Hzo2 as (L2 & _). eapply valid_length; [done|].
        by eapply zopen_valid.
      - intros ->. done.
      - by rewrite Nat.mul_comm. }
    intros r s2 (h3 & L' & -> & Hwf3 & Hzo3 & D3 & Hzc & Hperm' & -> & Hs).
    exists h3, L'. split; [done|]. split; [done|]. split; [by eapply zonly_trans|].
    split; [intros y; by rewrite D3, D|].
    split; [done|]. split; [by rewrite Hperm'|done].
Qed.

(** X7. [sortLinked(list)] on a [null]-terminated chain of [nextZ] pointers
    returns the head of a doubly linked, [null]-terminated chain of the same
    nodes in ascending order of [z] ([null] counting as 0).  Only [prevZ]
    and [nextZ] are written: [prev], [next] and the data of every node are
    as before. *)
Theorem sortLinked_sorts h t lst L :
  wf h -> zpath h lst L None -> L <> [] -> NoDup L ->
  exists N h' L',
    (forall fuel, (N <= fuel)%nat ->
       sortLinked fuel lst (mkState h t) = Ret (head L', mkState h' t)) /\
    wf h' /\ zchain h' L' /\ L' ≡ₚ L /\ zsorted (zkey h') L' /\
    (forall x, dataf h' x = dataf h x /\
               nextf h' x = nextf h x /\ prevf h' x = prevf h x).
Proof.
  intros Hwf Hp Hne Hnd.
  destruct (sortLinked_loop_sorts t (length L) h lst L 1%nat (le_n _) ltac:(lia)
              Hwf Hp Hne Hnd (runs_1 _ _))
    as (N & r & s' & (h' & L' & -> & Hwf' & Hzo & D & Hzc & Hperm & -> & Hs) & Hrun).
  exists N, h', L'. split; [exact Hrun|]. split; [done|]. split; [done|].
  split; [done|]. split; [done|]. intros x. split; [done|].
  destruct Hzo as (_ & F & _). apply F.
Qed.

(** ** [indexCurve] leaves a sorted index *)

(** The data of a node after the loop of [indexCurve] has passed it: a
    missing z value is computed from the coordinates. *)
Definition zfill (minX minY invSize : R) (d : option (Z * R * R * option Z * bool))
    : option (Z * R * R * option Z * bool) :=
  match d with
  | Some (i, x, y, None, st) => Some (i, x, y, Some (zOrder x y minX minY invSize), st)
  | _ => d
  end.

Lemma set_z_fills h t p np minX minY invSize :
  wf h -> h !! p = Some np ->
  exists h0,
    (match n_z np with
     | None => upd (Some p) (set_z (Some (zOrder (n_x np) (n_y np) minX minY invSize)))
     | Some _ => mret tt
     end) (mkState h t) = Ret (tt, mkState h0 t) /\
    wf h0 /\ zonly h h0 /\ (forall F x, fieldf F h0 x = fieldf F h x) /\
    (forall x, dataf h0 x = if decide (x = p)
                            then zfill minX minY invSize (dataf h x) else dataf h x).
Proof.
  intros Hwf Enp. destruct (n_z np) as [zv|] eqn:Ez.
  - exists h. split; [done|]. split; [done|]. split; [apply zonly_refl|]. split; [done|].
    intros x. case_decide as Hx; [|done]. subst x. unfold dataf. rewrite Enp. simpl.
    unfold payload. by rewrite Ez.
  - destruct (upd_set_z h t p (Some (zOrder (n_x np) (n_y np) minX minY invSize)) Hwf)
      as (h0 & E0 & Hwf0 & Hzo0 & F0); [by eexists|].
    exists h0. split; [done|]. split; [done|]. split; [done|]. split; [done|].
    rewrite (upd_Some _ _ _ _ _ Enp) in E0. injection E0 as <-.
    intros x. unfold dataf. destruct (decide (x = p)) as [->|Hx].
    + rewrite list_lookup_insert_eq by (by eapply lookup_lt_Some). rewrite Enp. simpl.
      unfold payload. simpl. by rewrite Ez.
    + by rewrite list_lookup_insert_ne.
Qed.

(** The loop of [indexCurve] gives a z value to the nodes that have none
    and copies [prev] and [next] into [prevZ] and [nextZ] along the ring. *)
Lemma indexCurve_loop_fills t minX minY invSize l s todo :
  forall h p pre,
  wf h -> ring h l -> l = pre ++ p :: todo -> head l = Some s ->
  total (fun f => indexCurve_loop f (Some p) (Some s) minX minY invSize) (mkState h t)
    (fun res s' => res = Some s /\ exists h', s' = mkState h' t /\ wf h' /\ zonly h h' /\
       (forall x, prevZf h' x = if decide (x ∈ p :: todo) then prevf h x else prevZf h x) /\
       (forall x, nextZf h' x = if decide (x ∈ p :: todo) then nextf h x else nextZf h x) /\
       (forall x, dataf h' x = if decide (x ∈ p :: todo)
                               then zfill minX minY invSize (dataf h x) else dataf h x)).
Proof.
  induction todo as [|y todo IH]; intros h p pre Hwf Hr Hl Hs.
  all: assert (Hpl : p ∈ l) by (rewrite Hl; set_solver).
  all: destruct (ring_neighbours _ _ _ Hr Hpl) as (np & a & b & Enp & Ha & Hb & Hal & Hbl).
  all: assert (Hpv : prevf h p = Some a) by (unfold fieldf; by rewrite Enp).
  all: assert (Hnx : nextf h p = Some b) by (unfold fieldf; by rewrite Enp).
  all: assert (Vp : is_Some (h !! p)) by (by eexists).
  all: assert (exists h0, (match n_z np with
                          | None => upd (Some p) (set_z (Some (zOrder (n_x np) (n_y np)
                                                                  minX minY invSize)))
                          | Some _ => mret tt
                          end) (mkState h t) = Ret (tt, mkState h0 t) /\
                 wf h0 /\ zonly h h0 /\ (forall F x, fieldf F h0 x = fieldf F h x) /\
                 (forall x, dataf h0 x = if decide (x = p)
                                         then zfill minX minY invSize (dataf h x)
                                         else dataf h x))
         as (h0 & E0 & Hwf0 & Hzo0 & F0 & D0)
         by (apply set_z_fills; done).
  all: assert (Vp0 : is_Some (h0 !! p)) by (destruct Hzo0 as (L & _); by eapply valid_length).
  all: destruct (upd_z FprevZ h0 t p (Some a) (or_introl eq_refl) Hwf0 Vp0)
         as (h1 & U1 & Hwf1 & Hzo1 & Fq1 & Fo1);
         [intros ? [= <-]; destruct Hzo0 as (L & _); eapply valid_length; [done|];
          by eapply ring_valid|].
  all: assert (Vp1 : is_Some (h1 !! p)) by (destruct Hzo1 as (L & _); by eapply valid_length).
  all: destruct (upd_z FnextZ h1 t p (Some b) (or_intror eq_refl) Hwf1 Vp1)
         as (h2 & U2 & Hwf2 & Hzo2 & Fq2 & Fo2);
         [intros ? [= <-]; destruct Hzo1 as (L1 & _), Hzo0 as (L0 & _);
          eapply valid_length; [done|]; eapply valid_length; [done|];
          by eapply ring_valid|].
  all: pose proof (upd_data FprevZ _ _ _ _ _ U1) as (_ & _ & D1); simpl in D1.
  all: pose proof (upd_data FnextZ _ _ _ _ _ U2) as (_ & _ & D2); simpl in D2.
  all: assert (Hzo : zonly h h2)
         by (eapply zonly_trans; [exact Hzo0|]; eapply zonly_trans; [exact Hzo1|done]).
  all: assert (Hpv0 : prevf h0 p = Some a) by (by rewrite F0).
  all: assert (Hnx1 : nextf h1 p = Some b)
         by (rewrite (Fo1 Fnext) by done; by rewrite F0).
  all: assert (Hnx2 : nextf h2 p = Some b)
         by (rewrite (Fo2 Fnext) by done; done).
  all: apply total_S; cbn [indexCurve_loop].
  all: eapply total_read; [exact (node_Some _ _ _ Enp)|].
  all: eapply total_step; [exact E0|].
  all: eapply total_read; [exact (fld_prev _ _ _ Hpv0)|].
  all: eapply total_step; [exact U1|].
  all: eapply total_read; [exact (fld_next _ _ _ Hnx1)|].
  all: eapply total_step; [exact U2|].
  all: eapply total_read; [exact (fld_next _ _ _ Hnx2)|].
  all: pose proof (ring_rotate_app h pre _ ltac:(rewrite <- Hl; exact Hr)) as Hrot.
  all: destruct (ring_head _ _ _ Hrot) as [Hnx' _]; rewrite Hnx in Hnx'.
  - (* the ring is closed *)
    assert (b = s).
    { simpl in Hnx'. injection Hnx' as ->. rewrite Hl in Hs.
      destruct pre; simpl in *; by simplify_eq. }
    subst b. unfold same. rewrite bool_decide_eq_true_2 by done.
    apply total_ret. split; [done|]. exists h2. split; [done|]. split; [done|].
    split; [done|]. split; [|split]; intros x.
    + rewrite (Fo2 FprevZ) by done. rewrite Fq1, F0.
      destruct (decide (x = p)) as [->|Hx].
      * rewrite decide_True by set_solver. done.
      * rewrite decide_False by set_solver. done.
    + rewrite Fq2. rewrite (Fo1 FnextZ) by done. rewrite F0.
      destruct (decide (x = p)) as [->|Hx].
      * rewrite decide_True by set_solver. done.
      * rewrite decide_False by set_solver. done.
    + rewrite D2, D1, D0.
      destruct (decide (x = p)) as [->|Hx].
      * rewrite decide_True by set_solver. done.
      * rewrite decide_False by set_solver. done.
  - simpl in Hnx'. injection Hnx' as ->.
    assert (Hnd : NoDup l) by (destruct l; [done|]; by destruct Hr).
    assert (Hys : y <> s).
    { intros ->. rewrite Hl in Hs, Hnd. destruct pre as [|s' pre]; simpl in *.
      - injection Hs as ->. apply NoDup_cons in Hnd as [Hp _]. set_solver.
      - injection Hs as ->. apply NoDup_cons in Hnd as [Hp _]. set_solver. }
    unfold same. rewrite bool_decide_eq_false_2 by (intros [= ->]; done).
    eapply total_mono.
    { apply (IH h2 y (pre ++ [p]) Hwf2); [by eapply zonly_ring| |done].
      rewrite Hl. by rewrite <- app_assoc. }
    intros res s' (-> & h' & -> & Hwf' & Hzo' & Fp' & Fn' & D').
    split; [done|]. exists h'. split; [done|]. split; [done|].
    split; [by eapply zonly_trans|].
    assert (Hpy : p ∉ y :: todo).
    { rewrite Hl in Hnd. apply NoDup_app in Hnd as (_ & _ & Hnd).
      by apply NoDup_cons in Hnd as [? _]. }
    destruct Hzo as (_ & Fz & _).
    split; [|split]; intros x.
    + rewrite Fp'. rewrite (Fo2 FprevZ) by done. rewrite Fq1, F0.
      destruct (Fz x) as [_ ->].
      destruct (decide (x = p)) as [->|Hx].
      * rewrite decide_False by done. rewrite decide_True by set_solver. done.
      * destruct (decide (x ∈ y :: todo)).
        -- rewrite decide_True by set_solver. done.
        -- rewrite decide_False by set_solver. done.
    + rewrite Fn'. rewrite Fq2. rewrite (Fo1 FnextZ) by done. rewrite F0.
      destruct (Fz x) as [-> _].
      destruct (decide (x = p)) as [->|Hx].
      * rewrite decide_False by done. rewrite decide_True by set_solver. done.
      * destruct (decide (x ∈ y :: todo)).
        -- rewrite decide_True by set_solver. done.
        -- rewrite decide_False by set_solver. done.
    + rewrite D', D2, D1, D0.
      destruct (decide (x = p)) as [->|Hx].
      * rewrite decide_False by done. rewrite decide_True by set_solver. done.
      * destruct (decide (x ∈ y :: todo)).
        -- rewrite decide_True by set_solver. done.
        -- rewrite decide_False by set_solver. done.
Qed.

(** [indexCurve] returns and leaves a sorted chain through the ring. *)
Lemma indexCurve_sorted t h l s minX minY invSize :
  wf h -> ring h l -> s ∈ l ->
  exists N h' zl,
    (forall fuel, (N <= fuel)%nat ->
       indexCurve fuel (Some s) minX minY invSize (mkState h t) =
       Ret (tt, mkState h' t)) /\
    wf h' /\ ring h' l /\ zchain h' zl /\ zl ≡ₚ l /\ zsorted (zkey h') zl /\
    (forall x, dataf h' x = if decide (x ∈ l) then zfill minX minY invSize (dataf h x)
                            else dataf h x).
Proof.
  intros Hwf Hr Hs. destruct (ring_at h l s Hr Hs) as (r & Hr' & Hperm).
  enough (total (fun f => indexCurve f (Some s) minX minY invSize) (mkState h t)
    (fun _ s' => exists h' zl, s' = mkState h' t /\ wf h' /\ zonly h h' /\
       zchain h' zl /\ zl ≡ₚ l /\ zsorted (zkey h') zl /\
       (forall x, dataf h' x = if decide (x ∈ l) then zfill minX minY invSize (dataf h x)
                               else dataf h x))) as Htot.
  { destruct Htot as (N & [] & s' & (h' & zl & -> & Hwf' & Hzo & Hzc & Hp & Hso & D) & Hrun).
    exists N, h', zl. split; [exact Hrun|]. split; [done|].
    split; [by eapply zonly_ring|]. done. }
  unfold indexCurve. apply total_bind. eapply total_mono.
  { apply (indexCurve_loop_fills t minX minY invSize (s :: r) s r h s [] Hwf Hr'); done. }
  intros res s1 (-> & h1 & -> & Hwf1 & Hzo1 & Fp1 & Fn1 & D1).
  destruct (ring_head _ _ _ Hr') as [_ Hpv]. set (lst := default s (last r)) in *.
  pose proof Hr' as [Hnd Hl].
  assert (Hlst : lst ∈ s :: r).
  { subst lst. destruct (last r) as [y|] eqn:E; simpl; [|set_solver].
    apply last_Some in E as [l' ->]. set_solver. }
  assert (V : forall (hh : list Node) x, length hh = length h -> x ∈ s :: r ->
                is_Some (hh !! x)).
  { intros hh x Lh Hx. eapply valid_length; [exact Lh|]. by eapply ring_valid. }
  pose proof Hzo1 as (L1 & _).
  assert (Epz : fld n_prevZ (Some s) h1 = Ret (Some lst)).
  { rewrite fld_prevZ by (apply V; [done|set_solver]). rewrite Fp1.
    rewrite decide_True by set_solver. by rewrite Hpv. }
  eapply total_read; [exact Epz|].
  destruct (upd_z FnextZ h1 t lst None (or_intror eq_refl) Hwf1)
    as (h2 & U2 & Hwf2 & Hzo2 & Fq2 & Fo2); [by apply V|done|].
  pose proof (upd_data FnextZ _ _ _ _ _ U2) as (_ & _ & D2); simpl in D2.
  eapply total_step; [exact U2|]. pose proof Hzo2 as (L2 & _).
  destruct (upd_z FprevZ h2 t s None (or_introl eq_refl) Hwf2)
    as (h3 & U3 & Hwf3 & Hzo3 & Fq3 & Fo3); [apply V; [lia|set_solver]|done|].
  pose proof (upd_data FprevZ _ _ _ _ _ U3) as (_ & _ & D3); simpl in D3.
  eapply total_step; [exact U3|]. pose proof Hzo3 as (L3 & _).
  assert (Hzl : zlinks h3 None (s :: r)).
  { apply (zlinks_of_links h h3 r s s None Hl Hnd).
    - rewrite Fq3. by rewrite decide_True.
    - intros x Hx. rewrite Fq3. apply NoDup_cons in Hnd as [Hsr _].
      rewrite decide_False by (intros ->; done).
      rewrite (Fo2 FprevZ) by done. rewrite Fp1. rewrite decide_True by set_solver. done.
    - intros x Hx Hne. rewrite (Fo3 FnextZ) by done. rewrite Fq2.
      rewrite decide_False by done. rewrite Fn1. by rewrite decide_True.
    - rewrite (Fo3 FnextZ) by done. rewrite Fq2. by rewrite decide_True. }
  assert (Hzo : zonly h h3).
  { eapply zonly_trans; [exact Hzo1|]. eapply zonly_trans; [exact Hzo2|done]. }
  unfold sortLinked. apply total_bind. eapply total_mono.
  { apply (sortLinked_loop_sorts t (length (s :: r)) h3 (Some s) (s :: r) 1); try done.
    - lia.
    - apply (zlinks_zpath h3 None (s :: r) Hzl). intros x Hx. apply V; [lia|done].
    - apply runs_1. }
  intros res s4 (h4 & L' & -> & Hwf4 & Hzo4 & D4 & Hzc & Hperm' & _ & Hso).
  apply total_ret. exists h4, L'. split; [done|]. split; [done|].
  split; [by eapply zonly_trans|]. split; [done|]. split; [by rewrite Hperm'|].
  split; [done|]. intros x. rewrite D4, D3, D2, D1.
  destruct (decide (x ∈ s :: r)) as [Hx|Hx].
  - rewrite decide_True; [done|]. by rewrite <- Hperm.
  - rewrite decide_False; [done|]. by rewrite <- Hperm.
Qed.

(** X8. [indexCurve(start, minX, minY, invSize)] on a node of a ring gives
    every node of the ring that has no z value the value
    [zOrder(p.x, p.y, minX, minY, invSize)] and links the nodes of the ring
    into one [null]-terminated chain, in ascending order of z.  The ring
    itself, and every other field, is as before. *)
Theorem indexCurve_sorts t h l s minX minY invSize :
  wf h -> ring h l -> s ∈ l ->
  exists N h' zl,
    (forall fuel, (N <= fuel)%nat ->
       indexCurve fuel (Some s) minX minY invSize (mkState h t) =
       Ret (tt, mkState h' t)) /\
    wf h' /\ ring h' l /\ zchain h' zl /\ zl ≡ₚ l /\ zsorted (zkey h') zl /\
    (forall x, dataf h' x = if decide (x ∈ l) then zfill minX minY invSize (dataf h x)
                            else dataf h x).
Proof. apply indexCurve_sorted. Qed.

(** ** When the z-order index is built and used *)

(** [no_index h]: no node of [h] has a z value or a z-order link. *)
Definition no_index h : Prop :=
  forall p n, h !! p = Some n ->
    n_z n = None /\ n_prevZ n = None /\ n_nextZ n = None.

(** [indexed h p]: the node at [p] has a z value. *)
Definition indexed h (p : nat) : Prop :=
  exists n, h !! p = Some n /\ n_z n <> None.

(** Properties of the heap that every assignment of the run keeps.  With
    [zfree] the property rules out z-order links, and the code that writes
    z values and links is not covered. *)
Record heap_inv (HI : list Node -> Prop) (zfree : bool) : Prop := {
  inv_alloc : forall h i x y, HI h -> HI (h ++ [newNode i x y]);
  inv_ptr : forall h q n v, HI h -> h !! q = Some n ->
    HI (<[q := set_prev v n]> h) /\ HI (<[q := set_next v n]> h);
  inv_steiner : forall h q n b, HI h -> h !! q = Some n ->
    HI (<[q := set_steiner b n]> h);
  inv_z : zfree = false -> forall h q n v, HI h -> h !! q = Some n ->
    HI (<[q := set_prevZ v n]> h) /\ HI (<[q := set_nextZ v n]> h) /\
    forall zv, HI (<[q := set_z (Some zv) n]> h);
  inv_nolinks : zfree = true -> forall h q n, HI h -> h !! q = Some n ->
    n_prevZ n = None /\ n_nextZ n = None
}.

Section HeapInvariant.
Variable HI : list Node -> Prop.
Variable zfree : bool.
Hypothesis HI_ok : heap_inv HI zfree.

Definition hkeeps {A} (m : ST A) : Prop :=
  forall s a s', HI (st_heap s) -> m s = Ret (a, s') -> HI (st_heap s').

Lemma hkeeps_ret {A} (a : A) : hkeeps (mret a).
Proof. intros s a' s' Hs [= <- <-]. done. Qed.

Lemma hkeeps_bind {A B} (m : ST A) (k : A -> ST B) :
  hkeeps m -> (forall a, hkeeps (k a)) -> hkeeps (m ≫= k).
Proof.
  intros Hm Hk s b s' Hs. unfold mbind, ST_bind.
  destruct (m s) as [[a s1]| |] eqn:E; try done.
  intros Hb. eapply Hk; [|exact Hb]. eapply Hm; eauto.
Qed.

Lemma hkeeps_rd {A} (f : RD A) : hkeeps (rd f).
Proof.
  intros s a s' Hs. unfold rd. destruct (f (st_heap s)); try done.
  by intros [= <- <-].
Qed.

Lemma hkeeps_timeout {A} : hkeeps (timeout (A:=A)).
Proof. intros s a s' _. done. Qed.

Lemma hkeeps_push v : hkeeps (push v).
Proof. intros s a s' Hs [= <- <-]. done. Qed.

Lemma hkeeps_alloc i x y : hkeeps (alloc (newNode i x y)).
Proof. intros s a s' Hs [= <- <-]. simpl. by apply (inv_alloc _ _ HI_ok). Qed.

Lemma hkeeps_upd_with p (f : Node -> Node) :
  (forall h q n, HI h -> h !! q = Some n -> HI (<[q := f n]> h)) -> hkeeps (upd p f).
Proof.
  intros Hf s a s' Hs. unfold upd. destruct p as [q|]; [|done].
  destruct (st_heap s !! q) as [n|] eqn:E; [|done].
  intros [= <- <-]. simpl. by apply Hf.
Qed.

Lemma hkeeps_set_prev p v : hkeeps (upd p (set_prev v)).
Proof. apply hkeeps_upd_with. intros h q n Hh E. by apply (inv_ptr _ _ HI_ok). Qed.

Lemma hkeeps_set_next p v : hkeeps (upd p (set_next v)).
Proof. apply hkeeps_upd_with. intros h q n Hh E. by apply (inv_ptr _ _ HI_ok). Qed.

Lemma hkeeps_set_steiner p b : hkeeps (upd p (set_steiner b)).
Proof. apply hkeeps_upd_with. intros h q n Hh E. by apply (inv_steiner _ _ HI_ok). Qed.

Lemma hkeeps_set_prevZ p v : zfree = false -> hkeeps (upd p (set_prevZ v)).
Proof. intros Hz. apply hkeeps_upd_with. intros h q n Hh E. by apply (inv_z _ _ HI_ok). Qed.

Lemma hkeeps_set_nextZ p v : zfree = false -> hkeeps (upd p (set_nextZ v)).
Proof. intros Hz. apply hkeeps_upd_with. intros h q n Hh E. by apply (inv_z _ _ HI_ok). Qed.

Lemma hkeeps_set_z p zv : zfree = false -> hkeeps (upd p (set_z (Some zv))).
Proof. intros Hz. apply hkeeps_upd_with. intros h q n Hh E. by apply (inv_z _ _ HI_ok). Qed.

(** A node read from the heap has no z-order link when the property rules
    them out. *)
Lemma hkeeps_bind_node {B} p (k : Node -> ST B) :
  (forall n, (zfree = true -> n_prevZ n = None /\ n_nextZ n = None) -> hkeeps (k n)) ->
  hkeeps (rd (node p) ≫= k).
Proof.
  intros Hk s b s' Hs. unfold mbind, ST_bind, rd, node.
  destruct p as [q|]; [|done].
  destruct (st_heap s !! q) as [n|] eqn:E; [|done].
  intros Hb. eapply Hk; [|exact Hs|exact Hb].
  intros Hz. by eapply (inv_nolinks _ _ HI_ok).
Qed.

Lemma hkeeps_pushTriangle a b c dim : hkeeps (pushTriangle a b c dim).
Proof.
  unfold pushTriangle.
  repeat first [apply hkeeps_bind; [|intros ?] | apply hkeeps_rd | apply hkeeps_push].
Qed.

Create HintDb hkeeps discriminated.

Ltac hkeeps_step :=
  first
    [ solve [eauto 3 with hkeeps]
    | apply hkeeps_ret
    | apply hkeeps_rd
    | apply hkeeps_timeout
    | apply hkeeps_pushTriangle
    | apply hkeeps_alloc
    | apply hkeeps_set_prev
    | apply hkeeps_set_next
    | apply hkeeps_set_steiner
    | apply hkeeps_set_prevZ; assumption
    | apply hkeeps_set_nextZ; assumption
    | apply hkeeps_set_z; assumption
    | apply hkeeps_bind; [|intros ?]
    | match goal with
      | |- hkeeps (let '(_, _) := ?x in _) => destruct x
      | |- hkeeps (match ?x with _ => _ end) => destruct x
      | |- hkeeps (if ?x then _ else _) => destruct x
      end ].

Ltac hkeeps_go := repeat hkeeps_step.

Lemma hkeeps_insertNode i x y last : hkeeps (insertNode i x y last).
Proof. unfold insertNode. hkeeps_go. Qed.

Lemma hkeeps_removeNode p : hkeeps (removeNode p).
Proof.
  unfold removeNode.
  apply hkeeps_bind; [apply hkeeps_rd|]. intros n1.
  apply hkeeps_bind; [apply hkeeps_set_prev|]. intros _.
  apply hkeeps_bind; [apply hkeeps_rd|]. intros n2.
  apply hkeeps_bind; [apply hkeeps_set_next|]. intros _.
  apply hkeeps_bind_node. intros n Hn. apply hkeeps_bind.
  { destruct (Bool.bool_dec zfree true) as [Ez|Ez].
    - destruct (Hn Ez) as [-> _]. apply hkeeps_ret.
    - apply Bool.not_true_is_false in Ez.
      destruct (n_prevZ n); [by apply hkeeps_set_nextZ|apply hkeeps_ret]. }
  intros _. apply hkeeps_bind_node. intros n' Hn'.
  destruct (Bool.bool_dec zfree true) as [Ez|Ez].
  - destruct (Hn' Ez) as [_ ->]. apply hkeeps_ret.
  - apply Bool.not_true_is_false in Ez.
    destruct (n_nextZ n'); [by apply hkeeps_set_prevZ|apply hkeeps_ret].
Qed.

Lemma hkeeps_splitPolygon a b : hkeeps (splitPolygon a b).
Proof. unfold splitPolygon. hkeeps_go. Qed.

Hint Resolve hkeeps_insertNode hkeeps_removeNode hkeeps_splitPolygon : hkeeps.

Lemma hkeeps_linkedList_forward fuel data i end_ dim last :
  hkeeps (linkedList_forward fuel data i end_ dim last).
Proof.
  revert i last. induction fuel as [|f IH]; intros i last; simpl; hkeeps_go.
Qed.

Lemma hkeeps_linkedList_backward fuel data i start dim last :
  hkeeps (linkedList_backward fuel data i start dim last).
Proof.
  revert i last. induction fuel as [|f IH]; intros i last; simpl; hkeeps_go.
Qed.

Lemma hkeeps_linkedList fuel data start end_ dim cw ar :
  hkeeps (linkedList fuel data start end_ dim cw ar).
Proof.
  unfold linkedList. apply hkeeps_bind.
  - destruct (Bool.eqb _ _).
    + apply hkeeps_linkedList_forward.
    + apply hkeeps_linkedList_backward.
  - intros last. hkeeps_go.
Qed.

Lemma hkeeps_filterPoints_loop fuel p end_ : hkeeps (filterPoints_loop fuel p end_).
Proof.
  revert p end_. induction fuel as [|f IH]; intros p end_; simpl; hkeeps_go.
Qed.

Lemma hkeeps_filterPoints fuel start end_ : hkeeps (filterPoints fuel start end_).
Proof. unfold filterPoints. hkeeps_go; apply hkeeps_filterPoints_loop. Qed.

Hint Resolve hkeeps_linkedList hkeeps_filterPoints : hkeeps.

Lemma hkeeps_cureLocalIntersections_loop fuel p start dim :
  hkeeps (cureLocalIntersections_loop fuel p start dim).
Proof.
  revert p start. induction fuel as [|f IH]; intros p start; simpl; hkeeps_go.
Qed.

Lemma hkeeps_cureLocalIntersections fuel start dim :
  hkeeps (cureLocalIntersections fuel start dim).
Proof.
  unfold cureLocalIntersections. hkeeps_go.
  apply hkeeps_cureLocalIntersections_loop.
Qed.

Hint Resolve hkeeps_cureLocalIntersections : hkeeps.

Section WritesIndex.
Hypothesis Hz : zfree = false.

Lemma hkeeps_sortLinked_merge fuel p q pSize qSize list_ tail :
  hkeeps (sortLinked_merge fuel p q pSize qSize list_ tail).
Proof.
  revert p q pSize qSize list_ tail.
  induction fuel as [|f IH]; intros p q pSize qSize list_ tail; simpl; hkeeps_go.
Qed.

Lemma hkeeps_sortLinked_pass fuel p inSize list_ tail numMerges :
  hkeeps (sortLinked_pass fuel p inSize list_ tail numMerges).
Proof.
  revert p list_ tail numMerges.
  induction fuel as [|f IH]; intros p list_ tail numMerges.
  { apply hkeeps_timeout. }
  cbn [sortLinked_pass]. hkeeps_go. apply hkeeps_sortLinked_merge.
Qed.

Lemma hkeeps_sortLinked_loop fuel list_ inSize :
  hkeeps (sortLinked_loop fuel list_ inSize).
Proof.
  revert list_ inSize. induction fuel as [|f IH]; intros list_ inSize.
  { apply hkeeps_timeout. }
  cbn [sortLinked_loop]. hkeeps_go. apply hkeeps_sortLinked_pass.
Qed.

Lemma hkeeps_indexCurve_loop fuel p start minX minY invSize :
  hkeeps (indexCurve_loop fuel p start minX minY invSize).
Proof.
  revert p. induction fuel as [|f IH]; intros p; simpl; hkeeps_go.
Qed.

Lemma hkeeps_indexCurve fuel start minX minY invSize :
  hkeeps (indexCurve fuel start minX minY invSize).
Proof.
  unfold indexCurve, sortLinked. hkeeps_go.
  - apply hkeeps_indexCurve_loop.
  - apply hkeeps_sortLinked_loop.
Qed.

End WritesIndex.

Section HKeepsEngine.
Variable rec : option ptr -> nat -> ST unit.
Hypothesis hkeeps_rec : forall p pass, hkeeps (rec p pass).

Lemma hkeeps_splitEarcut_inner fuel a b : hkeeps (splitEarcut_inner rec fuel a b).
Proof.
  revert a b. induction fuel as [|f IH]; intros a b; simpl; hkeeps_go.
Qed.

Lemma hkeeps_splitEarcut_outer fuel a start :
  hkeeps (splitEarcut_outer rec fuel a start).
Proof.
  revert a. induction fuel as [|f IH]; intros a; simpl; hkeeps_go.
  apply hkeeps_splitEarcut_inner.
Qed.

Lemma hkeeps_earcutLinked_loop dim minX minY invSize fuel ear stop pass :
  hkeeps (earcutLinked_loop rec dim minX minY invSize fuel ear stop pass).
Proof.
  revert ear stop. induction fuel as [|f IH]; intros ear stop; simpl; hkeeps_go.
  unfold splitEarcut. apply hkeeps_splitEarcut_outer.
Qed.

End HKeepsEngine.

(** The engine keeps the property when the property allows z-order writes,
    or when [invSize] does not select the z-order path. *)
Lemma hkeeps_earcutLinked fuel dim minX minY invSize ear pass :
  zfree = false \/ hashed invSize = false ->
  hkeeps (earcutLinked fuel dim minX minY invSize ear pass).
Proof.
  intros Hor. revert ear pass. induction fuel as [|f IH]; intros ear pass; simpl.
  { apply hkeeps_timeout. }
  destruct ear as [e|]; [|apply hkeeps_ret].
  apply hkeeps_bind.
  - destruct ((pass =? 0)%nat && hashed invSize) eqn:E; [|apply hkeeps_ret].
    apply andb_true_iff in E as [_ E]. destruct Hor as [Hz|Hh].
    + by apply hkeeps_indexCurve.
    + congruence.
  - intros _. apply hkeeps_earcutLinked_loop. intros; apply IH.
Qed.

Lemma hkeeps_eliminateHole fuel hole outerNode :
  hkeeps (eliminateHole fuel hole outerNode).
Proof. unfold eliminateHole. hkeeps_go. Qed.

Lemma hkeeps_eliminateHoles_build fuel data holes i dim areas queue :
  hkeeps (eliminateHoles_build fuel data holes i dim areas queue).
Proof.
  revert i queue. induction holes as [|hi rest IH]; intros i queue; simpl; hkeeps_go.
Qed.

Lemma hkeeps_eliminateHoles_merge fuel queue outerNode :
  hkeeps (eliminateHoles_merge fuel queue outerNode).
Proof.
  revert outerNode. induction queue as [|hole rest IH]; intros outerNode; simpl;
    hkeeps_go; apply hkeeps_eliminateHole.
Qed.

Lemma hkeeps_eliminateHoles fuel data holes outerNode dim areas :
  hkeeps (eliminateHoles fuel data holes outerNode dim areas).
Proof.
  unfold eliminateHoles. hkeeps_go.
  - apply hkeeps_eliminateHoles_build.
  - apply hkeeps_eliminateHoles_merge.
Qed.

End HeapInvariant.

Lemma no_index_hkeeps_alloc h i x y : no_index h -> no_index (h ++ [newNode i x y]).
Proof.
  intros Hh p n E. apply lookup_app_Some in E as [E|[_ E]]; [by eapply Hh|].
  apply list_lookup_singleton_Some in E as [_ <-]. done.
Qed.

Lemma no_index_insert h q n (f : Node -> Node) :
  (n_z (f n) = n_z n /\ n_prevZ (f n) = n_prevZ n /\ n_nextZ (f n) = n_nextZ n) ->
  no_index h -> h !! q = Some n -> no_index (<[q := f n]> h).
Proof.
  intros (E1 & E2 & E3) Hh E p m Em. destruct (decide (p = q)) as [->|Hne].
  - rewrite list_lookup_insert_eq in Em by (by eapply lookup_lt_Some).
    injection Em as <-. rewrite E1, E2, E3. by eapply Hh.
  - rewrite list_lookup_insert_ne in Em by done. by eapply Hh.
Qed.

Lemma indexed_insert h e q n (f : Node -> Node) :
  (n_z n <> None -> n_z (f n) <> None) ->
  indexed h e -> h !! q = Some n -> indexed (<[q := f n]> h) e.
Proof.
  intros Hf (m & Em & Hm) E. destruct (decide (e = q)) as [->|Hne].
  - exists (f n). rewrite list_lookup_insert_eq by (by eapply lookup_lt_Some).
    split; [done|]. apply Hf. by simplify_eq.
  - exists m. by rewrite list_lookup_insert_ne.
Qed.

Lemma no_index_inv : heap_inv no_index true.
Proof.
  split.
  - apply no_index_hkeeps_alloc.
  - intros h q n v Hn En. split; by apply no_index_insert.
  - intros h q n b Hn En. by apply no_index_insert.
  - done.
  - intros _ h q n Hn En. destruct (Hn q n En) as (_ & ? & ?). done.
Qed.

(** A z value, once given, stays: whatever runs keeps [e] indexed. *)
Lemma indexed_inv e : heap_inv (fun h => indexed h e) false.
Proof.
  split.
  - intros h i x y (m & Em & Hm). exists m. split; [|done]. by apply lookup_app_l_Some.
  - intros h q n v Hn En. split; by apply indexed_insert.
  - intros h q n b Hn En. by apply indexed_insert.
  - intros _ h q n v Hn En. split; [|split]; try intros zv; by apply indexed_insert.
  - done.
Qed.

Lemma fld_inv {A} (g : Node -> A) p h a :
  fld g p h = Ret a -> exists q n, p = Some q /\ h !! q = Some n /\ a = g n.
Proof.
  unfold fld, node, mbind, RD_bind. destruct p as [q|]; [|done].
  destruct (h !! q) as [n|] eqn:E; [|done]. intros [= <-]. by exists q, n.
Qed.

(** [filterPoints] on a node returns a node. *)
Lemma filterPoints_loop_is_Some fuel :
  forall p end_ (s s' : state) r,
  is_Some end_ -> filterPoints_loop fuel p end_ s = Ret (r, s') -> is_Some r.
Proof.
  induction fuel as [|f IH]; intros p end_ s s' r He E; [done|].
  simpl in E.
  apply ST_bind_inv in E as (n & s0 & E0 & E). apply rd_inv in E0 as (? & _ & [= <- ->]).
  apply ST_bind_inv in E as (c & s0 & E0 & E). apply rd_inv in E0 as (? & _ & [= <- ->]).
  destruct c.
  - apply ST_bind_inv in E as (? & s1 & _ & E).
    apply ST_bind_inv in E as (pp & s0 & E0 & E). apply rd_inv in E0 as (? & _ & [= <- ->]).
    apply ST_bind_inv in E as (pn & s0 & E0 & E). apply rd_inv in E0 as (? & E0 & [= <- ->]).
    apply fld_inv in E0 as (q & nq & -> & _ & _).
    destruct (same (Some q) pn).
    + injection E as <- _. by eexists.
    + eapply IH; [|exact E]. by eexists.
  - apply ST_bind_inv in E as (pn & s0 & E0 & E). apply rd_inv in E0 as (? & _ & [= <- ->]).
    destruct (same pn end_).
    + by injection E as <- _.
    + by eapply IH.
Qed.

Lemma filterPoints_is_Some fuel p e (s s' : state) r :
  filterPoints fuel (Some p) e s = Ret (r, s') -> is_Some r.
Proof.
  unfold filterPoints. intros E. eapply filterPoints_loop_is_Some; [|exact E].
  by destruct e.
Qed.

Lemma eliminateHoles_merge_is_Some fuel queue :
  forall outerNode (s s' : state) r,
  is_Some outerNode ->
  eliminateHoles_merge fuel queue outerNode s = Ret (r, s') -> is_Some r.
Proof.
  induction queue as [|hole rest IH]; intros outerNode s s' r Ho E; simpl in E.
  { by injection E as <- _. }
  apply ST_bind_inv in E as (? & s1 & _ & E).
  apply ST_bind_inv in E as (on & s0 & E0 & E). apply rd_inv in E0 as (? & _ & [= <- ->]).
  apply ST_bind_inv in E as (o' & s2 & E2 & E).
  destruct Ho as [o ->]. apply filterPoints_is_Some in E2.
  by eapply IH.
Qed.

(** [indexCurve] gives its start node a z value. *)
Lemma indexCurve_indexes fuel e minX minY invSize (s s' : state) u :
  indexCurve fuel (Some e) minX minY invSize s = Ret (u, s') ->
  indexed (st_heap s') e.
Proof.
  intros E. unfold indexCurve in E.
  apply ST_bind_inv in E as (p & s1 & E1 & E).
  assert (H1 : indexed (st_heap s1) e).
  { destruct fuel as [|f]; [done|]. simpl in E1.
    apply ST_bind_inv in E1 as (n & s0 & E0 & E1).
    apply rd_inv in E0 as (? & E0 & [= <- ->]).
    apply ST_bind_inv in E1 as (? & s2 & E2 & E1).
    assert (H2 : indexed (st_heap s2) e).
    { unfold node in E0. destruct (st_heap s !! e) as [m|] eqn:Em; [|done].
      injection E0 as <-. destruct (n_z m) as [zv|] eqn:Ez.
      - injection E2 as _ <-. exists m. split; [done|]. by rewrite Ez.
      - unfold upd in E2. rewrite Em in E2. injection E2 as _ <-. simpl.
        eexists. rewrite list_lookup_insert_eq by (by eapply lookup_lt_Some).
        split; [done|]. done. }
    revert H2 E1.
    match goal with |- _ -> ?m _ = _ -> _ =>
      assert (Hk : hkeeps (fun h => indexed h e) m) end.
    { pose proof (indexed_inv e) as Hinv.
      pose proof (hkeeps_indexCurve_loop _ _ Hinv eq_refl f) as Hloop.
      repeat first
        [ apply (hkeeps_rd (fun h => indexed h e))
        | apply (hkeeps_ret (fun h => indexed h e))
        | apply (hkeeps_set_prevZ _ _ Hinv); reflexivity
        | apply (hkeeps_set_nextZ _ _ Hinv); reflexivity
        | apply Hloop
        | apply (hkeeps_bind (fun h => indexed h e)); [|intros ?]
        | match goal with |- hkeeps _ (if ?x then _ else _) => destruct x end ]. }
    intros H2 E1. by eapply Hk. }
  revert H1 E.
  match goal with |- _ -> ?m _ = _ -> _ =>
    assert (Hk : hkeeps (fun h => indexed h e) m) end.
  { pose proof (indexed_inv e) as Hinv.
    pose proof (hkeeps_sortLinked_loop _ _ Hinv eq_refl) as Hloop.
    unfold sortLinked.
    repeat first
      [ apply (hkeeps_rd (fun h => indexed h e))
      | apply (hkeeps_ret (fun h => indexed h e))
      | apply (hkeeps_set_prevZ _ _ Hinv); reflexivity
      | apply (hkeeps_set_nextZ _ _ Hinv); reflexivity
      | apply Hloop
      | apply (hkeeps_bind (fun h => indexed h e)); [|intros ?] ]. }
  intros H1 E. by eapply Hk.
Qed.

Lemma splitEarcut_inner_ext rec1 rec2 :
  (forall p q (s : state), rec1 p q s = rec2 p q s) ->
  forall g a b (s : state),
  splitEarcut_inner rec1 g a b s = splitEarcut_inner rec2 g a b s.
Proof.
  intros Hrec. induction g as [|g IHg]; intros a b s2; [done|]. simpl.
  apply ST_bind_ext; intros ap s3. destruct (same b ap); [done|].
  apply ST_bind_ext; intros na s4. apply ST_bind_ext; intros nb s5.
  apply ST_bind_ext; intros v s6. destruct v.
  - apply ST_bind_ext; intros c s7. apply ST_bind_ext; intros an s8.
    apply ST_bind_ext; intros a' s9. apply ST_bind_ext; intros cn s10.
    apply ST_bind_ext; intros c' s11.
    unfold mbind at 1 3, ST_bind at 1 3. rewrite Hrec.
    destruct (rec2 a' 0%nat s11) as [[? s12]| |]; [|done|done].
    unfold mbind, ST_bind. by rewrite Hrec.
  - apply ST_bind_ext; intros b' s7. apply IHg.
Qed.

Lemma splitEarcut_outer_ext rec1 rec2 :
  (forall p q (s : state), rec1 p q s = rec2 p q s) ->
  forall g a st (s : state),
  splitEarcut_outer rec1 g a st s = splitEarcut_outer rec2 g a st s.
Proof.
  intros Hrec. induction g as [|g IHg]; intros a st s2; [done|]. simpl.
  apply ST_bind_ext; intros an s3. apply ST_bind_ext; intros b s4.
  unfold mbind at 1 3, ST_bind at 1 3. rewrite (splitEarcut_inner_ext _ _ Hrec).
  destruct (splitEarcut_inner rec2 g a b s4) as [[r s5]| |]; [|done|done].
  destruct r; [done|]. apply ST_bind_ext; intros a' s6.
  destruct (same a' st); [done|]. apply IHg.
Qed.

Lemma earcutLinked_loop_plain rec1 rec2 dim minX minY invSize :
  hashed invSize = false ->
  (forall p q (s : state), rec1 p q s = rec2 p q s) ->
  forall fuel ear stop pass (s : state),
  earcutLinked_loop rec1 dim minX minY invSize fuel ear stop pass s =
  earcutLinked_loop rec2 dim None None None fuel ear stop pass s.
Proof.
  intros Hh Hrec. induction fuel as [|g IHg]; intros ear stop pass s1; [done|].
  cbn [earcutLinked_loop]. rewrite Hh. cbn [hashed].
  apply ST_bind_ext; intros ne s2. destruct (same _ _); [done|].
  apply ST_bind_ext; intros e' s3. destruct e'.
  - apply ST_bind_ext; intros ? s4. apply ST_bind_ext; intros ? s5.
    apply ST_bind_ext; intros nn s6. apply IHg.
  - destruct (same (n_next ne) stop); [|apply IHg].
    destruct pass as [|[|[|pass]]]; [| | |done].
    + apply ST_bind_ext; intros fp s4. apply Hrec.
    + apply ST_bind_ext; intros fp s4. apply ST_bind_ext; intros ear' s5. apply Hrec.
    + unfold splitEarcut. by apply splitEarcut_outer_ext.
Qed.

(** With an [invSize] that does not select the z-order path the engine
    runs as it does when [minX], [minY] and [invSize] are [undefined]:
    [indexCurve] is not called and every ear test is [isEar]. *)
Lemma earcutLinked_plain fuel dim minX minY invSize :
  hashed invSize = false ->
  forall ear pass (s : state),
  earcutLinked fuel dim minX minY invSize ear pass s =
  earcutLinked fuel dim None None None ear pass s.
Proof.
  intros Hh. induction fuel as [|f IH]; intros ear pass s; [done|].
  cbn [earcutLinked]. destruct ear as [e|]; [|done].
  rewrite Hh. cbn [hashed]. rewrite andb_false_r.
  apply ST_bind_ext. intros _ s1.
  by apply earcutLinked_loop_plain.
Qed.

(** [earcut] leaves [invSize] undefined at or below the threshold, and
    defined above it. *)
Lemma earcut_invSize_hashed fuel positions outerLen dim minX minY invSize :
  earcut_invSize fuel positions outerLen dim = Ret (minX, minY, invSize) ->
  (hashed invSize = true <->
   80 * dim < Z.of_nat (length positions) /\
   exists v, invSize = Some v /\ truthy v = true).
Proof.
  unfold earcut_invSize.
  destruct (Z.ltb_spec (80 * dim) (Z.of_nat (length positions))) as [Hlt|Hge].
  - destruct (earcut_bbox _ _ _ _ _ _ _ _ _) as [[[[x0 y0] x1] y1]| |]; simpl; try done.
    intros [= <- <- <-]. simpl. split.
    + intros Ht. split; [done|]. by eexists.
    + by intros (_ & v & [= <-] & Ht).
  - intros [= <- <- <-]. simpl. split; [done|]. intros [? _]. lia.
Qed.


(** Executable checks of [no_index] and [ring]. *)
Definition no_indexb (h : list Node) : bool :=
  forallb (fun n => match n_z n, n_prevZ n, n_nextZ n with
                    | None, None, None => true
                    | _, _, _ => false
                    end) h.

Lemma no_indexb_ok h : no_indexb h = true -> no_index h.
Proof.
  unfold no_indexb. rewrite forallb_forall. intros Hf p n E.
  apply list_elem_of_lookup_2, list_elem_of_In in E. specialize (Hf n E).
  by destruct (n_z n), (n_prevZ n), (n_nextZ n).
Qed.

Fixpoint linksb (h : list Node) (a : nat) (l : list nat) (b : nat) : bool :=
  match l with
  | [] => bool_decide (nextf h a = Some b) && bool_decide (prevf h b = Some a)
  | c :: l' => bool_decide (nextf h a = Some c) && bool_decide (prevf h c = Some a) &&
               linksb h c l' b
  end.

Definition ringb (h : list Node) (l : list nat) : bool :=
  match l with
  | [] => false
  | a :: r => bool_decide (NoDup l) && linksb h a r a
  end.

Lemma linksb_ok h l : forall a b, linksb h a l b = true -> links h a l b.
Proof.
  induction l as [|c l IH]; intros a b E; simpl in *.
  - apply andb_true_iff in E as [E1 E2].
    split; by eapply bool_decide_eq_true_1.
  - apply andb_true_iff in E as [E E3]. apply andb_true_iff in E as [E1 E2].
    split; [by eapply bool_decide_eq_true_1|]. split; [by eapply bool_decide_eq_true_1|].
    by apply IH.
Qed.

Lemma ringb_ok h l : ringb h l = true -> ring h l.
Proof.
  destruct l as [|a r]; [done|]. unfold ringb, ring.
  intros E. apply andb_true_iff in E as [E1 E2]. split.
  - by eapply bool_decide_eq_true_1.
  - by apply linksb_ok.
Qed.

(** * Ear clipping on a list of vertices

    The first pass of [earcutLinked] without the heap.  A ring is the list
    of its vertices in [next] order, and the vertex under test comes
    first. *)

Definition rot {A} (r : list A) : list A :=
  match r with
  | [] => []
  | x :: l => l ++ [x]
  end.

(** The vertex at position [j] of the ring [r] rules out the ear
    [a], [b], [c]: it lies in the triangle and the turn at it is reflex or
    collinear. *)
Definition blocks_at (r : list Node) (a b c : Node) (j : nat) : bool :=
  match r !! pred j, r !! j, r !! S j with
  | Some pp, Some p, Some pn =>
      pointInTriangle (n_x a) (n_y a) (n_x b) (n_y b) (n_x c) (n_y c)
                      (n_x p) (n_y p) &&
      fge (area pp p pn) (num 0)
  | _, _, _ => false
  end.

(** The first vertex of [r] is an ear: the turn at it is convex and no
    vertex other than its two neighbours rules it out. *)
Definition ear_at (r : list Node) : bool :=
  match r, last r with
  | b :: c :: _, Some a =>
      negb (fge (area a b c) (num 0)) &&
      forallb (fun j => negb (blocks_at r a b c j)) (seq 2 (length r - 3))
  | _, _ => false
  end.

(** Walk the ring, at most [k] vertices, up to the first ear.  Every ring
    that is tested has to pass the check [ok], or the walk gives up. *)
Fixpoint find_ear (ok : list Node -> bool) (k : nat) (r : list Node)
    : option (list Node) :=
  match k with
  | O => None
  | S k' =>
      if negb (ok r) then None
      else if ear_at r then Some r
      else find_ear ok k' (rot r)
  end.

(** Ear clipping: find the first ear, emit the triangle (previous, ear,
    next), remove the ear and go on from the vertex after the next one;
    stop at two vertices.  [None] when a whole walk of the ring finds no
    ear, or a check fails.  [n] bounds the number of ears cut. *)
Fixpoint ear_clipping (ok : list Node -> bool) (n : nat) (dim : Z)
    (r : list Node) : option (list Q) :=
  match r with
  | _ :: _ :: _ :: _ =>
      match n with
      | O => None
      | S n' =>
          match find_ear ok (length r) r with
          | Some (b :: c :: rest) =>
              match last rest with
              | Some a =>
                  tl ← ear_clipping ok n' dim (rest ++ [c]);
                  Some (jsdiv (n_i a) dim :: jsdiv (n_i b) dim ::
                        jsdiv (n_i c) dim :: tl)
              | None => None
              end
          | _ => None
          end
      end
  | _ => Some []
  end.

(** Each ear cut makes one triangle and removes one vertex. *)
Lemma find_ear_length ok k r r' :
  find_ear ok k r = Some r' -> length r' = length r.
Proof.
  revert r. induction k as [|k IH]; intros r; simpl; [done|].
  destruct (ok r); [|done]. simpl.
  destruct (ear_at r); [by intros [= ->]|].
  intros E. rewrite (IH _ E). destruct r; simpl; [done|].
  rewrite length_app. simpl. lia.
Qed.

Lemma find_ear_ok ok k r r' :
  find_ear ok k r = Some r' -> ok r' = true /\ ear_at r' = true.
Proof.
  revert r. induction k as [|k IH]; intros r; simpl; [done|].
  destruct (ok r) eqn:Eok; [|done]. simpl.
  destruct (ear_at r) eqn:Eear; [by intros [= <-]|]. apply IH.
Qed.

Lemma ear_clipping_length ok n dim : forall r tris,
  ear_clipping ok n dim r = Some tris -> length tris = (3 * (length r - 2))%nat.
Proof.
  induction n as [|n IH]; intros r tris.
  - destruct r as [|x [|y [|z r]]]; simpl; by intros [= <-].
  - destruct r as [|x [|y [|z r]]]; try (by intros [= <-]).
    cbn [ear_clipping].
    destruct (find_ear _ _) as [[|b [|c rest]]|] eqn:Ef; try done.
    apply find_ear_length in Ef.
    destruct (last rest) as [a|] eqn:El; [|done].
    destruct (ear_clipping ok n dim (rest ++ [c])) as [tl|] eqn:Et; [|done].
    simpl. intros [= <-]. simpl. rewrite (IH _ _ Et). rewrite length_app.
    simpl in Ef |- *. lia.
Qed.

Lemma ear_clipping_short ok n dim r :
  (length r <= 2)%nat -> ear_clipping ok n dim r = Some [].
Proof. destruct r as [|x [|y [|z r]]]; simpl; [by destruct n..|lia]. Qed.

(** ** The heap against the list *)

(** The node at [p] is the vertex [v]. *)
Definition vtx h (p : nat) (v : Node) : Prop :=
  exists n, h !! p = Some n /\ n_i n = n_i v /\ n_x n = n_x v /\ n_y n = n_y v.

Lemma vtx_dataf h h' p v :
  dataf h' p = dataf h p -> vtx h p v -> vtx h' p v.
Proof.
  intros D (n & E & Hv). unfold dataf in D. rewrite E in D. simpl in D.
  destruct (h' !! p) as [n'|] eqn:E'; [|done]. simpl in D.
  unfold payload in D. exists n'. split; [done|].
  destruct Hv as (Hi & Hx & Hy). injection D as Di Dx Dy _ _.
  by rewrite Di, Dx, Dy.
Qed.

Lemma area_coords (p q r p' q' r' : Node) :
  n_x p = n_x p' -> n_y p = n_y p' -> n_x q = n_x q' -> n_y q = n_y q' ->
  n_x r = n_x r' -> n_y r = n_y r' -> area p q r = area p' q' r'.
Proof. unfold area. by intros -> -> -> -> -> ->. Qed.

Lemma forallb_seq_lookup {A} (f : A -> bool) (g : nat -> bool) (l : list A) k :
  (forall j p, l !! j = Some p -> f p = g (k + j)%nat) ->
  forallb f l = forallb g (seq k (length l)).
Proof.
  revert k. induction l as [|x l IH]; intros k Hfg; [done|]. simpl.
  rewrite (Hfg 0%nat x eq_refl), Nat.add_0_r. f_equal.
  apply IH. intros j p Hj. rewrite (Hfg (S j) p Hj). f_equal. lia.
Qed.

Lemma ear_at_eq b c rest a :
  last (b :: c :: rest) = Some a ->
  ear_at (b :: c :: rest) =
  negb (fge (area a b c) (num 0)) &&
  forallb (fun j => negb (blocks_at (b :: c :: rest) a b c j))
          (seq 2 (length rest - 1)).
Proof.
  intros Hl. unfold ear_at. rewrite Hl. do 2 f_equal.
Qed.

Lemma vtx_at h l vs j p :
  Forall2 (vtx h) l vs -> l !! j = Some p ->
  exists n v, h !! p = Some n /\ vs !! j = Some v /\
              n_i n = n_i v /\ n_x n = n_x v /\ n_y n = n_y v.
Proof.
  intros Hv Hp. destruct (Forall2_lookup_l _ _ _ _ _ Hv Hp) as (v & Ev & n & En & Hn).
  by exists n, v.
Qed.

(** The ring [e, c, mid..., a] against its vertices [vs]: the three corners
    of the ear, and the test made for a node of [mid]. *)
Lemma ring_corners h e c mid a vs na ne nc :
  Forall2 (vtx h) (e :: c :: mid ++ [a]) vs ->
  h !! a = Some na -> h !! e = Some ne -> h !! c = Some nc ->
  exists ve vc vs' va,
    vs = ve :: vc :: vs' /\ last vs = Some va /\ length vs' = S (length mid) /\
    n_x na = n_x va /\ n_y na = n_y va /\ n_x ne = n_x ve /\ n_y ne = n_y ve /\
    n_x nc = n_x vc /\ n_y nc = n_y vc.
Proof.
  intros Hv Ea Ee Ec.
  set (l := e :: c :: mid ++ [a]) in *.
  destruct (vtx_at h l vs 0 e Hv eq_refl) as (ne' & ve & Ee' & Eve & _ & Hex & Hey).
  destruct (vtx_at h l vs 1 c Hv eq_refl) as (nc' & vc & Ec' & Evc & _ & Hcx & Hcy).
  assert (Hla : l !! (2 + length mid)%nat = Some a).
  { subst l. simpl. rewrite lookup_app_r by lia. by rewrite Nat.sub_diag. }
  destruct (vtx_at h l vs _ a Hv Hla) as (na' & va & Ea' & Eva & _ & Hax & Hay).
  simplify_eq.
  assert (Hlen : length vs = (3 + length mid)%nat).
  { rewrite <- (Forall2_length _ _ _ Hv). subst l. simpl. rewrite length_app. simpl.
    by rewrite Nat.add_1_r. }
  assert (Hlast : last vs = Some va).
  { rewrite last_lookup, Hlen. exact Eva. }
  destruct vs as [|ve' [|vc' vs']]; [done|simpl in Hlen; lia|].
  simpl in Eve, Evc. injection Eve as ->. injection Evc as ->.
  exists ve, vc, vs', va. repeat split; try done. simpl in Hlen. lia.
Qed.

Lemma blocks_heap h e c mid a vs (na ne nc va ve vc : Node) j p :
  ring h (e :: c :: mid ++ [a]) -> Forall2 (vtx h) (e :: c :: mid ++ [a]) vs ->
  n_x na = n_x va -> n_y na = n_y va -> n_x ne = n_x ve -> n_y ne = n_y ve ->
  n_x nc = n_x vc -> n_y nc = n_y vc ->
  mid !! j = Some p ->
  exists np vp, h !! p = Some np /\ vs !! (2 + j)%nat = Some vp /\
                n_x np = n_x vp /\ n_y np = n_y vp /\
                blocksEar h na ne nc p = blocks_at vs va ve vc (2 + j).
Proof.
  intros Hr Hv Hax Hay Hex Hey Hcx Hcy Hj.
  set (l := e :: c :: mid ++ [a]) in *.
  assert (Hp : l !! (2 + j)%nat = Some p).
  { subst l. simpl. by apply lookup_app_l_Some. }
  assert (Hq : is_Some (l !! (1 + j)%nat)).
  { apply lookup_lt_is_Some. apply lookup_lt_Some in Hp. lia. }
  assert (Hn : is_Some (l !! (3 + j)%nat)).
  { apply lookup_lt_is_Some. apply lookup_lt_Some in Hj. subst l. simpl.
    rewrite length_app. simpl. lia. }
  destruct Hq as [q Hq], Hn as [x Hn].
  destruct (ring_lookup h l (1 + j) q p Hr Hq Hp) as [_ Hpq].
  destruct (ring_lookup h l (2 + j) p x Hr Hp Hn) as [Hpx _].
  destruct (vtx_at h l _ _ _ Hv Hp) as (np & vp & Ep & Evp & _ & Hpx' & Hpy').
  destruct (vtx_at h l _ _ _ Hv Hq) as (nq & vq & Eq & Evq & _ & Hqx' & Hqy').
  destruct (vtx_at h l _ _ _ Hv Hn) as (nx & vx & Ex & Evx & _ & Hxx' & Hxy').
  exists np, vp. split; [done|]. split; [done|]. split; [done|]. split; [done|].
  unfold blocksEar, blocks_at. rewrite Ep.
  unfold fieldf in Hpq, Hpx. rewrite Ep in Hpq, Hpx. simpl in Hpq, Hpx.
  rewrite Hpq, Hpx. simpl. rewrite Eq, Ex.
  simpl in Evp, Evq, Evx. rewrite Evq, Evp, Evx.
  rewrite Hax, Hay, Hex, Hey, Hcx, Hcy, Hpx', Hpy'.
  by rewrite (area_coords nq np nx vq vp vx).
Qed.

(** [ear_at] read on the heap. *)
Lemma ear_at_heap h e c mid a vs na ne nc :
  ring h (e :: c :: mid ++ [a]) -> Forall2 (vtx h) (e :: c :: mid ++ [a]) vs ->
  h !! a = Some na -> h !! e = Some ne -> h !! c = Some nc ->
  ear_at vs = negb (fge (area na ne nc) (num 0)) &&
              forallb (fun p => negb (blocksEar h na ne nc p)) mid.
Proof.
  intros Hr Hv Ea Ee Ec.
  destruct (ring_corners h e c mid a vs na ne nc Hv Ea Ee Ec)
    as (ve & vc & vs' & va & Evs & Hlast & Hlen & Hax & Hay & Hex & Hey & Hcx & Hcy).
  rewrite Evs in Hlast |- *.
  rewrite (ear_at_eq _ _ _ _ Hlast).
  rewrite (area_coords na ne nc va ve vc) by done.
  f_equal. replace (length vs' - 1)%nat with (length mid) by lia.
  symmetry. apply forallb_seq_lookup. intros j p Hj. f_equal.
  rewrite <- Evs in *.
  destruct (blocks_heap h e c mid a vs na ne nc va ve vc j p Hr Hv
              Hax Hay Hex Hey Hcx Hcy Hj) as (np & vp & _ & _ & _ & _ & Hb).
  by rewrite Hb.
Qed.

(** [isEar] on the first node of a ring of at least three nodes is [ear_at]
    on its vertices. *)
Lemma isEar_value h e r vs fuel :
  ring h (e :: r) -> Forall2 (vtx h) (e :: r) vs -> (3 <= length (e :: r))%nat ->
  (length r < fuel)%nat ->
  isEar fuel (Some e) h = Ret (ear_at vs).
Proof.
  intros Hr Hv H3 Hf.
  destruct r as [|c r2]; [simpl in H3; lia|].
  destruct r2 as [|a mid _] using rev_ind; [simpl in H3; lia|]. clear H3.
  assert (Hr3 : ring h (a :: e :: c :: mid)).
  { apply (ring_rotate_back h a (e :: c :: mid)). exact Hr. }
  destruct (ring_head _ _ _ Hr) as [Hnx Hpv].
  change (c :: mid ++ [a]) with ((c :: mid) ++ [a]) in Hpv.
  rewrite last_snoc in Hpv. simpl in Hnx, Hpv.
  assert (Ve : is_Some (h !! e)) by (eapply ring_valid; [exact Hr|set_solver]).
  assert (Vc : is_Some (h !! c)) by (eapply ring_valid; [exact Hr|set_solver]).
  assert (Va : is_Some (h !! a)) by (eapply ring_valid; [exact Hr|set_solver]).
  destruct Ve as [ne Ee], Vc as [nc Ec], Va as [na Ea].
  rewrite (ear_at_heap h e c mid a vs na ne nc Hr Hv Ea Ee Ec).
  simpl in Hf. rewrite length_app in Hf. simpl in Hf.
  unfold isEar. rewrite (RD_bind_Ret _ _ _ _ (node_Some _ _ _ Ee)).
  unfold fieldf in Hnx, Hpv. rewrite Ee in Hnx, Hpv. simpl in Hnx, Hpv.
  rewrite Hpv, Hnx.
  rewrite (RD_bind_Ret _ _ _ _ (node_Some _ _ _ Ea)).
  rewrite (RD_bind_Ret _ _ _ _ (node_Some _ _ _ Ec)).
  destruct (fge (area na ne nc) (num 0)); [done|]. simpl negb. cbn [andb].
  destruct Hr3 as [Hnd Hl]. simpl in Hl. destruct Hl as (_ & _ & _ & _ & Hl).
  pose proof (links_head _ _ _ _ Hl) as Hx. unfold fieldf in Hx. rewrite Ec in Hx.
  simpl in Hx.
  rewrite (RD_bind_Ret _ _ _ _ (fld_Some n_next _ _ _ Ec)). rewrite Hx.
  apply (isEar_loop_spec h na ne nc e a mid c); [unfold fieldf; by rewrite Ee|done| |lia].
  apply NoDup_cons in Hnd as [Hnd _]. set_solver.
Qed.

Lemma pushTriangle_value h t a b c na nb nc dim :
  h !! a = Some na -> h !! b = Some nb -> h !! c = Some nc ->
  pushTriangle (Some a) (Some b) (Some c) dim (mkState h t) =
  Ret (tt, mkState h (t ++ [jsdiv (n_i na) dim; jsdiv (n_i nb) dim; jsdiv (n_i nc) dim])).
Proof.
  intros Ea Eb Ec. unfold pushTriangle.
  rewrite (rd_bind _ _ _ _ _ (node_Some _ _ _ Ea)).
  unfold push at 1. unfold mbind at 1, ST_bind at 1. simpl.
  rewrite (rd_bind _ _ _ _ _ (node_Some _ _ _ Eb)).
  unfold push at 1. unfold mbind at 1, ST_bind at 1. simpl.
  rewrite (rd_bind _ _ _ _ _ (node_Some _ _ _ Ec)).
  unfold push. simpl. by rewrite <- !app_assoc.
Qed.

Lemma Forall2_rot {A B} (P : A -> B -> Prop) l k :
  Forall2 P l k -> Forall2 P (rot l) (rot k).
Proof.
  intros [|x y l' k' Hxy Hl]; simpl; [constructor|].
  apply Forall2_app; [done|]. by constructor.
Qed.

(** ** The first pass against ear clipping *)

Section ClipLoop.
Variables (dim : Z) (minX minY invSize : option R).
Variable rec : nat -> option ptr -> nat -> ST unit.

(** [Inv h r]: what the ear test in use needs of the ring [r], and [ok]:
    what it needs of the vertices. *)
Variable Inv : list Node -> list nat -> Prop.
Variable ok : list Node -> bool.
Hypothesis Inv_ring : forall h r, Inv h r -> ring h r.
Hypothesis Inv_rot : forall h a l, Inv h (a :: l) -> Inv h (l ++ [a]).
Hypothesis Inv_test : forall h e r vs,
  Inv h (e :: r) -> Forall2 (vtx h) (e :: r) vs -> (3 <= length (e :: r))%nat ->
  ok vs = true ->
  rtotal (fun f => if hashed invSize
                   then isEarHashed f (Some e) (val minX) (val minY) (val invSize)
                   else isEar f (Some e))
         h (fun v => v = ear_at vs).
Hypothesis Inv_remove : forall h t b l, Inv h (b :: l) -> l <> [] ->
  exists h', removeNode (Some b) (mkState h t) = Ret (tt, mkState h' t) /\
             Inv h' l /\ forall x, dataf h' x = dataf h x.

(** The walk up to the first ear. *)
Lemma clip_scan pass (Q : unit -> state -> Prop) h t stop vs' n :
  forall k (g : nat -> nat) e r vs,
  (forall f, (f <= g f)%nat) ->
  Inv h (e :: r) -> Forall2 (vtx h) (e :: r) vs ->
  length (e :: r) = n -> (3 <= n)%nat ->
  (1 <= k <= n)%nat -> (e :: r) !! (k mod n)%nat = Some stop ->
  find_ear ok k vs = Some vs' ->
  (forall g' e' r', (forall f, (f <= g' f)%nat) -> Inv h (e' :: r') ->
     Forall2 (vtx h) (e' :: r') vs' -> length (e' :: r') = n ->
     ear_at vs' = true ->
     total (fun f => earcutLinked_loop (rec (g' f)) dim minX minY invSize f
                                       (Some e') (Some stop) pass)
           (mkState h t) Q) ->
  total (fun f => earcutLinked_loop (rec (g f)) dim minX minY invSize f
                                    (Some e) (Some stop) pass)
        (mkState h t) Q.
Proof.
  induction k as [|k IH]; intros g e r vs Hg Hinv Hv Hn H3 Hk Hstop Hfind Hcont; [lia|].
  simpl in Hfind. destruct (ok vs) eqn:Eok; [|done]. simpl in Hfind.
  destruct (ear_at vs) eqn:Eear.
  { injection Hfind as <-. by apply (Hcont g e r). }
  pose proof (Inv_ring _ _ Hinv) as Hr.
  destruct r as [|c r2]; [simpl in Hn; lia|].
  destruct (ring_head _ _ _ Hr) as [Hnx Hpv]. simpl in Hnx.
  assert (Ve : is_Some (h !! e)) by (eapply ring_valid; [exact Hr|set_solver]).
  destruct Ve as [ne Ee].
  unfold fieldf in Hnx, Hpv. rewrite Ee in Hnx, Hpv. simpl in Hnx, Hpv.
  assert (Hnd : NoDup (e :: c :: r2)) by (by destruct Hr).
  assert (Hac : default e (last (c :: r2)) <> c).
  { destruct r2 as [|y r2' _] using rev_ind; [simpl in Hn; lia|].
    change (c :: r2' ++ [y]) with ((c :: r2') ++ [y]). rewrite last_snoc. simpl.
    intros ->. apply NoDup_cons in Hnd as [_ Hnd]. apply NoDup_cons in Hnd as [Hc _].
    set_solver. }
  apply total_S. cbn [earcutLinked_loop].
  eapply total_read; [exact (node_Some _ _ _ Ee)|].
  rewrite Hpv, Hnx.
  unfold same at 1. rewrite bool_decide_eq_false_2 by (intros [= ?]; done).
  cbn zeta.
  apply total_bind, total_rd. eapply rtotal_mono.
  { apply (Inv_test h e (c :: r2) vs Hinv Hv); [lia|done]. }
  intros v ->. rewrite Eear.
  destruct k as [|k]; [done|].
  assert (Hcs : c <> stop).
  { intros <-. 
    assert (H1 : (e :: c :: r2) !! 1%nat = Some c) by done.
    pose proof (NoDup_lookup _ _ _ _ Hnd Hstop H1) as Hm.
    destruct (decide (S (S k) = n)) as [<-|Hlt].
    - rewrite Nat.Div0.mod_same in Hm. done.
    - rewrite Nat.mod_small in Hm by lia. lia. }
  unfold same. rewrite bool_decide_eq_false_2 by (intros [= ?]; done).
  apply (IH (fun f => g (S f)) c (r2 ++ [e]) (rot vs)).
  - intros f. specialize (Hg (S f)). lia.
  - apply (Inv_rot h e (c :: r2)). exact Hinv.
  - apply (Forall2_rot _ (e :: c :: r2) vs Hv).
  - simpl in Hn |- *. rewrite length_app. simpl. lia.
  - done.
  - lia.
  - destruct (decide (S (S k) = n)) as [<-|Hlt].
    + rewrite Nat.Div0.mod_same in Hstop. simpl in Hstop. injection Hstop as <-.
      rewrite Nat.mod_small by lia.
      change (c :: r2 ++ [e]) with ((c :: r2) ++ [e]).
      rewrite lookup_app_r by (simpl in *; lia).
      simpl in Hn. replace (S k - length (c :: r2))%nat with 0%nat by (simpl; lia).
      done.
    + rewrite Nat.mod_small in Hstop by lia. rewrite Nat.mod_small by lia.
      simpl in Hstop. change (c :: r2 ++ [e]) with ((c :: r2) ++ [e]).
      by apply lookup_app_l_Some.
  - exact Hfind.
  - exact Hcont.
Qed.

(** The loop of [earcutLinked] cuts the ears [ear_clipping] cuts. *)
Lemma clip_loop pass : forall n (g : nat -> nat) h t e r vs tris,
  (forall f, (f <= g f)%nat) -> Inv h (e :: r) -> Forall2 (vtx h) (e :: r) vs ->
  ear_clipping ok n dim vs = Some tris ->
  total (fun f => earcutLinked_loop (rec (g f)) dim minX minY invSize f
                                    (Some e) (Some e) pass)
        (mkState h t) (fun _ s' => st_triangles s' = t ++ tris).
Proof.
  induction n as [|n IHn]; intros g h t e r vs tris Hg Hinv Hv Hclip.
  all: pose proof (Inv_ring _ _ Hinv) as Hr.
  all: pose proof (Forall2_length _ _ _ Hv) as Hlen.
  all: destruct (ring_head _ _ _ Hr) as [Hnx Hpv].
  all: assert (Ve : is_Some (h !! e)) by (eapply ring_valid; [exact Hr|set_solver]).
  all: destruct Ve as [ne Ee].
  all: unfold fieldf in Hnx, Hpv; rewrite Ee in Hnx, Hpv; simpl in Hnx, Hpv.
  all: destruct (decide (length r <= 1)%nat) as [Hshort|Hlong].
  1,3: (* one or two nodes *)
    assert (Hpn : n_prev ne = n_next ne)
      by (rewrite Hpv, Hnx; destruct r as [|c [|d r]]; [done|done|simpl in Hshort; lia]);
    rewrite ear_clipping_short in Hclip by (rewrite <- Hlen; simpl; lia);
    injection Hclip as <-; apply total_S; cbn [earcutLinked_loop];
    (eapply total_read; [exact (node_Some _ _ _ Ee)|]);
    unfold same; rewrite bool_decide_eq_true_2 by done;
    apply total_ret; simpl; by rewrite app_nil_r.
  { (* no ear left to cut *)
    destruct vs as [|x [|y [|z vs]]]; simpl in Hlen; try lia. done. }
  destruct vs as [|v1 [|v2 [|v3 vs0]]]; try (simpl in Hlen; lia).
  set (vs := v1 :: v2 :: v3 :: vs0) in *. cbn [ear_clipping] in Hclip. fold vs in Hclip.
  destruct (find_ear ok (length vs) vs) as [[|vb [|vc vrest]]|] eqn:Efind; try done.
  destruct (last vrest) as [va|] eqn:Elast; [|done].
  destruct (ear_clipping ok n dim (vrest ++ [vc])) as [tl|] eqn:Etl; [|done].
  destruct (find_ear_ok _ _ _ _ Efind) as [Hok _].
  simpl in Hclip. injection Hclip as <-.
  apply (clip_scan pass _ h t e (vb :: vc :: vrest) (length (e :: r))
                   (length vs) g e r vs Hg Hinv Hv eq_refl).
  { simpl. lia. }
  { rewrite Hlen. simpl. lia. }
  { rewrite <- Hlen, Nat.Div0.mod_same. done. }
  { exact Efind. }
  clear Hnx Hpv ne Ee Hr Hinv Hv Hg g.
  intros g e' r' Hg Hinv Hv Hn' Hear.
  pose proof (Inv_ring _ _ Hinv) as Hr.
  destruct r' as [|c [|y r2]]; [simpl in Hn'; lia|simpl in Hn'; lia|].
  destruct (ring_head _ _ _ Hr) as [Hnx Hpv]. simpl in Hnx.
  apply Forall2_cons_1 in Hv as [Hve Hv]. apply Forall2_cons_1 in Hv as [Hvc Hv].
  assert (exists a, last (y :: r2) = Some a /\ vtx h a va) as (a & Ela & Hva).
  { pose proof (Forall2_length _ _ _ Hv) as Hl2.
    rewrite last_lookup in Elast. rewrite last_lookup. rewrite Hl2.
    destruct (Forall2_lookup_r _ _ _ _ _ Hv Elast) as (a & Ea & Ha). by exists a. }
  change (c :: y :: r2) with (c :: (y :: r2)) in Hpv.
  rewrite (last_cons_cons) in Hpv. rewrite Ela in Hpv. simpl in Hpv.
  pose proof Hve as (ne & Ee & Hei & _). pose proof Hvc as (nc & Ec & Hci & _).
  destruct Hva as (na & Ea & Hai & _).
  unfold fieldf in Hnx, Hpv. rewrite Ee in Hnx, Hpv. simpl in Hnx, Hpv.
  assert (Hac : a <> c).
  { intros ->. destruct Hr as [Hnd _]. apply NoDup_cons in Hnd as [_ Hnd].
    apply NoDup_cons in Hnd as [Hc _]. apply Hc.
    apply last_Some in Ela as [l' ->]. set_solver. }
  apply total_S. cbn [earcutLinked_loop].
  eapply total_read; [exact (node_Some _ _ _ Ee)|].
  rewrite Hpv, Hnx.
  unfold same at 1. rewrite bool_decide_eq_false_2 by (intros [= ?]; done).
  cbn zeta.
  apply total_bind, total_rd. eapply rtotal_mono.
  { apply (Inv_test h e' (c :: y :: r2) (vb :: vc :: vrest) Hinv).
    - constructor; [done|]. constructor; [done|]. done.
    - simpl. lia.
    - exact Hok. }
  intros v ->. rewrite Hear.
  destruct (Inv_remove h (t ++ [jsdiv (n_i na) dim; jsdiv (n_i ne) dim; jsdiv (n_i nc) dim])
              e' (c :: y :: r2) Hinv) as (h1 & E1 & Hinv1 & D1); [done|].
  eapply total_step; [exact (pushTriangle_value h t a e' c na ne nc dim Ea Ee Ec)|].
  eapply total_step; [exact E1|].
  pose proof (Inv_ring _ _ Hinv1) as Hr1.
  destruct (ring_head _ _ _ Hr1) as [Hnx1 _]. simpl in Hnx1.
  eapply total_read; [exact (fld_next _ _ _ Hnx1)|].
  eapply total_mono.
  { apply (IHn (fun f => g (S f)) h1 _ y (r2 ++ [c]) (vrest ++ [vc]) tl).
    - intros f. specialize (Hg (S f)). lia.
    - apply (Inv_rot h1 c (y :: r2)). exact Hinv1.
    - change (y :: r2 ++ [c]) with ((y :: r2) ++ [c]). apply Forall2_app.
      + eapply Forall2_impl; [exact Hv|]. intros p v Hp.
        eapply vtx_dataf; [apply D1|exact Hp].
      + constructor; [|constructor]. eapply vtx_dataf; [apply D1|exact Hvc].
    - exact Etl. }
  intros u s' ->. rewrite <- app_assoc. simpl. by rewrite Hai, Hei, Hci.
Qed.

End ClipLoop.

(** ** [earcutLinked] without the z-order index *)

Lemma earcutLinked_clips dim minX minY invSize ok n h t e r vs tris :
  hashed invSize = false -> wf h -> ring h (e :: r) ->
  Forall2 (vtx h) (e :: r) vs -> ear_clipping ok n dim vs = Some tris ->
  total (fun f => earcutLinked f dim minX minY invSize (Some e) 0) (mkState h t)
        (fun _ s' => st_triangles s' = t ++ tris).
Proof.
  intros Hh Hwf Hr Hv Hclip. apply total_S. cbn [earcutLinked]. rewrite Hh.
  simpl andb. cbn match. eapply total_step; [reflexivity|].
  apply (fun H1 H2 H3 H4 =>
           clip_loop dim minX minY invSize
             (fun f p pass => earcutLinked f dim minX minY invSize p pass)
             (fun h r => wf h /\ ring h r) ok H1 H2 H3 H4
             0%nat n (fun f => f) h t e r vs tris); try done.
  - by intros h0 r0 [_ ?].
  - intros h0 a l [? Hr0]. split; [done|]. by apply ring_rotate.
  - intros h0 e0 r0 vs0 [_ Hr0] Hv0 H3 _. rewrite Hh.
    exists (S (length r0)), (ear_at vs0). split; [done|]. intros fuel Hf.
    apply (isEar_value h0 e0 r0 vs0 fuel Hr0 Hv0 H3). lia.
  - intros h0 t0 b l [Hwf0 Hr0] Hne.
    destruct (removeNode_ring h0 t0 b l (wf_zvalid h0 b Hwf0) Hr0 Hne)
      as (h' & E & Hr' & Hwf' & _ & _ & _ & _ & D).
    exists h'. split; [done|]. split; [|done]. split; [by apply Hwf'|done].
Qed.

(** ** The ear test with the z-order index *)

Lemma zsorted_app key l1 l2 :
  zsorted key (l1 ++ l2) <->
  zsorted key l1 /\ zsorted key l2 /\
  (forall x y, x ∈ l1 -> y ∈ l2 -> key x <= key y).
Proof.
  induction l1 as [|a l1 IH]; simpl.
  - split; [intros Hs; split; [done|]; split; [done|]; set_solver|tauto].
  - rewrite IH. split.
    + intros (Ha & H1 & H2 & H12). split; [split; [|done]|split; [done|]].
      * intros b Hb. apply Ha. set_solver.
      * intros x y Hx Hy. apply elem_of_cons in Hx as [->|Hx]; [|by apply H12].
        apply Ha. set_solver.
    + intros ((Ha & H1) & H2 & H12). split; [|split; [done|split; [done|]]].
      * intros b Hb. apply elem_of_app in Hb as [Hb|Hb]; [by apply Ha|].
        apply H12; set_solver.
      * intros x y Hx Hy. apply H12; set_solver.
Qed.

Lemma zsorted_rev key l :
  zsorted key l -> zsorted (fun x => - key x) (rev l).
Proof.
  induction l as [|a l IH]; [done|]. intros [Ha Hs]. simpl.
  apply zsorted_app. split; [by apply IH|]. split; [simpl; split; [set_solver|done]|].
  intros x y Hx Hy. apply list_elem_of_singleton in Hy as ->.
  apply list_elem_of_In, in_rev, list_elem_of_In in Hx. specialize (Ha x Hx). lia.
Qed.

(** The z-order range [isEarHashed] computes from the bounding box of the
    triangle [a], [b], [c]. *)
Definition ear_zrange (a b c : Node) (minX minY invSize : R) : Z * Z :=
  let minTX := if flt (n_x a) (n_x b)
               then (if flt (n_x a) (n_x c) then n_x a else n_x c)
               else (if flt (n_x b) (n_x c) then n_x b else n_x c) in
  let minTY := if flt (n_y a) (n_y b)
               then (if flt (n_y a) (n_y c) then n_y a else n_y c)
               else (if flt (n_y b) (n_y c) then n_y b else n_y c) in
  let maxTX := if fgt (n_x a) (n_x b)
               then (if fgt (n_x a) (n_x c) then n_x a else n_x c)
               else (if fgt (n_x b) (n_x c) then n_x b else n_x c) in
  let maxTY := if fgt (n_y a) (n_y b)
               then (if fgt (n_y a) (n_y c) then n_y a else n_y c)
               else (if fgt (n_y b) (n_y c) then n_y b else n_y c) in
  (zOrder minTX minTY minX minY invSize, zOrder maxTX maxTY minX minY invSize).

(** The vertices of [r] that rule out the ear at its first vertex have
    their z-order key in the range of the ear's triangle, so that the scan
    of [isEarHashed] meets them. *)
Definition in_zrange (minX minY invSize : R) (r : list Node) : bool :=
  match r, last r with
  | b :: c :: _, Some a =>
      fge (area a b c) (num 0) ||
      forallb (fun j =>
                 implb (blocks_at r a b c j)
                   (match r !! j with
                    | Some p =>
                        let z := zOrder (n_x p) (n_y p) minX minY invSize in
                        (fst (ear_zrange a b c minX minY invSize) <=? z) &&
                        (z <=? snd (ear_zrange a b c minX minY invSize))
                    | None => true
                    end))
              (seq 2 (length r - 3))
  | _, _ => true
  end.

(** [insideEar] on a node of the ring. *)
Lemma insideEar_value h l a b c e q ne pa pc :
  ring h l -> q ∈ l -> h !! e = Some ne ->
  n_prev ne = Some pa -> n_next ne = Some pc ->
  insideEar a b c (Some e) (Some q) h =
  Ret (negb (bool_decide (q = pa)) && negb (bool_decide (q = pc)) &&
       blocksEar h a b c q).
Proof.
  intros Hr Hq Ee Hpa Hpc.
  destruct (ring_neighbours _ _ _ Hr Hq) as (nq & pq & xq & Eq & Hpq & Hxq & Hpl & Hxl).
  assert (Vp : is_Some (h !! pq)) by (by eapply ring_valid).
  assert (Vx : is_Some (h !! xq)) by (by eapply ring_valid).
  destruct Vp as [np Ep], Vx as [nx Ex].
  unfold insideEar. rewrite (RD_bind_Ret _ _ _ _ (node_Some _ _ _ Ee)).
  rewrite Hpa, Hpc. unfold same.
  destruct (decide (q = pa)) as [->|Hqa].
  { rewrite !bool_decide_eq_true_2 by done. done. }
  rewrite (bool_decide_eq_false_2 (Some q = Some pa)) by (intros [= ?]; done).
  rewrite (bool_decide_eq_false_2 (q = pa)) by done.
  destruct (decide (q = pc)) as [->|Hqc].
  { rewrite !bool_decide_eq_true_2 by done. done. }
  rewrite (bool_decide_eq_false_2 (Some q = Some pc)) by (intros [= ?]; done).
  rewrite (bool_decide_eq_false_2 (q = pc)) by done.
  rewrite (RD_bind_Ret _ _ _ _ (node_Some _ _ _ Eq)).
  unfold blocksEar. rewrite Eq, Hpq, Hxq. simpl. rewrite Ep, Ex.
  destruct (pointInTriangle _ _ _ _ _ _ _ _); [|done].
  by rewrite (RD_bind_Ret _ _ _ _ (areaP_Some _ _ _ _ _ _ _ Ep Eq Ex)).
Qed.

Section HashedScan.
Variables (h : list Node) (l : list nat) (a b c : Node) (e : nat).
Hypothesis Hr : ring h l.
Hypothesis He : e ∈ l.

Notation ins x := (insideEar a b c (Some e) (Some x) h).

Lemma insideEar_bool x : x ∈ l -> exists v, ins x = Ret v.
Proof. intros Hx. by apply (insideEar_valid h l). Qed.

Lemma isEarHashed_down_value minZ D :
  (forall x, x ∈ D -> x ∈ l) -> zsorted (fun x => - zkey h x) D ->
  forall p, zwalk FprevZ h p D ->
  rtotal (fun f => isEarHashed_down f a b c (Some e) minZ p) h
    (fun d => if d then forall x, x ∈ D -> minZ <= zkey h x -> ins x = Ret false
              else exists x, x ∈ D /\ ins x = Ret true).
Proof.
  induction D as [|x D IH]; intros HD Hs p Hw; simpl in Hw.
  - subst p. apply rtotal_S. simpl. apply rtotal_ret. set_solver.
  - destruct Hw as [-> Hw]. destruct Hs as [Hx' Hs]. apply rtotal_S.
    cbn [isEarHashed_down].
    assert (Hx : x ∈ l) by (apply HD; set_solver).
    assert (Vx : is_Some (h !! x)) by (by eapply ring_valid).
    destruct Vx as [nx Ex].
    assert (Hk : zkey h x = zval nx) by (unfold zkey; by rewrite Ex).
    eapply rtotal_step; [exact (node_Some _ _ _ Ex)|].
    destruct (Z.leb_spec minZ (zval nx)) as [Hle|Hgt]; simpl negb; cbn match.
    2:{ apply rtotal_ret. intros y Hy Hmy. exfalso.
        apply elem_of_cons in Hy as [->|Hy]; [lia|]. specialize (Hx' y Hy). lia. }
    destruct (insideEar_bool x Hx) as [v Ev].
    eapply rtotal_step; [exact Ev|]. destruct v.
    { apply rtotal_ret. exists x. split; [set_solver|done]. }
    eapply rtotal_mono.
    { apply IH; [set_solver|done|]. unfold fieldf in Hw. by rewrite Ex in Hw. }
    intros [] Hd.
    + intros y Hy Hmy. apply elem_of_cons in Hy as [->|Hy]; [done|by apply Hd].
    + destruct Hd as (y & Hy & Hiy). exists y. split; [set_solver|done].
Qed.

Lemma isEarHashed_up_value maxZ U :
  (forall x, x ∈ U -> x ∈ l) -> zsorted (zkey h) U ->
  forall n, zwalk FnextZ h n U ->
  rtotal (fun f => isEarHashed_up f a b c (Some e) maxZ n) h
    (fun d => if d then forall x, x ∈ U -> zkey h x <= maxZ -> ins x = Ret false
              else exists x, x ∈ U /\ ins x = Ret true).
Proof.
  induction U as [|x U IH]; intros HU Hs n Hw; simpl in Hw.
  - subst n. apply rtotal_S. simpl. apply rtotal_ret. set_solver.
  - destruct Hw as [-> Hw]. destruct Hs as [Hx' Hs]. apply rtotal_S.
    cbn [isEarHashed_up].
    assert (Hx : x ∈ l) by (apply HU; set_solver).
    assert (Vx : is_Some (h !! x)) by (by eapply ring_valid).
    destruct Vx as [nx Ex].
    assert (Hk : zkey h x = zval nx) by (unfold zkey; by rewrite Ex).
    eapply rtotal_step; [exact (node_Some _ _ _ Ex)|].
    destruct (Z.leb_spec (zval nx) maxZ) as [Hle|Hgt]; simpl negb; cbn match.
    2:{ apply rtotal_ret. intros y Hy Hmy. exfalso.
        apply elem_of_cons in Hy as [->|Hy]; [lia|]. specialize (Hx' y Hy). lia. }
    destruct (insideEar_bool x Hx) as [v Ev].
    eapply rtotal_step; [exact Ev|]. destruct v.
    { apply rtotal_ret. exists x. split; [set_solver|done]. }
    eapply rtotal_mono.
    { apply IH; [set_solver|done|]. unfold fieldf in Hw. by rewrite Ex in Hw. }
    intros [] Hd.
    + intros y Hy Hmy. apply elem_of_cons in Hy as [->|Hy]; [done|by apply Hd].
    + destruct Hd as (y & Hy & Hiy). exists y. split; [set_solver|done].
Qed.

Lemma isEarHashed_both_value minZ maxZ D :
  forall U p n, (forall x, x ∈ D -> x ∈ l) -> (forall x, x ∈ U -> x ∈ l) ->
  zwalk FprevZ h p D -> zwalk FnextZ h n U ->
  rtotal (fun f => isEarHashed_both f a b c (Some e) minZ maxZ p n) h
    (fun r => match r with
              | None => exists x, x ∈ D ++ U /\ ins x = Ret true
              | Some (p', n') =>
                  exists D1 D' U1 U', D = D1 ++ D' /\ U = U1 ++ U' /\
                    zwalk FprevZ h p' D' /\ zwalk FnextZ h n' U' /\
                    forall x, x ∈ D1 ++ U1 -> ins x = Ret false
              end).
Proof.
  induction D as [|x D IH]; intros U p n HD HU Hp Hn.
  - simpl in Hp. subst p. apply rtotal_S. simpl. apply rtotal_ret.
    exists [], [], [], U. repeat split; try done. set_solver.
  - destruct U as [|y U].
    { simpl in Hn. subst n. destruct Hp as [-> Hp]. apply rtotal_S. simpl.
      apply rtotal_ret. exists [], (x :: D), [], []. repeat split; try done.
      set_solver. }
    pose proof Hp as Hp0. pose proof Hn as Hn0.
    destruct Hp as [-> Hp]. destruct Hn as [-> Hn].
    apply rtotal_S. cbn [isEarHashed_both].
    assert (Hx : x ∈ l) by (apply HD; set_solver).
    assert (Hy : y ∈ l) by (apply HU; set_solver).
    assert (Vx : is_Some (h !! x)) by (by eapply ring_valid).
    assert (Vy : is_Some (h !! y)) by (by eapply ring_valid).
    destruct Vx as [nx Ex], Vy as [ny Ey].
    eapply rtotal_step; [exact (node_Some _ _ _ Ex)|].
    destruct (negb _).
    { apply rtotal_ret. exists [], (x :: D), [], (y :: U). repeat split; try done.
      set_solver. }
    eapply rtotal_step; [exact (node_Some _ _ _ Ey)|].
    destruct (negb _).
    { apply rtotal_ret. exists [], (x :: D), [], (y :: U). repeat split; try done.
      set_solver. }
    destruct (insideEar_bool x Hx) as [v Ev].
    eapply rtotal_step; [exact Ev|]. destruct v.
    { apply rtotal_ret. exists x. split; [set_solver|done]. }
    cbn zeta.
    destruct (insideEar_bool y Hy) as [w Ew].
    eapply rtotal_step; [exact Ew|]. destruct w.
    { apply rtotal_ret. exists y. split; [set_solver|done]. }
    eapply rtotal_mono.
    { apply (IH U); [set_solver|set_solver| |].
      + unfold fieldf in Hp. by rewrite Ex in Hp.
      + unfold fieldf in Hn. by rewrite Ey in Hn. }
    intros [[p' n']|].
    + intros (D1 & D' & U1 & U' & -> & -> & HD' & HU' & Hfalse).
      exists (x :: D1), D', (y :: U1), U'. repeat split; try done.
      intros z Hz. apply elem_of_app in Hz as [Hz|Hz].
      * apply elem_of_cons in Hz as [->|Hz]; [done|]. apply Hfalse. set_solver.
      * apply elem_of_cons in Hz as [->|Hz]; [done|]. apply Hfalse. set_solver.
    + intros (z & Hz & Hiz). exists z. split; [set_solver|done].
Qed.

End HashedScan.

(** [isEarHashed] on the first node of a ring whose z-order chain is
    sorted: it is [ear_at], provided the vertices that rule out the ear
    have their keys in the range of the triangle. *)
Lemma isEarHashed_value h e r vs zl minX minY invSize :
  ring h (e :: r) -> Forall2 (vtx h) (e :: r) vs -> (3 <= length (e :: r))%nat ->
  zchain h zl -> zl ≡ₚ e :: r -> zsorted (zkey h) zl ->
  (forall p np, p ∈ e :: r -> h !! p = Some np ->
     n_z np = Some (zOrder (n_x np) (n_y np) minX minY invSize)) ->
  in_zrange minX minY invSize vs = true ->
  rtotal (fun f => isEarHashed f (Some e) minX minY invSize) h
         (fun v => v = ear_at vs).
Proof.
  intros Hr Hv H3 Hzc Hperm Hsorted Hzv Hrange.
  destruct r as [|c r2]; [simpl in H3; lia|].
  destruct r2 as [|a mid _] using rev_ind; [simpl in H3; lia|]. clear H3.
  set (l := e :: c :: mid ++ [a]) in *.
  destruct (ring_head _ _ _ Hr) as [Hnx Hpv].
  change (c :: mid ++ [a]) with ((c :: mid) ++ [a]) in Hpv.
  rewrite last_snoc in Hpv. simpl in Hnx, Hpv.
  assert (Ve : is_Some (h !! e)) by (eapply ring_valid; [exact Hr|set_solver]).
  assert (Vc : is_Some (h !! c)) by (eapply ring_valid; [exact Hr|set_solver]).
  assert (Va : is_Some (h !! a)) by (eapply ring_valid; [exact Hr|set_solver]).
  destruct Ve as [ne Ee], Vc as [nc Ec], Va as [na Ea].
  unfold fieldf in Hnx, Hpv. rewrite Ee in Hnx, Hpv. simpl in Hnx, Hpv.
  rewrite (ear_at_heap h e c mid a vs na ne nc Hr Hv Ea Ee Ec).
  assert (Hnd : NoDup l) by (by destruct Hr).
  assert (Hmid : forall x, x ∈ l -> x <> e -> x <> a -> x <> c -> x ∈ mid).
  { intros x Hx. subst l. set_solver. }
  assert (Hmid' : forall x, x ∈ mid -> x <> a /\ x <> c /\ x ∈ l).
  { intros x Hx. subst l. apply NoDup_cons in Hnd as [_ Hnd].
    apply NoDup_cons in Hnd as [Hc Hnd]. apply NoDup_app in Hnd as (_ & Hd & _).
    split; [|split; [|set_solver]].
    - intros ->. apply (Hd a Hx). set_solver.
    - intros ->. set_solver. }
  (* the chain around [e] *)
  assert (Hez : e ∈ zl) by (rewrite Hperm; set_solver).
  apply list_elem_of_split in Hez as (z1 & z2 & ->).
  destruct Hzc as [Hznd Hz].
  destruct (zlinks_mid _ _ _ _ _ Hz) as [Hp Hn].
  assert (HD : zwalk FprevZ h (n_prevZ ne) (rev z1)).
  { assert (Hw : zwalk FprevZ h (last z1) (rev z1))
      by (by apply (zlinks_walk_down h z1 (e :: z2))).
    unfold fieldf in Hp. rewrite Ee in Hp. simpl in Hp. rewrite Hp.
    by destruct (last z1). }
  assert (HU : zwalk FnextZ h (n_nextZ ne) z2).
  { unfold fieldf in Hn. rewrite Ee in Hn. simpl in Hn. rewrite Hn.
    apply zlinks_suffix in Hz. simpl in Hz. destruct Hz as (_ & _ & Hz).
    by eapply zlinks_walk_up. }
  apply zsorted_app in Hsorted as (Hs1 & Hs2 & _). destruct Hs2 as [_ Hs2].
  apply zsorted_rev in Hs1.
  assert (HDl : forall x, x ∈ rev z1 -> x ∈ l /\ x <> e).
  { intros x Hx. apply list_elem_of_In, in_rev, list_elem_of_In in Hx. split.
    - rewrite <- Hperm. set_solver.
    - intros ->. apply NoDup_app in Hznd as (_ & Hd & _). apply (Hd e Hx). set_solver. }
  assert (HUl : forall x, x ∈ z2 -> x ∈ l /\ x <> e).
  { intros x Hx. split.
    - rewrite <- Hperm. set_solver.
    - intros ->. apply NoDup_app in Hznd as (_ & _ & Hd).
      by apply NoDup_cons in Hd as [Hd _]. }
  assert (Hcover : forall x, x ∈ mid -> x ∈ rev z1 \/ x ∈ z2).
  { intros x Hx. destruct (Hmid' x Hx) as (_ & _ & Hxl).
    assert (Hxe : x <> e).
    { intros ->. subst l. apply NoDup_cons in Hnd as [He _]. set_solver. }
    rewrite <- Hperm in Hxl. apply elem_of_app in Hxl as [Hxl|Hxl].
    - left. apply list_elem_of_In. apply (proj1 (in_rev z1 x)).
      by apply list_elem_of_In.
    - right. set_solver. }
  (* what a hit of the scan means *)
  assert (Hl : e ∈ l) by (subst l; set_solver).
  assert (Hins : forall x, x ∈ l ->
            insideEar na ne nc (Some e) (Some x) h =
            Ret (negb (bool_decide (x = a)) && negb (bool_decide (x = c)) &&
                 blocksEar h na ne nc x)).
  { intros x Hx. by apply (insideEar_value h l na ne nc e x ne a c). }
  assert (Hhit : forall x, x ∈ l -> x <> e ->
            insideEar na ne nc (Some e) (Some x) h = Ret true ->
            forallb (fun p => negb (blocksEar h na ne nc p)) mid = false).
  { intros x Hx Hxe Hi. rewrite (Hins x Hx) in Hi. injection Hi as Hi.
    apply andb_true_iff in Hi as [Hi Hb]. apply andb_true_iff in Hi as [Hxa Hxc].
    apply negb_true_iff, bool_decide_eq_false in Hxa, Hxc.
    apply not_true_iff_false. intros Hall.
    rewrite forallb_forall in Hall.
    specialize (Hall x (proj1 (list_elem_of_In _ _) (Hmid x Hx Hxe Hxa Hxc))).
    by rewrite Hb in Hall. }
  (* the vertices in range *)
  destruct (ring_corners h e c mid a vs na ne nc Hv Ea Ee Ec)
    as (ve & vc & vs' & va & Evs & Hlast & Hlen & Hax & Hay & Hex & Hey & Hcx & Hcy).
  assert (Hzr : ear_zrange va ve vc minX minY invSize =
                ear_zrange na ne nc minX minY invSize).
  { unfold ear_zrange. by rewrite Hax, Hay, Hex, Hey, Hcx, Hcy. }
  assert (Hin : fge (area na ne nc) (num 0) = false ->
            forall x, x ∈ mid -> blocksEar h na ne nc x = true ->
            fst (ear_zrange na ne nc minX minY invSize) <= zkey h x <=
            snd (ear_zrange na ne nc minX minY invSize)).
  { intros Harea x Hx Hb. apply list_elem_of_lookup in Hx as [j Hj].
    destruct (blocks_heap h e c mid a vs na ne nc va ve vc j x Hr Hv
                Hax Hay Hex Hey Hcx Hcy Hj) as (nx & vx & Ex & Evx & Hxx & Hxy & Hbx).
    unfold in_zrange in Hrange. rewrite Evs in Hrange, Hlast. rewrite Hlast in Hrange.
    rewrite <- Evs in Hrange.
    rewrite <- (area_coords na ne nc va ve vc) in Hrange by done.
    rewrite Harea in Hrange. simpl in Hrange. rewrite forallb_forall in Hrange.
    specialize (Hrange (2 + j)%nat). rewrite <- Hbx, Hb, Evx in Hrange. simpl in Hrange.
    assert (Hjr : In (S (S j)) (seq 2 (length vs - 3))).
    { apply in_seq. apply lookup_lt_Some in Hj. rewrite Evs. simpl. lia. }
    specialize (Hrange Hjr). apply andb_true_iff in Hrange as [H1 H2].
    apply Z.leb_le in H1, H2.
    assert (Hk : zkey h x = zOrder (n_x vx) (n_y vx) minX minY invSize).
    { unfold zkey. rewrite Ex. simpl. unfold zval.
      rewrite (Hzv x nx) by (destruct (Hmid' x (list_elem_of_lookup_2 _ _ _ Hj))
                               as (_ & _ & ?); done).
      simpl. by rewrite Hxx, Hxy. }
    rewrite Hk, <- Hzr. unfold ear_zrange. simpl fst. simpl snd. lia. }
  unfold isEarHashed.
  eapply rtotal_step; [exact (node_Some _ _ _ Ee)|]. rewrite Hpv, Hnx.
  eapply rtotal_step; [exact (node_Some _ _ _ Ea)|].
  eapply rtotal_step; [exact (node_Some _ _ _ Ec)|]. cbn zeta.
  destruct (fge (area na ne nc) (num 0)) eqn:Harea; [by apply rtotal_ret|].
  specialize (Hin eq_refl). unfold ear_zrange in Hin. simpl fst in Hin. simpl snd in Hin.
  simpl negb. cbn [andb].
  apply rtotal_bind. eapply rtotal_mono.
  { apply (isEarHashed_both_value h l na ne nc e Hr Hl _ _ (rev z1) z2);
      [intros x Hx; by apply HDl|intros x Hx; by apply HUl|exact HD|exact HU]. }
  intros [[p' n']|].
  2:{ intros (x & Hx & Hi). apply rtotal_ret. symmetry.
      apply elem_of_app in Hx as [Hx|Hx].
      - destruct (HDl x Hx). by apply (Hhit x).
      - destruct (HUl x Hx). by apply (Hhit x). }
  intros (D1 & D' & U1 & U' & ED & EU & HD' & HU' & Hfalse).
  rewrite ED in Hs1. apply zsorted_app in Hs1 as (_ & Hs1 & _).
  rewrite EU in Hs2. apply zsorted_app in Hs2 as (_ & Hs2 & _).
  apply rtotal_bind. eapply rtotal_mono.
  { apply (isEarHashed_down_value h l na ne nc e Hr Hl _ D'); [|exact Hs1|exact HD'].
    intros x Hx. apply HDl. rewrite ED. set_solver. }
  intros [] Hd.
  2:{ destruct Hd as (x & Hx & Hi). apply rtotal_ret. symmetry.
      assert (Hx' : x ∈ rev z1) by (rewrite ED; set_solver).
      destruct (HDl x Hx'). by apply (Hhit x). }
  eapply rtotal_mono.
  { apply (isEarHashed_up_value h l na ne nc e Hr Hl _ U'); [|exact Hs2|exact HU'].
    intros x Hx. apply HUl. rewrite EU. set_solver. }
  intros [] Hu.
  2:{ destruct Hu as (x & Hx & Hi). symmetry.
      assert (Hx' : x ∈ z2) by (rewrite EU; set_solver).
      destruct (HUl x Hx'). by apply (Hhit x). }
  symmetry. apply forallb_forall. intros x Hx. apply list_elem_of_In in Hx.
  destruct (blocksEar h na ne nc x) eqn:Hb; [exfalso|done].
  destruct (Hmid' x Hx) as (Hxa & Hxc & Hxl).
  assert (Hi : insideEar na ne nc (Some e) (Some x) h = Ret true).
  { rewrite (Hins x Hxl), Hb.
    by rewrite !bool_decide_eq_false_2 by done. }
  specialize (Hin x Hx Hb).
  assert (Hno : insideEar na ne nc (Some e) (Some x) h = Ret false).
  { destruct (Hcover x Hx) as [HxD|HxU].
    - rewrite ED in HxD. apply elem_of_app in HxD as [HxD|HxD].
      + apply Hfalse. set_solver.
      + apply Hd; [done|]. lia.
    - rewrite EU in HxU. apply elem_of_app in HxU as [HxU|HxU].
      + apply Hfalse. set_solver.
      + apply Hu; [done|]. lia. }
  congruence.
Qed.

(** ** [earcutLinked] with the z-order index *)

(** What [isEarHashed] needs of a ring: a sorted z-order chain through its
    nodes, whose keys are the z-order values of the coordinates. *)
Definition indexed_ring (minX minY invSize : R) h (r : list nat) : Prop :=
  wf h /\ ring h r /\
  (exists zl, zl ≡ₚ r /\ zchain h zl /\ zsorted (zkey h) zl) /\
  (forall p np, p ∈ r -> h !! p = Some np ->
     n_z np = Some (zOrder (n_x np) (n_y np) minX minY invSize)).

Lemma indexed_ring_remove minX minY invSize h t b l :
  indexed_ring minX minY invSize h (b :: l) -> l <> [] ->
  exists h', removeNode (Some b) (mkState h t) = Ret (tt, mkState h' t) /\
             indexed_ring minX minY invSize h' l /\
             forall x, dataf h' x = dataf h x.
Proof.
  intros (Hwf & Hr & (zl & Hperm & Hzc & Hs) & Hzv) Hne.
  assert (Hb : b ∈ zl) by (rewrite Hperm; set_solver).
  apply list_elem_of_split in Hb as (z1 & z2 & ->).
  destruct (removeNode_chain h t b l z1 z2 Hwf Hr Hne Hzc)
    as (h' & E & Hwf' & Hr' & Hzc' & _ & D).
  exists h'. split; [done|]. split; [|done].
  split; [done|]. split; [done|]. split.
  - exists (z1 ++ z2). split; [|split; [done|]].
    + apply (Permutation_cons_inv (a := b)). rewrite <- Hperm.
      by rewrite Permutation_middle.
    + apply (zsorted_ext (zkey h)); [intros y _; symmetry; apply zkey_dataf, D|].
      apply zsorted_app in Hs as (H1 & [_ H2] & H12).
      apply zsorted_app. split; [done|]. split; [done|].
      intros x y Hx Hy. apply H12; set_solver.
  - intros p np' Hp Ep'. specialize (D p). unfold dataf in D. rewrite Ep' in D.
    destruct (h !! p) as [np|] eqn:Ep; [|done]. simpl in D. unfold payload in D.
    injection D as _ Dx Dy Dz _. rewrite Dx, Dy, Dz.
    apply (Hzv p np); [set_solver|done].
Qed.

Lemma earcutLinked_clips_hashed dim minX minY invSize n h t e r vs tris :
  hashed invSize = true -> wf h -> ring h (e :: r) ->
  (forall p np, p ∈ e :: r -> h !! p = Some np -> n_z np = None) ->
  Forall2 (vtx h) (e :: r) vs ->
  ear_clipping (in_zrange (val minX) (val minY) (val invSize)) n dim vs = Some tris ->
  total (fun f => earcutLinked f dim minX minY invSize (Some e) 0) (mkState h t)
        (fun _ s' => st_triangles s' = t ++ tris).
Proof.
  intros Hh Hwf Hr Hnz Hv Hclip. apply total_S. cbn [earcutLinked]. rewrite Hh.
  simpl andb. cbn match.
  destruct (indexCurve_sorted t h (e :: r) e (val minX) (val minY) (val invSize) Hwf Hr)
    as (N & h' & zl & Hrun & Hwf' & Hr' & Hzc & Hperm & Hs & D); [set_solver|].
  apply total_bind. exists N, tt, (mkState h' t). split; [|exact Hrun].
  cbn beta.
  assert (Hd : forall x n', h' !! x = Some n' ->
            exists n0, h !! x = Some n0 /\ n_i n' = n_i n0 /\ n_x n' = n_x n0 /\
                       n_y n' = n_y n0 /\
                       (x ∈ e :: r -> n_z n0 = None ->
                        n_z n' = Some (zOrder (n_x n0) (n_y n0) (val minX) (val minY)
                                              (val invSize)))).
  { intros x n' En'. specialize (D x). unfold dataf in D. rewrite En' in D.
    destruct (h !! x) as [n0|] eqn:En0; [|by case_decide].
    exists n0. split; [done|]. simpl in D. unfold payload in D.
    case_decide as Hx.
    - unfold zfill in D. destruct (n_z n0) eqn:Ez; injection D as -> -> -> Dz _;
        repeat split; done.
    - injection D as -> -> -> _ _. repeat split; done. }
  assert (Hv' : Forall2 (vtx h') (e :: r) vs).
  { apply Forall2_same_length_lookup. split; [by eapply Forall2_length|].
    intros j p v Hp Hvj.
    destruct (vtx_at h (e :: r) vs j p Hv Hp) as (np & v' & Ep & Ev' & Hi & Hx & Hy).
    simplify_eq.
    assert (Vp : is_Some (h' !! p)).
    { eapply ring_valid; [exact Hr'|]. by eapply list_elem_of_lookup_2. }
    destruct Vp as [n' En']. destruct (Hd p n' En') as (n0 & E0 & Hi' & Hx' & Hy' & _).
    simplify_eq. exists n'. split; [done|]. by rewrite Hi', Hx', Hy'. }
  set (Inv := indexed_ring (val minX) (val minY) (val invSize)).
  assert (HA : forall h0 r0, Inv h0 r0 -> ring h0 r0) by (by intros h0 r0 (_ & ? & _)).
  assert (HB : forall h0 a l, Inv h0 (a :: l) -> Inv h0 (l ++ [a])).
  { intros h0 a l (Hwf0 & Hr0 & (zl0 & Hp0 & Hz0) & Hzv0).
    split; [done|]. split; [by apply ring_rotate|]. split.
    + exists zl0. split; [|done]. rewrite Hp0.
      exact (Permutation_app_comm [a] l).
    + intros p np Hp. apply Hzv0. set_solver. }
  assert (HC : forall h0 e0 r0 vs0, Inv h0 (e0 :: r0) ->
            Forall2 (vtx h0) (e0 :: r0) vs0 -> (3 <= length (e0 :: r0))%nat ->
            in_zrange (val minX) (val minY) (val invSize) vs0 = true ->
            rtotal (fun f => if hashed invSize
                             then isEarHashed f (Some e0) (val minX) (val minY)
                                              (val invSize)
                             else isEar f (Some e0)) h0 (fun v => v = ear_at vs0)).
  { intros h0 e0 r0 vs0 (Hwf0 & Hr0 & (zl0 & Hp0 & Hz0 & Hs0) & Hzv0) Hv0 H3 Hok.
    rewrite Hh. by apply (isEarHashed_value h0 e0 r0 vs0 zl0). }
  assert (HD : forall h0 t0 b l, Inv h0 (b :: l) -> l <> [] ->
            exists h1, removeNode (Some b) (mkState h0 t0) = Ret (tt, mkState h1 t0) /\
                       Inv h1 l /\ forall x, dataf h1 x = dataf h0 x).
  { intros h0 t0 b l Hinv Hne.
    by apply (indexed_ring_remove (val minX) (val minY) (val invSize)). }
  apply (clip_loop dim minX minY invSize
           (fun f p pass => earcutLinked f dim minX minY invSize p pass)
           Inv (in_zrange (val minX) (val minY) (val invSize)) HA HB HC HD
           0%nat n (fun f => f) h' t e r vs tris); try done.
  split; [done|]. split; [done|]. split; [by exists zl|].
  intros p np' Hp Ep'. destruct (Hd p np' Ep') as (n0 & E0 & _ & Hx' & Hy' & Hz').
  rewrite Hx', Hy'. apply Hz'; [done|]. by apply (Hnz p).
Qed.

(** ** [earcut] without holes *)

Lemma earcut_bbox_mono positions outerLen dim f f' :
  (f <= f')%nat -> forall i a b c d box,
  earcut_bbox f positions i outerLen dim a b c d = Ret box ->
  earcut_bbox f' positions i outerLen dim a b c d = Ret box.
Proof.
  revert f'. induction f as [|f IH]; intros f' Hf i a b c d box; [done|].
  destruct f' as [|f']; [lia|]. simpl. destruct (i <? outerLen); [|done].
  apply IH. lia.
Qed.

Lemma earcut_invSize_mono positions outerLen dim f f' v :
  (f <= f')%nat -> earcut_invSize f positions outerLen dim = Ret v ->
  earcut_invSize f' positions outerLen dim = Ret v.
Proof.
  intros Hf. unfold earcut_invSize. destruct (80 * dim <? _); [|done].
  destruct (earcut_bbox f _ _ _ _ _ _ _ _) as [box| |] eqn:E; try done.
  by rewrite (earcut_bbox_mono _ _ _ f f' Hf _ _ _ _ _ _ E).
Qed.

(** The check [ear_clipping] makes for the ear test that [earcutLinked]
    uses: none for [isEar], [in_zrange] for [isEarHashed]. *)
Definition zcheck (minX minY invSize : option R) : list Node -> bool :=
  if hashed invSize then in_zrange (val minX) (val minY) (val invSize)
  else fun _ => true.

(** The vertices of the outer ring as [linkedList] links them, from the node
    it returns: in input order or reversed, by the sign of the area, and
    without the last inserted vertex when it repeats the first. *)
Definition outer_ring (data : list R) (dim : Z) (n : nat) (area_ : option R)
    : list Node :=
  let end_ := 0 + Z.of_nat n * dim in
  let idxs := span_idxs 0 end_ dim n
                (Bool.eqb true (flt (span_area data 0 end_ dim area_) (num 0))) in
  let vs := vertex data <$> idxs in
  if span_dup data idxs then take (n - 1) vs
  else match last vs with
       | Some v => v :: take (n - 1) vs
       | None => []
       end.

(** The last inserted vertex has the coordinates of the first one. *)
Definition closing_duplicate (data : list R) (dim : Z) (n : nat) (area_ : option R)
    : bool :=
  let end_ := 0 + Z.of_nat n * dim in
  span_dup data (span_idxs 0 end_ dim n
                   (Bool.eqb true (flt (span_area data 0 end_ dim area_) (num 0)))).

Lemma outer_ring_length data dim n area_ :
  length (outer_ring data dim n area_) =
  if closing_duplicate data dim n area_ then (n - 1)%nat else n.
Proof.
  unfold outer_ring, closing_duplicate. cbn zeta.
  set (idxs := span_idxs _ _ _ _ _).
  assert (Hl : length (vertex data <$> idxs) = n).
  { rewrite length_fmap. apply span_idxs_length. }
  destruct (span_dup data idxs).
  - rewrite length_take. lia.
  - destruct (last (vertex data <$> idxs)) as [v|] eqn:E.
    + simpl. rewrite length_take.
      destruct n; [by destruct (vertex data <$> idxs)|lia].
    + apply last_None in E. rewrite E in Hl. by rewrite <- Hl.
Qed.

Lemma earcut_clips positions holeIndices dim areas n f0 minX minY invSize tris :
  0 < dim -> Z.of_nat (length positions) = Z.of_nat n * dim ->
  hasHoles holeIndices = false ->
  earcut_invSize f0 positions (Z.of_nat (length positions)) dim =
    Ret (minX, minY, invSize) ->
  ear_clipping (zcheck minX minY invSize) n dim
               (outer_ring positions dim n (areas ≫= (.!! 0%nat))) = Some tris ->
  exists N, forall fuel, (N <= fuel)%nat ->
    earcut fuel positions holeIndices dim areas = Ret tris.
Proof.
  intros Hdim Hlen Hholes Hinv Hclip. rewrite Hlen in Hinv.
  assert (Hout : outerLen positions holeIndices dim = 0 + Z.of_nat n * dim).
  { unfold outerLen. destruct holeIndices as [[|]|]; simpl in *; try done; lia. }
  assert (Hrun : total (fun f => earcut_run f positions holeIndices dim areas)
                       (mkState [] []) (fun _ s' => st_triangles s' = tris)).
  { unfold earcut_run. rewrite Hout, Hholes. cbn zeta.
    set (ar := areas ≫= (.!! 0%nat)) in *.
    apply total_bind.
    destruct (linkedList_core positions 0 (0 + Z.of_nat n * dim) dim true ar [] [] (S n) n
                Hdim eq_refl (le_n _)) as (h' & E & L & Hr & Hd & _).
    assert (Hwf : wf h').
    { assert (Hwf0 : wf (@nil Node)) by (intros p np Hp; by rewrite lookup_nil in Hp).
      exact (linkedList_wf positions 0 _ dim true ar [] [] (S n) n _ (mkState h' [])
               Hdim eq_refl (le_n _) Hwf0 E). }
    exists (S n). eexists. exists (mkState h' []). split.
    2:{ intros fuel Hf. eapply linkedList_mono; [exact Hf|exact E]. }
    unfold outer_ring in Hclip.
    set (idxs := span_idxs 0 (0 + Z.of_nat n * dim) dim n
                   (Bool.eqb true (flt (span_area positions 0 (0 + Z.of_nat n * dim)
                                           dim ar) (num 0)))) in *.
    set (dup := span_dup positions idxs) in *.
    set (vs := vertex positions <$> idxs) in *.
    assert (Hil : length idxs = n) by apply span_idxs_length.
    assert (Hvl : length vs = n) by (subst vs; by rewrite length_fmap).
    assert (Hall : Forall2 (vtx h') (seq 0 n) vs).
    { apply Forall2_same_length_lookup_2; [by rewrite length_seq|].
      intros j p v Hp Hv. apply lookup_seq in Hp as [-> Hj]. simpl.
      subst vs. rewrite list_lookup_fmap in Hv.
      destruct (idxs !! j) as [i|] eqn:Ei; [|done]. injection Hv as <-.
      specialize (Hd j i Ei). simpl in Hd. unfold dataf in Hd.
      destruct (h' !! j) as [nj|] eqn:Ej; [|done]. simpl in Hd. unfold payload in Hd.
      exists nj. split; [done|]. by simplify_eq. }
    destruct n as [|k].
    { (* no vertex *)
      eapply total_read; [reflexivity|]. apply total_ret. simpl.
      rewrite ear_clipping_short in Hclip; [by injection Hclip|].
      apply nil_length_inv in Hvl. rewrite Hvl. destruct dup; simpl; lia. }
    specialize (Hr ltac:(done)). simpl length in *. simpl Nat.add in *.
    replace (S k - 1)%nat with k in * by lia.
    (* the ring, from the node [linkedList] returns *)
    assert (Hring : exists e r,
              (if dup then 0 else k)%nat = e /\ ring h' (e :: r) /\
              Forall2 (vtx h') (e :: r)
                (if dup then take k vs
                 else match last vs with Some v => v :: take k vs | None => [] end) \/
              (if dup then 0 else k)%nat = e /\ ring h' [e] /\ k = 0%nat).
    { destruct dup.
      - destruct k as [|k].
        + exists 0%nat, []. right. done.
        + exists 0%nat, (seq 1 k). left. split; [done|]. simpl in Hr. split; [done|].
          rewrite (seq_S (S k)) in Hall. simpl Nat.add in Hall.
          rewrite <- (take_drop (S k) vs) in Hall.
          apply Forall2_app_inv in Hall as [Hall _]; [done|].
          rewrite length_seq, length_take. lia.
      - replace (true && (1 <? S k)%nat) with (1 <? S k)%nat in Hr by done.
        simpl andb in Hr. cbn match in Hr.
        rewrite seq_S in Hr, Hall. simpl Nat.add in Hr, Hall.
        exists k, (seq 0 k). left. split; [done|].
        split; [by apply ring_rotate_back|].
        rewrite <- (take_drop k vs) in Hall.
        apply Forall2_app_inv in Hall as [Hall1 Hall2];
          [|rewrite length_seq, length_take; lia].
        destruct (last vs) as [v|] eqn:Elast.
        2:{ apply last_None in Elast. rewrite Elast in Hvl. done. }
        constructor; [|exact Hall1].
        rewrite last_lookup, Hvl in Elast. simpl in Elast.
        apply Forall2_cons_inv_l in Hall2 as (v' & tl & Hv' & _ & Edrop).
        assert (Ev' : drop k vs !! 0%nat = Some v') by (by rewrite Edrop).
        rewrite lookup_drop, Nat.add_0_r in Ev'. by simplify_eq. }
    destruct Hring as (e & r & [(Ep & Hre & Hve)|(Ep & Hre & ->)]).
    all: rewrite Ep.
    all: assert (Ve : is_Some (h' !! e)) by (eapply ring_valid; [exact Hre|set_solver]).
    all: destruct Ve as [ne Ee].
    all: destruct (ring_head _ _ _ Hre) as [Hnx Hpv].
    all: unfold fieldf in Hnx, Hpv; rewrite Ee in Hnx, Hpv; simpl in Hnx, Hpv.
    all: eapply total_read;
           [rewrite (RD_bind_Ret _ _ _ _ (node_Some _ _ _ Ee)); reflexivity|].
    2:{ rewrite Hnx, Hpv. unfold same. rewrite bool_decide_eq_true_2 by done.
        apply total_ret. simpl. rewrite ear_clipping_short in Hclip; [by injection Hclip|].
        destruct dup; [rewrite length_take; lia|].
        destruct (last vs); simpl; rewrite ?length_take; lia. }
    pose proof (Forall2_length _ _ _ Hve) as Hlv.
    destruct (same (n_next ne) (n_prev ne)) eqn:Esame.
    { (* one or two nodes *)
      apply total_ret. simpl.
      rewrite ear_clipping_short in Hclip; [by injection Hclip|].
      rewrite <- Hlv. unfold same in Esame. apply bool_decide_eq_true in Esame.
      rewrite Hnx, Hpv in Esame.
      destruct r as [|c r2]; [simpl; lia|].
      destruct r2 as [|a mid _] using rev_ind; [simpl; lia|].
      change (c :: mid ++ [a]) with ((c :: mid) ++ [a]) in Esame.
      rewrite last_snoc in Esame. simpl in Esame. injection Esame as ->.
      destruct Hre as [Hnd _]. apply NoDup_cons in Hnd as [_ Hnd].
      apply NoDup_cons in Hnd as [Hc _]. set_solver. }
    eapply total_step; [reflexivity|]. cbn beta.
    assert (Hengine : total (fun f => earcutLinked f dim minX minY invSize (Some e) 0)
                            (mkState h' []) (fun _ s' => st_triangles s' = [] ++ tris)).
    { unfold zcheck in Hclip. destruct (hashed invSize) eqn:Eh.
      - eapply (earcutLinked_clips_hashed dim minX minY invSize (S k) h' [] e r);
          [done|done|done| |exact Hve|exact Hclip].
        intros p np Hp Ep'.
        assert (Hpl : (p < S k)%nat).
        { apply lookup_lt_Some in Ep'. lia. }
        assert (Hi : is_Some (idxs !! p)) by (apply lookup_lt_is_Some; lia).
        destruct Hi as [i Hi]. specialize (Hd p i Hi). unfold dataf in Hd.
        rewrite Ep' in Hd. simpl in Hd. unfold payload in Hd. by simplify_eq.
      - eapply (earcutLinked_clips dim minX minY invSize _ (S k) h' [] e r);
          [done|done|done|exact Hve|exact Hclip]. }
    destruct Hengine as (N & u & s' & Hq & Hrun').
    exists (N `max` f0)%nat, u, s'. split; [done|]. intros fuel Hf.
    unfold mbind, ST_bind, rd. cbn [st_heap].
    rewrite Z.add_0_l.
    rewrite (earcut_invSize_mono _ _ _ f0 fuel _ ltac:(lia) Hinv).
    apply Hrun'. lia. }
  destruct Hrun as (N & u & s' & Hb & Hrun). exists N.
  intros fuel Hf. unfold earcut. by rewrite (Hrun fuel Hf), Hb.
Qed.

End Earcut.

(** * Concrete runs *)

(** The square of the spec's first concrete case. *)
Definition square : list jsval := pt [0;0; 10;0; 10;10; 0;10].

Lemma earcut_length_multiple_of_3_witness :
  earcut 100 square None 2 None = Ret [2; 3; 0; 0; 1; 2]%Q /\
  (Nat.divide 3 (length [2; 3; 0; 0; 1; 2]%Q) /\
   exists offsets : list Z, [2; 3; 0; 0; 1; 2]%Q = map (fun i => jsdiv i 2) offsets).
Proof.
  split; [vm_compute; reflexivity|].
  apply (earcut_length_multiple_of_3 100 square None 2 None).
  vm_compute; reflexivity.
Defined.

Lemma earcut_indices_in_range_witness :
  Forall (fun q => exists k : Z, q = inject_Z k /\ 0 <= k < 4) [2; 3; 0; 0; 1; 2]%Q.
Proof.
  apply (earcut_indices_in_range 100 square None 2 None 4).
  - lia.
  - reflexivity.
  - constructor.
  - vm_compute; reflexivity.
Defined.

Definition square_with_hole : list jsval :=
  pt [0;0; 10;0; 10;10; 0;10;  2;2; 8;2; 8;8; 2;8].

Lemma earcut_areas_supplied_witness :
  earcut 100 square_with_hole (Some [4]) 2
         (Some [JNum (-100)%float; JNum (-36)%float]) =
  earcut 100 square_with_hole (Some [4]) 2 None.
Proof.
  apply (earcut_areas_supplied 100 square_with_hole (Some [4]) 2).
  - vm_compute; reflexivity.
  - intros [|[|j]] hj; simpl; intros [= <-]. vm_compute; reflexivity.
Defined.

Lemma earcut_degenerate_witness :
  earcut 100 (pt [0;0; 10;0]) None 2 None = Ret [].
Proof.
  eapply (earcut_degenerate 100 (pt [0;0; 10;0]) None 2 None).
  - vm_compute; reflexivity.
  - right. eexists. split; vm_compute; reflexivity.
Defined.

(** The ring of the quadrilateral (0,0), (10,0), (10,10), (5,5): the last
    vertex lies on the diagonal from (10,10) to (0,0). *)
Definition quad_heap : list (Node (R := jsval)) :=
  match linkedList 10 (pt [0;0; 10;0; 10;10; 5;5]) 0 8 2 true None (mkState [] []) with
  | Ret (_, s) => st_heap s
  | _ => []
  end.

Definition quad_node (k : nat) : Node (R := jsval) :=
  default (newNode 0 undef undef) (quad_heap !! k).

Lemma quad_ring : ring quad_heap [0; 1; 2; 3]%nat.
Proof.
  split; [|vm_compute; repeat split].
  repeat (apply NoDup_cons; split; [set_solver|]). apply NoDup_nil_2.
Qed.

(** At the vertex (10,0) the turn is convex and no vertex is strictly inside
    the triangle, yet [isEar] returns [false]: (5,5) lies on the triangle's
    boundary and the turn there is collinear. *)
Lemma isEar_counterexample :
  ring quad_heap [0; 1; 2; 3]%nat /\
  isEar 10 (Some 1%nat) quad_heap = Ret false /\
  spec_isEar quad_heap (quad_node 0) (quad_node 1) (quad_node 2) [3%nat] = true.
Proof.
  split; [exact quad_ring|]. split; vm_compute; reflexivity.
Qed.

Lemma isEar_spec_witness :
  isEar 10 (Some 1%nat) quad_heap =
  Ret (negb (fge (area (quad_node 0) (quad_node 1) (quad_node 2)) (num 0)) &&
       forallb (fun p => negb (blocksEar quad_heap (quad_node 0) (quad_node 1)
                                         (quad_node 2) p)) [3%nat]).
Proof.
  apply (isEar_spec quad_heap 0 1 2 [3%nat]).
  - exact quad_ring.
  - vm_compute; reflexivity.
  - vm_compute; reflexivity.
  - vm_compute; reflexivity.
  - simpl; lia.
Defined.

Lemma linkedList_spec_witness :
  exists h',
    linkedList 10 square 0 8 2 true None (mkState [] []) =
      Ret (Some 3%nat, mkState h' []) /\
    (4%nat <> O -> ring h' [0; 1; 2; 3]%nat) /\
    (forall j i, [0; 2; 4; 6] !! j = Some i ->
       dataf h' (0 + j) = Some (i, get square i, get square (i + 1), None, false)) /\
    (forall q, (q < 0)%nat -> h' !! q = (@nil (Node (R := jsval))) !! q).
Proof.
  exact (linkedList_spec square 0 8 2 true None [] [] 10 4
           ltac:(lia) ltac:(right; reflexivity) ltac:(lia)).
Defined.

(** The span (0,0), (0,0), (10,0), (10,10): the first two vertices coincide
    and stay consecutive nodes of the ring. *)
Lemma linkedList_counterexample :
  exists h,
    linkedList 10 (pt [0;0; 0;0; 10;0; 10;10]) 0 8 2 true None (mkState [] []) =
      Ret (Some 3%nat, mkState h []) /\
    ring h [0; 1; 2; 3]%nat /\
    fieldf Fnext h 0%nat = Some 1%nat /\
    equalsP (Some 0%nat) (Some 1%nat) h = Ret true.
Proof.
  eexists. split; [vm_compute; reflexivity|]. split.
  - split; [|vm_compute; repeat split].
    repeat (apply NoDup_cons; split; [set_solver|]). apply NoDup_nil_2.
  - split; vm_compute; reflexivity.
Qed.

Lemma linkedList_keeps_inner_duplicates_witness :
  exists h' ret,
    linkedList 10 (pt [0;0; 0;0; 10;0; 10;10]) 0 8 2 true None (mkState [] []) =
      Ret (Some ret, mkState h' []) /\
    ring h' [0; 1; 2; 3]%nat /\
    forall j i i', [0; 2; 4; 6] !! j = Some i -> [0; 2; 4; 6] !! S j = Some i' ->
      (S j < 4)%nat ->
      exists nj nj',
        h' !! (0 + j)%nat = Some nj /\ h' !! (0 + S j)%nat = Some nj' /\
        n_next nj = Some (0 + S j)%nat /\
        equals nj nj' = coincide (pt [0;0; 0;0; 10;0; 10;10]) i i'.
Proof.
  exact (linkedList_keeps_inner_duplicates (pt [0;0; 0;0; 10;0; 10;10]) 0 8 2 true None
           [] [] 10 3 ltac:(lia) ltac:(reflexivity) ltac:(lia)).
Defined.

(** [earcutLinked] on the ring of the quadrilateral, started at (10,0) in
    pass 0 with the z-order index in use. *)
Lemma earcutLinked_terminates_witness :
  exists N s',
    (forall fuel, (N <= fuel)%nat ->
       earcutLinked fuel 2 (Some (num 0)) (Some (num 0)) (Some (num 1))
                    (Some 1%nat) 0 (mkState quad_heap []) = Ret (tt, s')) /\
    wf (st_heap s') /\ frame [0; 1; 2; 3]%nat quad_heap (st_heap s') /\
    (length (st_triangles s') <=
     length (@nil Q) + 3 * (length [0; 1; 2; 3]%nat - 2))%nat.
Proof.
  apply (earcutLinked_terminates 2 (Some (num 0)) (Some (num 0)) (Some (num 1))
           quad_heap [] [0; 1; 2; 3]%nat 1%nat 0%nat).
  - apply wfb_wf. vm_compute. reflexivity.
  - exact quad_ring.
  - set_solver.
  - apply flatb_flat. vm_compute. reflexivity.
  - intros Hp. done.
Defined.

(** ** The number of triangles *)

(** Twice the area of the triangle with corners [a], [b], [c] of [pts], and
    of a list of triangles. *)
Definition tri_area_x2 (pts : list (Z * Z)) (a b c : nat) : Z :=
  match pts !! a, pts !! b, pts !! c with
  | Some (ax, ay), Some (bx, by_), Some (cx, cy) =>
      Z.abs ((bx - ax) * (cy - ay) - (cx - ax) * (by_ - ay))
  | _, _, _ => 0
  end.

Fixpoint cover_x2 (pts : list (Z * Z)) (tris : list nat) : Z :=
  match tris with
  | a :: b :: c :: rest => tri_area_x2 pts a b c + cover_x2 pts rest
  | _ => 0
  end.

(** A triangle with legs of length 2^-600: the products in its signed area
    underflow to zero. *)
Definition tiny_triangle : list jsval :=
  [JNum 0%float; JNum 0%float;
   JNum 0x1p-600%float; JNum 0%float;
   JNum 0%float; JNum 0x1p-600%float].



(** ** The z-order index

    Eleven turns of an octagon, 88 vertices: enough for the z-order path. *)
Definition octagon : list jsval :=
  pt (concat (replicate 11 [0;0; 10;0; 20;10; 20;20; 10;30; 0;30; -10;20; -10;10])).

(** The state a run of [earcut] ends in. *)
Definition final_state (positions : list jsval) (fuel : nat) : state (R := jsval) :=
  match earcut_run fuel positions None 2 None (mkState [] []) with
  | Ret (_, s) => s
  | _ => mkState [] []
  end.

(** The state after [linkedList] has built the outer ring. *)
Definition outer_state (positions : list jsval) (fuel : nat) : state (R := jsval) :=
  match linkedList fuel positions 0 (Z.of_nat (length positions)) 2 true None
                   (mkState [] []) with
  | Ret (_, s) => s
  | _ => mkState [] []
  end.

(** A hundred vertices at the origin. *)
Definition origin100 : list jsval := pt (replicate 200 0).


